(** * The UTF-8 string core of the C library: common/str.c

    A shallow embedding of the stateful UTF-8 decoder, the encoder, the
    sanitizer, the bounded copy, the byte-wise comparison and the UTF-16
    transcoder of [common/str.c], and the properties the specification
    states about them; then of the functions built on these: sizes and
    lengths, the reverse decoder, comparison by characters, prefix and
    substring search, search for a character from either end, trimming,
    bounded copy of a prefix and appending, insertion into and removal
    from wide strings, and the conversions between strings, wide strings
    and UTF-16.

    Conventions of the embedding:
    - a buffer ([char *], [uint8_t *]) is a [list byte]; an access outside
      the list is undefined behaviour in C and [None] here, so a result
      [Some _] says that every access stayed inside the buffer;
    - [size_t], [char32_t], [uint16_t] and [uint8_t] values are [Z] with the
      wrap-around of each operation written out;
    - a function that updates [*offset], [*mb] or a buffer returns the new
      values next to its C return value;
    - a pointer into a buffer is the buffer and a position; a loop of the
      source is a function by recursion on [fuel], started with more fuel
      than it can use on the buffer it is given;
    - an [assert] of the source is a hypothesis of the theorems, not a part
      of the function. *)

From Stdlib Require Import ZArith Lia Bool Sorted.
From Stdlib Require Strings.Byte.
From stdpp Require Import base option list.

Open Scope Z_scope.

Abbreviation byte := Byte.byte.

(** ** Machine integers *)

(** [size_t] is 64 bits wide (the ia64 and amd64 targets). *)
Definition SIZE_MOD : Z := 18446744073709551616.
Definition SIZE_MAX : Z := SIZE_MOD - 1.
Definition PTRDIFF_MAX : Z := 9223372036854775807.

Definition u8 (z : Z) : Z := z mod 256.
Definition u16 (z : Z) : Z := z mod 65536.
Definition u32 (z : Z) : Z := z mod 4294967296.

(** Addition and subtraction in [size_t]. *)
Definition size_add (a b : Z) : Z := (a + b) mod SIZE_MOD.
Definition size_sub (a b : Z) : Z := (a - b) mod SIZE_MOD.

(** Modelled from the spec: the header's [STR_NO_LIMIT], the dedicated
    "no limit" sentinel of the API; str.h is not among the sources, the
    value is the largest [size_t]. *)
Definition STR_NO_LIMIT : Z := SIZE_MAX.

(** Modelled from the spec: the header's [U_SPECIAL], the replacement
    character; str.c documents it as the question mark. *)
Definition U_SPECIAL : Z := 0x3F.

(** [#define CHAR_INVALID ((char32_t) UINT_MAX)] *)
Definition CHAR_INVALID : Z := 0xFFFFFFFF.

Inductive errno_t : Type := EOK | EOVERFLOW | EINVAL.

Global Instance errno_eq_dec : EqDecision errno_t.
Proof. solve_decision. Defined.

(** ** Buffers *)

Definition b2z (b : byte) : Z := Z.of_N (Byte.to_N b).

(** Conversion to an 8-bit unit keeps the low eight bits. *)
Definition z2b (z : Z) : byte :=
  match Byte.of_N (Z.to_N (u8 z)) with
  | Some b => b
  | None => Byte.x00
  end.

(** [s[i]] as an unsigned byte value. *)
Definition load (s : list byte) (i : Z) : option Z :=
  if i <? 0 then None else b2z <$> s !! Z.to_nat i.

(** [s[i] = v]. *)
Definition store (s : list byte) (i : Z) (v : Z) : option (list byte) :=
  if (0 <=? i) && (i <? Z.of_nat (length s))
  then Some (<[Z.to_nat i := z2b v]> s)
  else None.

(** [a && b] where both operands read memory: [b] is evaluated only when
    [a] holds. *)
Definition and_then (a b : option bool) : option bool :=
  a ≫= λ c : bool, if c then b else Some false.

Infix "&&?" := and_then (at level 40, left associativity).

(** ** Bit masks and byte classes *)

Definition LO_MASK_8 (n : Z) : Z := u8 (Z.shiftl 1 n - 1).
Definition LO_MASK_32 (n : Z) : Z := u32 (Z.shiftl 1 n - 1).
(** [~] works on the operand promoted to [int]: the result is negative. *)
Definition HI_MASK_8 (n : Z) : Z := Z.lnot (LO_MASK_8 (8 - n)).

Definition CONT_BITS : Z := 6.

Definition UTF8_MASK_INITIAL2 : Z := 0x1F.
Definition UTF8_MASK_INITIAL3 : Z := 0x0F.
Definition UTF8_MASK_INITIAL4 : Z := 0x07.
Definition UTF8_MASK_CONT : Z := 0x3F.

Definition _is_ascii (b : Z) : bool := b <? 0x80.
Definition _is_continuation (b : Z) : bool := Z.land b 0xC0 =? 0x80.
Definition _is_2_byte (c : Z) : bool := Z.land c 0xE0 =? 0xC0.
Definition _is_3_byte (c : Z) : bool := Z.land c 0xF0 =? 0xE0.
Definition _is_4_byte (c : Z) : bool := Z.land c 0xF8 =? 0xF0.

Definition _char_continuation_bytes (c : Z) : Z :=
  if Z.land c (u32 (Z.lnot (LO_MASK_32 7))) =? 0 then 0
  else if Z.land c (u32 (Z.lnot (LO_MASK_32 11))) =? 0 then 1
  else if Z.land c (u32 (Z.lnot (LO_MASK_32 16))) =? 0 then 2
  else if Z.land c (u32 (Z.lnot (LO_MASK_32 21))) =? 0 then 3
  else -1.

Definition _continuation_bytes (b : Z) : Z :=
  if _is_ascii b then 0
  else if _is_2_byte b then 1
  else if _is_3_byte b then 2
  else if _is_4_byte b then 3
  else -1.

(** ** Decoder state *)

(** The decoder state is a single 16-bit field. *)
Record mbstate_t : Type := Mbstate { state : Z }.

Definition mb_clean : mbstate_t := Mbstate 0.

Definition _is_non_shortest (mb : mbstate_t) (b : Z) : bool :=
  ((state mb =? 0xFC00) && (Z.land b 0x20 =? 0)) ||
  ((state mb =? 0xFFF0) && (Z.land b 0x30 =? 0)).

Definition _is_surrogate (mb : mbstate_t) (b : Z) : bool :=
  (state mb =? 0xFC0D) && (0xA0 <=? b).

(** ** Decoder *)

Definition cont_at (s : list byte) (i : Z) : option bool :=
  b ← load s i; Some (_is_continuation b).

(** The loop at the end of [_str_decode]: one continuation byte per
    iteration.  Every iteration reads [s[*offset]] and advances [*offset],
    so the length of the buffer bounds the number of iterations. *)
Fixpoint decode_tail (fuel : nat) (s : list byte) (offset size : Z)
    (mb : mbstate_t) : option (Z * Z * mbstate_t) :=
  if offset <? size then
    match fuel with
    | O => None
    | S fuel' =>
      b ← load s offset;
      if negb (_is_continuation b) || _is_non_shortest mb b || _is_surrogate mb b
      then Some (CHAR_INVALID, offset, Mbstate 0)
      else if Z.land (state mb) 0x8000 =? 0
      then Some (Z.lor (Z.shiftl (state mb) 6) (Z.land b UTF8_MASK_CONT),
                 size_add offset 1, Mbstate 0)
      else decode_tail fuel' s (size_add offset 1) size
             (Mbstate (u16 (Z.lor (Z.shiftl (state mb) 6) (Z.land b UTF8_MASK_CONT))))
    end
  else Some (0, offset, mb).

(** [_str_decode(s, &offset, size, &mb)]: the result is the returned
    character, the new [*offset] and the new [*mb]. *)
Definition _str_decode (s : list byte) (offset size : Z) (mb : mbstate_t)
    : option (Z * Z * mbstate_t) :=
  if offset =? size then Some (0, offset, mb)
  else if state mb =? 0 then
    b ← load s offset;
    let offset := size_add offset 1 in
    if _is_ascii b then Some (b, offset, mb)
    else if _is_continuation b then Some (CHAR_INVALID, offset, mb)
    else if _is_2_byte b then
      if Z.land b 0x1E =? 0 then Some (CHAR_INVALID, offset, mb)
      else
        fast ← Some (offset <? size) &&? cont_at s offset;
        if (fast : bool) then
          c1 ← load s offset;
          Some (Z.lor (Z.shiftl (Z.land b UTF8_MASK_INITIAL2) 6)
                      (Z.land c1 UTF8_MASK_CONT),
                size_add offset 1, mb)
        else decode_tail (length s) s offset size (Mbstate (Z.lxor b 0x00C0))
    else if _is_3_byte b then
      fast ← Some (size_add offset 1 <? size) &&? cont_at s offset
               &&? cont_at s (size_add offset 1);
      if (fast : bool) then
        c1 ← load s offset;
        c2 ← load s (size_add offset 1);
        let ch := Z.lor (Z.lor (Z.shiftl (Z.land b UTF8_MASK_INITIAL3) 12)
                               (Z.shiftl (Z.land c1 UTF8_MASK_CONT) 6))
                        (Z.land c2 UTF8_MASK_CONT) in
        let offset := size_add offset 2 in
        if Z.land ch 0xFFFFF800 =? 0 then Some (CHAR_INVALID, offset, mb)
        else if (0xD800 <=? ch) && (ch <? 0xE000) then Some (CHAR_INVALID, offset, mb)
        else Some (ch, offset, mb)
      else decode_tail (length s) s offset size (Mbstate (Z.lxor b 0xFCE0))
    else if _is_4_byte b then
      fast ← Some (size_add offset 2 <? size) &&? cont_at s offset
               &&? cont_at s (size_add offset 1)
               &&? cont_at s (size_add offset 2);
      if (fast : bool) then
        c1 ← load s offset;
        c2 ← load s (size_add offset 1);
        c3 ← load s (size_add offset 2);
        let ch := Z.lor (Z.lor (Z.lor (Z.shiftl (Z.land b UTF8_MASK_INITIAL4) 18)
                                      (Z.shiftl (Z.land c1 UTF8_MASK_CONT) 12))
                               (Z.shiftl (Z.land c2 UTF8_MASK_CONT) 6))
                        (Z.land c3 UTF8_MASK_CONT) in
        let offset := size_add offset 3 in
        if Z.land ch 0xFFFF0000 =? 0 then Some (CHAR_INVALID, offset, mb)
        else if 0x110000 <=? ch then Some (CHAR_INVALID, offset, mb)
        else Some (ch, offset, mb)
      else decode_tail (length s) s offset size (Mbstate (Z.lxor b 0xFF00))
    else Some (CHAR_INVALID, offset, mb)
  else decode_tail (length s) s offset size mb.

(** [str_decode(str, &offset, size)]: the one-shot decoder, on a fresh
    state; the result is the returned character and the new [*offset]. *)
Definition str_decode (str : list byte) (offset size : Z) : option (Z * Z) :=
  '(ch, offset', mb) ← _str_decode str offset size mb_clean;
  if (ch =? CHAR_INVALID) || negb (state mb =? 0)
  then Some (U_SPECIAL, offset')
  else Some (ch, offset').

Definition str_decode_r (str : list byte) (offset size replacement : Z)
    (mb : mbstate_t) : option (Z * Z * mbstate_t) :=
  '(ch, offset', mb') ← _str_decode str offset size mb;
  Some (if ch =? CHAR_INVALID then replacement else ch, offset', mb').

(** The result of [mbrtoc32]: [UCHAR_ILSEQ], [UCHAR_INCOMPLETE] or a
    number of bytes. *)
Inductive mbr_result : Type :=
  | UCHAR_ILSEQ
  | UCHAR_INCOMPLETE
  | mbr_bytes (n : Z).

(** [mbrtoc32(c, s, n, mb)] with an explicit state.  [s = None] is the
    null pointer; [c_given] says whether [c] is non-null.  The result is
    the return value, the character stored through [c] (if any) and the
    new state. *)
Definition mbrtoc32 (c_given : bool) (s : option (list byte)) (n : Z)
    (mb : mbstate_t) : option (mbr_result * option Z * mbstate_t) :=
  let '(c_given, s, n) :=
    match s with
    | None => (false, [Byte.x00], 1)
    | Some s => (c_given, s, n)
    end in
  '(ret, offset, mb') ← _str_decode s 0 n mb;
  if ret =? CHAR_INVALID then Some (UCHAR_ILSEQ, None, mb')
  else if negb (state mb' =? 0) then Some (UCHAR_INCOMPLETE, None, mb')
  else Some (mbr_bytes (if ret =? 0 then 0 else offset),
             if c_given then Some ret else None, mb').

(** ** Encoder *)

Definition chr_check (ch : Z) : bool := ch <=? 1114111.

(** The loop [for (i = cbytes; i > 0; i--)] of [chr_encode]: the result is
    the buffer and the shifted [ch]. *)
Fixpoint encode_continuations (i : nat) (str : list byte) (offset ch : Z)
    : option (list byte * Z) :=
  match i with
  | O => Some (str, ch)
  | S i' =>
    str' ← store str (size_add offset (Z.of_nat i))
                 (Z.lor 0x80 (Z.land ch (LO_MASK_32 CONT_BITS)));
    encode_continuations i' str' offset (Z.shiftr ch CONT_BITS)
  end.

(** [chr_encode(ch, str, &offset, size)]: the result is the error code, the
    buffer and the new [*offset]. *)
Definition chr_encode (ch : Z) (str : list byte) (offset size : Z)
    : option (errno_t * list byte * Z) :=
  if size <=? offset then Some (EOVERFLOW, str, offset)
  else if ch <? 0x80 then
    str' ← store str offset ch;
    Some (EOK, str', size_add offset 1)
  else if negb (chr_check ch) then Some (EINVAL, str, offset)
  else
    let cbytes := u32 (_char_continuation_bytes ch) in
    let b0_bits := u32 (6 - cbytes) in
    if size <=? size_add offset cbytes then Some (EOVERFLOW, str, offset)
    else
      '(str', ch') ← encode_continuations (Z.to_nat cbytes) str offset ch;
      str'' ← store str' offset
                (Z.lor (Z.land ch' (LO_MASK_32 b0_bits))
                       (u32 (HI_MASK_8 (u32 (u32 (8 - b0_bits) - 1)))));
      Some (EOK, str'', size_add offset (u32 (cbytes + 1))).

(** ** Sanitizer *)

(** The inner loop of [_str_sanitize]: are [b[i]], ..., [b[cont]] all
    continuation bytes ([k] of them are left to look at)? *)
Fixpoint continuations_valid (k : nat) (str : list byte) (b i : Z)
    : option bool :=
  match k with
  | O => Some true
  | S k' =>
    c ← load str (b + i);
    if _is_continuation c then continuations_valid k' str b (i + 1)
    else Some false
  end.

(** The loop of [_str_sanitize]; [b] is the position of the moving pointer
    in the buffer, [n] the number of bytes left, [count] the number of
    replacements so far.  Every iteration reads [b[0]] and advances [b], so
    the length of the buffer bounds the number of iterations. *)
Fixpoint sanitize_loop (fuel : nat) (str : list byte) (b n count : Z)
    (replacement : Z) : option (list byte * Z) :=
  if 0 <? n then
    match fuel with
    | O => None
    | S fuel' =>
      b0 ← load str b;
      if b0 =? 0 then Some (str, count)
      else
        let replace :=
          str' ← store str b replacement;
          sanitize_loop fuel' str' (b + 1) (size_sub n 1) (size_add count 1)
                        replacement in
        if b0 <? 0x20 then replace
        else
          let cont := _continuation_bytes b0 in
          if cont =? 0 then
            sanitize_loop fuel' str (b + 1) (size_sub n 1) count replacement
          else if (cont <? 0) || (n <=? cont) then replace
          else
            valid ← continuations_valid (Z.to_nat cont) str b 1;
            if negb valid then replace
            else
              b1 ← load str (b + 1);
              if (cont =? 1) && (Z.land b0 0x1E =? 0) then replace
              else if (cont =? 1) && ((b0 =? 0xC2) && (b1 <? 0xA0)) then replace
              else if (cont =? 2) && (Z.land b0 0x0F =? 0) && (Z.land b1 0x20 =? 0)
              then replace
              else if (cont =? 3) && (Z.land b0 0x07 =? 0) && (Z.land b1 0x30 =? 0)
              then replace
              else if (cont =? 2) && (b0 =? 0xED) && (0xA0 <=? b1) then replace
              else if (cont =? 3) &&
                      ((0xF4 <? b0) || ((b0 =? 0xF4) && (0x90 <=? b1)))
              then replace
              else
                sanitize_loop fuel' str (b + cont + 1)
                              (size_sub (size_sub n cont) 1) count replacement
    end
  else Some (str, count).

(** [_str_sanitize(str, n, replacement)]: the result is the buffer and the
    number of replacements. *)
Definition _str_sanitize (str : list byte) (n replacement : Z)
    : option (list byte * Z) :=
  sanitize_loop (length str) str 0 n 0 replacement.

Definition str_sanitize (str : list byte) (n replacement : Z)
    : option (list byte * Z) :=
  _str_sanitize str n replacement.

(** ** Bounded copy *)

(** [while ( *src) *(dest++) = *(src++); *dest = 0;] with both pointers at
    position [i]. *)
Fixpoint cpy_loop (fuel : nat) (dest src : list byte) (i : Z)
    : option (list byte) :=
  match fuel with
  | O => None
  | S fuel' =>
    c ← load src i;
    if negb (c =? 0) then
      dest' ← store dest i c;
      cpy_loop fuel' dest' src (i + 1)
    else store dest i 0
  end.

Definition _str_cpy (dest src : list byte) : option (list byte) :=
  cpy_loop (S (length src)) dest src 0.

(** [while ( *src && dest < dest_top) *(dest++) = *(src++); *dest = 0;] *)
Fixpoint cpyn_loop (fuel : nat) (dest src : list byte) (i dest_top : Z)
    : option (list byte) :=
  match fuel with
  | O => None
  | S fuel' =>
    c ← load src i;
    if negb (c =? 0) && (i <? dest_top) then
      dest' ← store dest i c;
      cpyn_loop fuel' dest' src (i + 1) dest_top
    else store dest i 0
  end.

Definition _str_cpyn (dest : list byte) (size : Z) (src : list byte)
    : option (list byte) :=
  if size =? 0 then Some dest
  else if size =? STR_NO_LIMIT then _str_cpy dest src
  else cpyn_loop (S (length src)) dest src 0 (size - 1).

Definition str_cpy (dest : list byte) (size : Z) (src : list byte)
    : option (list byte) :=
  dest' ← _str_cpyn dest size src;
  '(dest'', _) ← _str_sanitize dest' size U_SPECIAL;
  Some dest''.

(** ** Comparison *)

(** The value of a [char] holding the byte [b]: plain [char] is a signed
    8-bit integer on the targets where [char_is_signed] holds. *)
Definition char_value (char_is_signed : bool) (b : Z) : Z :=
  if char_is_signed && (0x80 <=? b) then b - 256 else b.

Fixpoint cmp_loop (char_is_signed : bool) (fuel : nat) (s1 s2 : list byte)
    (i : Z) : option Z :=
  match fuel with
  | O => None
  | S fuel' =>
    c1 ← load s1 i;
    c2 ← load s2 i;
    if (c1 =? c2) && negb (c1 =? 0) then cmp_loop char_is_signed fuel' s1 s2 (i + 1)
    else if c1 =? c2 then Some 0
    else Some (if char_value char_is_signed c1 <? char_value char_is_signed c2
               then -1 else 1)
  end.

Definition str_cmp (char_is_signed : bool) (s1 s2 : list byte) : option Z :=
  cmp_loop char_is_signed (S (length s1)) s1 s2 0.

(** ** UTF-16 *)

Definition store16 (dest : list Z) (i : Z) (v : Z) : option (list Z) :=
  if (0 <=? i) && (i <? Z.of_nat (length dest))
  then Some (<[Z.to_nat i := u16 v]> dest)
  else None.

(** The loop of [str_to_utf16] followed by the terminator. *)
Fixpoint to_utf16_loop (fuel : nat) (dest : list Z) (dlen : Z)
    (src : list byte) (offset idx : Z) : option (errno_t * list Z) :=
  match fuel with
  | O => None
  | S fuel' =>
    '(c, offset') ← str_decode src offset STR_NO_LIMIT;
    if c =? 0 then dest' ← store16 dest idx 0; Some (EOK, dest')
    else
      let after (dest : list Z) (idx : Z) :=
        let idx := size_add idx 1 in
        if size_sub dlen 1 <=? idx
        then dest' ← store16 dest idx 0; Some (EOVERFLOW, dest')
        else to_utf16_loop fuel' dest dlen src offset' idx in
      if 0x10000 <? c then
        if size_sub dlen 1 <=? size_add idx 2
        then dest' ← store16 dest idx 0; Some (EOVERFLOW, dest')
        else
          let c := u32 (c - 0x10000) in
          dest1 ← store16 dest idx (Z.lor 0xD800 (Z.shiftr c 10));
          dest2 ← store16 dest1 (size_add idx 1) (Z.lor 0xDC00 (Z.land c 0x3FF));
          after dest2 (size_add idx 1)
      else
        dest1 ← store16 dest idx c;
        after dest1 idx
  end.

Definition str_to_utf16 (dest : list Z) (dlen : Z) (src : list byte)
    : option (errno_t * list Z) :=
  to_utf16_loop (S (length src)) dest dlen src 0 0.

(** ** Callers of the decoder *)

(** A caller that decodes the window [s[0 .. size)] by repeated calls of
    [_str_decode] on one state, as the loops of the library do: it collects
    what the calls return until the window is used up or a call reports an
    incomplete character (0 with a pending state).  A call either moves the
    offset or clears the state, so twice the window bounds the number of
    calls. *)
Fixpoint decode_window (fuel : nat) (s : list byte) (offset size : Z)
    (mb : mbstate_t) : option (list Z * Z * mbstate_t) :=
  if offset =? size then Some ([], offset, mb)
  else
    match fuel with
    | O => None
    | S fuel' =>
      '(ch, offset', mb') ← _str_decode s offset size mb;
      if (ch =? 0) && negb (state mb' =? 0) then Some ([], offset', mb')
      else
        '(l, offset'', mb'') ← decode_window fuel' s offset' size mb';
        Some (ch :: l, offset'', mb'')
    end.

(** Decoding the whole buffer with the full size available. *)
Definition decode_whole (s : list byte) : option (list Z * Z * mbstate_t) :=
  decode_window (2 * length s + 1) s 0 (Z.of_nat (length s)) mb_clean.

(** Decoding the buffer as it arrives: the windows end at [sizes], one
    after the other; offset and state persist from window to window. *)
Fixpoint decode_stream (sizes : list Z) (s : list byte) (offset : Z)
    (mb : mbstate_t) : option (list Z * Z * mbstate_t) :=
  match sizes with
  | [] => Some ([], offset, mb)
  | size :: sizes' =>
    '(l1, offset', mb') ← decode_window (2 * length s + 1) s offset size mb;
    '(l2, offset'', mb'') ← decode_stream sizes' s offset' mb';
    Some (l1 ++ l2, offset'', mb'')
  end.

(** One byte at a time: the windows end at 1, 2, ..., [length s]. *)
Definition decode_bytewise (s : list byte) : option (list Z * Z * mbstate_t) :=
  decode_stream (Z.of_nat <$> seq 1 (length s)) s 0 mb_clean.

(** The scalars of a null-terminated string, read as [str_length] and its
    siblings read them: [str_decode] with no limit until it returns 0. *)
Fixpoint str_scalars_from (fuel : nat) (s : list byte) (offset : Z)
    : option (list Z) :=
  match fuel with
  | O => None
  | S fuel' =>
    '(ch, offset') ← str_decode s offset STR_NO_LIMIT;
    if ch =? 0 then Some []
    else l ← str_scalars_from fuel' s offset'; Some (ch :: l)
  end.

Definition str_scalars (s : list byte) : option (list Z) :=
  str_scalars_from (length s) s 0.

(** The ordering of the documentation of [str_cmp]: the first position
    where the character sequences differ decides, and the shorter string is
    treated as if padded by characters with a value of zero. *)
Fixpoint scalar_cmp (l1 l2 : list Z) : Z :=
  match l1, l2 with
  | [], [] => 0
  | [], c2 :: _ => if 0 <? c2 then -1 else if c2 <? 0 then 1 else 0
  | c1 :: _, [] => if c1 <? 0 then -1 else if 0 <? c1 then 1 else 0
  | c1 :: l1', c2 :: l2' =>
    if c1 <? c2 then -1 else if c2 <? c1 then 1 else scalar_cmp l1' l2'
  end.

(** ** Well-formed strings *)

(** Decoding the window [s[offset .. size)] character by character, each
    time from a clean state, meets no invalid and no incomplete sequence,
    and every character satisfies [P]. *)
Fixpoint all_scalars (P : Z -> bool) (fuel : nat) (s : list byte)
    (offset size : Z) : bool :=
  if offset =? size then true
  else
    match fuel with
    | O => false
    | S fuel' =>
      match _str_decode s offset size mb_clean with
      | Some (ch, offset', mb') =>
        negb (ch =? CHAR_INVALID) && (state mb' =? 0) && P ch &&
        all_scalars P fuel' s offset' size
      | None => false
      end
    end.

(** A well-formed byte sequence: every maximal subsequence decodes without
    error. *)
Definition well_formed (s : list byte) : bool :=
  all_scalars (fun _ => true) (length s) s 0 (Z.of_nat (length s)).

(** The characters [_str_sanitize] replaces although they are encoded
    correctly: the C0 and C1 control codes. *)
Definition is_control (ch : Z) : bool :=
  (ch <? 0x20) || ((0x80 <=? ch) && (ch <? 0xA0)).

Definition well_formed_printable (s : list byte) : bool :=
  all_scalars (fun ch => negb (is_control ch)) (length s) s 0
              (Z.of_nat (length s)).

(** The string held by the first [n] bytes of a buffer: the bytes before
    the first null byte, at most [n] of them. *)
Fixpoint strn (s : list byte) (n : nat) : list byte :=
  match n, s with
  | S n', b :: s' => if b2z b =? 0 then [] else b :: strn s' n'
  | _, _ => []
  end.

(** ** Reference encoding *)

(** The UTF-8 code units of the scalar [ch], in arithmetic form.  This is
    not taken from str.c: [chr_encode_multibyte] shows that these are the
    bytes [chr_encode] writes. *)
Definition utf8_bytes (ch : Z) : list Z :=
  if ch <? 0x80 then [ch]
  else if ch <? 0x800 then [0xC0 + ch / 64; 0x80 + ch mod 64]
  else if ch <? 0x10000 then
    [0xE0 + ch / 4096; 0x80 + ch / 64 mod 64; 0x80 + ch mod 64]
  else
    [0xF0 + ch / 262144; 0x80 + ch / 4096 mod 64; 0x80 + ch / 64 mod 64;
     0x80 + ch mod 64].

(** A Unicode scalar value: a code point outside the surrogate range. *)
Definition is_scalar (ch : Z) : Prop :=
  0 <= ch <= 0x10FFFF /\ ~ (0xD800 <= ch <= 0xDFFF).

(** The bytes of [s] from [offset] on are the encoding of [ch]. *)
Definition utf8_at (s : list byte) (offset ch : Z) : Prop :=
  forall i, (i < length (utf8_bytes ch))%nat ->
    load s (offset + Z.of_nat i) = utf8_bytes ch !! i.

(** The null-terminated string that holds the characters [l]. *)
Definition utf8_string (l : list Z) : list byte :=
  z2b <$> (l ≫= utf8_bytes) ++ [0].

(** Byte-wise comparison of two null-terminated sequences of unsigned
    bytes; [None] when a sequence ends without a terminator. *)
Fixpoint lex_cmp (l1 l2 : list Z) : option Z :=
  match l1, l2 with
  | b1 :: l1', b2 :: l2' =>
    if (b1 =? b2) && negb (b1 =? 0) then lex_cmp l1' l2'
    else if b1 =? b2 then Some 0
    else Some (if b1 <? b2 then -1 else 1)
  | _, _ => None
  end.

(** ** Resumable decoding of well-formed text *)

(** The state [_str_decode] holds after [k] bytes of the encoding of [ch]:
    the bits read so far below a run of ones that counts the bytes still
    to come; 0 before the first byte. *)
Definition pending (ch k : Z) : Z :=
  let n := Z.of_nat (length (utf8_bytes ch)) in
  if k =? 0 then 0
  else if k =? n - 1 then ch / 64
  else if k =? n - 2 then 0xFC00 + ch / 4096
  else 0xFFF0 + ch / 262144.

(** The characters of [l], laid out from position [p] on, whose last byte
    lies in the window [(lo, hi]]. *)
Fixpoint chars_between (l : list Z) (p lo hi : Z) : list Z :=
  match l with
  | [] => []
  | c :: l' =>
    let e := p + Z.of_nat (length (utf8_bytes c)) in
    (if (lo <? e) && (e <=? hi) then [c] else []) ++ chars_between l' e lo hi
  end.

(** The decoder state at position [q] of the text [l] laid out from
    position [p] on. *)
Fixpoint state_at (l : list Z) (p q : Z) : Z :=
  match l with
  | [] => 0
  | c :: l' =>
    let e := p + Z.of_nat (length (utf8_bytes c)) in
    if q <? e then pending c (q - p) else state_at l' e q
  end.

(** ** Sizes and lengths *)

(** [while ( *str++ != 0) size++;]: [i] is the position of [str], which
    moves with [size]. *)
Fixpoint size_loop (fuel : nat) (str : list byte) (i size : Z) : option Z :=
  match fuel with
  | O => None
  | S fuel' =>
    c ← load str i;
    if negb (c =? 0) then size_loop fuel' str (i + 1) (size_add size 1)
    else Some size
  end.

Definition _str_size (str : list byte) : option Z :=
  size_loop (S (length str)) str 0 0.

Definition str_size (str : list byte) : option Z := _str_size str.

(** [while (( *str++ != 0) && (size < max_size)) size++;] *)
Fixpoint nsize_loop (fuel : nat) (str : list byte) (i size max_size : Z)
    : option Z :=
  match fuel with
  | O => None
  | S fuel' =>
    c ← load str i;
    if negb (c =? 0) && (size <? max_size)
    then nsize_loop fuel' str (i + 1) (size_add size 1) max_size
    else Some size
  end.

Definition _str_nsize (str : list byte) (max_size : Z) : option Z :=
  nsize_loop (S (length str)) str 0 0 max_size.

Definition str_nsize (str : list byte) (max_size : Z) : option Z :=
  _str_nsize str max_size.

(** [while (str_decode(str, &offset, size) != 0) len++;]  Every call that
    returns a character has read a byte of the buffer, so the length of the
    buffer bounds the number of iterations. *)
Fixpoint length_loop (fuel : nat) (str : list byte) (offset size len : Z)
    : option Z :=
  match fuel with
  | O => None
  | S fuel' =>
    '(ch, offset') ← str_decode str offset size;
    if negb (ch =? 0) then length_loop fuel' str offset' size (size_add len 1)
    else Some len
  end.

Definition str_length (str : list byte) : option Z :=
  length_loop (S (length str)) str 0 STR_NO_LIMIT 0.

Definition str_nlength (str : list byte) (size : Z) : option Z :=
  length_loop (S (length str)) str 0 size 0.

(** The loop of [str_lsize]; the result is the final [offset]. *)
Fixpoint lsize_loop (fuel : nat) (str : list byte) (max_len len offset : Z)
    : option Z :=
  if len <? max_len then
    match fuel with
    | O => None
    | S fuel' =>
      '(ch, offset') ← str_decode str offset STR_NO_LIMIT;
      if ch =? 0 then Some offset'
      else lsize_loop fuel' str max_len (size_add len 1) offset'
    end
  else Some offset.

Definition str_lsize (str : list byte) (max_len : Z) : option Z :=
  lsize_loop (S (length str)) str max_len 0 0.

(** The pending states the decoder can be in. *)
Definition pending_ok (st : Z) : Prop :=
  0 < st < 0x8000 \/ 0xFC00 <= st < 0xFE00 \/ 0xFFF0 <= st < 0xFFF8.

(** Results of a call without limit and of a call whose window ends at a
    terminator at [z]: the same, or an invalid sequence at the terminator
    on one side and an incomplete character at the end of the window on
    the other. *)
Definition same_or_cut (z : Z) (a b : option (Z * Z * mbstate_t)) : Prop :=
  a = b \/
  exists st, st <> 0 /\
    a = Some (CHAR_INVALID, z, Mbstate 0) /\ b = Some (0, z, Mbstate st).

(** ** Reverse decoder *)

(** The loop of [str_decode_reverse]; the result is the returned character
    and the new [*offset].  [cbytes < 4] bounds the iterations. *)
Fixpoint decode_reverse_loop (fuel : nat) (str : list byte)
    (offset size cbytes : Z) : option (Z * Z) :=
  if (0 <? offset) && (cbytes <? 4) then
    match fuel with
    | O => None
    | S fuel' =>
      let offset := size_sub offset 1 in
      b ← load str offset;
      if _is_continuation b
      then decode_reverse_loop fuel' str offset size (cbytes + 1)
      else if negb (cbytes =? _continuation_bytes b)
      then Some (U_SPECIAL, offset)
      else '(ch, _) ← str_decode str offset size; Some (ch, offset)
    end
  else Some (U_SPECIAL, offset).

Definition str_decode_reverse (str : list byte) (offset size : Z)
    : option (Z * Z) :=
  if offset =? 0 then Some (0, offset)
  else decode_reverse_loop 4 str offset size 0.

(** ** Comparison by characters *)

(** The loop of [str_lcmp]. *)
Fixpoint lcmp_loop (fuel : nat) (s1 s2 : list byte)
    (max_len off1 off2 len : Z) : option Z :=
  if max_len <=? len then Some 0
  else
    match fuel with
    | O => None
    | S fuel' =>
      '(c1, off1') ← str_decode s1 off1 STR_NO_LIMIT;
      '(c2, off2') ← str_decode s2 off2 STR_NO_LIMIT;
      if c1 <? c2 then Some (-1)
      else if c2 <? c1 then Some 1
      else if (c1 =? 0) || (c2 =? 0) then Some 0
      else lcmp_loop fuel' s1 s2 max_len off1' off2' (size_add len 1)
    end.

Definition str_lcmp (s1 s2 : list byte) (max_len : Z) : option Z :=
  lcmp_loop (S (length s1)) s1 s2 max_len 0 0 0.

(** ** Prefixes and search *)

(** [_test_prefix(s + si, p)]: [i] is the distance both pointers have
    moved. *)
Fixpoint test_prefix_loop (fuel : nat) (s p : list byte) (si i : Z)
    : option bool :=
  match fuel with
  | O => None
  | S fuel' =>
    a ← load s (si + i);
    b ← load p i;
    if (a =? b) && negb (a =? 0) then test_prefix_loop fuel' s p si (i + 1)
    else Some (b =? 0)
  end.

Definition _test_prefix (s : list byte) (si : Z) (p : list byte)
    : option bool :=
  test_prefix_loop (S (length p)) s p si 0.

Definition str_test_prefix (s p : list byte) : option bool :=
  _test_prefix s 0 p.

(** The loop of [str_str]; [i] is the position of [hs], the result the
    position found, if any. *)
Fixpoint str_str_loop (fuel : nat) (hs n : list byte) (i hsize nsize : Z)
    : option (option Z) :=
  if nsize <=? hsize then
    match fuel with
    | O => None
    | S fuel' =>
      t ← _test_prefix hs i n;
      if (t : bool) then Some (Some i)
      else str_str_loop fuel' hs n (i + 1) (size_sub hsize 1) nsize
    end
  else Some None.

Definition str_str (hs n : list byte) : option (option Z) :=
  hsize ← _str_size hs;
  nsize ← _str_size n;
  str_str_loop (S (length hs)) hs n 0 hsize nsize.

(** ** Search for a character *)

Definition ascii_check (ch : Z) : bool := ch <=? 127.

(** The loop of [_strchr(str + i, c)]; the result is the position found,
    if any. *)
Fixpoint strchr_loop (fuel : nat) (str : list byte) (c i : Z)
    : option (option Z) :=
  match fuel with
  | O => None
  | S fuel' =>
    b ← load str i;
    if negb (b =? 0) && negb (b =? c) then strchr_loop fuel' str c (i + 1)
    else Some (if b =? c then Some i else None)
  end.

(** The parameter [c] is a [char]: the low eight bits of the argument. *)
Definition _strchr (str : list byte) (si : Z) (c : Z) : option (option Z) :=
  strchr_loop (S (length str)) str (u8 c) si.

(** The loop at the end of [str_chr]; [i] is the position of [str]. *)
Fixpoint str_chr_loop (fuel : nat) (str utf8 : list byte) (i : Z)
    : option (option Z) :=
  match fuel with
  | O => None
  | S fuel' =>
    b ← load str i;
    if b =? 0 then Some None
    else
      u0 ← load utf8 0;
      r ← _strchr str i u0;
      match r with
      | None => Some None
      | Some j =>
        t ← _test_prefix str j utf8;
        if (t : bool) then Some (Some j)
        else str_chr_loop fuel' str utf8 (j + 1)
      end
  end.

(** [str_chr(str, ch)].  [utf8] is the local array of the function as it is
    on entry, [STR_BOUNDS(1) + 1] bytes of any content. *)
Definition str_chr (utf8 : list byte) (str : list byte) (ch : Z)
    : option (option Z) :=
  if ascii_check ch then _strchr str 0 ch
  else
    '(rc, utf8, offset) ← chr_encode ch utf8 0 (Z.of_nat (length utf8));
    match rc with
    | EOK =>
      if offset =? 0 then Some None
      else
        utf8 ← store utf8 offset 0;
        str_chr_loop (S (length str)) str utf8 0
    | _ => Some None
    end.

(** ** Bounded copy of a prefix; appending *)

(** [str_ncpy(dest, size, src, n)]; [min(size, n + 1)] is computed in
    [size_t]. *)
Definition str_ncpy (dest : list byte) (size : Z) (src : list byte) (n : Z)
    : option (list byte) :=
  dest' ← _str_cpyn dest (Z.min size (size_add n 1)) src;
  '(dest'', _) ← _str_sanitize dest' size U_SPECIAL;
  Some dest''.

(** [str_append(dest, size, src)].  The callees work on [dest + dstr_size]:
    on the bytes of the buffer from that position on. *)
Definition str_append (dest : list byte) (size : Z) (src : list byte)
    : option (list byte) :=
  dstr_size ← _str_nsize dest size;
  if dstr_size <? size then
    let rest := size_sub size dstr_size in
    tail ← _str_cpyn (drop (Z.to_nat dstr_size) dest) rest src;
    '(tail', _) ← _str_sanitize tail rest U_SPECIAL;
    Some (take (Z.to_nat dstr_size) dest ++ tail')
  else Some dest.

(** ** Wide strings *)

(** A wide string buffer ([char32_t *]) is a list of 32-bit units. *)
Definition loadw (s : list Z) (i : Z) : option Z :=
  if i <? 0 then None else u32 <$> s !! Z.to_nat i.

Definition storew (s : list Z) (i : Z) (v : Z) : option (list Z) :=
  if (0 <=? i) && (i <? Z.of_nat (length s))
  then Some (<[Z.to_nat i := u32 v]> s)
  else None.

(** [while ( *wstr++ != 0) len++;] *)
Fixpoint wlength_loop (fuel : nat) (wstr : list Z) (i len : Z) : option Z :=
  match fuel with
  | O => None
  | S fuel' =>
    c ← loadw wstr i;
    if negb (c =? 0) then wlength_loop fuel' wstr (i + 1) (size_add len 1)
    else Some len
  end.

Definition wstr_length (wstr : list Z) : option Z :=
  wlength_loop (S (length wstr)) wstr 0 0.

(** [for (i = len; i + 1 > pos; i--) str[i + 1] = str[i];] *)
Fixpoint linsert_loop (fuel : nat) (str : list Z) (i pos : Z)
    : option (list Z) :=
  if pos <? size_add i 1 then
    match fuel with
    | O => None
    | S fuel' =>
      v ← loadw str i;
      str' ← storew str (size_add i 1) v;
      linsert_loop fuel' str' (size_sub i 1) pos
    end
  else Some str.

(** [wstr_linsert(str, ch, pos, max_pos)]: the result is the return value
    and the buffer. *)
Definition wstr_linsert (str : list Z) (ch pos max_pos : Z)
    : option (bool * list Z) :=
  len ← wstr_length str;
  if (len <? pos) || (max_pos <? size_add pos 1) then Some (false, str)
  else
    str' ← linsert_loop (S (length str)) str len pos;
    str'' ← storew str' pos ch;
    Some (true, str'').

(** [for (i = pos + 1; i <= len; i++) str[i - 1] = str[i];] *)
Fixpoint remove_loop (fuel : nat) (str : list Z) (i len : Z)
    : option (list Z) :=
  if i <=? len then
    match fuel with
    | O => None
    | S fuel' =>
      v ← loadw str i;
      str' ← storew str (size_sub i 1) v;
      remove_loop fuel' str' (size_add i 1) len
    end
  else Some str.

Definition wstr_remove (str : list Z) (pos : Z) : option (bool * list Z) :=
  len ← wstr_length str;
  if len <=? pos then Some (false, str)
  else
    str' ← remove_loop (S (length str)) str (size_add pos 1) len;
    Some (true, str').

(** A wide string without its terminator: units other than null. *)
Definition wide (w : list Z) : Prop :=
  Forall (fun c => 0 < c < 4294967296) w.

(** ** Conversions between strings and wide strings *)

(** The loop of [wstr_to_str]; the result is the buffer and [dest_off]. *)
Fixpoint wstr_to_str_loop (fuel : nat) (dest : list byte) (size : Z)
    (src : list Z) (src_idx dest_off : Z) : option (list byte * Z) :=
  match fuel with
  | O => None
  | S fuel' =>
    ch ← loadw src src_idx;
    if ch =? 0 then Some (dest, dest_off)
    else
      '(rc, dest', dest_off') ← chr_encode ch dest dest_off (size_sub size 1);
      match rc with
      | EOK =>
        wstr_to_str_loop fuel' dest' size src (size_add src_idx 1) dest_off'
      | _ => Some (dest', dest_off')
      end
  end.

Definition wstr_to_str (dest : list byte) (size : Z) (src : list Z)
    : option (list byte) :=
  '(dest', dest_off) ← wstr_to_str_loop (S (length src)) dest size src 0 0;
  store dest' dest_off 0.

(** The loop of [str_to_wstr]. *)
Fixpoint to_wstr_loop (fuel : nat) (dest : list Z) (dlen : Z)
    (src : list byte) (offset di : Z) : option (list Z) :=
  if size_sub dlen 1 <=? di then Some dest
  else
    match fuel with
    | O => None
    | S fuel' =>
      '(c, offset') ← str_decode src offset STR_NO_LIMIT;
      dest' ← storew dest di c;
      if negb (c =? 0)
      then to_wstr_loop fuel' dest' dlen src offset' (size_add di 1)
      else Some dest'
    end.

Definition str_to_wstr (dest : list Z) (dlen : Z) (src : list byte)
    : option (list Z) :=
  dest' ← to_wstr_loop (S (length src)) dest dlen src 0 0;
  storew dest' (size_sub dlen 1) 0.

(** The characters [wstr_to_str] writes: those at the front of [l] that
    can be encoded and fit, one after the other, into [room] bytes. *)
Fixpoint fitting (l : list Z) (room : Z) : list Z :=
  match l with
  | [] => []
  | c :: l' =>
    let n := Z.of_nat (length (utf8_bytes c)) in
    if (c <=? 0x10FFFF) && (n <=? room) then c :: fitting l' (room - n) else []
  end.

(** ** Search for the last occurrence of a character *)

(** The loop of [_str_rchr]; [i] is the position of [str]. *)
Fixpoint rchr_loop (fuel : nat) (str : list byte) (c i : Z) (last : option Z)
    : option (option Z) :=
  match fuel with
  | O => None
  | S fuel' =>
    b ← load str i;
    if negb (b =? 0)
    then rchr_loop fuel' str c (i + 1) (if b =? c then Some i else last)
    else Some last
  end.

(** The parameter [c] is a [char]: the low eight bits of the argument. *)
Definition _str_rchr (str : list byte) (c : Z) : option (option Z) :=
  rchr_loop (S (length str)) str (u8 c) 0 None.

(** The loop of [str_rchr]; [res] is the position [res] points to, if it
    is not [NULL]. *)
Fixpoint rchr_chars_loop (fuel : nat) (str : list byte) (ch off last : Z)
    (res : option Z) : option (option Z) :=
  match fuel with
  | O => None
  | S fuel' =>
    '(acc, off') ← str_decode str off STR_NO_LIMIT;
    if negb (acc =? 0)
    then rchr_chars_loop fuel' str ch off' off'
           (if acc =? ch then Some last else res)
    else Some res
  end.

Definition str_rchr (str : list byte) (ch : Z) : option (option Z) :=
  if ascii_check ch then _str_rchr str ch
  else rchr_chars_loop (S (length str)) str ch 0 0 None.

(** ** Trimming *)

(** The loop of [_str_rtrim] and the store after it; [i] is the position of
    [str], [last] the position of [last]. *)
Fixpoint rtrim_loop (fuel : nat) (str : list byte) (c i last : Z)
    : option (list byte) :=
  match fuel with
  | O => None
  | S fuel' =>
    b ← load str i;
    if negb (b =? 0)
    then rtrim_loop fuel' str c (i + 1) (if negb (b =? c) then i else last)
    else store str (last + 1) 0
  end.

(** The parameter [c] is a [char]: the low eight bits of the argument. *)
Definition _str_rtrim (str : list byte) (c : Z) : option (list byte) :=
  rtrim_loop (S (length str)) str (u8 c) 0 0.

(** The loop of [str_rtrim] and the store after it; [last_chunk] is the
    position [last_chunk] points to, if it is not [NULL]. *)
Fixpoint rtrim_chars_loop (fuel : nat) (str : list byte) (ch off pos : Z)
    (update_last_chunk : bool) (last_chunk : option Z) : option (list byte) :=
  match fuel with
  | O => None
  | S fuel' =>
    '(c, off') ← str_decode str off STR_NO_LIMIT;
    if negb (c =? 0) then
      if negb (c =? ch) then rtrim_chars_loop fuel' str ch off' off' true None
      else if update_last_chunk
      then rtrim_chars_loop fuel' str ch off' off' false (Some pos)
      else rtrim_chars_loop fuel' str ch off' off' update_last_chunk last_chunk
    else
      match last_chunk with
      | Some p => store str p 0
      | None => Some str
      end
  end.

Definition str_rtrim (str : list byte) (ch : Z) : option (list byte) :=
  if ascii_check ch then _str_rtrim str ch
  else rtrim_chars_loop (S (length str)) str ch 0 0 true None.

(** The loop of [_str_ltrim]; the result is the position of [p]. *)
Fixpoint ltrim_loop (fuel : nat) (str : list byte) (c p : Z) : option Z :=
  match fuel with
  | O => None
  | S fuel' =>
    b ← load str p;
    if b =? c then ltrim_loop fuel' str c (p + 1) else Some p
  end.

(** [_str_cpy(str + d, str + s)] with both pointers into the same buffer:
    each byte is read from the buffer as the stores before it have left
    it. *)
Fixpoint cpy_within_loop (fuel : nat) (str : list byte) (d s : Z)
    : option (list byte) :=
  match fuel with
  | O => None
  | S fuel' =>
    c ← load str s;
    if negb (c =? 0) then
      str' ← store str d c;
      cpy_within_loop fuel' str' (d + 1) (s + 1)
    else store str d 0
  end.

(** The parameter [c] is a [char]: the low eight bits of the argument. *)
Definition _str_ltrim (str : list byte) (c : Z) : option (list byte) :=
  p ← ltrim_loop (S (length str)) str (u8 c) 0;
  if negb (p =? 0) then cpy_within_loop (S (length str)) str 0 p
  else Some str.

(** The loop of [str_ltrim]; the result is [pos]. *)
Fixpoint ltrim_chars_loop (fuel : nat) (str : list byte) (ch off pos : Z)
    : option Z :=
  match fuel with
  | O => None
  | S fuel' =>
    '(acc, off') ← str_decode str off STR_NO_LIMIT;
    if negb (acc =? 0) then
      if negb (acc =? ch) then Some pos
      else ltrim_chars_loop fuel' str ch off' off'
    else Some pos
  end.

(** [memmove(str + d, str + s, n)] inside one buffer, with the meaning the
    C standard gives it: the [n] bytes from position [s] on, as they were
    before the call, end up at position [d]. *)
Definition memmove_within (str : list byte) (d s n : Z) : option (list byte) :=
  if (0 <=? d) && (0 <=? s) && (0 <=? n) &&
     (d + n <=? Z.of_nat (length str)) && (s + n <=? Z.of_nat (length str))
  then Some (take (Z.to_nat d) str ++
             take (Z.to_nat n) (drop (Z.to_nat s) str) ++
             drop (Z.to_nat (d + n)) str)
  else None.

Definition str_ltrim (str : list byte) (ch : Z) : option (list byte) :=
  if ascii_check ch then _str_ltrim str ch
  else
    str_sz ← str_size str;
    pos ← ltrim_chars_loop (S (length str)) str ch 0 0;
    if 0 <? pos then
      str' ← memmove_within str 0 pos (size_sub str_sz pos);
      store str' (size_sub str_sz pos) 0
    else Some str.

(** ** UTF-16 to UTF-8 *)

(** A UTF-16 buffer ([uint16_t *]) is a list of 16-bit units. *)
Definition load16 (s : list Z) (i : Z) : option Z :=
  if i <? 0 then None else u16 <$> s !! Z.to_nat i.

(** The loop of [utf16_to_str]; the result is [rc], the buffer and
    [dest_off]. *)
Fixpoint utf16_to_str_loop (fuel : nat) (dest : list byte) (size : Z)
    (src : list Z) (idx dest_off : Z) (rc : errno_t)
    : option (errno_t * list byte * Z) :=
  match fuel with
  | O => None
  | S fuel' =>
    u ← load16 src idx;
    if u =? 0 then Some (rc, dest, dest_off)
    else
      let encode (ch idx : Z) :=
        '(rc', dest', dest_off') ← chr_encode ch dest dest_off (size_sub size 1);
        match rc' with
        | EOK => utf16_to_str_loop fuel' dest' size src idx dest_off' rc'
        | _ => Some (rc', dest', dest_off')
        end in
      if Z.land u 0xFC00 =? 0xD800 then
        u2 ← load16 src (size_add idx 1);
        if negb (u2 =? 0) && (Z.land u2 0xFC00 =? 0xDC00) then
          encode (u32 (u32 (0x10000 + Z.shiftl (Z.land u 0x03FF) 10) +
                       Z.land u2 0x03FF))
                 (size_add idx 2)
        else Some (rc, dest, dest_off)
      else encode u (size_add idx 1)
  end.

Definition utf16_to_str (dest : list byte) (size : Z) (src : list Z)
    : option (errno_t * list byte) :=
  '(rc, dest', dest_off) ← utf16_to_str_loop (S (length src)) dest size src 0 0 EOK;
  dest'' ← store dest' dest_off 0;
  Some (rc, dest'').

(** The UTF-16 encoding of a scalar. *)
Definition utf16_units (c : Z) : list Z :=
  if c <? 0x10000 then [c]
  else [0xD800 + (c - 0x10000) / 1024; 0xDC00 + (c - 0x10000) mod 1024].

(** ** Suffix of a string *)

(** The loop of [str_suffix]: the body runs before the test.  The result
    is the final [off]. *)
Fixpoint suffix_loop (fuel : nat) (s : list byte) (prefix_length off i : Z)
    : option Z :=
  match fuel with
  | O => None
  | S fuel' =>
    '(_, off') ← str_decode s off STR_NO_LIMIT;
    let i := size_add i 1 in
    if prefix_length <=? i then Some off'
    else suffix_loop fuel' s prefix_length off' i
  end.

Definition str_suffix (s : list byte) (prefix_length : Z) : option Z :=
  suffix_loop (S (length s)) s prefix_length 0 0.

(** * Properties *)

Ltac zlia := Z.to_euclidean_division_equations; lia.

Arguments size_add : simpl never.
Arguments size_sub : simpl never.
Arguments u8 : simpl never.
Arguments u16 : simpl never.
Arguments u32 : simpl never.
Arguments load : simpl never.
Arguments store : simpl never.
Arguments store16 : simpl never.
Arguments b2z : simpl never.
Arguments z2b : simpl never.
Arguments Z.mul : simpl never.
Arguments Z.add : simpl never.
Arguments Z.sub : simpl never.
Arguments Z.modulo : simpl never.
Arguments Z.div : simpl never.
Arguments Z.land : simpl never.
Arguments Z.lor : simpl never.
Arguments Z.lxor : simpl never.
Arguments Z.shiftl : simpl never.
Arguments Z.shiftr : simpl never.
Arguments Z.of_nat : simpl never.
Arguments Z.to_nat : simpl never.

Ltac case_cmp :=
  repeat match goal with
  | |- context [?a =? ?b] => destruct (Z.eqb_spec a b)
  | |- context [?a <? ?b] => destruct (Z.ltb_spec a b)
  | |- context [?a <=? ?b] => destruct (Z.leb_spec a b)
  end.

(** ** Bytes and buffers *)

Lemma b2z_range b : 0 <= b2z b < 256.
Proof.
  unfold b2z. pose proof (Byte.to_N_bounded b). lia.
Qed.

Lemma b2z_z2b z : b2z (z2b z) = z mod 256.
Proof.
  unfold z2b, b2z, u8.
  destruct (Byte.of_N (Z.to_N (z mod 256))) as [b|] eqn:E.
  - apply Byte.to_of_N in E. rewrite E. zlia.
  - apply Byte.of_N_None_iff in E. zlia.
Qed.

Lemma z2b_b2z b : z2b (b2z b) = b.
Proof.
  unfold z2b, b2z, u8.
  pose proof (Byte.to_N_bounded b).
  rewrite Z.mod_small by lia. rewrite N2Z.id, Byte.of_to_N. reflexivity.
Qed.

Lemma load_Some s i v :
  load s i = Some v -> 0 <= i < Z.of_nat (length s) /\ 0 <= v < 256.
Proof.
  unfold load. destruct (Z.ltb_spec i 0); [discriminate|].
  destruct (s !! Z.to_nat i) as [b|] eqn:E; [|discriminate].
  intros [= <-]. apply lookup_lt_Some in E. pose proof (b2z_range b). lia.
Qed.

Lemma load_is_Some s i :
  0 <= i < Z.of_nat (length s) -> exists v, load s i = Some v /\ 0 <= v < 256.
Proof.
  intros Hi. unfold load. destruct (Z.ltb_spec i 0); [lia|].
  destruct (lookup_lt_is_Some_2 s (Z.to_nat i)) as [b Hb]; [lia|].
  rewrite Hb. exists (b2z b). split; [reflexivity|apply b2z_range].
Qed.

Lemma load_None s i : Z.of_nat (length s) <= i -> load s i = None.
Proof.
  intros Hi. unfold load. destruct (Z.ltb_spec i 0); [reflexivity|].
  rewrite lookup_ge_None_2 by lia. reflexivity.
Qed.

Lemma store_is_Some s i v :
  0 <= i < Z.of_nat (length s) -> exists s', store s i v = Some s'.
Proof.
  intros Hi. unfold store.
  destruct (Z.leb_spec 0 i), (Z.ltb_spec i (Z.of_nat (length s))); try lia.
  eauto.
Qed.

Lemma store_Some s i v s' :
  store s i v = Some s' ->
  0 <= i < Z.of_nat (length s) /\ length s' = length s /\
  forall j, load s' j = if j =? i then Some (v mod 256) else load s j.
Proof.
  unfold store.
  destruct (Z.leb_spec 0 i), (Z.ltb_spec i (Z.of_nat (length s)));
    simpl; try discriminate.
  intros [= <-]. split; [lia|]. split; [apply length_insert|].
  intros j. unfold load. destruct (Z.ltb_spec j 0).
  - destruct (Z.eqb_spec j i); [lia|reflexivity].
  - destruct (Z.eqb_spec j i) as [->|Hne].
    + rewrite list_lookup_insert_eq by lia. simpl. by rewrite b2z_z2b.
    + rewrite list_lookup_insert_ne by lia. reflexivity.
Qed.

(** ** Bit operations as arithmetic *)

(** A mask of the bits [k] to [j-1] keeps exactly those bits. *)
Lemma land_midmask c j k :
  0 <= k <= j -> Z.land c (2 ^ j - 2 ^ k) = (c mod 2 ^ j) / 2 ^ k * 2 ^ k.
Proof.
  intros Hkj.
  rewrite <- Z.land_ones, <- Z.shiftr_div_pow2, <- Z.shiftl_mul_pow2 by lia.
  replace (2 ^ j - 2 ^ k) with (Z.shiftl (Z.ones (j - k)) k).
  2:{ rewrite Z.shiftl_mul_pow2, Z.ones_equiv by lia.
      rewrite <- Z.sub_1_r, Z.mul_sub_distr_r, <- Z.pow_add_r by lia.
      f_equal. f_equal. lia. lia. }
  apply Z.bits_inj'. intros i Hi.
  rewrite Z.land_spec.
  destruct (Z.ltb_spec i k).
  - rewrite !Z.shiftl_spec_low by lia. apply andb_false_r.
  - rewrite !Z.shiftl_spec, Z.shiftr_spec, Z.land_spec by lia.
    replace (i - k + k) with i by lia. f_equal.
    rewrite !Z.testbit_ones by lia.
    destruct (Z.ltb_spec (i - k) (j - k)), (Z.ltb_spec i j),
      (Z.leb_spec 0 (i - k)), (Z.leb_spec 0 i); simpl; auto; lia.
Qed.

Lemma lor_shiftl_add x y k :
  0 <= k -> 0 <= y < 2 ^ k -> Z.lor (Z.shiftl x k) y = x * 2 ^ k + y.
Proof.
  intros Hk Hy. rewrite <- Z.shiftl_mul_pow2 by lia.
  symmetry. apply Z.add_nocarry_lor.
  apply Z.bits_inj'. intros i Hi. rewrite Z.land_spec, Z.bits_0.
  destruct (Z.ltb_spec i k).
  - rewrite Z.shiftl_spec_low by lia. reflexivity.
  - destruct (Z.eq_dec y 0) as [->|Hy0].
    + rewrite Z.bits_0. apply andb_false_r.
    + rewrite (Z.bits_above_log2 y i), andb_false_r; [reflexivity|lia|].
      apply Z.log2_lt_pow2; [lia|].
      eapply Z.lt_le_trans; [apply Hy|]. apply Z.pow_le_mono_r; lia.
Qed.

Lemma lor_add_disjoint a y k :
  0 <= k -> 0 <= y < 2 ^ k -> a mod 2 ^ k = 0 -> Z.lor a y = a + y.
Proof.
  intros Hk Hy Ha.
  assert (0 < 2 ^ k) by (apply Z.pow_pos_nonneg; lia).
  assert (E : a = a / 2 ^ k * 2 ^ k) by (pose proof (Z.div_mod a (2 ^ k)); lia).
  rewrite E at 1. rewrite <- Z.shiftl_mul_pow2 by lia.
  rewrite lor_shiftl_add by lia. lia.
Qed.

(** The masks of str.c. *)
Lemma land_3F c : Z.land c 0x3F = c mod 64.
Proof. exact (Z.land_ones c 6 ltac:(lia)). Qed.
Lemma land_1F c : Z.land c 0x1F = c mod 32.
Proof. exact (Z.land_ones c 5 ltac:(lia)). Qed.
Lemma land_0F c : Z.land c 0x0F = c mod 16.
Proof. exact (Z.land_ones c 4 ltac:(lia)). Qed.
Lemma land_07 c : Z.land c 0x07 = c mod 8.
Proof. exact (Z.land_ones c 3 ltac:(lia)). Qed.
Lemma land_3FF c : Z.land c 0x3FF = c mod 1024.
Proof. exact (Z.land_ones c 10 ltac:(lia)). Qed.
Lemma land_C0 c : Z.land c 0xC0 = c mod 256 / 64 * 64.
Proof. exact (land_midmask c 8 6 ltac:(lia)). Qed.
Lemma land_E0 c : Z.land c 0xE0 = c mod 256 / 32 * 32.
Proof. exact (land_midmask c 8 5 ltac:(lia)). Qed.
Lemma land_F0 c : Z.land c 0xF0 = c mod 256 / 16 * 16.
Proof. exact (land_midmask c 8 4 ltac:(lia)). Qed.
Lemma land_F8 c : Z.land c 0xF8 = c mod 256 / 8 * 8.
Proof. exact (land_midmask c 8 3 ltac:(lia)). Qed.
Lemma land_1E c : Z.land c 0x1E = c mod 32 / 2 * 2.
Proof. exact (land_midmask c 5 1 ltac:(lia)). Qed.
Lemma land_20 c : Z.land c 0x20 = c mod 64 / 32 * 32.
Proof. exact (land_midmask c 6 5 ltac:(lia)). Qed.
Lemma land_30 c : Z.land c 0x30 = c mod 64 / 16 * 16.
Proof. exact (land_midmask c 6 4 ltac:(lia)). Qed.
Lemma land_8000 c : Z.land c 0x8000 = c mod 65536 / 32768 * 32768.
Proof. exact (land_midmask c 16 15 ltac:(lia)). Qed.
Lemma land_FFFFF800 c : Z.land c 0xFFFFF800 = c mod 4294967296 / 2048 * 2048.
Proof. exact (land_midmask c 32 11 ltac:(lia)). Qed.
Lemma land_FFFF0000 c : Z.land c 0xFFFF0000 = c mod 4294967296 / 65536 * 65536.
Proof. exact (land_midmask c 32 16 ltac:(lia)). Qed.
Lemma land_FFFFFF80 c : Z.land c 0xFFFFFF80 = c mod 4294967296 / 128 * 128.
Proof. exact (land_midmask c 32 7 ltac:(lia)). Qed.
Lemma land_FFE00000 c : Z.land c 0xFFE00000 = c mod 4294967296 / 2097152 * 2097152.
Proof. exact (land_midmask c 32 21 ltac:(lia)). Qed.

Lemma shiftl_6 x : Z.shiftl x 6 = x * 64.
Proof. exact (Z.shiftl_mul_pow2 x 6 ltac:(lia)). Qed.
Lemma shiftl_12 x : Z.shiftl x 12 = x * 4096.
Proof. exact (Z.shiftl_mul_pow2 x 12 ltac:(lia)). Qed.
Lemma shiftl_18 x : Z.shiftl x 18 = x * 262144.
Proof. exact (Z.shiftl_mul_pow2 x 18 ltac:(lia)). Qed.
Lemma shiftr_6 x : Z.shiftr x 6 = x / 64.
Proof. exact (Z.shiftr_div_pow2 x 6 ltac:(lia)). Qed.
Lemma shiftr_10 x : Z.shiftr x 10 = x / 1024.
Proof. exact (Z.shiftr_div_pow2 x 10 ltac:(lia)). Qed.

Lemma lor_6 x y : 0 <= y < 64 -> Z.lor (x * 64) y = x * 64 + y.
Proof.
  intros Hy. change (x * 64) with (x * 2 ^ 6).
  rewrite <- (lor_shiftl_add x y 6); [|lia|exact Hy].
  by rewrite Z.shiftl_mul_pow2.
Qed.

Create Rewrite HintDb bits.

#[global] Hint Rewrite land_3F land_1F land_0F land_07 land_3FF land_C0 land_E0
  land_F0 land_F8 land_1E land_20 land_30 land_8000 land_FFFFF800
  land_FFFF0000 land_FFFFFF80 land_FFE00000 shiftl_6 shiftl_12 shiftl_18
  shiftr_6 shiftr_10 : bits.

(** ** Encoder *)

Lemma size_add_small a b :
  0 <= a + b < SIZE_MOD -> size_add a b = a + b.
Proof. intros H. unfold size_add. apply Z.mod_small. exact H. Qed.

Lemma size_sub_small a b :
  0 <= a - b < SIZE_MOD -> size_sub a b = a - b.
Proof. intros H. unfold size_sub. apply Z.mod_small. exact H. Qed.

Lemma char_continuation_bytes_spec ch :
  0 <= ch < 4294967296 ->
  _char_continuation_bytes ch =
    if ch <? 0x80 then 0 else if ch <? 0x800 then 1
    else if ch <? 0x10000 then 2 else if ch <? 0x200000 then 3 else -1.
Proof.
  intros Hch. unfold _char_continuation_bytes.
  change (u32 (Z.lnot (LO_MASK_32 7))) with 0xFFFFFF80.
  change (u32 (Z.lnot (LO_MASK_32 11))) with 0xFFFFF800.
  change (u32 (Z.lnot (LO_MASK_32 16))) with 0xFFFF0000.
  change (u32 (Z.lnot (LO_MASK_32 21))) with 0xFFE00000.
  autorewrite with bits.
  repeat match goal with
  | |- context [?a =? ?b] => destruct (Z.eqb_spec a b)
  | |- context [?a <? ?b] => destruct (Z.ltb_spec a b)
  end; try reflexivity; zlia.
Qed.

Ltac nat_lits :=
  change (Z.to_nat 0) with 0%nat; change (Z.to_nat 1) with 1%nat;
  change (Z.to_nat 2) with 2%nat; change (Z.to_nat 3) with 3%nat.

Lemma lor_80 y : 0 <= y < 64 -> Z.lor 0x80 y = 0x80 + y.
Proof. intros. apply (lor_add_disjoint 0x80 y 6); [lia|assumption|reflexivity]. Qed.

Lemma lor_leader y a k :
  0 <= k -> 0 <= y < 2 ^ k -> a mod 2 ^ k = 0 -> Z.lor y a = a + y.
Proof. intros. rewrite Z.lor_comm. by apply (lor_add_disjoint a y k). Qed.


Lemma encode_continuations_spec i str offset ch :
  0 <= offset -> offset + Z.of_nat i < Z.of_nat (length str) ->
  Z.of_nat (length str) <= PTRDIFF_MAX ->
  exists str',
    encode_continuations i str offset ch = Some (str', ch / 64 ^ Z.of_nat i) /\
    length str' = length str /\
    forall j, load str' j =
      if (offset <? j) && (j <=? offset + Z.of_nat i)
      then Some (0x80 + ch / 64 ^ (offset + Z.of_nat i - j) mod 64)
      else load str j.
Proof.
  unfold PTRDIFF_MAX. revert str ch.
  induction i as [|i IH]; intros str ch Hoff Hi Hlen.
  - exists str. simpl. rewrite Z.div_1_r. repeat split.
    intros j. case_cmp; simpl; try reflexivity; lia.
  - cbn [encode_continuations].
    change (LO_MASK_32 CONT_BITS) with 0x3F. change CONT_BITS with 6.
    rewrite size_add_small by (unfold SIZE_MOD; lia).
    autorewrite with bits. rewrite lor_80 by zlia.
    destruct (store_is_Some str (offset + Z.of_nat (S i)) (128 + ch mod 64))
      as [s1 Hs1]; [lia|].
    rewrite Hs1. cbn [mbind option_bind].
    apply store_Some in Hs1 as (_ & Hl1 & Hs1).
    destruct (IH s1 (ch / 64)) as (s2 & E & Hl2 & Hs2); [lia..|].
    exists s2. rewrite E. split.
    + f_equal. f_equal. rewrite Nat2Z.inj_succ, Z.pow_succ_r by lia.
      rewrite Z.div_div by lia. reflexivity.
    + split; [congruence|]. intros j. rewrite Hs2, Hs1.
      destruct (Z.eqb_spec j (offset + Z.of_nat (S i))) as [->|Hne].
      * destruct (Z.ltb_spec offset (offset + Z.of_nat (S i))); [|lia].
        destruct (Z.leb_spec (offset + Z.of_nat (S i)) (offset + Z.of_nat i)); [lia|].
        destruct (Z.leb_spec (offset + Z.of_nat (S i)) (offset + Z.of_nat (S i))); [|lia].
        simpl. rewrite Z.sub_diag. simpl. f_equal. zlia.
      * destruct (Z.ltb_spec offset j), (Z.leb_spec j (offset + Z.of_nat i)),
          (Z.leb_spec j (offset + Z.of_nat (S i))); simpl; try reflexivity; try lia.
        f_equal. f_equal. f_equal.
        replace (offset + Z.of_nat (S i) - j) with (Z.succ (offset + Z.of_nat i - j)) by lia.
        rewrite Z.pow_succ_r by lia. rewrite Z.div_div by (try apply Z.pow_pos_nonneg; lia).
        reflexivity.
Qed.

Lemma utf8_bytes_length ch :
  Z.of_nat (length (utf8_bytes ch)) =
    if ch <? 0x80 then 1 else if ch <? 0x800 then 2
    else if ch <? 0x10000 then 3 else 4.
Proof. unfold utf8_bytes. case_cmp; reflexivity. Qed.

Lemma chr_encode_overflow ch str offset size :
  0 <= ch < 4294967296 -> 0 <= offset -> size <= PTRDIFF_MAX ->
  size <= offset \/
    (ch <= 0x10FFFF /\ size < offset + Z.of_nat (length (utf8_bytes ch))) ->
  chr_encode ch str offset size = Some (EOVERFLOW, str, offset).
Proof.
  unfold PTRDIFF_MAX. intros Hch Hoff Hsize H.
  rewrite utf8_bytes_length in H.
  unfold chr_encode, chr_check.
  rewrite char_continuation_bytes_spec by lia.
  destruct (Z.leb_spec size offset); [reflexivity|].
  destruct H as [H|[Hle H]]; [lia|].
  destruct (Z.ltb_spec ch 0x80); [lia|].
  destruct (Z.leb_spec ch 1114111); [|lia]. cbn [negb].
  destruct (Z.ltb_spec ch 0x800); [|destruct (Z.ltb_spec ch 0x10000);
    [|destruct (Z.ltb_spec ch 0x200000); [|lia]]].
  all: match goal with |- context [size_add _ (u32 ?k)] =>
         change (u32 k) with k end.
  all: rewrite size_add_small by (unfold SIZE_MOD; lia).
  all: match goal with |- context [?sz <=? ?x] =>
         destruct (Z.leb_spec sz x); [reflexivity|lia] end.
Qed.

Lemma chr_encode_invalid ch str offset size :
  0x10FFFF < ch -> offset < size ->
  chr_encode ch str offset size = Some (EINVAL, str, offset).
Proof.
  intros Hch Hoff. unfold chr_encode, chr_check.
  destruct (Z.leb_spec size offset); [lia|].
  destruct (Z.ltb_spec ch 0x80); [lia|].
  destruct (Z.leb_spec ch 1114111); [lia|reflexivity].
Qed.

Lemma chr_encode_ok ch str offset size :
  0 <= ch <= 0x10FFFF -> 0 <= offset ->
  offset + Z.of_nat (length (utf8_bytes ch)) <= size ->
  size <= Z.of_nat (length str) -> Z.of_nat (length str) <= PTRDIFF_MAX ->
  exists str',
    chr_encode ch str offset size =
      Some (EOK, str', offset + Z.of_nat (length (utf8_bytes ch))) /\
    length str' = length str /\
    forall j, load str' j =
      if (offset <=? j) && (j <? offset + Z.of_nat (length (utf8_bytes ch)))
      then utf8_bytes ch !! Z.to_nat (j - offset) else load str j.
Proof.
  intros Hch Hoff Hfit Hsize Hlen.
  pose proof Hlen as Hlen'. unfold PTRDIFF_MAX in Hlen'.
  rewrite utf8_bytes_length in *.
  unfold chr_encode, chr_check.
  rewrite char_continuation_bytes_spec by lia.
  destruct (Z.leb_spec size offset); [case_cmp; lia|].
  destruct (Z.ltb_spec ch 0x80).
  { destruct (store_is_Some str offset ch) as [s1 Hs1]; [lia|].
    rewrite Hs1. cbn [mbind option_bind].
    rewrite size_add_small by (unfold SIZE_MOD; lia).
    apply store_Some in Hs1 as (_ & Hl1 & Hs1).
    exists s1. split; [done|]. split; [done|]. intros j. rewrite Hs1.
    unfold utf8_bytes. destruct (Z.ltb_spec ch 128); [|lia].
    destruct (Z.leb_spec offset j), (Z.ltb_spec j (offset + 1)),
      (Z.eqb_spec j offset) as [->|]; cbn [andb]; try lia; try reflexivity.
    rewrite Z.sub_diag. nat_lits. cbn. f_equal. zlia. }
  destruct (Z.leb_spec ch 1114111); [|lia]. cbn [negb].
  set (k := if ch <? 2048 then 1 else if ch <? 65536 then 2 else 3).
  assert (Hk : 1 <= k <= 3 /\ (if ch <? 2048 then 2 else if ch <? 65536 then 3 else 4) = k + 1)
    by (subst k; case_cmp; lia).
  destruct Hk as [Hk Hk']. rewrite Hk' in *.
  replace (if ch <? 2048 then 1 else if ch <? 65536 then 2 else if ch <? 2097152 then 3 else -1)
    with k by (subst k; case_cmp; lia).
  assert (Eu : forall z, 0 <= z < 4294967296 -> u32 z = z)
    by (intros; unfold u32; apply Z.mod_small; lia).
  rewrite !(Eu k), !(Eu (6 - k)), !(Eu (8 - (6 - k))), !(Eu (8 - (6 - k) - 1)),
    !(Eu (k + 1)) by lia.
  rewrite !size_add_small by (unfold SIZE_MOD; lia).
  destruct (Z.leb_spec size (offset + k)); [lia|].
  destruct (encode_continuations_spec (Z.to_nat k) str offset ch)
    as (s1 & E1 & Hl1 & Hs1); [lia..|].
  rewrite Z2Nat.id in * by lia.
  rewrite E1. cbn [mbind option_bind].
  match goal with |- context [store s1 offset ?v] =>
    destruct (store_is_Some s1 offset v) as [s2 Hs2]; [lia|]; rewrite Hs2 end.
  cbn [mbind option_bind].
  apply store_Some in Hs2 as (_ & Hl2 & Hs2).
  exists s2. split; [reflexivity|]. split; [congruence|].
  intros j. rewrite Hs2, Hs1. clear Hs1 Hs2 E1.
  unfold utf8_bytes.
  destruct (Z.ltb_spec ch 128); [lia|].
  assert (Hcases : (k = 1 /\ ch < 2048) \/ (k = 2 /\ 2048 <= ch < 65536) \/
                   (k = 3 /\ 65536 <= ch)) by (subst k; case_cmp; lia).
  clearbody k.
  destruct Hcases as [[-> Hc]|[[-> Hc]|[-> Hc]]].
  - destruct (Z.ltb_spec ch 2048); [|lia].
    change (LO_MASK_32 (6 - 1)) with 0x1F.
    change (u32 (HI_MASK_8 (8 - (6 - 1) - 1))) with 0xFFFFFFC0.
    change (64 ^ 1) with 64. autorewrite with bits.
    rewrite (lor_leader _ _ 6) by (try reflexivity; zlia).
    assert (Hj : j < offset \/ j = offset \/ j = offset + 1 \/ offset + 2 <= j) by lia.
    destruct Hj as [Hj|[->|[->|Hj]]]; case_cmp; cbn [andb]; try lia; try reflexivity.
    + rewrite Z.sub_diag. nat_lits. cbn. f_equal. zlia.
    + replace (offset + 1 - offset) with 1 by lia. nat_lits. cbn. f_equal.
      replace (offset + 1 - (offset + 1)) with 0 by lia. cbn. zlia.
  - destruct (Z.ltb_spec ch 2048); [lia|]. destruct (Z.ltb_spec ch 65536); [|lia].
    change (LO_MASK_32 (6 - 2)) with 0x0F.
    change (u32 (HI_MASK_8 (8 - (6 - 2) - 1))) with 0xFFFFFFE0.
    change (64 ^ 2) with 4096. autorewrite with bits.
    rewrite (lor_leader _ _ 5) by (try reflexivity; zlia).
    assert (Hj : j < offset \/ j = offset \/ j = offset + 1 \/ j = offset + 2 \/
                 offset + 3 <= j) by lia.
    destruct Hj as [Hj|[->|[->|[->|Hj]]]]; case_cmp; cbn [andb]; try lia; try reflexivity.
    + rewrite Z.sub_diag. nat_lits. cbn. f_equal. zlia.
    + replace (offset + 1 - offset) with 1 by lia. nat_lits. cbn. f_equal.
      replace (offset + 2 - (offset + 1)) with 1 by lia. cbn. zlia.
    + replace (offset + 2 - offset) with 2 by lia. nat_lits. cbn. f_equal.
      replace (offset + 2 - (offset + 2)) with 0 by lia. cbn. zlia.
  - destruct (Z.ltb_spec ch 2048); [lia|]. destruct (Z.ltb_spec ch 65536); [lia|].
    change (LO_MASK_32 (6 - 3)) with 0x07.
    change (u32 (HI_MASK_8 (8 - (6 - 3) - 1))) with 0xFFFFFFF0.
    change (64 ^ 3) with 262144. autorewrite with bits.
    rewrite (lor_leader _ _ 4) by (try reflexivity; zlia).
    assert (Hj : j < offset \/ j = offset \/ j = offset + 1 \/ j = offset + 2 \/
                 j = offset + 3 \/ offset + 4 <= j) by lia.
    destruct Hj as [Hj|[->|[->|[->|[->|Hj]]]]]; case_cmp; cbn [andb]; try lia; try reflexivity.
    + rewrite Z.sub_diag. nat_lits. cbn. f_equal. zlia.
    + replace (offset + 1 - offset) with 1 by lia. nat_lits. cbn. f_equal.
      replace (offset + 3 - (offset + 1)) with 2 by lia. cbn. zlia.
    + replace (offset + 2 - offset) with 2 by lia. nat_lits. cbn. f_equal.
      replace (offset + 3 - (offset + 2)) with 1 by lia. cbn. zlia.
    + replace (offset + 3 - offset) with 3 by lia. nat_lits. cbn. f_equal.
      replace (offset + 3 - (offset + 3)) with 0 by lia. cbn. zlia.
Qed.

(** C7: [chr_encode] is atomic on failure.  When it returns [EOVERFLOW] or
    [EINVAL] the buffer and the offset are unchanged.  On [EOK] the offset
    has advanced by the number of bytes written, between 1 and 4: these
    bytes are the encoding of [ch], they lie below [size], and no other
    byte of the buffer has changed. *)
Theorem chr_encode_atomic ch str offset size :
  0 <= ch < 4294967296 -> 0 <= offset ->
  size <= Z.of_nat (length str) -> Z.of_nat (length str) <= PTRDIFF_MAX ->
  exists rc str' offset',
    chr_encode ch str offset size = Some (rc, str', offset') /\
    (rc <> EOK -> str' = str /\ offset' = offset) /\
    (rc = EOK ->
       1 <= offset' - offset <= 4 /\ offset' <= size /\
       offset' - offset = Z.of_nat (length (utf8_bytes ch)) /\
       length str' = length str /\
       (forall j, offset <= j < offset' ->
          load str' j = utf8_bytes ch !! Z.to_nat (j - offset)) /\
       (forall j, j < offset \/ offset' <= j -> load str' j = load str j)).
Proof.
  intros Hch Hoff Hsize Hlen.
  destruct (Z.le_gt_cases size offset) as [Hfull|Hroom].
  { exists EOVERFLOW, str, offset.
    rewrite chr_encode_overflow by (unfold PTRDIFF_MAX in *; lia || auto).
    split; [reflexivity|]. split; [auto|discriminate]. }
  destruct (Z.lt_ge_cases 0x10FFFF ch) as [Hbig|Hok].
  { exists EINVAL, str, offset. rewrite chr_encode_invalid by lia.
    split; [reflexivity|]. split; [auto|discriminate]. }
  destruct (Z.lt_ge_cases size (offset + Z.of_nat (length (utf8_bytes ch))))
    as [Hshort|Hfit].
  { exists EOVERFLOW, str, offset.
    rewrite chr_encode_overflow by (unfold PTRDIFF_MAX in *; lia || auto).
    split; [reflexivity|]. split; [auto|discriminate]. }
  destruct (chr_encode_ok ch str offset size) as (str' & E & Hl & Hld);
    [lia..|].
  exists EOK, str', (offset + Z.of_nat (length (utf8_bytes ch))).
  split; [exact E|]. split; [congruence|]. intros _.
  pose proof (utf8_bytes_length ch) as Hn.
  repeat split; try lia; try (revert Hn; case_cmp; lia).
  - intros j Hj. rewrite Hld.
    destruct (Z.leb_spec offset j), (Z.ltb_spec j (offset + Z.of_nat (length (utf8_bytes ch))));
      cbn [andb]; try lia; reflexivity.
  - intros j Hj. rewrite Hld.
    destruct (Z.leb_spec offset j), (Z.ltb_spec j (offset + Z.of_nat (length (utf8_bytes ch))));
      cbn [andb]; try lia; reflexivity.
Qed.

Lemma chr_encode_atomic_witness :
  exists rc str' offset',
    chr_encode 0x20AC [Byte.x00; Byte.x00; Byte.x00; Byte.x00] 0 4 =
      Some (rc, str', offset') /\
    (rc <> EOK -> str' = [Byte.x00; Byte.x00; Byte.x00; Byte.x00] /\ offset' = 0) /\
    (rc = EOK ->
       1 <= offset' - 0 <= 4 /\ offset' <= 4 /\
       offset' - 0 = Z.of_nat (length (utf8_bytes 0x20AC)) /\
       length str' = length [Byte.x00; Byte.x00; Byte.x00; Byte.x00] /\
       (forall j, 0 <= j < offset' ->
          load str' j = utf8_bytes 0x20AC !! Z.to_nat (j - 0)) /\
       (forall j, j < 0 \/ offset' <= j ->
          load str' j = load [Byte.x00; Byte.x00; Byte.x00; Byte.x00] j)).
Proof.
  apply (chr_encode_atomic 0x20AC [Byte.x00; Byte.x00; Byte.x00; Byte.x00] 0 4);
    unfold PTRDIFF_MAX; cbn [length]; lia.
Defined.

(** C10 (as stated): a scalar above 0x10FFFF does not always give [EINVAL];
    with no room left, [chr_encode] returns [EOVERFLOW] before it looks at the
    scalar. *)
Lemma chr_encode_einval_counterexample :
  0x10FFFF < 0x110000 /\
  chr_encode 0x110000 [Byte.x61; Byte.x62; Byte.x63; Byte.x64] 4 4 =
    Some (EOVERFLOW, [Byte.x61; Byte.x62; Byte.x63; Byte.x64], 4) /\
  EOVERFLOW <> EINVAL.
Proof. split; [lia|]. split; [reflexivity|discriminate]. Qed.

(** C10 (amended): [chr_encode] returns [EINVAL] if and only if there is room
    at the offset ([offset < size]) and the scalar exceeds 0x10FFFF; with
    [offset >= size] it returns [EOVERFLOW] for every scalar and changes
    nothing, whatever the buffer.  For a surrogate scalar and room for three
    bytes it returns [EOK] and writes the three-byte encoding of the
    surrogate. *)
Theorem chr_encode_einval ch str offset size :
  0 <= ch < 4294967296 -> 0 <= offset ->
  (size <= offset ->
   chr_encode ch str offset size = Some (EOVERFLOW, str, offset)) /\
  (size <= Z.of_nat (length str) -> Z.of_nat (length str) <= PTRDIFF_MAX ->
   exists rc str' offset',
     chr_encode ch str offset size = Some (rc, str', offset') /\
     (rc = EINVAL <-> offset < size /\ 0x10FFFF < ch) /\
     (size <= offset -> rc = EOVERFLOW /\ str' = str /\ offset' = offset) /\
     (0xD800 <= ch <= 0xDFFF -> offset + 3 <= size ->
        rc = EOK /\ offset' = offset + 3 /\
        load str' offset = Some (0xE0 + ch / 4096) /\
        load str' (offset + 1) = Some (0x80 + ch / 64 mod 64) /\
        load str' (offset + 2) = Some (0x80 + ch mod 64))).
Proof.
  intros Hch Hoff. split.
  { intros Hfull. unfold chr_encode.
    destruct (Z.leb_spec size offset); [reflexivity|lia]. }
  intros Hsize Hlen.
  destruct (Z.le_gt_cases size offset) as [Hfull|Hroom].
  { exists EOVERFLOW, str, offset.
    rewrite chr_encode_overflow by (unfold PTRDIFF_MAX in *; lia || auto).
    split; [reflexivity|]. split; [split; [discriminate|lia]|].
    split; [auto|lia]. }
  destruct (Z.lt_ge_cases 0x10FFFF ch) as [Hbig|Hok].
  { exists EINVAL, str, offset. rewrite chr_encode_invalid by lia.
    split; [reflexivity|]. split; [split; [lia|reflexivity]|].
    split; lia. }
  destruct (Z.lt_ge_cases size (offset + Z.of_nat (length (utf8_bytes ch))))
    as [Hshort|Hfit].
  { exists EOVERFLOW, str, offset.
    rewrite chr_encode_overflow by (unfold PTRDIFF_MAX in *; lia || auto).
    split; [reflexivity|]. split; [split; [discriminate|lia]|].
    split; [auto|].
    intros Hs H3. rewrite utf8_bytes_length in Hshort.
    revert Hshort. case_cmp; lia. }
  destruct (chr_encode_ok ch str offset size) as (str' & E & Hl & Hld);
    [lia..|].
  exists EOK, str', (offset + Z.of_nat (length (utf8_bytes ch))).
  split; [exact E|]. split; [split; [discriminate|lia]|].
  split; [lia|].
  intros Hs H3. split; [reflexivity|].
  assert (Hb : utf8_bytes ch =
    [0xE0 + ch / 4096; 0x80 + ch / 64 mod 64; 0x80 + ch mod 64])
    by (unfold utf8_bytes; case_cmp; try lia; reflexivity).
  rewrite Hb in *. cbn [length] in *.
  split; [lia|]. rewrite !Hld.
  replace (offset - offset) with 0 by lia.
  replace (offset + 1 - offset) with 1 by lia.
  replace (offset + 2 - offset) with 2 by lia. nat_lits.
  repeat split; case_cmp; cbn [andb]; try lia; reflexivity.
Qed.

Lemma chr_encode_einval_witness :
  (4 <= 0 ->
   chr_encode 0xD800 [Byte.x00; Byte.x00; Byte.x00; Byte.x00] 0 4 =
     Some (EOVERFLOW, [Byte.x00; Byte.x00; Byte.x00; Byte.x00], 0)) /\
  (4 <= Z.of_nat (length [Byte.x00; Byte.x00; Byte.x00; Byte.x00]) ->
   Z.of_nat (length [Byte.x00; Byte.x00; Byte.x00; Byte.x00]) <= PTRDIFF_MAX ->
   exists rc str' offset',
     chr_encode 0xD800 [Byte.x00; Byte.x00; Byte.x00; Byte.x00] 0 4 =
       Some (rc, str', offset') /\
     (rc = EINVAL <-> 0 < 4 /\ 0x10FFFF < 0xD800) /\
     (4 <= 0 ->
      rc = EOVERFLOW /\ str' = [Byte.x00; Byte.x00; Byte.x00; Byte.x00] /\
      offset' = 0) /\
     (0xD800 <= 0xD800 <= 0xDFFF -> 0 + 3 <= 4 ->
        rc = EOK /\ offset' = 0 + 3 /\
        load str' 0 = Some (0xE0 + 0xD800 / 4096) /\
        load str' (0 + 1) = Some (0x80 + 0xD800 / 64 mod 64) /\
        load str' (0 + 2) = Some (0x80 + 0xD800 mod 64))).
Proof.
  apply (chr_encode_einval 0xD800 [Byte.x00; Byte.x00; Byte.x00; Byte.x00] 0 4);
    lia.
Defined.

(** ** Decoder: the continuation loop *)

Lemma decode_tail_done fuel s offset size mb :
  size <= offset -> decode_tail fuel s offset size mb = Some (0, offset, mb).
Proof.
  intros H. destruct fuel; cbn [decode_tail];
    destruct (Z.ltb_spec offset size); (lia || reflexivity).
Qed.

(** The loop reads only [s[offset]], ..., [s[size - 1]], and any fuel that
    covers the rest of the window or of the buffer gives the same result. *)
Lemma decode_tail_agree fuel1 fuel2 s1 s2 offset size mb :
  0 <= offset -> size <= SIZE_MAX ->
  (forall i, offset <= i < size -> load s1 i = load s2 i) ->
  Z.min size (Z.of_nat (length s1)) - offset <= Z.of_nat fuel1 ->
  Z.min size (Z.of_nat (length s2)) - offset <= Z.of_nat fuel2 ->
  decode_tail fuel1 s1 offset size mb = decode_tail fuel2 s2 offset size mb.
Proof.
  unfold SIZE_MAX, SIZE_MOD.
  revert fuel2 offset mb.
  induction fuel1 as [|fuel1 IH]; intros fuel2 offset mb Hoff Hsize Hagree Hf1 Hf2.
  - destruct fuel2 as [|fuel2]; cbn [decode_tail]; [reflexivity|].
    destruct (Z.ltb_spec offset size); [|reflexivity].
    rewrite <- Hagree by lia. rewrite load_None by lia. reflexivity.
  - cbn [decode_tail].
    destruct (Z.ltb_spec offset size); [|by rewrite decode_tail_done].
    destruct fuel2 as [|fuel2].
    + cbn [decode_tail]. destruct (Z.ltb_spec offset size); [|lia].
      rewrite Hagree by lia. rewrite load_None by lia. reflexivity.
    + cbn [decode_tail]. destruct (Z.ltb_spec offset size); [|lia].
      rewrite Hagree by lia.
      destruct (load s2 offset) as [b|] eqn:Eb; [|reflexivity].
      cbn [mbind option_bind].
      rewrite size_add_small by (unfold SIZE_MOD; lia).
      rewrite (IH fuel2); try lia; [reflexivity|].
      intros i Hi. apply Hagree. lia.
Qed.

Lemma decode_tail_step s offset size mb :
  0 <= offset -> size <= SIZE_MAX ->
  decode_tail (length s) s offset size mb =
    if offset <? size then
      b ← load s offset;
      if negb (_is_continuation b) || _is_non_shortest mb b || _is_surrogate mb b
      then Some (CHAR_INVALID, offset, Mbstate 0)
      else if Z.land (state mb) 0x8000 =? 0
      then Some (Z.lor (Z.shiftl (state mb) 6) (Z.land b UTF8_MASK_CONT),
                 offset + 1, Mbstate 0)
      else decode_tail (length s) s (offset + 1) size
             (Mbstate (u16 (Z.lor (Z.shiftl (state mb) 6) (Z.land b UTF8_MASK_CONT))))
    else Some (0, offset, mb).
Proof.
  intros Hoff Hsize.
  destruct (length s) as [|n] eqn:En; cbn [decode_tail].
  - destruct (Z.ltb_spec offset size); [|reflexivity].
    rewrite load_None by lia. reflexivity.
  - destruct (Z.ltb_spec offset size); [|reflexivity].
    destruct (load s offset) as [b|] eqn:Eb; [|reflexivity].
    cbn [mbind option_bind]. apply load_Some in Eb as [Hb _].
    unfold SIZE_MAX, SIZE_MOD in Hsize.
    rewrite size_add_small by (unfold SIZE_MOD; lia).
    rewrite (decode_tail_agree n (S n) s s); try reflexivity; try lia.
    unfold SIZE_MAX, SIZE_MOD. lia.
Qed.

(** The loop terminates inside the window. *)
Lemma decode_tail_bounds fuel s offset size mb :
  0 <= offset <= size -> size <= Z.of_nat (length s) -> size <= SIZE_MAX ->
  size - offset <= Z.of_nat fuel ->
  exists ch offset' mb',
    decode_tail fuel s offset size mb = Some (ch, offset', mb') /\
    offset <= offset' <= size.
Proof.
  unfold SIZE_MAX, SIZE_MOD.
  revert offset mb.
  induction fuel as [|fuel IH]; intros offset mb Hoff Hsize Hmax Hfuel;
    cbn [decode_tail].
  - destruct (Z.ltb_spec offset size); [lia|]. eauto with lia.
  - destruct (Z.ltb_spec offset size); [|eauto with lia].
    destruct (load_is_Some s offset) as (b & Eb & _); [lia|].
    rewrite Eb. cbn [mbind option_bind].
    rewrite size_add_small by (unfold SIZE_MOD; lia).
    destruct (negb (_is_continuation b) || _is_non_shortest mb b || _is_surrogate mb b);
      [eauto with lia|].
    destruct (Z.land (state mb) 32768 =? 0); [eexists _, _, _; split; [reflexivity|lia]|].
    match goal with |- context [decode_tail fuel s (offset + 1) size ?m] =>
      destruct (IH (offset + 1) m) as (ch & off' & mb' & E & Hb); [lia..|] end.
    rewrite E. eexists _, _, _. split; [reflexivity|lia].
Qed.

(** ** Decoder: [_str_decode] stays inside its window *)

Lemma str_decode_agree s1 s2 offset size mb :
  0 <= offset <= size -> size <= PTRDIFF_MAX ->
  (forall i, 0 <= i < size -> load s1 i = load s2 i) ->
  _str_decode s1 offset size mb = _str_decode s2 offset size mb.
Proof.
  unfold PTRDIFF_MAX. intros Hoff Hsize Hagree.
  assert (Htail : forall o m, 0 <= o ->
    decode_tail (length s1) s1 o size m = decode_tail (length s2) s2 o size m).
  { intros o m Ho. apply decode_tail_agree; unfold SIZE_MAX, SIZE_MOD; try lia.
    intros i Hi. apply Hagree. lia. }
  unfold _str_decode, and_then, cont_at.
  destruct (Z.eqb_spec offset size); [reflexivity|].
  destruct (state mb =? 0); [|apply Htail; lia].
  rewrite (Hagree offset) by lia.
  destruct (load s2 offset) as [b|]; [|reflexivity].
  cbn [mbind option_bind].
  rewrite !size_add_small by (unfold SIZE_MOD; lia).
  repeat first
    [ reflexivity
    | apply Htail; lia
    | progress cbn [mbind option_bind]
    | match goal with
      | |- context [load s1 ?i] => rewrite (Hagree i) by lia
      | |- context [if ?a <? ?b then _ else _] => destruct (Z.ltb_spec a b)
      | |- context [mbind _ (load s2 ?i)] => destruct (load s2 i)
      | |- context [if ?c then _ else _] => destruct c
      end ].
Qed.

Lemma str_decode_bounds s offset size mb :
  0 <= offset <= size -> size <= Z.of_nat (length s) ->
  Z.of_nat (length s) <= PTRDIFF_MAX ->
  exists ch offset' mb',
    _str_decode s offset size mb = Some (ch, offset', mb') /\
    offset <= offset' <= size.
Proof.
  unfold PTRDIFF_MAX. intros Hoff Hsize Hlen.
  assert (Htail : forall o m, offset <= o <= size ->
    exists ch offset' mb',
      decode_tail (length s) s o size m = Some (ch, offset', mb') /\
      offset <= offset' <= size).
  { intros o m Ho.
    destruct (decode_tail_bounds (length s) s o size m)
      as (ch & off' & mb' & E & Hb); unfold SIZE_MAX, SIZE_MOD; try lia.
    exists ch, off', mb'. split; [exact E|lia]. }
  unfold _str_decode, and_then, cont_at.
  destruct (Z.eqb_spec offset size); [eexists _, _, _; split; [reflexivity|lia]|].
  destruct (state mb =? 0); [|apply Htail; lia].
  destruct (load_is_Some s offset) as (b & -> & _); [lia|].
  cbn [mbind option_bind].
  rewrite !size_add_small by (unfold SIZE_MOD; lia).
  repeat first
    [ apply Htail; lia
    | solve [eexists _, _, _; split; [reflexivity|lia]]
    | progress cbn [mbind option_bind]
    | match goal with
      | |- context [if ?a <? ?b then _ else _] => destruct (Z.ltb_spec a b)
      | |- context [mbind _ (load s ?i)] =>
          destruct (load_is_Some s i) as (? & -> & _); [lia|]
      | |- context [if ?c then _ else _] => destruct c
      end ].
Qed.

(** The loop moves the offset forward and not beyond [size], on any
    buffer. *)
Lemma decode_tail_cursor fuel s size : forall offset mb ch offset' mb',
  0 <= offset <= size -> Z.of_nat (length s) <= PTRDIFF_MAX ->
  decode_tail fuel s offset size mb = Some (ch, offset', mb') ->
  offset <= offset' <= size.
Proof.
  unfold PTRDIFF_MAX.
  induction fuel as [|fuel IH]; intros offset mb ch offset' mb' Hoff Hlen;
    cbn [decode_tail]; destruct (Z.ltb_spec offset size);
    try discriminate; try (intros [= <- <- <-]; lia).
  destruct (load s offset) as [b|] eqn:Eb; [|discriminate].
  apply load_Some in Eb as [Hb _]. cbn [mbind option_bind].
  rewrite size_add_small by (unfold SIZE_MOD; lia).
  destruct (negb (_is_continuation b) || _is_non_shortest mb b || _is_surrogate mb b);
    [intros [= <- <- <-]; lia|].
  destruct (Z.land (state mb) 32768 =? 0); [intros [= <- <- <-]; lia|].
  intros E. apply IH in E; lia.
Qed.

(** [_str_decode] moves the offset forward and not beyond [size], on any
    buffer and for any [size]. *)
Lemma str_decode_cursor_bounds s offset size mb ch offset' mb' :
  0 <= offset <= size -> Z.of_nat (length s) <= PTRDIFF_MAX ->
  _str_decode s offset size mb = Some (ch, offset', mb') ->
  offset <= offset' <= size.
Proof.
  intros Hoff Hlen.
  assert (Htail : forall o m, offset <= o <= size ->
    decode_tail (length s) s o size m = Some (ch, offset', mb') ->
    offset <= offset' <= size).
  { intros o m Ho E. apply decode_tail_cursor in E; lia. }
  unfold PTRDIFF_MAX in Hlen.
  unfold _str_decode, and_then, cont_at.
  destruct (Z.eqb_spec offset size); [intros [= <- <- <-]; lia|].
  destruct (state mb =? 0); [|apply Htail; lia].
  destruct (load s offset) as [b|] eqn:Eb; [|discriminate].
  apply load_Some in Eb as [Hb _]. cbn [mbind option_bind].
  rewrite !size_add_small by (unfold SIZE_MOD; lia).
  repeat first
    [ apply Htail; lia
    | progress cbn [mbind option_bind]
    | match goal with
      | |- Some _ = Some _ -> _ => intros [= <- <- <-]; lia
      | |- None = Some _ -> _ => discriminate
      | |- context [if ?a <? ?b then _ else _] => destruct (Z.ltb_spec a b)
      | |- context [mbind _ (load s ?i)] => destruct (load s i)
      | |- context [if ?c then _ else _] => destruct c
      end ].
Qed.

(** [_str_decode] reads no byte at or above [size]: buffers that agree
    below [size] give the same result, for any [size]. *)
Lemma str_decode_agree_any s1 s2 offset size mb :
  0 <= offset <= size -> size <= SIZE_MAX ->
  Z.of_nat (length s2) <= PTRDIFF_MAX ->
  (forall i, 0 <= i < size -> load s1 i = load s2 i) ->
  _str_decode s1 offset size mb = _str_decode s2 offset size mb.
Proof.
  unfold PTRDIFF_MAX. intros Hoff Hsize Hlen Hagree.
  assert (Htail : forall o m, 0 <= o ->
    decode_tail (length s1) s1 o size m = decode_tail (length s2) s2 o size m).
  { intros o m Ho. apply decode_tail_agree; try lia.
    intros i Hi. apply Hagree. lia. }
  unfold _str_decode, and_then, cont_at.
  destruct (Z.eqb_spec offset size); [reflexivity|].
  destruct (state mb =? 0); [|apply Htail; lia].
  rewrite (Hagree offset) by lia.
  destruct (load s2 offset) as [b|] eqn:Eb; [|reflexivity].
  apply load_Some in Eb as [Hb _].
  cbn [mbind option_bind].
  rewrite !size_add_small by (unfold SIZE_MOD; lia).
  repeat first
    [ reflexivity
    | apply Htail; lia
    | progress cbn [mbind option_bind]
    | match goal with
      | |- context [load s1 ?i] => rewrite (Hagree i) by lia
      | |- context [if ?a <? ?b then _ else _] => destruct (Z.ltb_spec a b)
      | |- context [mbind _ (load s2 ?i)] => destruct (load s2 i)
      | |- context [if ?c then _ else _] => destruct c
      end ].
Qed.

Section Returns.
Variables (s : list byte) (z size : Z).
Hypothesis Hlen : Z.of_nat (length s) <= PTRDIFF_MAX.
Hypothesis Hz : load s z = Some 0.

(** A byte at or before the terminator is in the buffer, and a
    continuation byte stands before the terminator. *)
Lemma byte_before_terminator o :
  0 <= o <= z ->
  exists b, load s o = Some b /\ (b <> 0 -> o < z).
Proof.
  intros Ho. pose proof (load_Some _ _ _ Hz) as [Hzl _].
  destruct (load_is_Some s o ltac:(lia)) as (b & Lb & _).
  exists b. split; [exact Lb|]. intros Hb.
  destruct (Z.eq_dec o z) as [->|]; [|lia]. congruence.
Qed.

Lemma decode_tail_returns fuel : forall o mb,
  0 <= o <= z -> z - o < Z.of_nat fuel ->
  exists r, decode_tail fuel s o size mb = Some r.
Proof.
  pose proof Hlen as Hl. unfold PTRDIFF_MAX in Hl.
  pose proof (load_Some _ _ _ Hz) as [Hzl _].
  induction fuel as [|fuel IH]; intros o mb Ho Hf; [lia|].
  cbn [decode_tail]. destruct (Z.ltb_spec o size); [|eauto].
  destruct (byte_before_terminator o Ho) as (b & Lb & Hb).
  rewrite Lb. cbn [mbind option_bind].
  destruct (_is_continuation b) eqn:Ec; cbn [negb orb]; [|eauto].
  assert (b <> 0) by (intros ->; discriminate).
  destruct (_is_non_shortest mb b || _is_surrogate mb b); [eauto|].
  destruct (Z.land (state mb) 32768 =? 0); [eauto|].
  rewrite size_add_small by (unfold SIZE_MOD; lia).
  apply IH; lia.
Qed.

(** On a buffer with a null byte at or behind the offset, the call
    returns, for any [size] and any state. *)
Lemma str_decode_returns_terminated offset mb :
  0 <= offset <= z ->
  exists r, _str_decode s offset size mb = Some r.
Proof.
  intros Ho.
  pose proof Hlen as Hl. unfold PTRDIFF_MAX in Hl.
  pose proof (load_Some _ _ _ Hz) as [Hzl _].
  assert (Htail : forall o m, 0 <= o <= z ->
    exists r, decode_tail (length s) s o size m = Some r).
  { intros o m Hom. apply decode_tail_returns; lia. }
  assert (Hcont : forall o, 0 <= o <= z ->
    exists b c, load s o = Some b /\ cont_at s o = Some c /\ (c = true -> o < z)).
  { intros o Hom. destruct (byte_before_terminator o Hom) as (b & Lb & Hb).
    exists b, (_is_continuation b). unfold cont_at. rewrite Lb.
    split; [reflexivity|]. split; [reflexivity|].
    intros Ec. apply Hb. intros ->. discriminate. }
  unfold _str_decode.
  destruct (Z.eqb_spec offset size); [eauto|].
  destruct (state mb =? 0); [|apply Htail; lia].
  destruct (byte_before_terminator offset Ho) as (b & Lb & Hb).
  rewrite Lb. cbn [mbind option_bind].
  rewrite !size_add_small by (unfold SIZE_MOD; lia).
  destruct (_is_ascii b) eqn:Ea; [eauto|].
  assert (Hlt : offset < z) by (apply Hb; intros ->; discriminate).
  destruct (_is_continuation b); [eauto|].
  destruct (Hcont (offset + 1) ltac:(lia)) as (b1 & c1 & L1 & C1 & H1).
  destruct (_is_2_byte b).
  { destruct (Z.land b 30 =? 0); [eauto|].
    rewrite C1. unfold and_then. cbn [mbind option_bind].
    destruct (offset + 1 <? size); [|apply Htail; lia].
    destruct c1; [|apply Htail; lia].
    rewrite L1. cbn [mbind option_bind].
    rewrite ?size_add_small by (unfold SIZE_MOD; lia). eauto. }
  destruct (_is_3_byte b).
  { rewrite C1. unfold and_then. cbn [mbind option_bind].
    destruct (offset + 1 + 1 <? size); [|apply Htail; lia].
    destruct c1; cbn [mbind option_bind]; [|apply Htail; lia].
    destruct (Hcont (offset + 1 + 1) ltac:(lia)) as (b2 & c2 & L2 & C2 & H2).
    rewrite C2. cbn [mbind option_bind].
    destruct c2; [|apply Htail; lia].
    rewrite L1, L2. cbn [mbind option_bind].
    rewrite ?size_add_small by (unfold SIZE_MOD; lia).
    repeat match goal with
    | |- context [if ?c then _ else _] => destruct c
    end; eauto. }
  destruct (_is_4_byte b); [|eauto].
  rewrite C1. unfold and_then. cbn [mbind option_bind].
  destruct (offset + 1 + 2 <? size); [|apply Htail; lia].
  destruct c1; cbn [mbind option_bind]; [|apply Htail; lia].
  destruct (Hcont (offset + 1 + 1) ltac:(lia)) as (b2 & c2 & L2 & C2 & H2).
  rewrite C2. cbn [mbind option_bind].
  destruct c2; cbn [mbind option_bind]; [|apply Htail; lia].
  destruct (Hcont (offset + 1 + 2) ltac:(lia)) as (b3 & c3 & L3 & C3 & H3).
  rewrite C3. cbn [mbind option_bind].
  destruct c3; [|apply Htail; lia].
  rewrite L1, L2, L3. cbn [mbind option_bind].
  rewrite ?size_add_small by (unfold SIZE_MOD; lia).
  repeat match goal with
  | |- context [if ?c then _ else _] => destruct c
  end; eauto.
Qed.

End Returns.

(** C8: every call of the decoder, whatever [size] is ([STR_NO_LIMIT]
    included) and whatever the buffer holds: if [_str_decode],
    [str_decode_r] or [str_decode] returns, the offset has moved forward
    and not beyond [size], and [mbrtoc32] reports between 0 and [n] bytes
    (between 0 and 1 for a null [s], which stands for the empty string);
    no byte at an index at or above [size] is read (any buffer with the
    same bytes below [size], the buffer cut at [size] among them, gives the
    same result); a call with [offset = size] returns 0 and moves nothing.
    The call returns when the window lies inside the buffer or the buffer
    holds a null byte at or behind the offset. *)
Theorem str_decode_cursor s offset size mb :
  0 <= offset <= size -> size <= SIZE_MAX ->
  Z.of_nat (length s) <= PTRDIFF_MAX ->
  ((forall ch offset' mb',
      _str_decode s offset size mb = Some (ch, offset', mb') ->
      offset <= offset' <= size) /\
   (forall replacement ch offset' mb',
      str_decode_r s offset size replacement mb = Some (ch, offset', mb') ->
      offset <= offset' <= size) /\
   (forall ch offset',
      str_decode s offset size = Some (ch, offset') -> offset <= offset' <= size) /\
   (forall c_given r c mb',
      mbrtoc32 c_given (Some s) size mb = Some (r, c, mb') ->
      match r with mbr_bytes k => 0 <= k <= size | _ => True end) /\
   (forall c_given n r c mb',
      mbrtoc32 c_given None n mb = Some (r, c, mb') ->
      match r with mbr_bytes k => 0 <= k <= 1 | _ => True end)) /\
  (forall s', (forall i, 0 <= i < size -> load s' i = load s i) ->
     _str_decode s' offset size mb = _str_decode s offset size mb /\
     (forall replacement,
        str_decode_r s' offset size replacement mb =
        str_decode_r s offset size replacement mb) /\
     str_decode s' offset size = str_decode s offset size /\
     (forall c_given,
        mbrtoc32 c_given (Some s') size mb = mbrtoc32 c_given (Some s) size mb)) /\
  _str_decode (take (Z.to_nat size) s) offset size mb = _str_decode s offset size mb /\
  (offset = size ->
     _str_decode s offset size mb = Some (0, offset, mb) /\
     (forall replacement,
        str_decode_r s offset size replacement mb = Some (0, offset, mb)) /\
     str_decode s offset size = Some (0, offset) /\
     (state mb = 0 -> forall c_given,
        mbrtoc32 c_given (Some s) 0 mb =
          Some (mbr_bytes 0, if c_given then Some 0 else None, mb))) /\
  (size <= Z.of_nat (length s) \/
   (exists z, offset <= z /\ load s z = Some 0) ->
     exists ch offset' mb',
       _str_decode s offset size mb = Some (ch, offset', mb') /\
       (forall replacement, exists ch',
          str_decode_r s offset size replacement mb = Some (ch', offset', mb')) /\
       (mb = mb_clean -> exists ch',
          str_decode s offset size = Some (ch', offset')) /\
       (offset = 0 -> forall c_given, exists r c,
          mbrtoc32 c_given (Some s) size mb = Some (r, c, mb'))).
Proof.
  intros Hoff Hsize Hlen.
  assert (Hagree : forall s' o m, 0 <= o <= size ->
    (forall i, 0 <= i < size -> load s' i = load s i) ->
    _str_decode s' o size m = _str_decode s o size m).
  { intros s' o m Ho Hs'. by apply str_decode_agree_any. }
  split; [|split; [|split; [|split]]].
  - split; [|split; [|split; [|split]]].
    + intros ch offset' mb'. by apply str_decode_cursor_bounds.
    + intros replacement ch offset' mb'. unfold str_decode_r.
      destruct (_str_decode s offset size mb) as [[[c o] m]|] eqn:E;
        [|discriminate].
      cbn [mbind option_bind]. intros [= _ <- _].
      eapply str_decode_cursor_bounds; eassumption.
    + intros ch offset'. unfold str_decode.
      destruct (_str_decode s offset size mb_clean) as [[[c o] m]|] eqn:E;
        [|discriminate].
      cbn [mbind option_bind].
      apply str_decode_cursor_bounds in E; [|assumption..].
      destruct ((c =? CHAR_INVALID) || negb (state m =? 0));
        intros [= _ <-]; exact E.
    + intros c_given r c mb'. unfold mbrtoc32.
      destruct (_str_decode s 0 size mb) as [[[ret o] m]|] eqn:E;
        [|discriminate].
      cbn [mbind option_bind].
      apply str_decode_cursor_bounds in E; [|lia|assumption].
      destruct (ret =? CHAR_INVALID); [by intros [= <- _ _]|].
      destruct (negb (state m =? 0)); [by intros [= <- _ _]|].
      intros [= <- _ _]. destruct (ret =? 0); lia.
    + intros c_given n r c mb'. unfold mbrtoc32.
      destruct (_str_decode [Byte.x00] 0 1 mb) as [[[ret o] m]|] eqn:E;
        [|discriminate].
      cbn [mbind option_bind].
      apply str_decode_cursor_bounds in E;
        [|lia|unfold PTRDIFF_MAX; cbn [length]; lia].
      destruct (ret =? CHAR_INVALID); [by intros [= <- _ _]|].
      destruct (negb (state m =? 0)); [by intros [= <- _ _]|].
      intros [= <- _ _]. destruct (ret =? 0); lia.
  - intros s' Hs'. split; [by apply Hagree|]. split; [|split].
    + intros replacement. unfold str_decode_r. by rewrite Hagree.
    + unfold str_decode. by rewrite Hagree.
    + intros c_given. unfold mbrtoc32. by rewrite Hagree by (assumption || lia).
  - apply Hagree; [assumption|]. intros i Hi. unfold load.
    destruct (Z.ltb_spec i 0); [reflexivity|].
    rewrite lookup_take_lt by lia. reflexivity.
  - intros ->. unfold str_decode_r, str_decode, mbrtoc32, _str_decode.
    rewrite Z.eqb_refl. cbn [mbind option_bind].
    split; [reflexivity|]. split; [reflexivity|]. split; [reflexivity|].
    intros Hst c_given. rewrite Z.eqb_refl. cbn [mbind option_bind].
    change (0 =? CHAR_INVALID) with false. rewrite Hst. reflexivity.
  - intros Hret.
    assert (E : exists r, _str_decode s offset size mb = Some r).
    { destruct Hret as [Hin|(z & Hz & Lz)].
      - destruct (str_decode_bounds s offset size mb) as (c & o & m & E & _);
          try assumption. eauto.
      - destruct (Z.le_gt_cases size z) as [Hle|Hgt].
        + apply load_Some in Lz as [Hzl _].
          destruct (str_decode_bounds s offset size mb) as (c & o & m & E & _);
            try assumption; [lia|]. eauto.
        + apply (str_decode_returns_terminated s z size Hlen Lz). lia. }
    destruct E as ([[ch offset'] mb'] & E).
    exists ch, offset', mb'. split; [exact E|]. split; [|split].
    + intros replacement. unfold str_decode_r. rewrite E. cbn. eauto.
    + intros ->. unfold str_decode. rewrite E. cbn.
      destruct ((ch =? CHAR_INVALID) || negb (state mb' =? 0)); eauto.
    + intros -> c_given. unfold mbrtoc32. rewrite E. cbn [mbind option_bind].
      destruct (ch =? CHAR_INVALID); [eauto|].
      destruct (negb (state mb' =? 0)); eauto.
Qed.

Lemma str_decode_cursor_witness :
  ((forall ch offset' mb',
      _str_decode [Byte.xe2; Byte.x82; Byte.xac; Byte.x00] 0 STR_NO_LIMIT mb_clean = Some (ch, offset', mb') ->
      0 <= offset' <= STR_NO_LIMIT) /\
   (forall replacement ch offset' mb',
      str_decode_r [Byte.xe2; Byte.x82; Byte.xac; Byte.x00] 0 STR_NO_LIMIT replacement mb_clean = Some (ch, offset', mb') ->
      0 <= offset' <= STR_NO_LIMIT) /\
   (forall ch offset',
      str_decode [Byte.xe2; Byte.x82; Byte.xac; Byte.x00] 0 STR_NO_LIMIT = Some (ch, offset') -> 0 <= offset' <= STR_NO_LIMIT) /\
   (forall c_given r c mb',
      mbrtoc32 c_given (Some [Byte.xe2; Byte.x82; Byte.xac; Byte.x00]) STR_NO_LIMIT mb_clean = Some (r, c, mb') ->
      match r with mbr_bytes k => 0 <= k <= STR_NO_LIMIT | _ => True end) /\
   (forall c_given n r c mb',
      mbrtoc32 c_given None n mb_clean = Some (r, c, mb') ->
      match r with mbr_bytes k => 0 <= k <= 1 | _ => True end)) /\
  (forall s', (forall i, 0 <= i < STR_NO_LIMIT -> load s' i = load [Byte.xe2; Byte.x82; Byte.xac; Byte.x00] i) ->
     _str_decode s' 0 STR_NO_LIMIT mb_clean = _str_decode [Byte.xe2; Byte.x82; Byte.xac; Byte.x00] 0 STR_NO_LIMIT mb_clean /\
     (forall replacement,
        str_decode_r s' 0 STR_NO_LIMIT replacement mb_clean =
        str_decode_r [Byte.xe2; Byte.x82; Byte.xac; Byte.x00] 0 STR_NO_LIMIT replacement mb_clean) /\
     str_decode s' 0 STR_NO_LIMIT = str_decode [Byte.xe2; Byte.x82; Byte.xac; Byte.x00] 0 STR_NO_LIMIT /\
     (forall c_given,
        mbrtoc32 c_given (Some s') STR_NO_LIMIT mb_clean = mbrtoc32 c_given (Some [Byte.xe2; Byte.x82; Byte.xac; Byte.x00]) STR_NO_LIMIT mb_clean)) /\
  _str_decode (take (Z.to_nat STR_NO_LIMIT) [Byte.xe2; Byte.x82; Byte.xac; Byte.x00]) 0 STR_NO_LIMIT mb_clean = _str_decode [Byte.xe2; Byte.x82; Byte.xac; Byte.x00] 0 STR_NO_LIMIT mb_clean /\
  (0 = STR_NO_LIMIT ->
     _str_decode [Byte.xe2; Byte.x82; Byte.xac; Byte.x00] 0 STR_NO_LIMIT mb_clean = Some (0, 0, mb_clean) /\
     (forall replacement,
        str_decode_r [Byte.xe2; Byte.x82; Byte.xac; Byte.x00] 0 STR_NO_LIMIT replacement mb_clean = Some (0, 0, mb_clean)) /\
     str_decode [Byte.xe2; Byte.x82; Byte.xac; Byte.x00] 0 STR_NO_LIMIT = Some (0, 0) /\
     (state mb_clean = 0 -> forall c_given,
        mbrtoc32 c_given (Some [Byte.xe2; Byte.x82; Byte.xac; Byte.x00]) 0 mb_clean =
          Some (mbr_bytes 0, if c_given then Some 0 else None, mb_clean))) /\
  (STR_NO_LIMIT <= Z.of_nat (length [Byte.xe2; Byte.x82; Byte.xac; Byte.x00]) \/
   (exists z, 0 <= z /\ load [Byte.xe2; Byte.x82; Byte.xac; Byte.x00] z = Some 0) ->
     exists ch offset' mb',
       _str_decode [Byte.xe2; Byte.x82; Byte.xac; Byte.x00] 0 STR_NO_LIMIT mb_clean = Some (ch, offset', mb') /\
       (forall replacement, exists ch',
          str_decode_r [Byte.xe2; Byte.x82; Byte.xac; Byte.x00] 0 STR_NO_LIMIT replacement mb_clean = Some (ch', offset', mb')) /\
       (mb_clean = mb_clean -> exists ch',
          str_decode [Byte.xe2; Byte.x82; Byte.xac; Byte.x00] 0 STR_NO_LIMIT = Some (ch', offset')) /\
       (0 = 0 -> forall c_given, exists r c,
          mbrtoc32 c_given (Some [Byte.xe2; Byte.x82; Byte.xac; Byte.x00]) STR_NO_LIMIT mb_clean = Some (r, c, mb'))).
Proof.
  apply (str_decode_cursor [Byte.xe2; Byte.x82; Byte.xac; Byte.x00] 0
           STR_NO_LIMIT mb_clean);
    unfold STR_NO_LIMIT, SIZE_MAX, SIZE_MOD, PTRDIFF_MAX; cbn [length]; lia.
Defined.

(** ** Byte classes as ranges *)

Lemma is_continuation_range b :
  0 <= b < 256 -> _is_continuation b = (0x80 <=? b) && (b <? 0xC0).
Proof. intros. unfold _is_continuation. autorewrite with bits. case_cmp; cbn; zlia. Qed.

Lemma is_2_byte_range b :
  0 <= b < 256 -> _is_2_byte b = (0xC0 <=? b) && (b <? 0xE0).
Proof. intros. unfold _is_2_byte. autorewrite with bits. case_cmp; cbn; zlia. Qed.

Lemma is_3_byte_range b :
  0 <= b < 256 -> _is_3_byte b = (0xE0 <=? b) && (b <? 0xF0).
Proof. intros. unfold _is_3_byte. autorewrite with bits. case_cmp; cbn; zlia. Qed.

Lemma is_4_byte_range b :
  0 <= b < 256 -> _is_4_byte b = (0xF0 <=? b) && (b <? 0xF8).
Proof. intros. unfold _is_4_byte. autorewrite with bits. case_cmp; cbn; zlia. Qed.

(** The values the fast paths compute. *)
Lemma decode2_value b c1 :
  Z.lor (Z.shiftl (Z.land b UTF8_MASK_INITIAL2) 6) (Z.land c1 UTF8_MASK_CONT) =
  b mod 32 * 64 + c1 mod 64.
Proof.
  unfold UTF8_MASK_INITIAL2, UTF8_MASK_CONT. autorewrite with bits.
  apply lor_6. zlia.
Qed.

Lemma decode3_value b c1 c2 :
  Z.lor (Z.lor (Z.shiftl (Z.land b UTF8_MASK_INITIAL3) 12)
               (Z.shiftl (Z.land c1 UTF8_MASK_CONT) 6))
        (Z.land c2 UTF8_MASK_CONT) =
  b mod 16 * 4096 + c1 mod 64 * 64 + c2 mod 64.
Proof.
  unfold UTF8_MASK_INITIAL3, UTF8_MASK_CONT. autorewrite with bits.
  rewrite (lor_add_disjoint (b mod 16 * 4096) _ 12) by zlia.
  apply (lor_add_disjoint _ _ 6); zlia.
Qed.

Lemma decode4_value b c1 c2 c3 :
  Z.lor (Z.lor (Z.lor (Z.shiftl (Z.land b UTF8_MASK_INITIAL4) 18)
                      (Z.shiftl (Z.land c1 UTF8_MASK_CONT) 12))
               (Z.shiftl (Z.land c2 UTF8_MASK_CONT) 6))
        (Z.land c3 UTF8_MASK_CONT) =
  b mod 8 * 262144 + c1 mod 64 * 4096 + c2 mod 64 * 64 + c3 mod 64.
Proof.
  unfold UTF8_MASK_INITIAL4, UTF8_MASK_CONT. autorewrite with bits.
  rewrite (lor_add_disjoint (b mod 8 * 262144) _ 18) by zlia.
  rewrite (lor_add_disjoint _ (c2 mod 64 * 64) 12) by zlia.
  apply (lor_add_disjoint _ _ 6); zlia.
Qed.

Lemma tail_value st b :
  0 <= st ->
  Z.lor (Z.shiftl st 6) (Z.land b UTF8_MASK_CONT) = st * 64 + b mod 64.
Proof.
  intros. unfold UTF8_MASK_CONT. autorewrite with bits. apply lor_6. zlia.
Qed.

(** Decide the comparisons of the goal that the context settles. *)
Ltac decide_cmp :=
  repeat match goal with
  | |- context [?a <? ?b] =>
      first [ rewrite (proj2 (Z.ltb_lt a b)) by zlia
            | rewrite (proj2 (Z.ltb_ge a b)) by zlia ]
  | |- context [?a <=? ?b] =>
      first [ rewrite (proj2 (Z.leb_le a b)) by zlia
            | rewrite (proj2 (Z.leb_gt a b)) by zlia ]
  | |- context [?a =? ?b] =>
      first [ rewrite (proj2 (Z.eqb_eq a b)) by zlia
            | rewrite (proj2 (Z.eqb_neq a b)) by zlia ]
  end.

Ltac same_result :=
  match goal with
  | |- Some (?v, ?o, ?m) = Some (?v', ?o', ?m') =>
      replace v with v' by zlia; replace o with o' by lia; reflexivity
  end.

Lemma utf8_at_loads s offset ch :
  utf8_at s offset ch ->
  forall i v, utf8_bytes ch !! i = Some v ->
    load s (offset + Z.of_nat i) = Some v.
Proof.
  intros H i v Hv. rewrite H; [exact Hv|]. by eapply lookup_lt_Some.
Qed.

(** A scalar's encoding decodes to the scalar, over exactly its bytes. *)
Lemma str_decode_utf8_at s offset size ch :
  is_scalar ch -> 0 <= offset ->
  offset + Z.of_nat (length (utf8_bytes ch)) <= size ->
  Z.of_nat (length s) <= PTRDIFF_MAX ->
  utf8_at s offset ch ->
  _str_decode s offset size mb_clean =
    Some (ch, offset + Z.of_nat (length (utf8_bytes ch)), mb_clean).
Proof.
  unfold PTRDIFF_MAX. intros [Hch Hsur] Hoff Hfit Hlen Hat.
  pose proof (utf8_at_loads s offset ch Hat) as Hld.
  assert (Hsize : offset + Z.of_nat (length (utf8_bytes ch)) <= Z.of_nat (length s)).
  { destruct (utf8_bytes ch) as [|v l] eqn:Eb using rev_ind.
    - pose proof (utf8_bytes_length ch) as El. rewrite Eb in El.
      revert El. cbn [length]. case_cmp; lia.
    - clear IHl. specialize (Hld (length l) v (list_lookup_middle _ _ _ _ eq_refl)).
      apply load_Some in Hld. rewrite length_app. cbn [length]. lia. }
  rewrite utf8_bytes_length in *.
  unfold _str_decode, and_then, cont_at.
  unfold utf8_bytes in Hld.
  destruct (Z.ltb_spec ch 0x80).
  { pose proof (Hld 0%nat _ eq_refl) as L0.
    change (Z.of_nat 0) with 0 in L0. rewrite Z.add_0_r in L0.
    destruct (Z.eqb_spec offset size); [lia|]. cbn [state mb_clean].
    rewrite Z.eqb_refl, L0. cbn [mbind option_bind].
    unfold _is_ascii. decide_cmp.
    rewrite size_add_small by (unfold SIZE_MOD; lia). reflexivity. }
  destruct (Z.ltb_spec ch 0x800).
  { pose proof (Hld 0%nat _ eq_refl) as L0. pose proof (Hld 1%nat _ eq_refl) as L1.
    change (Z.of_nat 0) with 0 in L0. rewrite Z.add_0_r in L0.
    change (Z.of_nat 1) with 1 in L1.
    destruct (Z.eqb_spec offset size); [lia|]. cbn [state mb_clean].
    rewrite Z.eqb_refl, L0. cbn [mbind option_bind].
    rewrite !size_add_small by (unfold SIZE_MOD; lia).
    rewrite L1. cbn [mbind option_bind].
    rewrite decode2_value.
    rewrite !is_continuation_range, is_2_byte_range by zlia.
    unfold _is_ascii. autorewrite with bits.
    decide_cmp. cbn [andb mbind option_bind].
    same_result. }
  destruct (Z.ltb_spec ch 0x10000).
  { pose proof (Hld 0%nat _ eq_refl) as L0. pose proof (Hld 1%nat _ eq_refl) as L1.
    pose proof (Hld 2%nat _ eq_refl) as L2.
    change (Z.of_nat 0) with 0 in L0. rewrite Z.add_0_r in L0.
    change (Z.of_nat 1) with 1 in L1. change (Z.of_nat 2) with 2 in L2.
    destruct (Z.eqb_spec offset size); [lia|]. cbn [state mb_clean].
    rewrite Z.eqb_refl, L0. cbn [mbind option_bind].
    rewrite !size_add_small by (unfold SIZE_MOD; lia).
    replace (offset + 1 + 1) with (offset + 2) by lia.
    rewrite L1, L2. cbn [mbind option_bind].
    rewrite decode3_value.
    match goal with |- context [?a * 4096 + ?b * 64 + ?c] =>
      replace (a * 4096 + b * 64 + c) with ch by zlia end.
    rewrite !is_continuation_range, is_2_byte_range, is_3_byte_range by zlia.
    unfold _is_ascii. autorewrite with bits.
    decide_cmp. cbn [andb mbind option_bind].
    replace (offset + 1 + 2) with (offset + 3) by lia.
    case_cmp; cbn [andb]; try lia; reflexivity. }
  pose proof (Hld 0%nat _ eq_refl) as L0. pose proof (Hld 1%nat _ eq_refl) as L1.
  pose proof (Hld 2%nat _ eq_refl) as L2. pose proof (Hld 3%nat _ eq_refl) as L3.
  change (Z.of_nat 0) with 0 in L0. rewrite Z.add_0_r in L0.
  change (Z.of_nat 1) with 1 in L1. change (Z.of_nat 2) with 2 in L2.
  change (Z.of_nat 3) with 3 in L3.
  destruct (Z.eqb_spec offset size); [lia|]. cbn [state mb_clean].
  rewrite Z.eqb_refl, L0. cbn [mbind option_bind].
  rewrite !size_add_small by (unfold SIZE_MOD; lia).
  replace (offset + 1 + 1) with (offset + 2) by lia.
  replace (offset + 1 + 2) with (offset + 3) by lia.
  rewrite L1, L2, L3. cbn [mbind option_bind].
  rewrite decode4_value.
  match goal with |- context [?a * 262144 + ?b * 4096 + ?c * 64 + ?d] =>
    replace (a * 262144 + b * 4096 + c * 64 + d) with ch by zlia end.
  rewrite !is_continuation_range, is_2_byte_range, is_3_byte_range,
    is_4_byte_range by zlia.
  unfold _is_ascii. autorewrite with bits.
  decide_cmp. cbn [andb mbind option_bind].
  replace (offset + 1 + 3) with (offset + 4) by lia.
  reflexivity.
Qed.

(** ** Round trip *)

(** C1: for every scalar [ch] (0..0x10FFFF outside the surrogate range),
    [chr_encode] into a buffer with room for its encoding succeeds, and
    [str_decode] of the resulting buffer from the same offset returns [ch]
    and leaves the cursor where [chr_encode] left it, that is, after
    exactly the 1 to 4 bytes written.  The decoder may be given any size
    that covers these bytes, [STR_NO_LIMIT] included.  The claim is the
    case [offset = 0]. *)
Theorem chr_encode_str_decode_roundtrip ch str offset size dsize :
  is_scalar ch -> 0 <= offset ->
  offset + Z.of_nat (length (utf8_bytes ch)) <= size ->
  size <= Z.of_nat (length str) -> Z.of_nat (length str) <= PTRDIFF_MAX ->
  offset + Z.of_nat (length (utf8_bytes ch)) <= dsize ->
  exists str' offset',
    chr_encode ch str offset size = Some (EOK, str', offset') /\
    1 <= offset' - offset <= 4 /\
    str_decode str' offset dsize = Some (ch, offset').
Proof.
  intros Hsc Hoff Hfit Hsize Hlen Hdfit.
  destruct (chr_encode_ok ch str offset size) as (str' & E & Hl & Hld);
    try assumption; [apply Hsc|].
  exists str', (offset + Z.of_nat (length (utf8_bytes ch))).
  split; [exact E|]. split.
  { rewrite utf8_bytes_length. case_cmp; lia. }
  assert (Hat : utf8_at str' offset ch).
  { intros i Hi. rewrite Hld.
    destruct (Z.leb_spec offset (offset + Z.of_nat i)),
      (Z.ltb_spec (offset + Z.of_nat i) (offset + Z.of_nat (length (utf8_bytes ch))));
      cbn [andb]; try lia.
    f_equal. lia. }
  unfold str_decode.
  rewrite (str_decode_utf8_at str' offset dsize ch) by (assumption || congruence).
  cbn [mbind option_bind mb_clean state].
  destruct Hsc as [Hr _]. unfold CHAR_INVALID.
  destruct (Z.eqb_spec ch 4294967295); [lia|]. reflexivity.
Qed.

Lemma chr_encode_str_decode_roundtrip_witness :
  exists str' offset',
    chr_encode 0x20AC [Byte.x00; Byte.x00; Byte.x00; Byte.x00] 0 4 =
      Some (EOK, str', offset') /\
    1 <= offset' - 0 <= 4 /\
    str_decode str' 0 4 = Some (0x20AC, offset').
Proof.
  apply (chr_encode_str_decode_roundtrip 0x20AC
           [Byte.x00; Byte.x00; Byte.x00; Byte.x00] 0 4 4);
    unfold is_scalar, PTRDIFF_MAX; cbn [length utf8_bytes]; cbn; lia.
Defined.

(** ** Decoder: what a call on a clean state can return *)

Lemma byte_forall (P : Z -> bool) :
  forallb P (Z.of_nat <$> seq 0 256) = true ->
  forall b, 0 <= b < 256 -> P b = true.
Proof.
  intros H b Hb. rewrite forallb_forall in H. apply H.
  apply in_map_iff. exists (Z.to_nat b). split; [lia|]. apply in_seq. lia.
Qed.

Lemma lxor_leaders b :
  0 <= b < 256 ->
  (0xC0 <= b < 0xE0 -> Z.lxor b 0x00C0 = b - 0xC0) /\
  (0xE0 <= b < 0xF0 -> Z.lxor b 0xFCE0 = b + 0xFB20) /\
  (0xF0 <= b < 0xF8 -> Z.lxor b 0xFF00 = b + 0xFF00).
Proof.
  intros Hb.
  pose proof (byte_forall
    (fun b => implb ((0xC0 <=? b) && (b <? 0xE0)) (Z.lxor b 0x00C0 =? b - 0xC0) &&
              implb ((0xE0 <=? b) && (b <? 0xF0)) (Z.lxor b 0xFCE0 =? b + 0xFB20) &&
              implb ((0xF0 <=? b) && (b <? 0xF8)) (Z.lxor b 0xFF00 =? b + 0xFF00))
    ltac:(vm_compute; reflexivity) b Hb) as H.
  cbv beta in H. apply andb_prop in H as [H H3]. apply andb_prop in H as [H1 H2].
  repeat split; intros Hr; lia.
Qed.

(** One iteration of the loop on a state whose top bit is clear: the byte
    completes the character. *)
Lemma decode_tail_last s o size st :
  Z.of_nat (length s) <= PTRDIFF_MAX -> size <= SIZE_MAX -> 0 <= o ->
  0 <= st < 32768 ->
  decode_tail (length s) s o size (Mbstate st) =
    if o <? size then
      c ← load s o;
      if _is_continuation c then Some (st * 64 + c mod 64, o + 1, Mbstate 0)
      else Some (CHAR_INVALID, o, Mbstate 0)
    else Some (0, o, Mbstate st).
Proof.
  intros Hlen Hsize Ho Hst. rewrite decode_tail_step by assumption.
  destruct (Z.ltb_spec o size); [|reflexivity].
  destruct (load s o) as [c|] eqn:Ec; [|reflexivity]. cbn [mbind option_bind].
  unfold _is_non_shortest, _is_surrogate. cbn [state].
  rewrite tail_value by lia. autorewrite with bits.
  destruct (_is_continuation c); cbn [negb orb]; [|reflexivity].
  decide_cmp. reflexivity.
Qed.

(** One iteration on a state whose top bit is set: more bytes follow. *)
Lemma decode_tail_more s o size st :
  Z.of_nat (length s) <= PTRDIFF_MAX -> size <= SIZE_MAX -> 0 <= o ->
  32768 <= st < 65536 ->
  decode_tail (length s) s o size (Mbstate st) =
    if o <? size then
      c ← load s o;
      if negb (_is_continuation c) ||
         ((st =? 0xFC00) && (c mod 64 <? 32)) ||
         ((st =? 0xFFF0) && (c mod 64 <? 16)) ||
         ((st =? 0xFC0D) && (0xA0 <=? c))
      then Some (CHAR_INVALID, o, Mbstate 0)
      else decode_tail (length s) s (o + 1) size
             (Mbstate ((st * 64 + c mod 64) mod 65536))
    else Some (0, o, Mbstate st).
Proof.
  intros Hlen Hsize Ho Hst. rewrite decode_tail_step by assumption.
  destruct (Z.ltb_spec o size); [|reflexivity].
  destruct (load s o) as [c|] eqn:Ec; [|reflexivity]. cbn [mbind option_bind].
  unfold _is_non_shortest, _is_surrogate. cbn [state].
  rewrite tail_value by lia. unfold u16. autorewrite with bits.
  replace (c mod 64 / 32 * 32 =? 0) with (c mod 64 <? 32) by (case_cmp; zlia).
  replace (c mod 64 / 16 * 16 =? 0) with (c mod 64 <? 16) by (case_cmp; zlia).
  replace (st mod 65536 / 32768 * 32768 =? 0) with false by (case_cmp; zlia).
  rewrite orb_assoc. reflexivity.
Qed.

Section CleanCall.
Variables (s : list byte) (size : Z).
Hypothesis Hlen : Z.of_nat (length s) <= PTRDIFF_MAX.
Hypothesis Hsize : size <= SIZE_MAX.

(** After a leader byte whose fast path was not taken, the loop cannot
    complete the character: it reports an invalid sequence or leaves a
    pending state. *)
Lemma slow_path_2 o st ch off' mb' :
  0 <= o -> 2 <= st < 32 ->
  Some (o <? size) &&? cont_at s o = Some false ->
  decode_tail (length s) s o size (Mbstate st) = Some (ch, off', mb') ->
  ch = CHAR_INVALID \/ state mb' <> 0.
Proof.
  intros Ho Hst Hfast H. rewrite decode_tail_last in H by (assumption || lia).
  unfold and_then, cont_at in Hfast. cbn [mbind option_bind] in Hfast.
  destruct (o <? size).
  - destruct (load s o) as [c|]; [|discriminate].
    cbn [mbind option_bind] in *. injection Hfast as Hc. rewrite Hc in H.
    injection H as <- <- <-. by left.
  - injection H as <- <- <-. right. cbn. lia.
Qed.

Lemma slow_path_3 o h ch off' mb' :
  0 <= o -> 0 <= h < 16 ->
  Some (o + 1 <? size) &&? cont_at s o &&? cont_at s (o + 1) = Some false ->
  decode_tail (length s) s o size (Mbstate (0xFC00 + h)) = Some (ch, off', mb') ->
  ch = CHAR_INVALID \/ state mb' <> 0.
Proof.
  intros Ho Hh Hfast H. rewrite decode_tail_more in H by (assumption || lia).
  unfold and_then, cont_at in Hfast. cbn [mbind option_bind] in Hfast.
  destruct (Z.ltb_spec o size); [|injection H as <- <- <-; right; cbn; lia].
  destruct (load s o) as [c1|] eqn:L1; [|discriminate].
  apply load_Some in L1 as [_ Hc1].
  cbn [mbind option_bind] in *.
  match type of H with (if ?c then _ else _) = _ => destruct c eqn:Ec end;
    [injection H as <- <- <-; by left|].
  apply orb_false_elim in Ec as [Ec _]. apply orb_false_elim in Ec as [Ec _].
  apply orb_false_elim in Ec as [Ec1 Ec2]. apply negb_false_iff in Ec1.
  rewrite Ec1 in Hfast.
  replace ((0xFC00 + h) * 64 + c1 mod 64) with (4128768 + (h * 64 + c1 mod 64)) in H by lia.
  replace ((4128768 + (h * 64 + c1 mod 64)) mod 65536) with (h * 64 + c1 mod 64) in H by zlia.
  rewrite decode_tail_last in H by (assumption || zlia).
  destruct (Z.ltb_spec (o + 1) size).
  - destruct (load s (o + 1)) as [c2|]; [|discriminate].
    cbn [mbind option_bind] in *. injection Hfast as Hc. rewrite Hc in H.
    injection H as <- <- <-. by left.
  - injection H as <- <- <-. right. cbn. zlia.
Qed.

Lemma slow_path_4 o h ch off' mb' :
  0 <= o -> 0 <= h < 8 ->
  Some (o + 2 <? size) &&? cont_at s o &&? cont_at s (o + 1)
    &&? cont_at s (o + 2) = Some false ->
  decode_tail (length s) s o size (Mbstate (0xFFF0 + h)) = Some (ch, off', mb') ->
  ch = CHAR_INVALID \/ state mb' <> 0.
Proof.
  intros Ho Hh Hfast H. rewrite decode_tail_more in H by (assumption || lia).
  unfold and_then, cont_at in Hfast. cbn [mbind option_bind] in Hfast.
  destruct (Z.ltb_spec o size); [|injection H as <- <- <-; right; cbn; lia].
  destruct (load s o) as [c1|] eqn:L1; [|discriminate].
  apply load_Some in L1 as [_ Hc1].
  cbn [mbind option_bind] in *.
  match type of H with (if ?c then _ else _) = _ => destruct c eqn:Ec end;
    [injection H as <- <- <-; by left|].
  apply orb_false_elim in Ec as [Ec _]. apply orb_false_elim in Ec as [Ec Ec3].
  apply orb_false_elim in Ec as [Ec1 Ec2]. apply negb_false_iff in Ec1.
  rewrite Ec1 in Hfast.
  replace ((0xFFF0 + h) * 64 + c1 mod 64)
    with (63 * 65536 + (0xFC00 + (h * 64 + c1 mod 64))) in H by lia.
  replace ((63 * 65536 + (0xFC00 + (h * 64 + c1 mod 64))) mod 65536)
    with (0xFC00 + (h * 64 + c1 mod 64)) in H by zlia.
  rewrite decode_tail_more in H by (assumption || zlia).
  destruct (Z.ltb_spec (o + 1) size);
    [|injection H as <- <- <-; right; cbn; zlia].
  destruct (load s (o + 1)) as [c2|] eqn:L2; [|by destruct (o + 2 <? size)].
  apply load_Some in L2 as [_ Hc2].
  cbn [mbind option_bind] in *.
  match type of H with (if ?c then _ else _) = _ => destruct c eqn:Ec' end;
    [injection H as <- <- <-; by left|].
  apply orb_false_elim in Ec' as [Ec' _]. apply orb_false_elim in Ec' as [Ec' _].
  apply orb_false_elim in Ec' as [Ec1' _]. apply negb_false_iff in Ec1'.
  rewrite Ec1' in Hfast.
  replace ((0xFC00 + (h * 64 + c1 mod 64)) * 64 + c2 mod 64)
    with (63 * 65536 + ((h * 64 + c1 mod 64) * 64 + c2 mod 64)) in H by lia.
  replace ((63 * 65536 + ((h * 64 + c1 mod 64) * 64 + c2 mod 64)) mod 65536)
    with ((h * 64 + c1 mod 64) * 64 + c2 mod 64) in H by zlia.
  rewrite decode_tail_last in H by (assumption || zlia).
  replace (o + 1 + 1) with (o + 2) in H by lia.
  destruct (Z.ltb_spec (o + 2) size).
  - destruct (load s (o + 2)) as [c3|]; [|discriminate].
    cbn [mbind option_bind] in *. injection Hfast as Hc. rewrite Hc in H.
    injection H as <- <- <-. by left.
  - injection H as <- <- <-. right. cbn. zlia.
Qed.
End CleanCall.

Lemma utf8_at_of_loads s o ch l :
  utf8_bytes ch = l ->
  (forall i v, l !! i = Some v -> load s (o + Z.of_nat i) = Some v) ->
  utf8_at s o ch.
Proof.
  intros <- H i Hi. apply lookup_lt_is_Some_2 in Hi as [v Hv].
  rewrite Hv. by apply H.
Qed.

Lemma utf8_bytes_1 ch : 0 <= ch < 0x80 -> utf8_bytes ch = [ch].
Proof. intros. unfold utf8_bytes. by decide_cmp. Qed.

Lemma utf8_bytes_2 ch b c1 :
  0x80 <= ch < 0x800 -> b = 0xC0 + ch / 64 -> c1 = 0x80 + ch mod 64 ->
  utf8_bytes ch = [b; c1].
Proof. intros ? -> ->. unfold utf8_bytes. by decide_cmp. Qed.

Lemma utf8_bytes_3 ch b c1 c2 :
  0x800 <= ch < 0x10000 -> b = 0xE0 + ch / 4096 ->
  c1 = 0x80 + ch / 64 mod 64 -> c2 = 0x80 + ch mod 64 ->
  utf8_bytes ch = [b; c1; c2].
Proof. intros ? -> -> ->. unfold utf8_bytes. by decide_cmp. Qed.

Lemma utf8_bytes_4 ch b c1 c2 c3 :
  0x10000 <= ch -> b = 0xF0 + ch / 262144 ->
  c1 = 0x80 + ch / 4096 mod 64 -> c2 = 0x80 + ch / 64 mod 64 ->
  c3 = 0x80 + ch mod 64 ->
  utf8_bytes ch = [b; c1; c2; c3].
Proof. intros ? -> -> -> ->. unfold utf8_bytes. by decide_cmp. Qed.

(** A call on a clean state, not at the end of the window, either reports
    an invalid sequence, or leaves a pending state, or returns a scalar
    whose encoding is exactly the bytes it has consumed. *)
Lemma str_decode_clean_inv s offset size ch off' mb' :
  Z.of_nat (length s) <= PTRDIFF_MAX -> size <= SIZE_MAX -> offset <> size ->
  _str_decode s offset size mb_clean = Some (ch, off', mb') ->
  ch = CHAR_INVALID \/ state mb' <> 0 \/
  (mb' = mb_clean /\ is_scalar ch /\ utf8_at s offset ch /\
   off' = offset + Z.of_nat (length (utf8_bytes ch)) /\
   (offset < size -> off' <= size)).
Proof.
  intros Hlen Hsize Hne H. pose proof Hlen as Hlen'. unfold PTRDIFF_MAX in Hlen'.
  unfold _str_decode in H.
  destruct (Z.eqb_spec offset size); [lia|]. cbn [state mb_clean] in H.
  rewrite Z.eqb_refl in H.
  destruct (load s offset) as [b|] eqn:L0; [|discriminate].
  cbn [mbind option_bind] in H.
  pose proof (load_Some _ _ _ L0) as [Hoff Hb].
  rewrite !size_add_small in H by (unfold SIZE_MOD; lia).
  rewrite is_continuation_range, is_2_byte_range, is_3_byte_range,
    is_4_byte_range in H by assumption.
  unfold _is_ascii in H.
  destruct (Z.ltb_spec b 0x80).
  { injection H as <- <- <-. right; right.
    split; [reflexivity|]. split; [unfold is_scalar; lia|].
    rewrite (utf8_bytes_1 b) by lia.
    split; [|cbn [length]; lia].
    apply (utf8_at_of_loads _ _ _ [b]); [apply utf8_bytes_1; lia|].
    intros [|[|]] v [= <-]. by rewrite Z.add_0_r. }
  destruct ((0x80 <=? b) && (b <? 0xC0)) eqn:Ec;
    [injection H as <- <- <-; by left|].
  destruct ((0xC0 <=? b) && (b <? 0xE0)) eqn:E2.
  { rewrite land_1E in H.
    destruct (b mod 32 / 2 * 2 =? 0) eqn:Ens; [injection H as <- <- <-; by left|].
    destruct (Some (offset + 1 <? size) &&? cont_at s (offset + 1)) as [[|]|] eqn:Ef;
      cbn [mbind option_bind] in H; [| |discriminate].
    - unfold and_then, cont_at in Ef. cbn [mbind option_bind] in Ef.
      destruct (Z.ltb_spec (offset + 1) size); [|discriminate].
      destruct (load s (offset + 1)) as [c1|] eqn:L1; [|discriminate].
      cbn [mbind option_bind] in *. injection Ef as Ec1.
      pose proof (load_Some _ _ _ L1) as [_ Hc1].
      rewrite is_continuation_range in Ec1 by assumption.
      rewrite decode2_value in H. injection H as <- <- <-. right; right.
      assert (Eb : utf8_bytes (b mod 32 * 64 + c1 mod 64) = [b; c1])
        by (apply utf8_bytes_2; zlia).
      rewrite Eb. split; [reflexivity|]. split; [unfold is_scalar; zlia|].
      split; [|cbn [length]; lia].
      apply (utf8_at_of_loads _ _ _ _ Eb).
      intros [|[|[|]]] v [= <-]; [by rewrite Z.add_0_r|exact L1].
    - destruct (lxor_leaders b Hb) as (Hx & _ & _). rewrite Hx in H by lia.
      assert (Hslow : ch = CHAR_INVALID \/ state mb' <> 0)
      by (eapply (slow_path_2 s size); [..|exact Ef|exact H]; try assumption; zlia).
    tauto. }
  destruct ((0xE0 <=? b) && (b <? 0xF0)) eqn:E3.
  { destruct (Some (offset + 1 + 1 <? size) &&? cont_at s (offset + 1)
                &&? cont_at s (offset + 1 + 1)) as [[|]|] eqn:Ef;
      cbn [mbind option_bind] in H; [| |discriminate].
    - unfold and_then, cont_at in Ef. cbn [mbind option_bind] in Ef.
      destruct (Z.ltb_spec (offset + 1 + 1) size); [|discriminate].
      destruct (load s (offset + 1)) as [c1|] eqn:L1; [|discriminate].
      cbn [mbind option_bind] in *.
      destruct (_is_continuation c1) eqn:Ec1; [|discriminate].
      destruct (load s (offset + 1 + 1)) as [c2|] eqn:L2; [|discriminate].
      cbn [mbind option_bind] in *. injection Ef as Ec2.
      pose proof (load_Some _ _ _ L1) as [_ Hc1].
      pose proof (load_Some _ _ _ L2) as [_ Hc2].
      rewrite is_continuation_range in Ec1, Ec2 by assumption.
      rewrite decode3_value in H. rewrite land_FFFFF800 in H.
      set (v := b mod 16 * 4096 + c1 mod 64 * 64 + c2 mod 64) in *.
      assert (Hv : 0 <= v < 65536) by (subst v; zlia).
      destruct (v mod 4294967296 / 2048 * 2048 =? 0) eqn:Ens;
        [injection H as <- <- <-; by left|].
      destruct ((55296 <=? v) && (v <? 57344)) eqn:Esur;
        [injection H as <- <- <-; by left|].
      injection H as <- <- <-. right; right.
      assert (Eb : utf8_bytes v = [b; c1; c2])
        by (apply utf8_bytes_3; subst v; zlia).
      rewrite Eb. split; [reflexivity|]. split; [unfold is_scalar; lia|].
      split; [|cbn [length]; lia].
      apply (utf8_at_of_loads _ _ _ _ Eb).
      intros [|[|[|[|]]]] v' [= <-]; [by rewrite Z.add_0_r|exact L1|].
      replace (offset + Z.of_nat 2) with (offset + 1 + 1) by lia. exact L2.
    - destruct (lxor_leaders b Hb) as (_ & Hx & _). rewrite Hx in H by lia.
      replace (b + 64288) with (0xFC00 + (b - 0xE0)) in H by lia.
      assert (Hslow : ch = CHAR_INVALID \/ state mb' <> 0)
      by (eapply (slow_path_3 s size); [..|exact Ef|exact H]; try assumption; lia).
    tauto. }
  destruct ((0xF0 <=? b) && (b <? 0xF8)) eqn:E4;
    [|injection H as <- <- <-; by left].
  destruct (Some (offset + 1 + 2 <? size) &&? cont_at s (offset + 1)
              &&? cont_at s (offset + 1 + 1) &&? cont_at s (offset + 1 + 2))
    as [[|]|] eqn:Ef; cbn [mbind option_bind] in H; [| |discriminate].
  - unfold and_then, cont_at in Ef. cbn [mbind option_bind] in Ef.
    destruct (Z.ltb_spec (offset + 1 + 2) size); [|discriminate].
    destruct (load s (offset + 1)) as [c1|] eqn:L1; [|discriminate].
    cbn [mbind option_bind] in *.
    destruct (_is_continuation c1) eqn:Ec1; [|discriminate].
    destruct (load s (offset + 1 + 1)) as [c2|] eqn:L2; [|discriminate].
    cbn [mbind option_bind] in *.
    destruct (_is_continuation c2) eqn:Ec2; [|discriminate].
    destruct (load s (offset + 1 + 2)) as [c3|] eqn:L3; [|discriminate].
    cbn [mbind option_bind] in *. injection Ef as Ec3.
    pose proof (load_Some _ _ _ L1) as [_ Hc1].
    pose proof (load_Some _ _ _ L2) as [_ Hc2].
    pose proof (load_Some _ _ _ L3) as [_ Hc3].
    rewrite is_continuation_range in Ec1, Ec2, Ec3 by assumption.
    rewrite decode4_value in H. rewrite land_FFFF0000 in H.
    set (v := b mod 8 * 262144 + c1 mod 64 * 4096 + c2 mod 64 * 64 + c3 mod 64) in *.
    assert (Hv : 0 <= v < 2097152) by (subst v; zlia).
    destruct (v mod 4294967296 / 65536 * 65536 =? 0) eqn:Ens;
      [injection H as <- <- <-; by left|].
    destruct (1114112 <=? v) eqn:Ebig; [injection H as <- <- <-; by left|].
    injection H as <- <- <-. right; right.
    assert (Eb : utf8_bytes v = [b; c1; c2; c3])
      by (apply utf8_bytes_4; subst v; zlia).
    rewrite Eb. split; [reflexivity|]. split; [unfold is_scalar; zlia|].
    split; [|cbn [length]; lia].
    apply (utf8_at_of_loads _ _ _ _ Eb).
    intros [|[|[|[|[|]]]]] v' [= <-]; [by rewrite Z.add_0_r|exact L1| |].
    + replace (offset + Z.of_nat 2) with (offset + 1 + 1) by lia. exact L2.
    + replace (offset + Z.of_nat 3) with (offset + 1 + 2) by lia. exact L3.
  - destruct (lxor_leaders b Hb) as (_ & _ & Hx). rewrite Hx in H by lia.
    replace (b + 65280) with (0xFFF0 + (b - 0xF0)) in H by lia.
    assert (Hslow : ch = CHAR_INVALID \/ state mb' <> 0)
      by (eapply (slow_path_4 s size); [..|exact Ef|exact H]; try assumption; lia).
    tauto.
Qed.

(** C9: the one-shot decoder returns only Unicode scalar values: never a
    surrogate (0xD800..0xDFFF), never a value above 0x10FFFF.  The values
    0 and [U_SPECIAL] it returns for the end of the window and for an
    invalid or incomplete sequence are scalar values themselves.  On a
    window that lies inside the buffer the call does return. *)
Theorem str_decode_returns_scalar s offset size :
  Z.of_nat (length s) <= PTRDIFF_MAX -> size <= SIZE_MAX ->
  (forall ch offset', str_decode s offset size = Some (ch, offset') ->
     (ch = 0 \/ ch = U_SPECIAL \/ is_scalar ch) /\
     ch <= 0x10FFFF /\ ~ (0xD800 <= ch <= 0xDFFF)) /\
  (0 <= offset <= size -> size <= Z.of_nat (length s) ->
     exists ch offset', str_decode s offset size = Some (ch, offset')).
Proof.
  intros Hlen Hsize. split.
  - intros ch offset' H. unfold str_decode in H.
    destruct (_str_decode s offset size mb_clean) as [[[c o] m]|] eqn:E;
      [|discriminate].
    cbn [mbind option_bind] in H.
    assert (Hsc : is_scalar ch); [|unfold is_scalar in *; intuition lia].
    destruct ((c =? CHAR_INVALID) || negb (state m =? 0)) eqn:Ebad.
    + injection H as <- <-. unfold is_scalar, U_SPECIAL. lia.
    + injection H as <- <-. apply orb_false_elim in Ebad as [Ec Em].
      apply negb_false_iff in Em.
      destruct (Z.eq_dec offset size) as [->|Hne].
      * unfold _str_decode in E. rewrite Z.eqb_refl in E.
        injection E as <- <- <-. unfold is_scalar. lia.
      * destruct (str_decode_clean_inv _ _ _ _ _ _ Hlen Hsize Hne E)
          as [->|[Hst|(_ & Hsc & _)]]; [discriminate|lia|exact Hsc].
  - intros Hoff Hin.
    destruct (str_decode_bounds s offset size mb_clean) as (c & o & m & E & _);
      try assumption.
    unfold str_decode. rewrite E. cbn [mbind option_bind].
    destruct ((c =? CHAR_INVALID) || negb (state m =? 0)); eauto.
Qed.

Lemma str_decode_returns_scalar_witness :
  (forall ch offset',
     str_decode [Byte.xed; Byte.xa0; Byte.x80] 0 3 = Some (ch, offset') ->
     (ch = 0 \/ ch = U_SPECIAL \/ is_scalar ch) /\
     ch <= 0x10FFFF /\ ~ (0xD800 <= ch <= 0xDFFF)) /\
  (0 <= 0 <= 3 -> 3 <= Z.of_nat (length [Byte.xed; Byte.xa0; Byte.x80]) ->
     exists ch offset',
       str_decode [Byte.xed; Byte.xa0; Byte.x80] 0 3 = Some (ch, offset')).
Proof.
  apply (str_decode_returns_scalar [Byte.xed; Byte.xa0; Byte.x80] 0 3);
    unfold PTRDIFF_MAX, SIZE_MAX, SIZE_MOD; cbn [length]; lia.
Defined.

(** ** Streaming *)

(** C2: decoding one byte at a time with a persisting state does not give
    what decoding with the whole buffer available gives.  On the bytes
    F4 90 80 80 (the 4-byte form of 0x110000) the call with the whole
    buffer takes the fast path, whose range check rejects the sequence,
    while the resumable path has no range check and returns 0x110000.
    [mbrtoc32] shows the same: [UCHAR_ILSEQ] for the whole buffer, the
    character 0x110000 after four one-byte calls. *)
Theorem streaming_differs_from_whole_buffer :
  decode_whole [Byte.xf4; Byte.x90; Byte.x80; Byte.x80] =
    Some ([CHAR_INVALID], 4, mb_clean) /\
  decode_bytewise [Byte.xf4; Byte.x90; Byte.x80; Byte.x80] =
    Some ([0x110000], 4, mb_clean) /\
  mbrtoc32 true (Some [Byte.xf4; Byte.x90; Byte.x80; Byte.x80]) 4 mb_clean =
    Some (UCHAR_ILSEQ, None, mb_clean) /\
  mbrtoc32 true (Some [Byte.xf4]) 1 mb_clean =
    Some (UCHAR_INCOMPLETE, None, Mbstate 0xFFF4) /\
  mbrtoc32 true (Some [Byte.x90]) 1 (Mbstate 0xFFF4) =
    Some (UCHAR_INCOMPLETE, None, Mbstate 0xFD10) /\
  mbrtoc32 true (Some [Byte.x80]) 1 (Mbstate 0xFD10) =
    Some (UCHAR_INCOMPLETE, None, Mbstate 0x4400) /\
  mbrtoc32 true (Some [Byte.x80]) 1 (Mbstate 0x4400) =
    Some (mbr_bytes 1, Some 0x110000, mb_clean).
Proof. repeat split; vm_compute; reflexivity. Qed.

(** The two paths also disagree on how many invalid results a malformed
    sequence gives: the fast path consumes the non-shortest form E0 80 80
    whole, the resumable path reports each of its bytes. *)
Lemma streaming_invalid_count :
  decode_whole [Byte.xe0; Byte.x80; Byte.x80] =
    Some ([CHAR_INVALID], 3, mb_clean) /\
  decode_bytewise [Byte.xe0; Byte.x80; Byte.x80] =
    Some ([CHAR_INVALID; CHAR_INVALID; CHAR_INVALID], 3, mb_clean).
Proof. split; vm_compute; reflexivity. Qed.

(** ** Comparison *)

(** C3: where plain [char] is signed, [str_cmp] orders a byte above 0x7F
    below every ASCII byte.  The strings "é" (C3 A9) and "a" are well
    formed, their scalar sequences compare as 1 (0xE9 > 0x61), and
    [str_cmp] returns -1.  With an unsigned [char] it returns 1. *)
Theorem str_cmp_signed_char_order :
  well_formed [Byte.xc3; Byte.xa9] = true /\
  well_formed [Byte.x61] = true /\
  str_scalars [Byte.xc3; Byte.xa9; Byte.x00] = Some [0xE9] /\
  str_scalars [Byte.x61; Byte.x00] = Some [0x61] /\
  scalar_cmp [0xE9] [0x61] = 1 /\
  str_cmp true [Byte.xc3; Byte.xa9; Byte.x00] [Byte.x61; Byte.x00] = Some (-1) /\
  str_cmp false [Byte.xc3; Byte.xa9; Byte.x00] [Byte.x61; Byte.x00] = Some 1.
Proof. repeat split; vm_compute; reflexivity. Qed.

(** ** UTF-16 *)

(** C6: [str_to_utf16] tests [c > 0x10000], not [c >= 0x10000].  The
    scalar 0x10000 (F0 90 80 80) is stored as a single unit, truncated to
    16 bits: the destination receives 0x0000, which is also the
    terminator, instead of the pair D800 DC00.  The next scalar, 0x10001,
    is split as the claim says. *)
Theorem str_to_utf16_0x10000 :
  str_decode [Byte.xf0; Byte.x90; Byte.x80; Byte.x80; Byte.x00] 0 STR_NO_LIMIT =
    Some (0x10000, 4) /\
  str_to_utf16 [0xFFFF; 0xFFFF; 0xFFFF; 0xFFFF] 4
      [Byte.xf0; Byte.x90; Byte.x80; Byte.x80; Byte.x00] =
    Some (EOK, [0x0000; 0x0000; 0xFFFF; 0xFFFF]) /\
  str_to_utf16 [0xFFFF; 0xFFFF; 0xFFFF; 0xFFFF] 4
      [Byte.xf0; Byte.x90; Byte.x80; Byte.x81; Byte.x00] =
    Some (EOK, [0xD800; 0xDC01; 0x0000; 0xFFFF]).
Proof. repeat split; vm_compute; reflexivity. Qed.

(** ** Sanitizer *)

Ltac decide_if :=
  repeat match goal with
  | |- context [if ?c then _ else _] =>
      first [ replace c with true by zlia | replace c with false by zlia ]
  end.


Ltac red_consts :=
  cbn [Z.eqb Z.ltb Z.leb Z.compare Pos.eqb Pos.compare Pos.compare_cont
       orb andb negb].

Ltac sanitize_steps L1 L2 L3 :=
  repeat first
    [ rewrite L1 | rewrite L2 | rewrite L3
    | progress cbn [mbind option_bind andb orb negb]
    | rewrite is_continuation_range by zlia
    | match goal with
      | |- context [size_sub ?a ?b] =>
          lazymatch a with
          | context [size_sub] => fail
          | _ => rewrite (size_sub_small a b) by (unfold SIZE_MOD; lia)
          end
      end
    | progress autorewrite with bits
    | progress decide_if ].

Lemma continuation_bytes_range b :
  0 <= b < 256 ->
  _continuation_bytes b =
    if b <? 0x80 then 0 else if b <? 0xC0 then -1 else if b <? 0xE0 then 1
    else if b <? 0xF0 then 2 else if b <? 0xF8 then 3 else -1.
Proof.
  intros Hb. unfold _continuation_bytes, _is_ascii.
  rewrite is_2_byte_range, is_3_byte_range, is_4_byte_range by assumption.
  case_cmp; cbn [andb]; try reflexivity; lia.
Qed.

(** The sanitizer steps over the encoding of a scalar that is neither null
    nor a control code, and leaves it as it is. *)
Lemma sanitize_accept fuel str p n count r ch :
  0 <= p -> n <= SIZE_MAX ->
  is_scalar ch -> ch <> 0 -> is_control ch = false ->
  utf8_at str p ch -> Z.of_nat (length (utf8_bytes ch)) <= n ->
  sanitize_loop (S fuel) str p n count r =
    sanitize_loop fuel str (p + Z.of_nat (length (utf8_bytes ch)))
                  (n - Z.of_nat (length (utf8_bytes ch))) count r.
Proof.
  unfold SIZE_MAX, SIZE_MOD. intros Hp Hn [Hch Hsur] Hnz Hctl Hat Hfit.
  pose proof (utf8_at_loads str p ch Hat) as Hld.
  unfold is_control in Hctl.
  rewrite utf8_bytes_length in *. unfold utf8_bytes in Hld.
  cbn [sanitize_loop].
  destruct (Z.ltb_spec ch 0x80).
  { pose proof (Hld 0%nat _ eq_refl) as L0.
    change (Z.of_nat 0) with 0 in L0. rewrite Z.add_0_r in L0.
    rewrite L0. cbn [mbind option_bind].
    rewrite continuation_bytes_range by lia.
    rewrite !size_sub_small by (unfold SIZE_MOD; lia).
    decide_cmp. reflexivity. }
  destruct (Z.ltb_spec ch 0x800).
  { pose proof (Hld 0%nat _ eq_refl) as L0. pose proof (Hld 1%nat _ eq_refl) as L1.
    change (Z.of_nat 0) with 0 in L0. rewrite Z.add_0_r in L0.
    change (Z.of_nat 1) with 1 in L1.
    rewrite L0. cbn [mbind option_bind].
    rewrite continuation_bytes_range by zlia.
    assert (E : (if 192 + ch / 64 <? 128 then 0 else if 192 + ch / 64 <? 192 then -1
                 else if 192 + ch / 64 <? 224 then 1 else if 192 + ch / 64 <? 240 then 2
                 else if 192 + ch / 64 <? 248 then 3 else -1) = 1) by (decide_cmp; reflexivity).
    rewrite !E. clear E. change (Z.to_nat 1) with 1%nat. cbn [continuations_valid].
    autorewrite with bits.
    sanitize_steps L1 L1 L1. f_equal; lia. }
  destruct (Z.ltb_spec ch 0x10000).
  { pose proof (Hld 0%nat _ eq_refl) as L0. pose proof (Hld 1%nat _ eq_refl) as L1.
    pose proof (Hld 2%nat _ eq_refl) as L2.
    change (Z.of_nat 0) with 0 in L0. rewrite Z.add_0_r in L0.
    change (Z.of_nat 1) with 1 in L1. change (Z.of_nat 2) with 2 in L2.
    rewrite L0. cbn [mbind option_bind].
    rewrite continuation_bytes_range by zlia.
    assert (E : (if 224 + ch / 4096 <? 128 then 0 else if 224 + ch / 4096 <? 192 then -1
                 else if 224 + ch / 4096 <? 224 then 1 else if 224 + ch / 4096 <? 240 then 2
                 else if 224 + ch / 4096 <? 248 then 3 else -1) = 2) by (decide_cmp; reflexivity).
    rewrite !E. clear E. change (Z.to_nat 2) with 2%nat. cbn [continuations_valid].
    replace (p + (1 + 1)) with (p + 2) by lia.
    autorewrite with bits.
    sanitize_steps L1 L2 L2. f_equal; lia. }
  pose proof (Hld 0%nat _ eq_refl) as L0. pose proof (Hld 1%nat _ eq_refl) as L1.
  pose proof (Hld 2%nat _ eq_refl) as L2. pose proof (Hld 3%nat _ eq_refl) as L3.
  change (Z.of_nat 0) with 0 in L0. rewrite Z.add_0_r in L0.
  change (Z.of_nat 1) with 1 in L1. change (Z.of_nat 2) with 2 in L2.
  change (Z.of_nat 3) with 3 in L3.
  rewrite L0. cbn [mbind option_bind].
  rewrite continuation_bytes_range by zlia.
  assert (E : (if 240 + ch / 262144 <? 128 then 0 else if 240 + ch / 262144 <? 192 then -1
               else if 240 + ch / 262144 <? 224 then 1 else if 240 + ch / 262144 <? 240 then 2
               else if 240 + ch / 262144 <? 248 then 3 else -1) = 3) by (decide_cmp; reflexivity).
  rewrite !E. clear E. change (Z.to_nat 3) with 3%nat. cbn [continuations_valid].
  replace (p + (1 + 1)) with (p + 2) by lia.
  replace (p + (1 + 1 + 1)) with (p + 3) by lia.
  autorewrite with bits.
  sanitize_steps L1 L2 L3. f_equal; lia.
Qed.

(** One iteration of the sanitizer on a byte before the terminator at [k]:
    it either replaces the byte, or the bytes at [p] are the encoding of a
    scalar that is no control code (over which [sanitize_accept] steps). *)
Lemma sanitize_step fuel str p n count r k str1 :
  0 <= p < k -> k < Z.of_nat (length str) -> load str k = Some 0 ->
  (forall i, p <= i < k -> load str i <> Some 0) ->
  0 < n <= SIZE_MAX -> store str p r = Some str1 ->
  sanitize_loop (S fuel) str p n count r =
    sanitize_loop fuel str1 (p + 1) (n - 1) (size_add count 1) r \/
  exists ch, is_scalar ch /\ ch <> 0 /\ is_control ch = false /\
             utf8_at str p ch /\ Z.of_nat (length (utf8_bytes ch)) <= n.
Proof.
  unfold SIZE_MAX, SIZE_MOD. intros Hp Hk Hnul Hnz Hn Hst.
  destruct (load_is_Some str p) as (b0 & L0 & Hb0); [lia|].
  assert (Hb0nz : b0 <> 0) by (intros ->; apply (Hnz p); [lia|exact L0]).
  cbn [sanitize_loop]. rewrite L0, Hst. cbn [mbind option_bind].
  rewrite continuation_bytes_range by assumption.
  rewrite !(size_sub_small n 1) by (unfold SIZE_MOD; lia).
  destruct (Z.ltb_spec 0 n); [|lia].
  destruct (Z.eqb_spec b0 0); [lia|].
  destruct (Z.ltb_spec b0 0x20); [by left|].
  destruct (Z.ltb_spec b0 0x80).
  { right. exists b0. unfold is_scalar, is_control.
    rewrite (utf8_bytes_1 b0) by lia. cbn [length].
    split; [lia|]. split; [lia|]. split; [lia|]. split; [|lia].
    apply (utf8_at_of_loads _ _ _ [b0]); [apply utf8_bytes_1; lia|].
    intros [|[|]] v [= <-]. by rewrite Z.add_0_r. }
  destruct (Z.ltb_spec b0 0xC0); [red_consts; by left|].
  (* the first continuation byte *)
  destruct (load_is_Some str (p + 1)) as (c1 & L1 & Hc1); [lia|].
  destruct (Z.ltb_spec b0 0xE0).
  { red_consts.
    destruct (Z.leb_spec n 1); [by left|].
    change (Z.to_nat 1) with 1%nat. cbn [continuations_valid].
    rewrite L1. cbn [mbind option_bind].
    rewrite is_continuation_range by assumption.
    destruct ((128 <=? c1) && (c1 <? 192)) eqn:Ec1;
      cbn [mbind option_bind negb]; [|by left].
    autorewrite with bits.
    repeat match goal with
    | |- (if ?c then _ else _) = _ \/ _ => destruct c eqn:?; [by left|]
    end.
    right. exists (b0 mod 32 * 64 + c1 mod 64).
    assert (Eb : utf8_bytes (b0 mod 32 * 64 + c1 mod 64) = [b0; c1])
      by (apply utf8_bytes_2; zlia).
    rewrite Eb. unfold is_scalar, is_control. cbn [length].
    split; [zlia|]. split; [zlia|]. split; [zlia|]. split; [|lia].
    apply (utf8_at_of_loads _ _ _ _ Eb).
    intros [|[|[|]]] v [= <-]; [by rewrite Z.add_0_r|exact L1]. }
  (* the second continuation byte *)
  destruct (Z.ltb_spec b0 0xF0).
  { red_consts.
    destruct (Z.leb_spec n 2); [by left|].
    change (Z.to_nat 2) with 2%nat. cbn [continuations_valid].
    rewrite L1. cbn [mbind option_bind].
    rewrite is_continuation_range by assumption.
    destruct ((128 <=? c1) && (c1 <? 192)) eqn:Ec1;
      cbn [mbind option_bind negb]; [|by left].
    assert (Hk2 : p + 1 < k).
    { destruct (Z.eq_dec (p + 1) k) as [<-|]; [|lia].
      rewrite L1 in Hnul. injection Hnul as ->. discriminate. }
    replace (p + (1 + 1)) with (p + 2) by lia.
    destruct (load_is_Some str (p + 2)) as (c2 & L2 & Hc2); [lia|].
    rewrite L2. cbn [mbind option_bind].
    rewrite is_continuation_range by assumption.
    destruct ((128 <=? c2) && (c2 <? 192)) eqn:Ec2;
      cbn [mbind option_bind negb]; [|by left].
    autorewrite with bits.
    repeat match goal with
    | |- (if ?c then _ else _) = _ \/ _ => destruct c eqn:?; [by left|]
    end.
    right. exists (b0 mod 16 * 4096 + c1 mod 64 * 64 + c2 mod 64).
    assert (Eb : utf8_bytes (b0 mod 16 * 4096 + c1 mod 64 * 64 + c2 mod 64) =
                 [b0; c1; c2]) by (apply utf8_bytes_3; zlia).
    rewrite Eb. unfold is_scalar, is_control. cbn [length].
    split; [zlia|]. split; [zlia|]. split; [zlia|]. split; [|lia].
    apply (utf8_at_of_loads _ _ _ _ Eb).
    intros [|[|[|[|]]]] v [= <-]; [by rewrite Z.add_0_r|exact L1|exact L2]. }
  destruct (Z.ltb_spec b0 0xF8); [|red_consts; by left].
  red_consts.
  destruct (Z.leb_spec n 3); [by left|].
  change (Z.to_nat 3) with 3%nat. cbn [continuations_valid].
  rewrite L1. cbn [mbind option_bind].
  rewrite is_continuation_range by assumption.
  destruct ((128 <=? c1) && (c1 <? 192)) eqn:Ec1;
    cbn [mbind option_bind negb]; [|by left].
  assert (Hk2 : p + 1 < k).
  { destruct (Z.eq_dec (p + 1) k) as [<-|]; [|lia].
    rewrite L1 in Hnul. injection Hnul as ->. discriminate. }
  replace (p + (1 + 1)) with (p + 2) by lia.
  replace (p + (1 + 1 + 1)) with (p + 3) by lia.
  destruct (load_is_Some str (p + 2)) as (c2 & L2 & Hc2); [lia|].
  rewrite L2. cbn [mbind option_bind].
  rewrite is_continuation_range by assumption.
  destruct ((128 <=? c2) && (c2 <? 192)) eqn:Ec2;
    cbn [mbind option_bind negb]; [|by left].
  assert (Hk3 : p + 2 < k).
  { destruct (Z.eq_dec (p + 2) k) as [<-|]; [|lia].
    rewrite L2 in Hnul. injection Hnul as ->. discriminate. }
  destruct (load_is_Some str (p + 3)) as (c3 & L3 & Hc3); [lia|].
  rewrite L3. cbn [mbind option_bind].
  rewrite is_continuation_range by assumption.
  destruct ((128 <=? c3) && (c3 <? 192)) eqn:Ec3;
    cbn [mbind option_bind negb]; [|by left].
  autorewrite with bits.
  repeat match goal with
  | |- (if ?c then _ else _) = _ \/ _ => destruct c eqn:?; [by left|]
  end.
  right. exists (b0 mod 8 * 262144 + c1 mod 64 * 4096 + c2 mod 64 * 64 + c3 mod 64).
  assert (Eb : utf8_bytes (b0 mod 8 * 262144 + c1 mod 64 * 4096 + c2 mod 64 * 64 +
                           c3 mod 64) = [b0; c1; c2; c3]) by (apply utf8_bytes_4; zlia).
  rewrite Eb. unfold is_scalar, is_control. cbn [length].
  split; [zlia|]. split; [zlia|]. split; [zlia|]. split; [|lia].
  apply (utf8_at_of_loads _ _ _ _ Eb).
  intros [|[|[|[|[|]]]]] v [= <-]; [by rewrite Z.add_0_r|exact L1|exact L2|exact L3].
Qed.

(** ** Strings inside buffers *)

Lemma strn_spec s n :
  (length (strn s n) <= n)%nat /\ (length (strn s n) <= length s)%nat /\
  (forall i, (i < length (strn s n))%nat ->
     strn s n !! i = s !! i /\ exists b, s !! i = Some b /\ b2z b <> 0) /\
  (length (strn s n) = n \/ length (strn s n) = length s \/
   exists b, s !! length (strn s n) = Some b /\ b2z b = 0).
Proof.
  revert s. induction n as [|n IH]; intros s.
  - destruct s; cbn; (split; [lia|]; split; [lia|]; split; [|by left]);
      intros i Hi; lia.
  - destruct s as [|b s]; cbn [strn].
    + cbn. split; [lia|]. split; [lia|]. split; [|by right; left].
      intros i Hi. lia.
    + destruct (Z.eqb_spec (b2z b) 0) as [Hz|Hnz].
      * cbn. split; [lia|]. split; [lia|]. split; [intros i Hi; lia|].
        right; right. exists b. by split.
      * destruct (IH s) as (H1 & H2 & H3 & H4). cbn [length].
        split; [lia|]. split; [lia|]. split.
        -- intros [|i] Hi; cbn.
           ++ split; [reflexivity|]. by exists b.
           ++ apply H3. lia.
        -- destruct H4 as [H4|[H4|H4]]; [left; lia|right; left; lia|].
           right; right. exact H4.
Qed.

Lemma strn_loads s n :
  let k := Z.of_nat (length (strn s n)) in
  k <= Z.of_nat n /\ k <= Z.of_nat (length s) /\
  (forall i, 0 <= i < k -> load (strn s n) i = load s i /\ load s i <> Some 0) /\
  (k = Z.of_nat n \/ k = Z.of_nat (length s) \/ load s k = Some 0).
Proof.
  destruct (strn_spec s n) as (H1 & H2 & H3 & H4). cbv zeta.
  split; [lia|]. split; [lia|]. split.
  - intros i Hi. unfold load. destruct (Z.ltb_spec i 0); [lia|].
    destruct (H3 (Z.to_nat i)) as (E & b & Eb & Hb); [lia|].
    rewrite E, Eb. split; [reflexivity|]. cbn. intros [= ?]. lia.
  - destruct H4 as [H4|[H4|(b & Eb & Hb)]]; [left; lia|right; left; lia|].
    right; right. unfold load.
    destruct (Z.ltb_spec (Z.of_nat (length (strn s n))) 0); [lia|].
    rewrite Nat2Z.id, Eb. cbn. by rewrite Hb.
Qed.

Lemma utf8_at_agree s1 s2 p ch :
  (forall i, p <= i < p + Z.of_nat (length (utf8_bytes ch)) ->
     load s1 i = load s2 i) ->
  utf8_at s1 p ch -> utf8_at s2 p ch.
Proof.
  intros H Hat i Hi. rewrite <- H by lia. by apply Hat.
Qed.

(** The encoding of a scalar other than null has no null byte. *)
Lemma utf8_bytes_nonzero ch i :
  0 < ch <= 0x10FFFF -> utf8_bytes ch !! i <> Some 0.
Proof.
  intros Hch. unfold utf8_bytes.
  case_cmp; destruct i as [|[|[|[|i]]]]; cbn; intros [= E]; zlia.
Qed.

Lemma utf8_at_first s p ch :
  utf8_at s p ch -> exists v, utf8_bytes ch !! 0%nat = Some v /\ load s p = Some v.
Proof.
  intros Hat.
  assert (Hl : (0 < length (utf8_bytes ch))%nat).
  { pose proof (utf8_bytes_length ch) as E. revert E. case_cmp; lia. }
  specialize (Hat 0%nat Hl). change (Z.of_nat 0) with 0 in Hat.
  rewrite Z.add_0_r in Hat.
  apply lookup_lt_is_Some_2 in Hl as [v Hv]. exists v. by rewrite Hat.
Qed.

(** ** Sanitizing a well-formed string *)

Lemma all_scalars_unfold P fuel s offset size :
  all_scalars P (S fuel) s offset size =
    if offset =? size then true
    else match _str_decode s offset size mb_clean with
         | Some (ch, offset', mb') =>
           negb (ch =? CHAR_INVALID) && (state mb' =? 0) && P ch &&
           all_scalars P fuel s offset' size
         | None => false
         end.
Proof. reflexivity. Qed.

(** On a buffer whose string decodes without error and without control
    codes, the sanitizer walks to the end of the string and changes
    nothing; it stops there if the string ends at [n] or at a null byte. *)
Lemma sanitize_loop_well_formed str n r w k :
  w = strn str (Z.to_nat n) -> k = Z.of_nat (length w) ->
  0 <= n <= SIZE_MAX -> k = n \/ load str k = Some 0 ->
  Z.of_nat (length str) <= PTRDIFF_MAX ->
  forall fuelA fuelS p count,
    0 <= p <= k ->
    k - p < Z.of_nat fuelS \/ (k = n /\ k - p <= Z.of_nat fuelS) ->
    all_scalars (fun ch => negb (is_control ch)) fuelA w p k = true ->
    sanitize_loop fuelS str p (n - p) count r = Some (str, count).
Proof.
  intros -> -> Hn Hacc Hlen.
  destruct (strn_loads str (Z.to_nat n)) as (Hk1 & Hk2 & Hld & Hend).
  set (w := strn str (Z.to_nat n)) in *.
  set (k := Z.of_nat (length w)) in *.
  assert (Hstop : forall fuelS count, k < n -> (0 < fuelS)%nat ->
    sanitize_loop fuelS str k (n - k) count r = Some (str, count)).
  { intros [|f] count Hkn Hf; [lia|]. cbn [sanitize_loop].
    destruct (Z.ltb_spec 0 (n - k)); [|lia].
    destruct Hacc as [E|E]; [lia|]. rewrite E. reflexivity. }
  assert (Hdone : forall fuelS count, k = n ->
    sanitize_loop fuelS str k (n - k) count r = Some (str, count)).
  { intros f count Hkn. replace (n - k) with 0 by lia. by destruct f. }
  induction fuelA as [|fuelA IH]; intros fuelS p count Hp Hfuel Hwf.
  - cbn [all_scalars] in Hwf. destruct (Z.eqb_spec p k) as [->|]; [|discriminate].
    destruct (Z.eq_dec k n); [by apply Hdone|]. apply Hstop; lia.
  - rewrite all_scalars_unfold in Hwf.
    destruct (Z.eqb_spec p k) as [->|Hne].
    { destruct (Z.eq_dec k n); [by apply Hdone|]. apply Hstop; lia. }
    destruct (_str_decode w p k mb_clean) as [[[ch off'] mb']|] eqn:E;
      [|discriminate].
    apply andb_prop in Hwf as [Hwf Hrest]. apply andb_prop in Hwf as [Hwf HP].
    apply andb_prop in Hwf as [Hinv Hst].
    apply negb_true_iff in Hinv, HP. apply Z.eqb_neq in Hinv. apply Z.eqb_eq in Hst.
    unfold SIZE_MAX, SIZE_MOD, PTRDIFF_MAX in *.
    destruct (str_decode_clean_inv w p k ch off' mb') as [?|[?|(_ & Hsc & Hat & -> & Hle)]];
      try assumption; try (unfold SIZE_MAX, SIZE_MOD, PTRDIFF_MAX; lia); try lia.
    specialize (Hle ltac:(lia)).
    assert (Hat' : utf8_at str p ch).
    { eapply utf8_at_agree; [|exact Hat]. intros i Hi. apply Hld. lia. }
    assert (Hnz : ch <> 0).
    { intros ->. destruct (utf8_at_first _ _ _ Hat') as (v & Hv & Lv).
      injection Hv as <-. apply (proj2 (Hld p ltac:(lia))). exact Lv. }
    destruct fuelS as [|fuelS]; [lia|].
    rewrite (sanitize_accept fuelS str p (n - p) count r ch);
      try assumption; try (unfold SIZE_MAX, SIZE_MOD; lia); try lia.
    replace (n - p - Z.of_nat (length (utf8_bytes ch)))
      with (n - (p + Z.of_nat (length (utf8_bytes ch)))) by lia.
    apply IH; [lia| |exact Hrest].
    pose proof (utf8_bytes_length ch) as El.
    assert (1 <= Z.of_nat (length (utf8_bytes ch))) by (revert El; case_cmp; lia).
    lia.
Qed.

(** If the buffer ends where the string ends, before [n] bytes, the
    sanitizer walks to the end of the buffer and reads on. *)
Lemma sanitize_loop_off_end str n r w k :
  w = strn str (Z.to_nat n) -> k = Z.of_nat (length w) ->
  0 <= n <= SIZE_MAX -> k < n -> k = Z.of_nat (length str) ->
  Z.of_nat (length str) <= PTRDIFF_MAX ->
  forall fuelA fuelS p count,
    0 <= p <= k ->
    all_scalars (fun ch => negb (is_control ch)) fuelA w p k = true ->
    sanitize_loop fuelS str p (n - p) count r = None.
Proof.
  intros -> -> Hn Hkn Hkl Hlen.
  destruct (strn_loads str (Z.to_nat n)) as (Hk1 & Hk2 & Hld & Hend).
  set (w := strn str (Z.to_nat n)) in *.
  set (k := Z.of_nat (length w)) in *.
  assert (Hstop : forall fuelS count,
    sanitize_loop fuelS str k (n - k) count r = None).
  { intros fuelS count. destruct fuelS as [|f]; cbn [sanitize_loop];
      destruct (Z.ltb_spec 0 (n - k)); try lia.
    - reflexivity.
    - rewrite (load_None str k) by lia. reflexivity. }
  induction fuelA as [|fuelA IH]; intros fuelS p count Hp Hwf.
  - cbn [all_scalars] in Hwf. destruct (Z.eqb_spec p k) as [->|]; [|discriminate].
    apply Hstop.
  - rewrite all_scalars_unfold in Hwf.
    destruct (Z.eqb_spec p k) as [->|Hne]; [apply Hstop|].
    destruct (_str_decode w p k mb_clean) as [[[ch off'] mb']|] eqn:E;
      [|discriminate].
    apply andb_prop in Hwf as [Hwf Hrest]. apply andb_prop in Hwf as [Hwf HP].
    apply andb_prop in Hwf as [Hinv Hst].
    apply negb_true_iff in Hinv, HP. apply Z.eqb_neq in Hinv. apply Z.eqb_eq in Hst.
    unfold SIZE_MAX, SIZE_MOD, PTRDIFF_MAX in *.
    destruct (str_decode_clean_inv w p k ch off' mb') as [?|[?|(_ & Hsc & Hat & -> & Hle)]];
      try assumption; try (unfold SIZE_MAX, SIZE_MOD, PTRDIFF_MAX; lia); try lia.
    specialize (Hle ltac:(lia)).
    assert (Hat' : utf8_at str p ch).
    { eapply utf8_at_agree; [|exact Hat]. intros i Hi. apply Hld. lia. }
    assert (Hnz : ch <> 0).
    { intros ->. destruct (utf8_at_first _ _ _ Hat') as (v & Hv & Lv).
      injection Hv as <-. apply (proj2 (Hld p ltac:(lia))). exact Lv. }
    destruct fuelS as [|fuelS].
    { cbn [sanitize_loop]. destruct (Z.ltb_spec 0 (n - p)); [reflexivity|lia]. }
    rewrite (sanitize_accept fuelS str p (n - p) count r ch);
      try assumption; try (unfold SIZE_MAX, SIZE_MOD; lia); try lia.
    replace (n - p - Z.of_nat (length (utf8_bytes ch)))
      with (n - (p + Z.of_nat (length (utf8_bytes ch)))) by lia.
    apply IH; [lia|exact Hrest].
Qed.

(** A buffer with a null byte holds a string that ends before the end of
    the buffer. *)
Lemma strn_null str n :
  Byte.x00 ∈ str ->
  Z.of_nat (length (strn str n)) <> Z.of_nat (length str).
Proof.
  intros Hin E. apply list_elem_of_lookup in Hin as [i Hi].
  destruct (strn_spec str n) as (_ & _ & H3 & _).
  destruct (H3 i) as (_ & b & Eb & Hb).
  { apply lookup_lt_Some in Hi. lia. }
  rewrite Hi in Eb. injection Eb as <-. by apply Hb.
Qed.

(** C4 (as stated): a well-formed buffer is not always left alone; the
    line feed in "a\nb" is a valid character and is replaced. *)
Lemma str_sanitize_counterexample :
  well_formed [Byte.x61; Byte.x0a; Byte.x62] = true /\
  str_sanitize [Byte.x61; Byte.x0a; Byte.x62; Byte.x00] 4 U_SPECIAL =
    Some ([Byte.x61; Byte.x3f; Byte.x62; Byte.x00], 1).
Proof. split; vm_compute; reflexivity. Qed.

(** C4 (amended): for every buffer whose string (the bytes before the
    first null byte, at most [n]) is well-formed UTF-8 and holds no C0 and
    no C1 control code, and for every [n], [STR_NO_LIMIT] included:
    [str_sanitize] performs no replacement (it returns 0) and leaves the
    buffer unchanged, if the buffer holds a null byte or at least [n]
    bytes; on a buffer of fewer than [n] bytes without a null byte it
    reads past the end of the buffer. *)
Theorem str_sanitize_well_formed str n replacement :
  0 <= n <= SIZE_MAX -> Z.of_nat (length str) <= PTRDIFF_MAX ->
  well_formed_printable (strn str (Z.to_nat n)) = true ->
  (n <= Z.of_nat (length str) \/ Byte.x00 ∈ str ->
   str_sanitize str n replacement = Some (str, 0)) /\
  (Z.of_nat (length str) < n -> Byte.x00 ∉ str ->
   str_sanitize str n replacement = None).
Proof.
  intros Hn Hlen Hwf. unfold str_sanitize, _str_sanitize.
  unfold well_formed_printable in Hwf.
  pose proof (strn_loads str (Z.to_nat n)) as (Hk1 & Hk2 & _ & Hend).
  set (k := Z.of_nat (length (strn str (Z.to_nat n)))) in *.
  assert (Hk3 : k <= n) by lia.
  split.
  - intros Hacc.
    assert (Hacc' : k = n \/ load str k = Some 0).
    { destruct Hend as [?|[E|?]]; [left; lia| |by right].
      destruct Hacc as [?|Hin]; [left; lia|].
      by apply (strn_null str (Z.to_nat n)) in Hin. }
    rewrite <- (Z.sub_0_r n) at 1.
    eapply (sanitize_loop_well_formed str n replacement); try reflexivity;
      try assumption; [lia| |exact Hwf].
    fold k. destruct Hacc' as [E|E]; [right; lia|left].
    apply load_Some in E. lia.
  - intros Hshort Hnull.
    rewrite <- (Z.sub_0_r n) at 1.
    eapply (sanitize_loop_off_end str n replacement); try reflexivity;
      try assumption; [| |lia|exact Hwf]; fold k; [lia|].
    destruct Hend as [?|[E|E]]; [lia|exact E|].
    exfalso. apply Hnull. unfold load in E.
    destruct (Z.ltb_spec k 0); [lia|].
    destruct (str !! Z.to_nat k) as [b|] eqn:Eb; [|discriminate].
    injection E as E. apply (f_equal z2b) in E. rewrite z2b_b2z in E. subst b.
    by eapply list_elem_of_lookup_2.
Qed.

Lemma str_sanitize_well_formed_witness :
  (STR_NO_LIMIT <= Z.of_nat (length [Byte.x61; Byte.xe2; Byte.x82; Byte.xac; Byte.x00; Byte.xff]) \/
   Byte.x00 ∈ [Byte.x61; Byte.xe2; Byte.x82; Byte.xac; Byte.x00; Byte.xff] ->
   str_sanitize [Byte.x61; Byte.xe2; Byte.x82; Byte.xac; Byte.x00; Byte.xff] STR_NO_LIMIT
     U_SPECIAL =
   Some ([Byte.x61; Byte.xe2; Byte.x82; Byte.xac; Byte.x00; Byte.xff], 0)) /\
  (Z.of_nat (length [Byte.x61; Byte.xe2; Byte.x82; Byte.xac; Byte.x00; Byte.xff]) < STR_NO_LIMIT ->
   Byte.x00 ∉ [Byte.x61; Byte.xe2; Byte.x82; Byte.xac; Byte.x00; Byte.xff] ->
   str_sanitize [Byte.x61; Byte.xe2; Byte.x82; Byte.xac; Byte.x00; Byte.xff] STR_NO_LIMIT
     U_SPECIAL = None).
Proof.
  apply (str_sanitize_well_formed
           [Byte.x61; Byte.xe2; Byte.x82; Byte.xac; Byte.x00; Byte.xff] STR_NO_LIMIT U_SPECIAL);
    [unfold STR_NO_LIMIT, SIZE_MAX, SIZE_MOD; lia
    | unfold PTRDIFF_MAX; cbn [length]; lia | reflexivity].
Defined.

(** ** Well-formed windows *)

Lemma all_scalars_fuel_mono P fuel fuel' s offset size :
  (fuel <= fuel')%nat ->
  all_scalars P fuel s offset size = true ->
  all_scalars P fuel' s offset size = true.
Proof.
  revert fuel' offset. induction fuel as [|fuel IH]; intros fuel' offset Hle H.
  - cbn [all_scalars] in H. destruct (Z.eqb_spec offset size) as [->|];
      [|discriminate].
    destruct fuel'; cbn [all_scalars]; by rewrite Z.eqb_refl.
  - destruct fuel' as [|fuel']; [lia|]. rewrite all_scalars_unfold in *.
    destruct (offset =? size); [reflexivity|].
    destruct (_str_decode s offset size mb_clean) as [[[ch off'] mb']|];
      [|discriminate].
    apply andb_prop in H as [H Hrest]. rewrite H. cbn [andb].
    apply IH; [lia|exact Hrest].
Qed.

(** Well-formedness of a window depends on the bytes of the window only,
    and a weaker condition on the characters holds as well. *)
Lemma all_scalars_transfer (P Q : Z -> bool) fuel s1 s2 offset size :
  (forall ch, P ch = true -> Q ch = true) ->
  (forall i, 0 <= i < size -> load s1 i = load s2 i) ->
  0 <= offset <= size -> size <= PTRDIFF_MAX ->
  Z.of_nat (length s1) <= PTRDIFF_MAX ->
  all_scalars P fuel s1 offset size = true ->
  all_scalars Q fuel s2 offset size = true.
Proof.
  intros HPQ Hagree. revert offset.
  induction fuel as [|fuel IH]; intros offset Hoff Hsize Hlen H.
  - cbn [all_scalars] in *. by destruct (offset =? size).
  - rewrite all_scalars_unfold in *.
    destruct (Z.eqb_spec offset size); [reflexivity|].
    rewrite <- (str_decode_agree s1 s2) by assumption.
    destruct (_str_decode s1 offset size mb_clean) as [[[ch off'] mb']|] eqn:E;
      [|discriminate].
    apply andb_prop in H as [H Hrest]. apply andb_prop in H as [H HP].
    rewrite H, (HPQ _ HP). cbn [andb].
    apply andb_prop in H as [Hinv Hst].
    apply negb_true_iff, Z.eqb_neq in Hinv. apply Z.eqb_eq in Hst.
    destruct (str_decode_clean_inv s1 offset size ch off' mb')
      as [?|[?|(_ & _ & _ & -> & Hle)]]; try assumption; try lia.
    { unfold PTRDIFF_MAX, SIZE_MAX, SIZE_MOD in *. lia. }
    apply IH; try assumption. lia.
Qed.

Lemma utf8_at_before_nul s p ch k :
  utf8_at s p ch -> 0 < ch <= 0x10FFFF -> p <= k -> load s k = Some 0 ->
  p + Z.of_nat (length (utf8_bytes ch)) <= k.
Proof.
  intros Hat Hch Hp Hk.
  destruct (Z.le_gt_cases (p + Z.of_nat (length (utf8_bytes ch))) k) as [|Hlt];
    [assumption|exfalso].
  specialize (Hat (Z.to_nat (k - p)) ltac:(lia)).
  replace (p + Z.of_nat (Z.to_nat (k - p))) with k in Hat by lia.
  rewrite Hk in Hat. symmetry in Hat. by apply utf8_bytes_nonzero in Hat.
Qed.

(** ** The sanitizer produces a well-formed string *)

Lemma sanitize_loop_sanitizes r k :
  0x20 <= r < 0x80 ->
  forall fuel str p n count,
    0 <= p <= k -> k < Z.of_nat (length str) ->
    Z.of_nat (length str) <= PTRDIFF_MAX -> load str k = Some 0 ->
    (forall i, p <= i < k -> load str i <> Some 0) ->
    k - p < n -> n <= SIZE_MAX -> k - p < Z.of_nat fuel ->
    exists str' count',
      sanitize_loop fuel str p n count r = Some (str', count') /\
      length str' = length str /\
      (forall i, i < p \/ k <= i -> load str' i = load str i) /\
      (forall i, p <= i < k -> load str' i <> Some 0) /\
      all_scalars (fun ch => negb (is_control ch)) (Z.to_nat (k - p)) str' p k = true.
Proof.
  intros Hr. induction fuel as [|fuel IH];
    intros str p n count Hp Hk Hlen Hnul Hnz Hn Hmax Hfuel; [lia|].
  destruct (Z.eq_dec p k) as [->|Hne].
  { exists str, count. cbn [sanitize_loop].
    destruct (Z.ltb_spec 0 n); [|lia]. rewrite Hnul. cbn.
    split; [reflexivity|]. split; [reflexivity|]. split; [auto|].
    split; [intros; lia|].
    rewrite Z.sub_diag. change (Z.to_nat 0) with 0%nat.
    cbn [all_scalars]. by rewrite Z.eqb_refl. }
  destruct (store_is_Some str p r) as [str1 Hst]; [lia|].
  pose proof (store_Some _ _ _ _ Hst) as (_ & Hl1 & Hld1).
  assert (Efuel : Z.to_nat (k - p) = S (Z.to_nat (k - p - 1))) by lia.
  destruct (sanitize_step fuel str p n count r k str1)
    as [E|(ch & Hsc & Hchnz & Hctl & Hat & Hfit)]; try assumption; try lia.
  - (* the byte is replaced *)
    rewrite E.
    destruct (IH str1 (p + 1) (n - 1) (size_add count 1))
      as (str' & count' & E' & Hl' & Hsame & Hnz' & Hwf); try lia.
    { rewrite Hld1. destruct (Z.eqb_spec k p); [lia|exact Hnul]. }
    { intros i Hi. rewrite Hld1. destruct (Z.eqb_spec i p); [lia|].
      apply Hnz. lia. }
    assert (Lp : load str' p = Some r).
    { rewrite Hsame by lia. rewrite Hld1, Z.eqb_refl. f_equal. zlia. }
    exists str', count'. split; [exact E'|]. split; [congruence|].
    split; [|split].
    + intros i Hi. rewrite Hsame by lia. rewrite Hld1.
      destruct (Z.eqb_spec i p); [lia|reflexivity].
    + intros i Hi. destruct (Z.eq_dec i p) as [->|].
      * rewrite Lp. intros [= ?]. lia.
      * apply Hnz'. lia.
    + rewrite Efuel, all_scalars_unfold.
      destruct (Z.eqb_spec p k); [lia|].
      assert (Eb : utf8_bytes r = [r]) by (apply utf8_bytes_1; lia).
      rewrite (str_decode_utf8_at str' p k r); rewrite ?Eb; cbn [length];
        try lia; try (unfold PTRDIFF_MAX in *; lia).
      * replace (p + Z.of_nat 1) with (p + 1) by lia.
        replace (k - p - 1) with (k - (p + 1)) by lia. rewrite Hwf.
        unfold is_control, CHAR_INVALID. cbn [state mb_clean].
        rewrite andb_true_r. zlia.
      * unfold is_scalar. lia.
      * apply (utf8_at_of_loads _ _ _ _ Eb).
        intros [|[|]] v [= <-]. by rewrite Z.add_0_r.
  - (* the bytes are the encoding of a scalar *)
    pose proof (utf8_bytes_length ch) as El.
    assert (Hl1' : 1 <= Z.of_nat (length (utf8_bytes ch)) <= 4)
      by (revert El; case_cmp; lia).
    assert (Hend : p + Z.of_nat (length (utf8_bytes ch)) <= k).
    { apply (utf8_at_before_nul str); try assumption; [|lia].
      destruct Hsc as [? _]. lia. }
    rewrite (sanitize_accept fuel str p n count r ch); try assumption; try lia.
    destruct (IH str (p + Z.of_nat (length (utf8_bytes ch)))
                 (n - Z.of_nat (length (utf8_bytes ch))) count)
      as (str' & count' & E' & Hl' & Hsame & Hnz' & Hwf); try assumption; try lia.
    { intros i Hi. apply Hnz. lia. }
    assert (Hat' : utf8_at str' p ch).
    { eapply utf8_at_agree; [|exact Hat]. intros i Hi. symmetry.
      apply Hsame. lia. }
    exists str', count'. split; [exact E'|]. split; [exact Hl'|].
    split; [|split].
    + intros i Hi. apply Hsame. lia.
    + intros i Hi.
      destruct (Z.lt_ge_cases i (p + Z.of_nat (length (utf8_bytes ch)))).
      * rewrite Hsame by lia. apply Hnz. lia.
      * apply Hnz'. lia.
    + rewrite Efuel, all_scalars_unfold.
      destruct (Z.eqb_spec p k); [lia|].
      rewrite (str_decode_utf8_at str' p k ch); try assumption; try lia;
        try (unfold PTRDIFF_MAX in *; lia).
      rewrite Hctl. cbn [state mb_clean negb andb].
      replace (ch =? CHAR_INVALID) with false
        by (destruct Hsc as [? _]; unfold CHAR_INVALID; lia).
      cbn [negb andb Z.eqb].
      eapply all_scalars_fuel_mono; [|exact Hwf]. lia.
Qed.

(** ** Bounded copy *)

Section Copy.
Variables (src : list byte) (L : Z).
Hypothesis Hnul : load src L = Some 0.
Hypothesis Hnz : forall j, 0 <= j < L -> load src j <> Some 0.

(** The copy loop stops at the terminator of the source or at the last
    byte of the destination, whichever comes first, and writes the
    terminator there. *)
Lemma cpyn_loop_spec top fuel dest i :
  0 <= i <= Z.min L top -> Z.min L top < Z.of_nat (length dest) ->
  Z.min L top - i < Z.of_nat fuel ->
  exists dest',
    cpyn_loop fuel dest src i top = Some dest' /\
    length dest' = length dest /\
    load dest' (Z.min L top) = Some 0 /\
    (forall j, i <= j < Z.min L top -> load dest' j = load src j) /\
    (forall j, j < i \/ Z.min L top < j -> load dest' j = load dest j).
Proof.
  pose proof (load_Some _ _ _ Hnul) as [HL _].
  revert dest i. induction fuel as [|fuel IH]; intros dest i Hi Hcap Hfuel; [lia|].
  cbn [cpyn_loop].
  destruct (load_is_Some src i) as (c & Lc & Hc); [lia|].
  rewrite Lc. cbn [mbind option_bind].
  destruct (negb (c =? 0) && (i <? top)) eqn:Econt.
  - apply andb_prop in Econt as [Ec Et].
    apply negb_true_iff, Z.eqb_neq in Ec. apply Z.ltb_lt in Et.
    assert (i < L).
    { destruct (Z.eq_dec i L) as [->|]; [|lia]. congruence. }
    destruct (store_is_Some dest i c) as [d1 Hst]; [lia|].
    rewrite Hst. cbn [mbind option_bind].
    apply store_Some in Hst as (_ & Hl1 & Hld1).
    destruct (IH d1 (i + 1)) as (d2 & E & Hl2 & Hz & Hcopy & Hframe); try lia.
    exists d2. split; [exact E|]. split; [congruence|]. split; [exact Hz|].
    split.
    + intros j Hj. destruct (Z.eq_dec j i) as [->|].
      * rewrite Hframe by lia. rewrite Hld1, Z.eqb_refl, Lc. f_equal. zlia.
      * apply Hcopy. lia.
    + intros j Hj. rewrite Hframe by lia. rewrite Hld1.
      destruct (Z.eqb_spec j i); [lia|reflexivity].
  - assert (Ei : i = Z.min L top).
    { apply andb_false_iff in Econt as [Ec|Et].
      - apply negb_false_iff, Z.eqb_eq in Ec. subst c.
        destruct (Z.lt_ge_cases i L); [|lia]. exfalso. apply (Hnz i); [lia|exact Lc].
      - apply Z.ltb_ge in Et. lia. }
    destruct (store_is_Some dest i 0) as [d1 Hst]; [lia|].
    rewrite Hst. apply store_Some in Hst as (_ & Hl1 & Hld1).
    exists d1. split; [reflexivity|]. split; [exact Hl1|]. rewrite <- Ei.
    split; [by rewrite Hld1, Z.eqb_refl|]. split; [intros; lia|].
    intros j Hj. rewrite Hld1. destruct (Z.eqb_spec j i); [lia|reflexivity].
Qed.

(** Without a limit the loop is the bounded one with the limit at the
    terminator of the source. *)
Lemma cpy_loop_cpyn_loop top fuel dest i :
  L <= top -> 0 <= i <= L ->
  cpy_loop fuel dest src i = cpyn_loop fuel dest src i top.
Proof.
  intros Htop. revert dest i. induction fuel as [|fuel IH]; intros dest i Hi;
    [reflexivity|].
  cbn [cpy_loop cpyn_loop].
  destruct (load src i) as [c|] eqn:Lc; [|reflexivity]. cbn [mbind option_bind].
  destruct (Z.eqb_spec c 0) as [->|Hc]; [reflexivity|]. cbn [negb andb].
  assert (i < L).
  { destruct (Z.eq_dec i L) as [->|]; [|lia]. congruence. }
  destruct (Z.ltb_spec i top); [|lia].
  destruct (store dest i c); [|reflexivity]. cbn [mbind option_bind].
  apply IH. lia.
Qed.
End Copy.

(** The first null byte of a buffer that holds one. *)
Lemma first_nul src :
  Byte.x00 ∈ src ->
  let L := Z.of_nat (length (strn src (length src))) in
  load src L = Some 0 /\ forall j, 0 <= j < L -> load src j <> Some 0.
Proof.
  intros Hin. cbv zeta.
  destruct (strn_spec src (length src)) as (H1 & H2 & H3 & H4).
  destruct (strn_loads src (length src)) as (_ & _ & Hld & Hend).
  split; [|intros j Hj; by apply Hld].
  assert (Hfull : length (strn src (length src)) = length src -> False).
  { intros E. apply list_elem_of_lookup in Hin as [i Hi].
    destruct (H3 i) as (_ & b & Eb & Hb).
    - rewrite E. by eapply lookup_lt_Some.
    - rewrite Hi in Eb. injection Eb as <-. by apply Hb. }
  destruct Hend as [E|[E|E]]; [exfalso; apply Hfull; lia..|exact E].
Qed.

(** C5: for every capacity [size >= 1] and every null-terminated source,
    [str_cpy] leaves a null terminator at an index [k < size], with no null
    byte before it, and the [k] bytes before the terminator are well-formed
    UTF-8: they decode character by character without an invalid or
    incomplete sequence.  The destination holds [size] bytes, or, with
    [STR_NO_LIMIT], room for the source string and its terminator. *)
Theorem str_cpy_terminated_well_formed dest size src :
  1 <= size <= SIZE_MAX -> Byte.x00 ∈ src ->
  Z.of_nat (length src) <= PTRDIFF_MAX ->
  Z.of_nat (length dest) <= PTRDIFF_MAX ->
  size <= Z.of_nat (length dest) \/
    (size = STR_NO_LIMIT /\
     Z.of_nat (length (strn src (length src))) < Z.of_nat (length dest)) ->
  exists dest' k,
    str_cpy dest size src = Some dest' /\
    0 <= k < size /\ load dest' k = Some 0 /\
    (forall i, 0 <= i < k -> load dest' i <> Some 0) /\
    length dest' = length dest /\
    well_formed (take (Z.to_nat k) dest') = true.
Proof.
  intros Hsize Hin Hlsrc Hldest Hcap.
  destruct (first_nul src Hin) as [Hnul Hnz].
  set (L := Z.of_nat (length (strn src (length src)))) in *.
  pose proof (load_Some _ _ _ Hnul) as [HL _].
  unfold PTRDIFF_MAX, SIZE_MAX, SIZE_MOD in *.
  (* the copy *)
  assert (Hcopy : exists k dest1,
    _str_cpyn dest size src = Some dest1 /\ 0 <= k < size /\
    k < Z.of_nat (length dest) /\ length dest1 = length dest /\
    load dest1 k = Some 0 /\ forall j, 0 <= j < k -> load dest1 j <> Some 0).
  { unfold _str_cpyn, _str_cpy.
    destruct (Z.eqb_spec size 0); [lia|].
    destruct (Z.eqb_spec size STR_NO_LIMIT) as [Elim|Hlim].
    - assert (L < Z.of_nat (length dest))
        by (destruct Hcap as [?|[_ ?]]; unfold STR_NO_LIMIT, SIZE_MAX, SIZE_MOD in *; lia).
      rewrite (cpy_loop_cpyn_loop src L Hnul L) by lia.
      destruct (cpyn_loop_spec src L Hnul Hnz L (S (length src)) dest 0)
        as (d1 & E & Hl & Hz & Hcp & _); try lia.
      rewrite Z.min_id in *.
      exists L, d1. split; [exact E|].
      split; [unfold STR_NO_LIMIT, SIZE_MAX, SIZE_MOD in *; lia|].
      split; [lia|]. split; [exact Hl|]. split; [exact Hz|].
      intros j Hj. rewrite Hcp by lia. by apply Hnz.
    - assert (size <= Z.of_nat (length dest)) by (destruct Hcap as [?|[? _]]; [lia|contradiction]).
      destruct (cpyn_loop_spec src L Hnul Hnz (size - 1) (S (length src)) dest 0)
        as (d1 & E & Hl & Hz & Hcp & _); try lia.
      exists (Z.min L (size - 1)), d1. split; [exact E|].
      split; [lia|]. split; [lia|]. split; [exact Hl|]. split; [exact Hz|].
      intros j Hj. rewrite Hcp by lia. apply Hnz. lia. }
  destruct Hcopy as (k & dest1 & Ecpy & Hk & Hkd & Hl1 & Hz1 & Hnz1).
  (* the sanitizer *)
  destruct (sanitize_loop_sanitizes U_SPECIAL k ltac:(unfold U_SPECIAL; lia)
              (length dest1) dest1 0 size 0)
    as (dest2 & count & Esan & Hl2 & Hframe & Hnz2 & Hwf); try lia;
    try (unfold PTRDIFF_MAX, SIZE_MAX, SIZE_MOD; lia); try assumption.
  exists dest2, k. unfold str_cpy. rewrite Ecpy. cbn [mbind option_bind].
  unfold _str_sanitize. rewrite Esan. cbn [mbind option_bind].
  split; [reflexivity|]. split; [exact Hk|].
  split; [rewrite Hframe by lia; exact Hz1|]. split; [exact Hnz2|].
  split; [congruence|].
  unfold well_formed.
  assert (Elen : length (take (Z.to_nat k) dest2) = Z.to_nat k)
    by (rewrite length_take; lia).
  rewrite Elen, Z2Nat.id by lia. rewrite Z.sub_0_r in Hwf.
  eapply (all_scalars_transfer _ _ _ dest2); [| | | | |exact Hwf];
    try (unfold PTRDIFF_MAX; lia).
  intros i Hi. unfold load. destruct (Z.ltb_spec i 0); [lia|].
  rewrite lookup_take_lt by lia. reflexivity.
Qed.

Lemma str_cpy_terminated_well_formed_witness :
  exists dest' k,
    str_cpy [Byte.x01; Byte.x01; Byte.x01; Byte.x01] 4
      [Byte.x61; Byte.xe2; Byte.x82; Byte.xac; Byte.x00] = Some dest' /\
    0 <= k < 4 /\ load dest' k = Some 0 /\
    (forall i, 0 <= i < k -> load dest' i <> Some 0) /\
    length dest' = length [Byte.x01; Byte.x01; Byte.x01; Byte.x01] /\
    well_formed (take (Z.to_nat k) dest') = true.
Proof.
  apply (str_cpy_terminated_well_formed
           [Byte.x01; Byte.x01; Byte.x01; Byte.x01] 4
           [Byte.x61; Byte.xe2; Byte.x82; Byte.xac; Byte.x00]).
  - unfold SIZE_MAX, SIZE_MOD. lia.
  - apply list_elem_of_In. cbn. tauto.
  - unfold PTRDIFF_MAX. cbn [length]. lia.
  - unfold PTRDIFF_MAX. cbn [length]. lia.
  - left. cbn [length]. lia.
Defined.

(** ** UTF-16: one character *)

Lemma store16_Some dest i v :
  0 <= i < Z.of_nat (length dest) ->
  store16 dest i v = Some (<[Z.to_nat i := u16 v]> dest).
Proof.
  intros Hi. unfold store16.
  destruct (Z.leb_spec 0 i), (Z.ltb_spec i (Z.of_nat (length dest))); try lia.
  reflexivity.
Qed.

Lemma load_z2b_app l1 l2 i v :
  l1 !! i = Some v -> 0 <= v < 256 ->
  load ((z2b <$> l1) ++ l2) (Z.of_nat i) = Some v.
Proof.
  intros Hv Hr. unfold load. destruct (Z.ltb_spec (Z.of_nat i) 0); [lia|].
  rewrite Nat2Z.id, lookup_app_l by (rewrite length_fmap; by eapply lookup_lt_Some).
  rewrite list_lookup_fmap, Hv. cbn. f_equal. rewrite b2z_z2b. zlia.
Qed.

Lemma utf8_bytes_range ch i v :
  0 <= ch <= 0x10FFFF -> utf8_bytes ch !! i = Some v -> 0 <= v < 256.
Proof.
  intros Hch. unfold utf8_bytes.
  case_cmp; destruct i as [|[|[|[|i]]]]; cbn; intros [= <-]; zlia.
Qed.

Lemma to_utf16_loop_S fuel dest dlen src offset idx :
  to_utf16_loop (S fuel) dest dlen src offset idx =
    '(c, offset') ← str_decode src offset STR_NO_LIMIT;
    if c =? 0 then dest' ← store16 dest idx 0; Some (EOK, dest')
    else
      let after (dest : list Z) (idx : Z) :=
        let idx := size_add idx 1 in
        if size_sub dlen 1 <=? idx
        then dest' ← store16 dest idx 0; Some (EOVERFLOW, dest')
        else to_utf16_loop fuel dest dlen src offset' idx in
      if 0x10000 <? c then
        if size_sub dlen 1 <=? size_add idx 2
        then dest' ← store16 dest idx 0; Some (EOVERFLOW, dest')
        else
          let c := u32 (c - 0x10000) in
          dest1 ← store16 dest idx (Z.lor 0xD800 (Z.shiftr c 10));
          dest2 ← store16 dest1 (size_add idx 1) (Z.lor 0xDC00 (Z.land c 0x3FF));
          after dest2 (size_add idx 1)
      else
        dest1 ← store16 dest idx c;
        after dest1 idx.
Proof. reflexivity. Qed.

(** The string that holds the single character [c]. *)
Lemma utf8_at_string c tail :
  0 <= c <= 0x10FFFF -> utf8_at ((z2b <$> utf8_bytes c) ++ tail) 0 c.
Proof.
  intros Hc i Hi. apply lookup_lt_is_Some_2 in Hi as [v Hv].
  rewrite Hv, Z.add_0_l. apply load_z2b_app; [exact Hv|].
  by eapply utf8_bytes_range.
Qed.

(** [str_to_utf16] on the string that holds one scalar [c] other than
    0x10000: a scalar below 0x10000 becomes one unit equal to the scalar, a
    scalar above 0x10000 becomes the surrogate pair of the claim; the
    terminator follows. *)
Theorem str_to_utf16_one_scalar c dest dlen :
  is_scalar c -> c <> 0 -> c <> 0x10000 ->
  4 <= dlen -> dlen <= Z.of_nat (length dest) ->
  Z.of_nat (length dest) <= PTRDIFF_MAX ->
  str_to_utf16 dest dlen ((z2b <$> utf8_bytes c) ++ [Byte.x00]) =
    Some (EOK,
          if c <? 0x10000 then <[1%nat := 0]> (<[0%nat := c]> dest)
          else <[2%nat := 0]>
                 (<[1%nat := 0xDC00 + (c - 0x10000) mod 1024]>
                    (<[0%nat := 0xD800 + (c - 0x10000) / 1024]> dest))).
Proof.
  intros Hsc Hnz Hne Hdlen Hcap Hlen. pose proof Hsc as [Hc Hsur].
  unfold PTRDIFF_MAX in Hlen.
  set (src := (z2b <$> utf8_bytes c) ++ [Byte.x00]).
  pose proof (utf8_bytes_length c) as El.
  assert (Hn : 1 <= Z.of_nat (length (utf8_bytes c)) <= 4)
    by (revert El; case_cmp; lia).
  assert (Elen : length src = S (length (utf8_bytes c)))
    by (subst src; rewrite length_app, length_fmap; cbn; lia).
  assert (Hlsrc : Z.of_nat (length src) <= PTRDIFF_MAX)
    by (unfold PTRDIFF_MAX; lia).
  (* the first call returns [c] *)
  assert (E1 : str_decode src 0 STR_NO_LIMIT =
               Some (c, Z.of_nat (length (utf8_bytes c)))).
  { unfold str_decode.
    rewrite (str_decode_utf8_at src 0 STR_NO_LIMIT c); try assumption; try lia.
    - cbn [mbind option_bind mb_clean state]. rewrite Z.add_0_l.
      unfold CHAR_INVALID. destruct (Z.eqb_spec c 4294967295); [lia|]. reflexivity.
    - unfold STR_NO_LIMIT, SIZE_MAX, SIZE_MOD. lia.
    - apply utf8_at_string. lia. }
  (* the second call meets the terminator *)
  assert (E2 : str_decode src (Z.of_nat (length (utf8_bytes c))) STR_NO_LIMIT =
               Some (0, Z.of_nat (length (utf8_bytes c)) + 1)).
  { unfold str_decode, _str_decode. cbn [state mb_clean].
    destruct (Z.eqb_spec (Z.of_nat (length (utf8_bytes c))) STR_NO_LIMIT) as [E|_].
    { unfold STR_NO_LIMIT, SIZE_MAX, SIZE_MOD in E. lia. }
    assert (L : load src (Z.of_nat (length (utf8_bytes c))) = Some 0).
    { unfold load, src.
      destruct (Z.ltb_spec (Z.of_nat (length (utf8_bytes c))) 0); [lia|].
      rewrite Nat2Z.id, lookup_app_r by (rewrite length_fmap; lia).
      rewrite length_fmap, Nat.sub_diag. reflexivity. }
    rewrite Z.eqb_refl, L. cbn [mbind option_bind].
    rewrite size_add_small by (unfold SIZE_MOD; lia). reflexivity. }
  unfold str_to_utf16. rewrite Elen.
  rewrite to_utf16_loop_S, E1. cbn [mbind option_bind]. cbv zeta.
  destruct (Z.eqb_spec c 0); [lia|].
  assert (Hsub : size_sub dlen 1 = dlen - 1)
    by (apply size_sub_small; unfold SIZE_MOD; lia).
  rewrite !Hsub.
  assert (A01 : size_add 0 1 = 1) by reflexivity.
  assert (A02 : size_add 0 2 = 2) by reflexivity.
  assert (A11 : size_add 1 1 = 2) by reflexivity.
  change (Z.to_nat 0) with 0%nat.
  destruct (Z.ltb_spec 0x10000 c) as [Hbig|Hsmall].
  - rewrite A02. destruct (Z.leb_spec (dlen - 1) 2); [lia|].
    destruct (Z.ltb_spec c 0x10000); [lia|].
    assert (Eu : u32 (c - 65536) = c - 65536) by (unfold u32; zlia).
    rewrite Eu. autorewrite with bits.
    rewrite (lor_add_disjoint 0xD800 _ 11) by zlia.
    rewrite (lor_add_disjoint 0xDC00 _ 10) by zlia.
    rewrite store16_Some by lia. cbn [mbind option_bind].
    rewrite A01, store16_Some by (rewrite length_insert; lia).
    cbn [mbind option_bind]. rewrite A11.
    destruct (Z.leb_spec (dlen - 1) 2); [lia|].
    rewrite to_utf16_loop_S, E2. cbn [mbind option_bind Z.eqb].
    rewrite store16_Some by (rewrite !length_insert; lia).
    cbn [mbind option_bind]. unfold u16.
    change (Z.to_nat 0) with 0%nat. change (Z.to_nat 1) with 1%nat.
    change (Z.to_nat 2) with 2%nat.
    repeat f_equal; zlia.
  - destruct (Z.ltb_spec c 0x10000); [|lia].
    rewrite store16_Some by lia. cbn [mbind option_bind].
    rewrite A01. destruct (Z.leb_spec (dlen - 1) 1); [lia|].
    rewrite to_utf16_loop_S, E2. cbn [mbind option_bind Z.eqb].
    rewrite store16_Some by (rewrite !length_insert; lia).
    cbn [mbind option_bind]. unfold u16.
    change (Z.to_nat 0) with 0%nat. change (Z.to_nat 1) with 1%nat.
    repeat f_equal; zlia.
Qed.

Lemma str_to_utf16_one_scalar_witness :
  str_to_utf16 [0xFFFF; 0xFFFF; 0xFFFF; 0xFFFF] 4
    ((z2b <$> utf8_bytes 0x1F600) ++ [Byte.x00]) =
  Some (EOK,
        if 0x1F600 <? 0x10000
        then <[1%nat := 0]> (<[0%nat := 0x1F600]> [0xFFFF; 0xFFFF; 0xFFFF; 0xFFFF])
        else <[2%nat := 0]>
               (<[1%nat := 0xDC00 + (0x1F600 - 0x10000) mod 1024]>
                  (<[0%nat := 0xD800 + (0x1F600 - 0x10000) / 1024]>
                     [0xFFFF; 0xFFFF; 0xFFFF; 0xFFFF]))).
Proof.
  apply (str_to_utf16_one_scalar 0x1F600 [0xFFFF; 0xFFFF; 0xFFFF; 0xFFFF] 4);
    unfold is_scalar, PTRDIFF_MAX; cbn [length]; lia.
Defined.

(** ** Comparison of unsigned bytes *)

Lemma load_cons b s i : 0 <= i -> load (b :: s) (i + 1) = load s i.
Proof.
  intros Hi. unfold load.
  destruct (Z.ltb_spec (i + 1) 0), (Z.ltb_spec i 0); try lia.
  replace (Z.to_nat (i + 1)) with (S (Z.to_nat i)) by lia. reflexivity.
Qed.

Lemma cmp_loop_cons sg fuel b1 b2 s1 s2 i :
  0 <= i ->
  cmp_loop sg fuel (b1 :: s1) (b2 :: s2) (i + 1) = cmp_loop sg fuel s1 s2 i.
Proof.
  revert i. induction fuel as [|fuel IH]; intros i Hi; [reflexivity|].
  cbn [cmp_loop]. rewrite !load_cons by lia.
  destruct (load s1 i) as [c1|]; [|reflexivity].
  destruct (load s2 i) as [c2|]; [|reflexivity].
  cbn [mbind option_bind]. rewrite IH by lia. reflexivity.
Qed.

Lemma cmp_loop_lex l1 : forall l2 fuel,
  Forall (fun b => 0 <= b < 256) l1 -> Forall (fun b => 0 <= b < 256) l2 ->
  (length l1 < fuel)%nat ->
  cmp_loop false fuel (z2b <$> l1) (z2b <$> l2) 0 = lex_cmp l1 l2.
Proof.
  induction l1 as [|b1 l1 IH]; intros l2 fuel H1 H2 Hf.
  - destruct fuel; [cbn in Hf; lia|]. reflexivity.
  - destruct fuel as [|fuel]; [cbn in Hf; lia|]. cbn [length] in Hf.
    destruct l2 as [|b2 l2]; [reflexivity|].
    apply Forall_cons in H1 as [Hb1 H1]. apply Forall_cons in H2 as [Hb2 H2].
    cbn [cmp_loop fmap list_fmap lex_cmp].
    unfold load at 1 2. cbn [Z.ltb Z.compare]. change (Z.to_nat 0) with 0%nat.
    cbn [lookup list_lookup fmap option_fmap option_map mbind option_bind].
    rewrite !b2z_z2b, !Z.mod_small by lia.
    change (0 + 1) with (0 + 1). rewrite (cmp_loop_cons false fuel _ _ _ _ 0) by lia.
    rewrite IH by (assumption || lia). reflexivity.
Qed.

Ltac cmp_bytes :=
  repeat match goal with
  | |- context [?a =? ?b] => destruct (Z.eqb_spec a b); cbn [andb negb]
  | |- context [?a <? ?b] => destruct (Z.ltb_spec a b)
  end.

(** The first character decides, unless it is the same in both. *)
Lemma lex_cmp_utf8 c1 c2 r1 r2 :
  0 < c1 <= 0x10FFFF -> 0 < c2 <= 0x10FFFF ->
  lex_cmp (utf8_bytes c1 ++ r1) (utf8_bytes c2 ++ r2) =
    if c1 <? c2 then Some (-1) else if c2 <? c1 then Some 1
    else lex_cmp r1 r2.
Proof.
  intros H1 H2. unfold utf8_bytes.
  destruct (Z.ltb_spec c1 0x80), (Z.ltb_spec c1 0x800), (Z.ltb_spec c1 0x10000);
    try lia;
  destruct (Z.ltb_spec c2 0x80), (Z.ltb_spec c2 0x800), (Z.ltb_spec c2 0x10000);
    try lia;
  cbn [app lex_cmp].
  all: (cmp_bytes; try reflexivity; try (exfalso; zlia)).
Qed.

Lemma utf8_bytes_head c :
  0 < c <= 0x10FFFF -> exists b t, utf8_bytes c = b :: t /\ 0 < b.
Proof.
  intros Hc. unfold utf8_bytes. case_cmp; eexists _, _; (split; [reflexivity|zlia]).
Qed.

Lemma lex_cmp_strings l1 : forall l2,
  Forall (fun c => 0 < c <= 0x10FFFF) l1 ->
  Forall (fun c => 0 < c <= 0x10FFFF) l2 ->
  lex_cmp ((l1 ≫= utf8_bytes) ++ [0]) ((l2 ≫= utf8_bytes) ++ [0]) =
    Some (scalar_cmp l1 l2).
Proof.
  induction l1 as [|c1 l1 IH]; intros [|c2 l2] H1 H2.
  - reflexivity.
  - apply Forall_cons in H2 as [Hc2 H2].
    destruct (utf8_bytes_head c2 Hc2) as (b & t & E & Hb).
    cbn [mbind list_bind app]. rewrite E. cbn [app lex_cmp scalar_cmp].
    destruct (Z.eqb_spec 0 b); [lia|]. cbn [andb].
    destruct (Z.ltb_spec 0 b), (Z.ltb_spec 0 c2); try lia. reflexivity.
  - apply Forall_cons in H1 as [Hc1 H1].
    destruct (utf8_bytes_head c1 Hc1) as (b & t & E & Hb).
    cbn [mbind list_bind app]. rewrite E. cbn [app lex_cmp scalar_cmp].
    destruct (Z.eqb_spec b 0); [lia|]. cbn [andb].
    destruct (Z.ltb_spec b 0), (Z.ltb_spec c1 0), (Z.ltb_spec 0 c1); try lia.
    reflexivity.
  - apply Forall_cons in H1 as [Hc1 H1]. apply Forall_cons in H2 as [Hc2 H2].
    cbn [mbind list_bind scalar_cmp]. rewrite <- !app_assoc.
    rewrite lex_cmp_utf8 by assumption. rewrite IH by assumption.
    destruct (c1 <? c2), (c2 <? c1); reflexivity.
Qed.

Lemma utf8_string_bytes l :
  Forall (fun c => 0 <= c <= 0x10FFFF) l ->
  Forall (fun b => 0 <= b < 256) ((l ≫= utf8_bytes) ++ [0]).
Proof.
  intros H. apply Forall_app. split; [|repeat constructor; lia].
  induction H as [|c l Hc H IH]; [constructor|].
  cbn [mbind list_bind]. apply Forall_app. split; [|exact IH].
  apply Forall_lookup. intros i v Hv. by eapply utf8_bytes_range.
Qed.

(** Where [char] is unsigned, [str_cmp] on the strings that hold two
    sequences of code points other than null orders them as the
    documentation says: by the first character that differs, the shorter
    string as if padded by null characters. *)
Theorem str_cmp_unsigned_scalar_order l1 l2 :
  Forall (fun c => 0 < c <= 0x10FFFF) l1 ->
  Forall (fun c => 0 < c <= 0x10FFFF) l2 ->
  str_cmp false (utf8_string l1) (utf8_string l2) = Some (scalar_cmp l1 l2).
Proof.
  intros H1 H2. unfold str_cmp, utf8_string.
  rewrite cmp_loop_lex.
  - by apply lex_cmp_strings.
  - apply utf8_string_bytes. eapply Forall_impl; [exact H1|]. cbn. lia.
  - apply utf8_string_bytes. eapply Forall_impl; [exact H2|]. cbn. lia.
  - rewrite length_fmap. lia.
Qed.

Lemma str_cmp_unsigned_scalar_order_witness :
  str_cmp false (utf8_string [0xE9; 0x62]) (utf8_string [0x61; 0x20AC]) =
    Some (scalar_cmp [0xE9; 0x62] [0x61; 0x20AC]).
Proof.
  apply (str_cmp_unsigned_scalar_order [0xE9; 0x62] [0x61; 0x20AC]);
    repeat constructor; lia.
Defined.

(** ** Strings of several characters *)

Lemma load_z2b_mid pre mid post i v :
  mid !! i = Some v -> 0 <= v < 256 ->
  load (z2b <$> pre ++ mid ++ post) (Z.of_nat (length pre) + Z.of_nat i) = Some v.
Proof.
  intros Hv Hr. unfold load.
  destruct (Z.ltb_spec (Z.of_nat (length pre) + Z.of_nat i) 0); [lia|].
  replace (Z.to_nat (Z.of_nat (length pre) + Z.of_nat i))
    with (length pre + i)%nat by lia.
  rewrite list_lookup_fmap, lookup_app_r by lia.
  replace (length pre + i - length pre)%nat with i by lia.
  rewrite lookup_app_l by (by eapply lookup_lt_Some).
  rewrite Hv. cbn. f_equal. rewrite b2z_z2b. zlia.
Qed.

Lemma str_scalars_from_string l : forall pre fuel,
  Forall (fun c => is_scalar c /\ c <> 0) l ->
  Z.of_nat (length (pre ++ (l ≫= utf8_bytes) ++ [0])) <= PTRDIFF_MAX ->
  (length l < fuel)%nat ->
  str_scalars_from fuel (z2b <$> pre ++ (l ≫= utf8_bytes) ++ [0])
    (Z.of_nat (length pre)) = Some l.
Proof.
  induction l as [|c l IH]; intros pre fuel Hl Hlen Hf;
    (destruct fuel as [|fuel]; [cbn in Hf; lia|]); cbn [str_scalars_from].
  - cbn [mbind list_bind app] in *.
    unfold str_decode, _str_decode. cbn [state mb_clean].
    rewrite length_app in Hlen. cbn [length] in Hlen. unfold PTRDIFF_MAX in Hlen.
    destruct (Z.eqb_spec (Z.of_nat (length pre)) STR_NO_LIMIT) as [E|_].
    { unfold STR_NO_LIMIT, SIZE_MAX, SIZE_MOD in E. lia. }
    assert (L : load (z2b <$> pre ++ [0]) (Z.of_nat (length pre)) = Some 0).
    { pose proof (load_z2b_mid pre [0] [] 0 0 eq_refl ltac:(lia)) as L.
      rewrite Z.add_0_r in L. exact L. }
    rewrite Z.eqb_refl, L. reflexivity.
  - apply Forall_cons in Hl as [[Hsc Hnz] Hl]. cbn [mbind list_bind] in *.
    rewrite <- app_assoc in *.
    unfold str_decode.
    rewrite (str_decode_utf8_at _ (Z.of_nat (length pre)) STR_NO_LIMIT c);
      try assumption; try lia.
    + cbn [mbind option_bind mb_clean state]. unfold CHAR_INVALID.
      destruct Hsc as [Hc Hsur].
      destruct (Z.eqb_spec c 4294967295); [lia|].
      cbn [orb negb Z.eqb mbind option_bind].
      destruct (Z.eqb_spec c 0); [lia|].
      assert (E : str_scalars_from fuel
                    (z2b <$> pre ++ utf8_bytes c ++ (l ≫= utf8_bytes) ++ [0])
                    (Z.of_nat (length pre) + Z.of_nat (length (utf8_bytes c)))
                  = Some l).
      { rewrite <- Nat2Z.inj_add, <- length_app, app_assoc.
        apply IH; [assumption| |cbn [length] in Hf; lia].
        rewrite <- app_assoc. exact Hlen. }
      rewrite E. reflexivity.
    + rewrite !length_app in Hlen. unfold PTRDIFF_MAX in Hlen.
      unfold STR_NO_LIMIT, SIZE_MAX, SIZE_MOD. lia.
    + rewrite length_fmap. exact Hlen.
    + intros i Hi. apply lookup_lt_is_Some_2 in Hi as [v Hv]. rewrite Hv.
      apply load_z2b_mid; [exact Hv|].
      destruct Hsc as [Hc _]. by eapply utf8_bytes_range.
Qed.

(** Reading the string that holds the scalars [l], none of them null, with
    [str_decode] until it returns 0 gives back [l]. *)
Theorem str_scalars_utf8_string l :
  Forall (fun c => is_scalar c /\ c <> 0) l ->
  Z.of_nat (length (utf8_string l)) <= PTRDIFF_MAX ->
  str_scalars (utf8_string l) = Some l.
Proof.
  intros Hl Hlen. unfold str_scalars, utf8_string in *.
  rewrite length_fmap in Hlen.
  apply (str_scalars_from_string l [] _ Hl Hlen).
  rewrite length_fmap, length_app. cbn [length].
  enough (length l <= length (l ≫= utf8_bytes))%nat by lia.
  clear Hlen. induction Hl as [|c l [[Hc _] _] _ IH]; [reflexivity|].
  cbn [mbind list_bind length]. rewrite length_app.
  pose proof (utf8_bytes_length c) as El.
  assert (1 <= Z.of_nat (length (utf8_bytes c))) by (revert El; case_cmp; lia).
  lia.
Qed.

Lemma str_scalars_utf8_string_witness :
  str_scalars (utf8_string [0x48; 0xE9; 0x20AC; 0x1F600]) =
    Some [0x48; 0xE9; 0x20AC; 0x1F600].
Proof.
  apply (str_scalars_utf8_string [0x48; 0xE9; 0x20AC; 0x1F600]).
  - repeat constructor; lia.
  - vm_compute. discriminate.
Defined.

(** ** Resuming a character *)

Section Resume.
Variables (s : list byte) (size : Z).
Hypothesis Hlen : Z.of_nat (length s) <= PTRDIFF_MAX.
Hypothesis Hsize : size <= SIZE_MAX.

Lemma tail_last_byte o c :
  0 <= o -> 0x80 <= c <= 0x10FFFF ->
  load s o = Some (0x80 + c mod 64) ->
  decode_tail (length s) s o size (Mbstate (c / 64)) =
    if o <? size then Some (c, o + 1, Mbstate 0)
    else Some (0, o, Mbstate (c / 64)).
Proof.
  intros Ho Hc L. rewrite decode_tail_last by (assumption || zlia).
  destruct (o <? size); [|reflexivity].
  rewrite L. cbn [mbind option_bind].
  rewrite is_continuation_range by zlia. decide_cmp. cbn [andb]. same_result.
Qed.

Lemma tail_mid_byte o c :
  0 <= o -> 0x800 <= c <= 0x10FFFF -> ~ (0xD800 <= c <= 0xDFFF) ->
  load s o = Some (0x80 + c / 64 mod 64) ->
  load s (o + 1) = Some (0x80 + c mod 64) ->
  decode_tail (length s) s o size (Mbstate (0xFC00 + c / 4096)) =
    if o + 1 <? size then Some (c, o + 2, Mbstate 0)
    else if o <? size then Some (0, o + 1, Mbstate (c / 64))
    else Some (0, o, Mbstate (0xFC00 + c / 4096)).
Proof.
  intros Ho Hc Hsur L1 L2. rewrite decode_tail_more by (assumption || zlia).
  destruct (Z.ltb_spec o size).
  - rewrite L1. cbn [mbind option_bind].
    rewrite is_continuation_range by zlia.
    replace ((0x80 + c / 64 mod 64) mod 64) with (c / 64 mod 64) by zlia.
    replace ((64512 + c / 4096) * 64 + c / 64 mod 64) with (63 * 65536 + c / 64)
      by zlia.
    replace ((63 * 65536 + c / 64) mod 65536) with (c / 64) by zlia.
    rewrite tail_last_byte by (assumption || lia).
    decide_if. cbn [negb orb andb].
    destruct (Z.ltb_spec (o + 1) size); [same_result|reflexivity].
  - destruct (Z.ltb_spec (o + 1) size); [lia|reflexivity].
Qed.

Lemma tail_first_byte o c :
  0 <= o -> 0x10000 <= c <= 0x10FFFF ->
  load s o = Some (0x80 + c / 4096 mod 64) ->
  load s (o + 1) = Some (0x80 + c / 64 mod 64) ->
  load s (o + 2) = Some (0x80 + c mod 64) ->
  decode_tail (length s) s o size (Mbstate (0xFFF0 + c / 262144)) =
    if o + 2 <? size then Some (c, o + 3, Mbstate 0)
    else if o + 1 <? size then Some (0, o + 2, Mbstate (c / 64))
    else if o <? size then Some (0, o + 1, Mbstate (0xFC00 + c / 4096))
    else Some (0, o, Mbstate (0xFFF0 + c / 262144)).
Proof.
  intros Ho Hc L1 L2 L3. rewrite decode_tail_more by (assumption || zlia).
  destruct (Z.ltb_spec o size).
  - rewrite L1. cbn [mbind option_bind].
    rewrite is_continuation_range by zlia.
    replace ((0x80 + c / 4096 mod 64) mod 64) with (c / 4096 mod 64) by zlia.
    assert (Ediv : c / 262144 = c / 4096 / 64)
      by (rewrite Z.div_div by lia; reflexivity).
    replace ((65520 + c / 262144) * 64 + c / 4096 mod 64)
      with (63 * 65536 + (0xFC00 + c / 4096)) by (rewrite Ediv; zlia).
    replace ((63 * 65536 + (0xFC00 + c / 4096)) mod 65536)
      with (0xFC00 + c / 4096) by zlia.
    rewrite tail_mid_byte by (assumption || lia || rewrite <- Z.add_assoc; assumption).
    decide_if. cbn [negb orb andb].
    destruct (Z.ltb_spec (o + 1 + 1) size), (Z.ltb_spec (o + 2) size); try lia.
    + same_result.
    + destruct (Z.ltb_spec (o + 1) size); same_result.
  - destruct (Z.ltb_spec (o + 2) size), (Z.ltb_spec (o + 1) size); try lia.
    reflexivity.
Qed.

End Resume.

Lemma utf8_at_fits s p ch :
  utf8_at s p ch -> 0 <= p ->
  p + Z.of_nat (length (utf8_bytes ch)) <= Z.of_nat (length s).
Proof.
  intros Hat Hp. pose proof (utf8_at_loads s p ch Hat) as Hld.
  destruct (utf8_bytes ch) as [|v l] eqn:Eb using rev_ind.
  - pose proof (utf8_bytes_length ch) as El. rewrite Eb in El.
    revert El. cbn [length]. case_cmp; lia.
  - clear IHl. specialize (Hld (length l) v (list_lookup_middle _ _ _ _ eq_refl)).
    apply load_Some in Hld. rewrite length_app. cbn [length]. lia.
Qed.

Ltac same_state :=
  match goal with
  | |- Some (?a, ?b, Mbstate ?c) = Some (?a', ?b', Mbstate ?c') =>
      replace a with a' by zlia; replace b with b' by zlia;
      replace c with c' by zlia; reflexivity
  end.

(** A call that starts [k] bytes into the encoding of [ch], in the state
    the earlier calls left, completes the character if the window holds
    the rest of it, and otherwise consumes the window and reports an
    incomplete character. *)
Lemma str_decode_pending s p size ch k :
  is_scalar ch -> Z.of_nat (length s) <= PTRDIFF_MAX -> size <= SIZE_MAX ->
  utf8_at s p ch -> 0 <= p ->
  0 <= k < Z.of_nat (length (utf8_bytes ch)) -> p + k < size ->
  _str_decode s (p + k) size (Mbstate (pending ch k)) =
    Some (if p + Z.of_nat (length (utf8_bytes ch)) <=? size
          then (ch, p + Z.of_nat (length (utf8_bytes ch)), mb_clean)
          else (0, size, Mbstate (pending ch (size - p)))).
Proof.
  intros Hsc Hlen Hsize Hat Hp Hk Hwin.
  destruct (Z.eq_dec k 0) as [->|Hk0].
  { destruct (Z.leb_spec (p + Z.of_nat (length (utf8_bytes ch))) size) as [Hfit|Hcut].
    { rewrite Z.add_0_r. by apply str_decode_utf8_at. }
    (* a first call whose window ends inside the character *)
    pose proof (utf8_at_loads s p ch Hat) as Hld.
    pose proof (utf8_at_fits s p ch Hat Hp) as Hin.
    destruct Hsc as [Hch Hsur].
    unfold pending. rewrite utf8_bytes_length in *.
    unfold utf8_bytes in Hld. unfold _str_decode, mb_clean, and_then.
    rewrite Z.add_0_r. cbn [Z.eqb state].
    destruct (Z.eqb_spec p size); [lia|].
    unfold PTRDIFF_MAX in Hlen. unfold SIZE_MAX, SIZE_MOD in Hsize.
    destruct (Z.ltb_spec ch 0x80); [lia|].
    destruct (Z.ltb_spec ch 0x800).
    { pose proof (Hld 0%nat _ eq_refl) as L0. pose proof (Hld 1%nat _ eq_refl) as L1.
      change (Z.of_nat 0) with 0 in L0. rewrite Z.add_0_r in L0.
      change (Z.of_nat 1) with 1 in L1.
      rewrite L0. cbn [mbind option_bind].
      rewrite !size_add_small by (unfold SIZE_MOD; lia).
      rewrite !is_continuation_range, is_2_byte_range by zlia.
      unfold _is_ascii. autorewrite with bits.
      decide_cmp. cbn [andb mbind option_bind].
      rewrite (proj1 (lxor_leaders (192 + ch / 64) ltac:(zlia))) by zlia.
      replace (192 + ch / 64 - 192) with (ch / 64) by lia.
      rewrite tail_last_byte
        by (assumption || unfold PTRDIFF_MAX, SIZE_MAX, SIZE_MOD; lia).
      decide_cmp. same_state. }
    destruct (Z.ltb_spec ch 0x10000).
    { pose proof (Hld 0%nat _ eq_refl) as L0. pose proof (Hld 1%nat _ eq_refl) as L1.
      pose proof (Hld 2%nat _ eq_refl) as L2.
      change (Z.of_nat 0) with 0 in L0. rewrite Z.add_0_r in L0.
      change (Z.of_nat 1) with 1 in L1. change (Z.of_nat 2) with 2 in L2.
      rewrite L0. cbn [mbind option_bind].
      rewrite !size_add_small by (unfold SIZE_MOD; lia).
      rewrite !is_continuation_range, is_2_byte_range, is_3_byte_range by zlia.
      unfold _is_ascii. autorewrite with bits.
      decide_cmp. cbn [andb mbind option_bind].
      rewrite (proj1 (proj2 (lxor_leaders (224 + ch / 4096) ltac:(zlia)))) by zlia.
      replace (224 + ch / 4096 + 64288) with (0xFC00 + ch / 4096) by lia.
      rewrite tail_mid_byte
        by (assumption || unfold PTRDIFF_MAX, SIZE_MAX, SIZE_MOD; lia
            || rewrite <- Z.add_assoc; assumption).
      destruct (Z.ltb_spec (p + 1) size); decide_cmp; same_state. }
    pose proof (Hld 0%nat _ eq_refl) as L0. pose proof (Hld 1%nat _ eq_refl) as L1.
    pose proof (Hld 2%nat _ eq_refl) as L2. pose proof (Hld 3%nat _ eq_refl) as L3.
    change (Z.of_nat 0) with 0 in L0. rewrite Z.add_0_r in L0.
    change (Z.of_nat 1) with 1 in L1. change (Z.of_nat 2) with 2 in L2.
    change (Z.of_nat 3) with 3 in L3.
    rewrite L0. cbn [mbind option_bind].
      rewrite !size_add_small by (unfold SIZE_MOD; lia).
    rewrite !is_continuation_range, is_2_byte_range, is_3_byte_range,
      is_4_byte_range by zlia.
    unfold _is_ascii. autorewrite with bits.
    decide_cmp. cbn [andb mbind option_bind].
    rewrite (proj2 (proj2 (lxor_leaders (240 + ch / 262144) ltac:(zlia)))) by zlia.
    replace (240 + ch / 262144 + 65280) with (0xFFF0 + ch / 262144) by lia.
    rewrite tail_first_byte
      by (assumption || unfold PTRDIFF_MAX, SIZE_MAX, SIZE_MOD; lia
          || rewrite <- Z.add_assoc; assumption).
    destruct (Z.ltb_spec (p + 1) size), (Z.ltb_spec (p + 2) size);
      try lia; decide_cmp; same_state. }
  (* a later call *)
  pose proof (utf8_at_loads s p ch Hat) as Hld.
  destruct Hsc as [Hch Hsur].
  unfold pending. rewrite utf8_bytes_length in *.
  unfold utf8_bytes in Hld. unfold _str_decode, mb_clean.
  destruct (Z.eqb_spec (p + k) size); [lia|]. cbn [state].
  destruct (Z.ltb_spec ch 0x80); [lia|].
  destruct (Z.ltb_spec ch 0x800).
  { pose proof (Hld 1%nat _ eq_refl) as L1. change (Z.of_nat 1) with 1 in L1.
    assert (k = 1) as -> by lia. decide_cmp.
    rewrite tail_last_byte by (assumption || lia). decide_cmp. same_state. }
  destruct (Z.ltb_spec ch 0x10000).
  { pose proof (Hld 1%nat _ eq_refl) as L1. change (Z.of_nat 1) with 1 in L1.
    pose proof (Hld 2%nat _ eq_refl) as L2. change (Z.of_nat 2) with 2 in L2.
    assert (k = 1 \/ k = 2) as [-> | ->] by lia; decide_cmp.
    - rewrite tail_mid_byte
        by (assumption || lia || rewrite <- Z.add_assoc; assumption).
      destruct (Z.ltb_spec (p + 1 + 1) size), (Z.leb_spec (p + 3) size);
        try lia; decide_cmp; same_state.
    - rewrite tail_last_byte by (assumption || lia). decide_cmp. same_state. }
  pose proof (Hld 1%nat _ eq_refl) as L1. change (Z.of_nat 1) with 1 in L1.
  pose proof (Hld 2%nat _ eq_refl) as L2. change (Z.of_nat 2) with 2 in L2.
  pose proof (Hld 3%nat _ eq_refl) as L3. change (Z.of_nat 3) with 3 in L3.
  assert (k = 1 \/ k = 2 \/ k = 3) as [-> | [-> | ->]] by lia; decide_cmp.
  - rewrite tail_first_byte
      by (assumption || lia || rewrite <- Z.add_assoc; assumption).
    destruct (Z.ltb_spec (p + 1 + 2) size), (Z.leb_spec (p + 4) size);
      try lia; [same_state|].
    destruct (Z.ltb_spec (p + 1 + 1) size); decide_cmp; same_state.
  - rewrite tail_mid_byte
      by (assumption || lia || rewrite <- Z.add_assoc; assumption).
    destruct (Z.ltb_spec (p + 2 + 1) size), (Z.leb_spec (p + 4) size);
      try lia; decide_cmp; same_state.
  - rewrite tail_last_byte by (assumption || lia). decide_cmp. same_state.
Qed.

(** ** Streams of well-formed text *)

Lemma utf8_bytes_count c : 1 <= Z.of_nat (length (utf8_bytes c)) <= 4.
Proof. rewrite utf8_bytes_length. case_cmp; lia. Qed.

Lemma pending_nonzero c j :
  0 <= c -> 0 < j < Z.of_nat (length (utf8_bytes c)) -> pending c j <> 0.
Proof.
  intros Hc. unfold pending. rewrite utf8_bytes_length. case_cmp; zlia.
Qed.

Lemma chars_between_late l : forall p lo hi,
  hi <= p -> chars_between l p lo hi = [].
Proof.
  induction l as [|c l IH]; intros p lo hi H; [reflexivity|].
  cbn [chars_between]. pose proof (utf8_bytes_count c).
  rewrite IH by lia.
  destruct (Z.leb_spec (p + Z.of_nat (length (utf8_bytes c))) hi); [lia|].
  by rewrite andb_false_r.
Qed.

Lemma chars_between_empty l : forall p lo hi,
  hi <= lo -> chars_between l p lo hi = [].
Proof.
  induction l as [|c l IH]; intros p lo hi H; [reflexivity|].
  cbn [chars_between]. rewrite IH by lia.
  destruct (Z.ltb_spec lo (p + Z.of_nat (length (utf8_bytes c)))),
    (Z.leb_spec (p + Z.of_nat (length (utf8_bytes c))) hi); try lia;
    reflexivity.
Qed.

Lemma chars_between_from l : forall p lo lo' hi,
  lo <= p -> lo' <= p -> chars_between l p lo hi = chars_between l p lo' hi.
Proof.
  induction l as [|c l IH]; intros p lo lo' hi H H'; [reflexivity|].
  cbn [chars_between]. pose proof (utf8_bytes_count c).
  rewrite (IH _ lo lo') by lia.
  destruct (Z.ltb_spec lo (p + Z.of_nat (length (utf8_bytes c)))),
    (Z.ltb_spec lo' (p + Z.of_nat (length (utf8_bytes c)))); try lia.
  reflexivity.
Qed.

Lemma chars_between_app l : forall p lo mid hi,
  lo <= mid <= hi ->
  chars_between l p lo mid ++ chars_between l p mid hi = chars_between l p lo hi.
Proof.
  induction l as [|c l IH]; intros p lo mid hi H; [reflexivity|].
  cbn [chars_between]. pose proof (utf8_bytes_count c).
  set (e := p + Z.of_nat (length (utf8_bytes c))) in *.
  rewrite <- (IH e lo mid hi) by lia.
  destruct (Z.ltb_spec lo e), (Z.leb_spec e mid), (Z.ltb_spec mid e),
    (Z.leb_spec e hi); try lia; cbn [andb app]; try reflexivity.
  rewrite (chars_between_late l e lo mid) by lia. reflexivity.
Qed.

Lemma chars_between_all l : forall p lo hi,
  lo <= p -> p + Z.of_nat (length (l ≫= utf8_bytes)) <= hi ->
  chars_between l p lo hi = l.
Proof.
  induction l as [|c l IH]; intros p lo hi H1 H2; [reflexivity|].
  cbn [chars_between]. pose proof (utf8_bytes_count c).
  cbn [mbind list_bind] in H2. rewrite length_app in H2.
  rewrite IH by lia.
  destruct (Z.ltb_spec lo (p + Z.of_nat (length (utf8_bytes c)))),
    (Z.leb_spec (p + Z.of_nat (length (utf8_bytes c))) hi); try lia.
  reflexivity.
Qed.

Lemma state_at_start l p : state_at l p p = 0.
Proof.
  destruct l as [|c l]; [reflexivity|]. cbn [state_at].
  pose proof (utf8_bytes_count c).
  destruct (Z.ltb_spec p (p + Z.of_nat (length (utf8_bytes c)))); [|lia].
  rewrite Z.sub_diag. reflexivity.
Qed.

Lemma state_at_end l : forall p q,
  p + Z.of_nat (length (l ≫= utf8_bytes)) <= q -> state_at l p q = 0.
Proof.
  induction l as [|c l IH]; intros p q H; [reflexivity|].
  cbn [state_at]. cbn [mbind list_bind] in H. rewrite length_app in H.
  destruct (Z.ltb_spec q (p + Z.of_nat (length (utf8_bytes c)))); [lia|].
  apply IH. lia.
Qed.

Lemma decode_window_here fuel s q mb :
  decode_window fuel s q q mb = Some ([], q, mb).
Proof. destruct fuel; cbn [decode_window]; by rewrite Z.eqb_refl. Qed.

Lemma decode_window_S fuel s offset size mb :
  offset <> size ->
  decode_window (S fuel) s offset size mb =
    '(ch, offset', mb') ← _str_decode s offset size mb;
    if (ch =? 0) && negb (state mb' =? 0) then Some ([], offset', mb')
    else
      '(l, offset'', mb'') ← decode_window fuel s offset' size mb';
      Some (ch :: l, offset'', mb'').
Proof.
  intros H. cbn [decode_window]. destruct (Z.eqb_spec offset size); [lia|].
  reflexivity.
Qed.

(** One window over well-formed text: the call sequence returns the
    characters that end in the window and stops at its end, in the state
    of that position. *)
Lemma decode_window_text rest : forall pre q size fuel,
  Forall is_scalar rest ->
  Z.of_nat (length (pre ++ (rest ≫= utf8_bytes))) <= PTRDIFF_MAX ->
  Z.of_nat (length pre) <= q <= size ->
  size <= Z.of_nat (length (pre ++ (rest ≫= utf8_bytes))) ->
  (length rest <= fuel)%nat ->
  decode_window fuel (z2b <$> pre ++ (rest ≫= utf8_bytes)) q size
      (Mbstate (state_at rest (Z.of_nat (length pre)) q)) =
    Some (chars_between rest (Z.of_nat (length pre)) q size, size,
          Mbstate (state_at rest (Z.of_nat (length pre)) size)).
Proof.
  induction rest as [|c rest IH]; intros pre q size fuel Hsc Hlen Hq Hsize Hf.
  { cbn [mbind list_bind] in *. rewrite app_nil_r in *.
    assert (q = size) as -> by lia. apply decode_window_here. }
  apply Forall_cons in Hsc as [Hc Hsc]. cbn [mbind list_bind] in *.
  set (p := Z.of_nat (length pre)) in *.
  set (s := z2b <$> pre ++ utf8_bytes c ++ (rest ≫= utf8_bytes)) in *.
  pose proof (utf8_bytes_count c) as Hn.
  set (e := p + Z.of_nat (length (utf8_bytes c))).
  assert (IH' : forall q' fuel', e <= q' <= size -> (length rest <= fuel')%nat ->
    decode_window fuel' s q' size (Mbstate (state_at rest e q')) =
      Some (chars_between rest e q' size, size, Mbstate (state_at rest e size))).
  { intros q' fuel' Hq' Hf'.
    specialize (IH (pre ++ utf8_bytes c) q' size fuel' Hsc).
    assert (Ee : Z.of_nat (length (pre ++ utf8_bytes c)) = e)
      by (rewrite length_app; subst e p; lia).
    rewrite <- !app_assoc, !Ee in IH.
    apply IH; [exact Hlen|lia|exact Hsize|exact Hf']. }
  cbn [chars_between state_at]. fold e.
  destruct (Z.ltb_spec q e) as [Hin|Hpast].
  2: { (* the window starts after this character *)
    destruct (Z.ltb_spec size e); [lia|].
    destruct (Z.leb_spec e size), (Z.ltb_spec q e); try lia.
    cbn [andb app]. apply IH'; [lia|]. cbn [length] in Hf. lia. }
  destruct (Z.eq_dec q size) as [->|Hne].
  { (* an empty window *)
    rewrite decode_window_here.
    destruct (Z.ltb_spec size e); [|lia].
    destruct (Z.ltb_spec size e), (Z.leb_spec e size); try lia.
    cbn [andb app]. rewrite chars_between_late by lia. reflexivity. }
  destruct fuel as [|fuel]; [cbn [length] in Hf; lia|].
  rewrite decode_window_S by exact Hne.
  assert (Hat : utf8_at s p c).
  { intros i Hi. apply lookup_lt_is_Some_2 in Hi as [v Hv]. rewrite Hv.
    apply load_z2b_mid; [exact Hv|].
    destruct Hc as [Hc _]. by eapply utf8_bytes_range. }
  replace q with (p + (q - p)) at 1 by lia.
  rewrite (str_decode_pending s p size c (q - p)); try assumption; try lia.
  2: { subst s. rewrite length_fmap. exact Hlen. }
  2: { unfold PTRDIFF_MAX in Hlen. unfold SIZE_MAX, SIZE_MOD. lia. }
  fold e. cbn [mbind option_bind].
  destruct (Z.leb_spec e size) as [Hfit|Hcut].
  - (* the character ends in the window *)
    cbn [state mb_clean Z.eqb negb]. rewrite andb_false_r.
    change mb_clean with (Mbstate 0). rewrite <- (state_at_start rest e) at 1.
    rewrite IH' by (cbn [length] in Hf; lia).
    cbn [mbind option_bind].
    destruct (Z.ltb_spec size e); [lia|].
    cbn [andb app]. rewrite (chars_between_from rest e q e) by lia.
    reflexivity.
  - (* the window ends inside the character *)
    cbn [state Z.eqb andb].
    destruct (Z.eqb_spec (pending c (size - p)) 0) as [E|_].
    { exfalso. revert E. apply pending_nonzero; [destruct Hc; lia|lia]. }
    cbn [negb].
    destruct (Z.ltb_spec size e), (Z.leb_spec e size); try lia.
    cbn [andb app]. rewrite chars_between_late by lia. reflexivity.
Qed.

Lemma utf8_text_length l : (length l <= length (l ≫= utf8_bytes))%nat.
Proof.
  induction l as [|c l IH]; [reflexivity|].
  cbn [mbind list_bind length]. rewrite length_app.
  pose proof (utf8_bytes_count c). lia.
Qed.

Lemma last_cons_default (q z : Z) r :
  default q (last (z :: r)) = default z (last r).
Proof.
  destruct r as [|y r]; [reflexivity|].
  change (last (z :: y :: r)) with (last (y :: r)).
  destruct (last_is_Some (y :: r)) as [_ [x E]]; [done|].
  rewrite E. reflexivity.
Qed.

Lemma sorted_last z r : Sorted Z.le (z :: r) -> z <= default z (last r).
Proof.
  revert z. induction r as [|y r IH]; intros z H; [cbn; lia|].
  apply Sorted_inv in H as [H Hd]. apply HdRel_inv in Hd.
  rewrite last_cons_default. specialize (IH y H). lia.
Qed.

(** A stream of windows over well-formed text returns the characters that
    end between its start and its end, whatever the windows are. *)
Lemma decode_stream_text l sizes : forall q,
  Forall is_scalar l ->
  Z.of_nat (length (l ≫= utf8_bytes)) <= PTRDIFF_MAX ->
  0 <= q -> Sorted Z.le (q :: sizes) ->
  default q (last sizes) <= Z.of_nat (length (l ≫= utf8_bytes)) ->
  decode_stream sizes (z2b <$> (l ≫= utf8_bytes)) q (Mbstate (state_at l 0 q)) =
    Some (chars_between l 0 q (default q (last sizes)),
          default q (last sizes),
          Mbstate (state_at l 0 (default q (last sizes)))).
Proof.
  induction sizes as [|z r IH]; intros q Hsc Hlen Hq Hsorted Hlast.
  { cbn [decode_stream last default]. rewrite chars_between_empty by lia.
    reflexivity. }
  pose proof Hsorted as Hs. apply Sorted_inv in Hs as [Hs Hd].
  apply HdRel_inv in Hd. pose proof (sorted_last z r Hs) as Hz.
  rewrite last_cons_default in *.
  cbn [decode_stream].
  pose proof (decode_window_text l [] q z) as W. cbn [app length] in W.
  change (Z.of_nat 0) with 0 in W.
  rewrite W; [|assumption|assumption|lia|lia|].
  2: { rewrite length_fmap. pose proof (utf8_text_length l). lia. }
  cbn [mbind option_bind].
  rewrite IH by (assumption || lia).
  cbn [mbind option_bind].
  rewrite chars_between_app by lia. reflexivity.
Qed.

(** On well-formed text the decoder is insensitive to how the input is cut
    into windows: every sequence of windows that ends at the end of the
    buffer gives the characters of the text, consumes the buffer and ends
    in the initial state, and so does the call sequence that sees the whole
    buffer. *)
Theorem decode_stream_well_formed l sizes :
  Forall is_scalar l ->
  Z.of_nat (length (l ≫= utf8_bytes)) <= PTRDIFF_MAX ->
  Sorted Z.le (0 :: sizes) ->
  default 0 (last sizes) = Z.of_nat (length (l ≫= utf8_bytes)) ->
  decode_stream sizes (z2b <$> (l ≫= utf8_bytes)) 0 mb_clean =
    Some (l, Z.of_nat (length (l ≫= utf8_bytes)), mb_clean) /\
  decode_whole (z2b <$> (l ≫= utf8_bytes)) =
    Some (l, Z.of_nat (length (l ≫= utf8_bytes)), mb_clean).
Proof.
  intros Hsc Hlen Hsorted Hlast. split.
  - replace mb_clean with (Mbstate (state_at l 0 0)) at 1
      by (rewrite state_at_start; reflexivity).
    rewrite decode_stream_text by (assumption || lia).
    rewrite Hlast, chars_between_all, state_at_end by lia. reflexivity.
  - unfold decode_whole.
    replace mb_clean with (Mbstate (state_at l 0 0)) at 1
      by (rewrite state_at_start; reflexivity).
    rewrite length_fmap.
    pose proof (decode_window_text l [] 0 (Z.of_nat (length (l ≫= utf8_bytes))))
      as W.
    cbn [app length] in W. change (Z.of_nat 0) with 0 in W.
    rewrite W; [|assumption|assumption|lia|lia|].
    + rewrite chars_between_all, state_at_end by lia. reflexivity.
    + pose proof (utf8_text_length l). lia.
Qed.

Lemma decode_stream_well_formed_witness :
  decode_stream [1; 2; 5; 8; 10] (z2b <$> ([0x48; 0xE9; 0x20AC; 0x1F600] ≫= utf8_bytes))
      0 mb_clean =
    Some ([0x48; 0xE9; 0x20AC; 0x1F600],
          Z.of_nat (length ([0x48; 0xE9; 0x20AC; 0x1F600] ≫= utf8_bytes)), mb_clean) /\
  decode_whole (z2b <$> ([0x48; 0xE9; 0x20AC; 0x1F600] ≫= utf8_bytes)) =
    Some ([0x48; 0xE9; 0x20AC; 0x1F600],
          Z.of_nat (length ([0x48; 0xE9; 0x20AC; 0x1F600] ≫= utf8_bytes)), mb_clean).
Proof.
  apply (decode_stream_well_formed [0x48; 0xE9; 0x20AC; 0x1F600] [1; 2; 5; 8; 10]).
  - unfold is_scalar. repeat constructor; lia.
  - vm_compute. discriminate.
  - repeat constructor; lia.
  - vm_compute. reflexivity.
Defined.

Lemma sorted_seq n : forall a q,
  q <= Z.of_nat a -> Sorted Z.le (q :: (Z.of_nat <$> seq a n)).
Proof.
  induction n as [|n IH]; intros a q H; cbn [seq fmap list_fmap].
  - repeat constructor.
  - constructor; [apply IH; lia|]. constructor. exact H.
Qed.

Lemma last_seq n :
  default 0 (last (Z.of_nat <$> seq 1 n)) = Z.of_nat n.
Proof.
  destruct n as [|n]; [reflexivity|].
  rewrite seq_S, fmap_app. change (Z.of_nat <$> [(1 + n)%nat]) with [Z.of_nat (1 + n)].
  rewrite last_snoc. reflexivity.
Qed.

(** On well-formed text, decoding one byte at a time gives the characters
    of the text, as decoding the whole buffer does. *)
Theorem decode_bytewise_well_formed l :
  Forall is_scalar l ->
  Z.of_nat (length (l ≫= utf8_bytes)) <= PTRDIFF_MAX ->
  decode_bytewise (z2b <$> (l ≫= utf8_bytes)) =
    Some (l, Z.of_nat (length (l ≫= utf8_bytes)), mb_clean).
Proof.
  intros Hsc Hlen. unfold decode_bytewise. rewrite length_fmap.
  replace mb_clean with (Mbstate (state_at l 0 0)) at 1
    by (rewrite state_at_start; reflexivity).
  rewrite decode_stream_text;
    [|assumption|assumption|lia|apply sorted_seq; lia|rewrite last_seq; lia].
  rewrite last_seq, chars_between_all, state_at_end by lia. reflexivity.
Qed.

Lemma decode_bytewise_well_formed_witness :
  decode_bytewise (z2b <$> ([0x48; 0xE9; 0x20AC; 0x1F600] ≫= utf8_bytes)) =
    Some ([0x48; 0xE9; 0x20AC; 0x1F600],
          Z.of_nat (length ([0x48; 0xE9; 0x20AC; 0x1F600] ≫= utf8_bytes)), mb_clean).
Proof.
  apply (decode_bytewise_well_formed [0x48; 0xE9; 0x20AC; 0x1F600]).
  - unfold is_scalar. repeat constructor; lia.
  - vm_compute. discriminate.
Defined.

(** ** A terminator bounds the decoder *)

Section Terminated.
Variables (s : list byte) (z : Z).
Hypothesis Hlen : Z.of_nat (length s) <= PTRDIFF_MAX.
Hypothesis Hz : load s z = Some 0.

Lemma tail_terminated n : forall o st,
  pending_ok st -> 0 <= o <= z -> z - o <= Z.of_nat n ->
  same_or_cut z (decode_tail (length s) s o STR_NO_LIMIT (Mbstate st))
              (decode_tail (length s) s o z (Mbstate st)).
Proof.
  pose proof (load_Some _ _ _ Hz) as [Hzl _]. unfold PTRDIFF_MAX in Hlen.
  induction n as [|n IH]; intros o st Hst Ho Hn.
  all: destruct (Z.eq_dec o z) as [->|Hne]; [|try lia].
  1,2: right; exists st; split; [destruct Hst as [?|[?|?]]; lia|];
    (split; [|apply decode_tail_done; lia]);
    destruct (Z_lt_le_dec st 32768);
    [ rewrite decode_tail_last
        by (assumption || unfold STR_NO_LIMIT; lia ||
            destruct Hst as [?|[?|?]]; lia)
    | rewrite decode_tail_more
        by (assumption || unfold STR_NO_LIMIT; lia ||
            destruct Hst as [?|[?|?]]; lia) ];
    (destruct (Z.ltb_spec z STR_NO_LIMIT);
      [|unfold STR_NO_LIMIT, SIZE_MAX, SIZE_MOD in *; lia]);
    rewrite Hz; cbn [mbind option_bind];
    rewrite is_continuation_range by lia; reflexivity.
  destruct (load_is_Some s o ltac:(lia)) as (c & Lc & Hc).
  destruct (Z_lt_le_dec st 32768).
  - left. rewrite !decode_tail_last
      by (assumption || unfold STR_NO_LIMIT, SIZE_MAX, SIZE_MOD; lia ||
          destruct Hst as [?|[?|?]]; lia).
    destruct (Z.ltb_spec o STR_NO_LIMIT);
      [|unfold STR_NO_LIMIT, SIZE_MAX, SIZE_MOD in *; lia].
    destruct (Z.ltb_spec o z); [|lia]. reflexivity.
  - rewrite !decode_tail_more
      by (assumption || unfold STR_NO_LIMIT, SIZE_MAX, SIZE_MOD; lia ||
          destruct Hst as [?|[?|?]]; lia).
    destruct (Z.ltb_spec o STR_NO_LIMIT);
      [|unfold STR_NO_LIMIT, SIZE_MAX, SIZE_MOD in *; lia].
    destruct (Z.ltb_spec o z); [|lia].
    rewrite Lc. cbn [mbind option_bind].
    match goal with |- context [if ?c then _ else _] => destruct c eqn:Ec end;
      [left; reflexivity|].
    apply IH; [|lia|lia].
    apply orb_false_iff in Ec as [Ec E3]. apply orb_false_iff in Ec as [Ec E2].
    apply orb_false_iff in Ec as [Ec E1].
    unfold pending_ok. destruct Hst as [?|[?|?]]; [lia| |].
    + left. revert E1. case_cmp; cbn [andb]; try discriminate; intros _; zlia.
    + right. left. zlia.
Qed.


Lemma cont_at_terminator : cont_at s z = Some false.
Proof. unfold cont_at. rewrite Hz. reflexivity. Qed.

Lemma cont_at_Some o : 0 <= o <= z -> exists b, cont_at s o = Some b.
Proof.
  intros Ho. pose proof (load_Some _ _ _ Hz) as [Hzl _].
  destruct (load_is_Some s o ltac:(lia)) as (c & Lc & _).
  unfold cont_at. rewrite Lc. eauto.
Qed.

Lemma fast2_terminated o :
  0 <= o <= z ->
  Some (o <? STR_NO_LIMIT) &&? cont_at s o = Some (o <? z) &&? cont_at s o.
Proof.
  intros Ho. pose proof (load_Some _ _ _ Hz) as [Hzl _].
  unfold PTRDIFF_MAX in Hlen. unfold and_then. cbn [mbind option_bind].
  destruct (Z.ltb_spec o STR_NO_LIMIT);
    [|unfold STR_NO_LIMIT, SIZE_MAX, SIZE_MOD in *; lia].
  destruct (Z.ltb_spec o z); [reflexivity|].
  assert (o = z) as -> by lia. apply cont_at_terminator.
Qed.

Lemma fast3_terminated o :
  0 <= o <= z ->
  Some (o + 1 <? STR_NO_LIMIT) &&? cont_at s o &&? cont_at s (o + 1) =
  Some (o + 1 <? z) &&? cont_at s o &&? cont_at s (o + 1).
Proof.
  intros Ho. pose proof (load_Some _ _ _ Hz) as [Hzl _].
  unfold PTRDIFF_MAX in Hlen. unfold and_then. cbn [mbind option_bind].
  destruct (Z.ltb_spec (o + 1) STR_NO_LIMIT);
    [|unfold STR_NO_LIMIT, SIZE_MAX, SIZE_MOD in *; lia].
  destruct (Z.ltb_spec (o + 1) z); [reflexivity|].
  destruct (Z.eq_dec o z) as [->|Hne].
  - rewrite cont_at_terminator. reflexivity.
  - assert (o + 1 = z) as E by lia.
    destruct (cont_at_Some o ltac:(lia)) as [b ->]. cbn [mbind option_bind].
    rewrite E, cont_at_terminator. by destruct b.
Qed.

Lemma fast4_terminated o :
  0 <= o <= z ->
  Some (o + 2 <? STR_NO_LIMIT) &&? cont_at s o &&? cont_at s (o + 1)
    &&? cont_at s (o + 2) =
  Some (o + 2 <? z) &&? cont_at s o &&? cont_at s (o + 1) &&? cont_at s (o + 2).
Proof.
  intros Ho. pose proof (load_Some _ _ _ Hz) as [Hzl _].
  unfold PTRDIFF_MAX in Hlen. unfold and_then. cbn [mbind option_bind].
  destruct (Z.ltb_spec (o + 2) STR_NO_LIMIT);
    [|unfold STR_NO_LIMIT, SIZE_MAX, SIZE_MOD in *; lia].
  destruct (Z.ltb_spec (o + 2) z); [reflexivity|].
  destruct (Z.eq_dec o z) as [->|Hne].
  { rewrite cont_at_terminator. reflexivity. }
  destruct (cont_at_Some o ltac:(lia)) as [b ->]. cbn [mbind option_bind].
  destruct b; [|reflexivity].
  destruct (Z.eq_dec (o + 1) z) as [E|Hne'].
  { rewrite E, cont_at_terminator. reflexivity. }
  destruct (cont_at_Some (o + 1) ltac:(lia)) as [b ->]. cbn [mbind option_bind].
  destruct b; [|reflexivity].
  assert (o + 2 = z) as E by lia. rewrite E, cont_at_terminator. reflexivity.
Qed.

(** A call on a clean state before the terminator. *)
Lemma str_decode_same_or_cut offset :
  0 <= offset < z ->
  same_or_cut z (_str_decode s offset STR_NO_LIMIT mb_clean)
              (_str_decode s offset z mb_clean).
Proof.
  intros Ho. pose proof (load_Some _ _ _ Hz) as [Hzl _].
  pose proof Hlen as Hlen'. unfold PTRDIFF_MAX in Hlen'.
  destruct (load_is_Some s offset ltac:(lia)) as (b & Lb & Hb).
  unfold _str_decode. cbn [state mb_clean Z.eqb].
  destruct (Z.eqb_spec offset STR_NO_LIMIT) as [E|_];
    [unfold STR_NO_LIMIT, SIZE_MAX, SIZE_MOD in E; lia|].
  destruct (Z.eqb_spec offset z); [lia|].
  rewrite Lb. cbn [mbind option_bind].
  rewrite !size_add_small by (unfold SIZE_MOD; lia).
  destruct (_is_ascii b); [by left|].
  destruct (_is_continuation b); [by left|].
  destruct (_is_2_byte b) eqn:E2.
  { destruct (Z.eqb_spec (Z.land b 30) 0) as [|Hns]; [by left|].
    rewrite fast2_terminated by lia.
    destruct (Some (offset + 1 <? z) &&? cont_at s (offset + 1)) as [[|]|];
      cbn [mbind option_bind]; [by left| |by left].
    apply (tail_terminated (Z.to_nat z)); [|lia|lia].
    rewrite is_2_byte_range in E2 by lia. rewrite land_1E in Hns.
    rewrite (proj1 (lxor_leaders b Hb)) by lia. left. zlia. }
  destruct (_is_3_byte b) eqn:E3.
  { rewrite fast3_terminated by lia.
    destruct (Some (offset + 1 + 1 <? z) &&? cont_at s (offset + 1)
                &&? cont_at s (offset + 1 + 1)) as [[|]|];
      cbn [mbind option_bind]; [by left| |by left].
    apply (tail_terminated (Z.to_nat z)); [|lia|lia].
    rewrite is_3_byte_range in E3 by lia.
    rewrite (proj1 (proj2 (lxor_leaders b Hb))) by lia. right. left. lia. }
  destruct (_is_4_byte b) eqn:E4; [|by left].
  rewrite fast4_terminated by lia.
  destruct (Some (offset + 1 + 2 <? z) &&? cont_at s (offset + 1)
              &&? cont_at s (offset + 1 + 1) &&? cont_at s (offset + 1 + 2))
    as [[|]|]; cbn [mbind option_bind]; [by left| |by left].
  apply (tail_terminated (Z.to_nat z)); [|lia|lia].
  rewrite is_4_byte_range in E4 by lia.
  rewrite (proj2 (proj2 (lxor_leaders b Hb))) by lia. right. right. lia.
Qed.

(** Before the terminator, [str_decode] without limit does what
    [str_decode] does with the terminator as the end of the buffer. *)
Lemma str_decode_terminated offset :
  0 <= offset < z ->
  str_decode s offset STR_NO_LIMIT = str_decode s offset z.
Proof.
  intros Ho. unfold str_decode.
  destruct (str_decode_same_or_cut offset Ho) as [->|(st & Hst & -> & ->)];
    [reflexivity|].
  cbn [mbind option_bind state]. unfold CHAR_INVALID. cbn [Z.eqb orb].
  destruct (Z.eqb_spec st 0); [lia|]. reflexivity.
Qed.

(** At the terminator it returns 0 and steps over it. *)
Lemma str_decode_at_terminator :
  str_decode s z STR_NO_LIMIT = Some (0, z + 1).
Proof.
  pose proof (load_Some _ _ _ Hz) as [Hzl _]. unfold PTRDIFF_MAX in Hlen.
  unfold str_decode, _str_decode. cbn [state mb_clean Z.eqb].
  destruct (Z.eqb_spec z STR_NO_LIMIT) as [E|_];
    [unfold STR_NO_LIMIT, SIZE_MAX, SIZE_MOD in E; lia|].
  rewrite Hz. cbn [mbind option_bind].
  rewrite size_add_small by (unfold SIZE_MOD; lia). reflexivity.
Qed.

End Terminated.

(** A call on a clean state inside the window consumes at least one
    byte. *)
Lemma str_decode_progress s offset size :
  0 <= offset < size -> size <= Z.of_nat (length s) ->
  Z.of_nat (length s) <= PTRDIFF_MAX ->
  exists ch offset',
    str_decode s offset size = Some (ch, offset') /\ offset < offset' <= size.
Proof.
  intros Ho Hsize Hlen. pose proof Hlen as Hlen'. unfold PTRDIFF_MAX in Hlen'.
  assert (Htail : forall st, exists ch o' mb',
    decode_tail (length s) s (offset + 1) size (Mbstate st) = Some (ch, o', mb') /\
    offset + 1 <= o' <= size).
  { intros st. apply decode_tail_bounds;
      unfold SIZE_MAX, SIZE_MOD; lia. }
  destruct (load_is_Some s offset ltac:(lia)) as (b & Lb & Hb).
  enough (exists ch o' mb', _str_decode s offset size mb_clean = Some (ch, o', mb')
                            /\ offset < o' <= size) as (ch & o' & mb' & E & Hb').
  { unfold str_decode. rewrite E. cbn [mbind option_bind].
    destruct (_ || _); eauto. }
  unfold _str_decode, and_then, cont_at. cbn [state mb_clean Z.eqb].
  destruct (Z.eqb_spec offset size); [lia|].
  rewrite Lb. cbn [mbind option_bind].
  rewrite !size_add_small by (unfold SIZE_MOD; lia).
  destruct (_is_ascii b); [eexists _, _, _; split; [reflexivity|lia]|].
  destruct (_is_continuation b); [eexists _, _, _; split; [reflexivity|lia]|].
  destruct (_is_2_byte b).
  { destruct (Z.land b 30 =? 0); [eexists _, _, _; split; [reflexivity|lia]|].
    destruct (Z.ltb_spec (offset + 1) size); cbn [mbind option_bind].
    - destruct (load_is_Some s (offset + 1) ltac:(lia)) as (c1 & L1 & _).
      rewrite L1. cbn [mbind option_bind].
      destruct (_is_continuation c1);
        [eexists _, _, _; split; [reflexivity|lia]|].
      destruct (Htail (Z.lxor b 192)) as (ch & o' & mb' & E & ?).
      rewrite E. eexists _, _, _; split; [reflexivity|lia].
    - destruct (Htail (Z.lxor b 192)) as (ch & o' & mb' & E & ?).
      rewrite E. eexists _, _, _; split; [reflexivity|lia]. }
  destruct (_is_3_byte b).
  { destruct (Htail (Z.lxor b 64736)) as (ch & o' & mb' & E & ?).
    destruct (Z.ltb_spec (offset + 1 + 1) size); cbn [mbind option_bind];
      [|rewrite E; eexists _, _, _; split; [reflexivity|lia]].
    destruct (load_is_Some s (offset + 1) ltac:(lia)) as (c1 & L1 & _).
    destruct (load_is_Some s (offset + 1 + 1) ltac:(lia)) as (c2 & L2 & _).
    rewrite L1. cbn [mbind option_bind].
    destruct (_is_continuation c1); cbn [mbind option_bind];
      [|rewrite E; eexists _, _, _; split; [reflexivity|lia]].
    rewrite L2. cbn [mbind option_bind].
    destruct (_is_continuation c2); cbn [mbind option_bind];
      [|rewrite E; eexists _, _, _; split; [reflexivity|lia]].
    repeat match goal with |- context [if ?c then _ else _] => destruct c end;
      eexists _, _, _; (split; [reflexivity|lia]). }
  destruct (_is_4_byte b); [|eexists _, _, _; split; [reflexivity|lia]].
  destruct (Htail (Z.lxor b 65280)) as (ch & o' & mb' & E & ?).
  destruct (Z.ltb_spec (offset + 1 + 2) size); cbn [mbind option_bind];
    [|rewrite E; eexists _, _, _; split; [reflexivity|lia]].
  destruct (load_is_Some s (offset + 1) ltac:(lia)) as (c1 & L1 & _).
  destruct (load_is_Some s (offset + 1 + 1) ltac:(lia)) as (c2 & L2 & _).
  destruct (load_is_Some s (offset + 1 + 2) ltac:(lia)) as (c3 & L3 & _).
  rewrite L1. cbn [mbind option_bind].
  destruct (_is_continuation c1); cbn [mbind option_bind];
    [|rewrite E; eexists _, _, _; split; [reflexivity|lia]].
  rewrite L2. cbn [mbind option_bind].
  destruct (_is_continuation c2); cbn [mbind option_bind];
    [|rewrite E; eexists _, _, _; split; [reflexivity|lia]].
  rewrite L3. cbn [mbind option_bind].
  destruct (_is_continuation c3); cbn [mbind option_bind];
    [|rewrite E; eexists _, _, _; split; [reflexivity|lia]].
  repeat match goal with |- context [if ?c then _ else _] => destruct c end;
    eexists _, _, _; (split; [reflexivity|lia]).
Qed.

(** ** Sizes *)

Lemma b2z_zero b : b2z b = 0 <-> b = Byte.x00.
Proof.
  split; [|intros ->; reflexivity].
  intros H. rewrite <- (z2b_b2z b), H. reflexivity.
Qed.

Lemma load_app_l w rest i :
  0 <= i < Z.of_nat (length w) -> load (w ++ rest) i = load w i.
Proof.
  intros Hi. unfold load. destruct (Z.ltb_spec i 0); [lia|].
  rewrite lookup_app_l by lia. reflexivity.
Qed.

Lemma load_app_r w rest i :
  Z.of_nat (length w) <= i ->
  load (w ++ rest) i = load rest (i - Z.of_nat (length w)).
Proof.
  intros Hi. unfold load.
  destruct (Z.ltb_spec i 0), (Z.ltb_spec (i - Z.of_nat (length w)) 0); try lia.
  rewrite lookup_app_r by lia. do 2 f_equal. lia.
Qed.

Lemma load_nonzero w i :
  Forall (fun b => b <> Byte.x00) w -> 0 <= i < Z.of_nat (length w) ->
  exists c, load w i = Some c /\ c <> 0.
Proof.
  intros Hw Hi. unfold load. destruct (Z.ltb_spec i 0); [lia|].
  destruct (lookup_lt_is_Some_2 w (Z.to_nat i) ltac:(lia)) as [b Hb].
  rewrite Hb. cbn. eexists; split; [reflexivity|].
  rewrite Forall_lookup in Hw. specialize (Hw _ _ Hb).
  intros E. apply b2z_zero in E. contradiction.
Qed.

Lemma size_loop_spec w rest fuel : forall i size,
  Forall (fun b => b <> Byte.x00) w ->
  0 <= i <= Z.of_nat (length w) -> 0 <= size ->
  size + (Z.of_nat (length w) - i) < SIZE_MOD ->
  Z.of_nat (length w) - i < Z.of_nat fuel ->
  size_loop fuel (w ++ rest) i size =
    match rest with
    | [] => None
    | b :: _ =>
      if b2z b =? 0 then Some (size + (Z.of_nat (length w) - i))
      else size_loop (fuel - Z.to_nat (Z.of_nat (length w) - i)) (w ++ rest)
             (Z.of_nat (length w)) (size + (Z.of_nat (length w) - i))
    end.
Proof.
  induction fuel as [|fuel IH]; intros i size Hw Hi Hs Hsz Hf; [lia|].
  destruct (Z.eq_dec i (Z.of_nat (length w))) as [->|Hne].
  - rewrite Z.sub_diag, Z.add_0_r. change (Z.to_nat 0) with 0%nat.
    rewrite Nat.sub_0_r. destruct rest as [|b rest].
    + cbn [size_loop]. rewrite load_None by (rewrite app_nil_r; lia). reflexivity.
    + cbn [size_loop]. rewrite load_app_r, Z.sub_diag by lia.
      change (load (b :: rest) 0) with (Some (b2z b)). cbn [mbind option_bind].
      destruct (Z.eqb_spec (b2z b) 0); reflexivity.
  - cbn [size_loop]. rewrite load_app_l by lia.
    destruct (load_nonzero w i Hw ltac:(lia)) as (c & -> & Hc).
    cbn [mbind option_bind]. destruct (Z.eqb_spec c 0); [lia|]. cbn [negb].
    rewrite size_add_small by lia. rewrite IH by (assumption || lia).
    destruct rest as [|b rest]; [reflexivity|].
    replace (size + 1 + (Z.of_nat (length w) - (i + 1)))
      with (size + (Z.of_nat (length w) - i)) by lia.
    replace (fuel - Z.to_nat (Z.of_nat (length w) - (i + 1)))%nat
      with (S fuel - Z.to_nat (Z.of_nat (length w) - i))%nat by lia.
    reflexivity.
Qed.

Lemma str_size_terminated w rest :
  Forall (fun b => b <> Byte.x00) w -> Z.of_nat (length w) < SIZE_MOD ->
  str_size (w ++ Byte.x00 :: rest) = Some (Z.of_nat (length w)).
Proof.
  intros Hw Hlen. unfold str_size, _str_size.
  rewrite (size_loop_spec w) by (assumption || rewrite ?length_app; lia).
  cbn. f_equal. lia.
Qed.

(** [str_size] returns the number of bytes before the first null byte, and
    runs off the end of a buffer that holds no null byte. *)
Theorem str_size_first_null w :
  Forall (fun b => b <> Byte.x00) w -> Z.of_nat (length w) < SIZE_MOD ->
  (forall rest, str_size (w ++ Byte.x00 :: rest) = Some (Z.of_nat (length w))) /\
  str_size w = None.
Proof.
  intros Hw Hlen. split.
  - intros rest. by apply str_size_terminated.
  - unfold str_size, _str_size. rewrite <- (app_nil_r w) at 2.
    rewrite (size_loop_spec w) by (assumption || lia). reflexivity.
Qed.

Lemma str_size_first_null_witness :
  (forall rest, str_size ([Byte.x61; Byte.x62] ++ Byte.x00 :: rest) = Some 2) /\
  str_size [Byte.x61; Byte.x62] = None.
Proof.
  apply (str_size_first_null [Byte.x61; Byte.x62]).
  - repeat constructor; discriminate.
  - reflexivity.
Defined.

Lemma nsize_loop_run w rest max fuel : forall i,
  Forall (fun b => b <> Byte.x00) w ->
  0 <= i <= Z.min (Z.of_nat (length w)) max ->
  Z.of_nat (length w) < SIZE_MOD ->
  Z.min (Z.of_nat (length w)) max - i < Z.of_nat fuel ->
  nsize_loop fuel (w ++ rest) i i max =
    nsize_loop (fuel - Z.to_nat (Z.min (Z.of_nat (length w)) max - i)) (w ++ rest)
      (Z.min (Z.of_nat (length w)) max) (Z.min (Z.of_nat (length w)) max) max.
Proof.
  induction fuel as [|fuel IH]; intros i Hw Hi Hlen Hf; [lia|].
  destruct (Z.eq_dec i (Z.min (Z.of_nat (length w)) max)) as [E|Hne].
  - rewrite <- E, Z.sub_diag. change (Z.to_nat 0) with 0%nat.
    rewrite Nat.sub_0_r. reflexivity.
  - cbn [nsize_loop]. rewrite load_app_l by lia.
    destruct (load_nonzero w i Hw ltac:(lia)) as (c & -> & Hc).
    cbn [mbind option_bind]. destruct (Z.eqb_spec c 0); [lia|].
    destruct (Z.ltb_spec i max); [|lia]. cbn [negb andb].
    rewrite size_add_small by lia. rewrite IH by (assumption || lia).
    replace (fuel - Z.to_nat (Z.min (Z.of_nat (length w)) max - (i + 1)))%nat
      with (S fuel - Z.to_nat (Z.min (Z.of_nat (length w)) max - i))%nat by lia.
    reflexivity.
Qed.

Lemma str_nsize_behaviour w max_size :
  Forall (fun b => b <> Byte.x00) w -> Z.of_nat (length w) < SIZE_MOD ->
  0 <= max_size ->
  (forall rest, str_nsize (w ++ Byte.x00 :: rest) max_size =
     Some (Z.min (Z.of_nat (length w)) max_size)) /\
  (forall b rest, max_size <= Z.of_nat (length w) ->
     str_nsize (w ++ b :: rest) max_size = Some max_size) /\
  (Z.of_nat (length w) <= max_size -> str_nsize w max_size = None).
Proof.
  intros Hw Hlen Hmax. unfold str_nsize, _str_nsize. split; [|split].
  - intros rest.
    rewrite (nsize_loop_run w) by (assumption || rewrite ?length_app; lia).
    destruct (Nat.sub _ _) as [|fuel] eqn:Ef;
      [rewrite length_app in Ef; cbn [length] in Ef; lia|].
    cbn [nsize_loop].
    destruct (Z.min_spec (Z.of_nat (length w)) max_size) as [[Hlt ->]|[Hle ->]].
    + rewrite load_app_r, Z.sub_diag by lia. reflexivity.
    + destruct (Z.eq_dec max_size (Z.of_nat (length w))) as [->|Hne].
      * rewrite load_app_r, Z.sub_diag by lia. reflexivity.
      * rewrite load_app_l by lia.
        destruct (load_nonzero w max_size Hw ltac:(lia)) as (c & -> & Hc).
        cbn [mbind option_bind]. rewrite Z.ltb_irrefl, andb_false_r. reflexivity.
  - intros b rest Hle.
    rewrite (nsize_loop_run w) by (assumption || rewrite ?length_app; lia).
    destruct (Nat.sub _ _) as [|fuel] eqn:Ef;
      [rewrite length_app in Ef; cbn [length] in Ef; lia|].
    cbn [nsize_loop]. rewrite Z.min_r by lia.
    destruct (load_is_Some (w ++ b :: rest) max_size) as (c & -> & _);
      [rewrite length_app; cbn [length]; lia|].
    cbn [mbind option_bind]. rewrite Z.ltb_irrefl, andb_false_r. reflexivity.
  - intros Hge. rewrite <- (app_nil_r w) at 2.
    rewrite (nsize_loop_run w) by (assumption || lia).
    destruct (Nat.sub _ _) as [|fuel] eqn:Ef; [lia|].
    cbn [nsize_loop]. rewrite Z.min_l by lia.
    rewrite load_None by (rewrite app_nil_r; lia). reflexivity.
Qed.

(** [str_nsize] returns the size of the string or [max_size], whichever is
    less.  It looks at the byte at index [max_size] before it compares the
    size with the limit, so the buffer must hold that byte. *)
Theorem str_nsize_min w max_size :
  Forall (fun b => b <> Byte.x00) w -> Z.of_nat (length w) < SIZE_MOD ->
  0 <= max_size ->
  (forall rest, str_nsize (w ++ Byte.x00 :: rest) max_size =
     Some (Z.min (Z.of_nat (length w)) max_size)) /\
  (forall b rest, max_size <= Z.of_nat (length w) ->
     str_nsize (w ++ b :: rest) max_size = Some max_size) /\
  (Z.of_nat (length w) <= max_size -> str_nsize w max_size = None).
Proof. apply str_nsize_behaviour. Qed.

Lemma str_nsize_min_witness :
  (forall rest, str_nsize ([Byte.x61; Byte.x62] ++ Byte.x00 :: rest) 2 =
     Some (Z.min (Z.of_nat (length [Byte.x61; Byte.x62])) 2)) /\
  (forall b rest, 2 <= Z.of_nat (length [Byte.x61; Byte.x62]) ->
     str_nsize ([Byte.x61; Byte.x62] ++ b :: rest) 2 = Some 2) /\
  (Z.of_nat (length [Byte.x61; Byte.x62]) <= 2 ->
   str_nsize [Byte.x61; Byte.x62] 2 = None).
Proof.
  apply (str_nsize_min [Byte.x61; Byte.x62] 2).
  - repeat constructor; discriminate.
  - reflexivity.
  - lia.
Defined.

(** ** Lengths *)

Lemma length_loop_terminated s z fuel : forall offset len,
  Z.of_nat (length s) <= PTRDIFF_MAX -> load s z = Some 0 ->
  0 <= offset <= z -> 0 <= len -> len + (z - offset) < SIZE_MOD ->
  z - offset < Z.of_nat fuel ->
  exists n,
    length_loop fuel s offset STR_NO_LIMIT len = Some n /\
    length_loop fuel s offset z len = Some n /\
    len <= n <= len + (z - offset).
Proof.
  induction fuel as [|fuel IH]; intros offset len Hlen Hz Ho Hl Hsz Hf; [lia|].
  pose proof (load_Some _ _ _ Hz) as [Hzl _].
  cbn [length_loop]. destruct (Z.eq_dec offset z) as [->|Hne].
  - rewrite (str_decode_at_terminator s z Hlen Hz).
    unfold str_decode, _str_decode. rewrite Z.eqb_refl.
    cbn [mbind option_bind Z.eqb orb negb state mb_clean].
    exists len. repeat split; lia.
  - rewrite (str_decode_terminated s z Hlen Hz) by lia.
    destruct (str_decode_progress s offset z) as (ch & o' & E & Ho');
      [lia|lia|assumption|].
    rewrite E. cbn [mbind option_bind].
    destruct (ch =? 0); cbn [negb]; [exists len; repeat split; lia|].
    rewrite size_add_small by lia.
    destruct (IH o' (len + 1)) as (n & E1 & E2 & Hn); try assumption; try lia.
    exists n. repeat split; (assumption || lia).
Qed.

(** [str_length] on any null-terminated buffer, whatever the bytes before
    the terminator: it returns without reading past the terminator, the
    result is at most the size of the string, and it is what [str_nlength]
    returns for that size. *)
Theorem str_length_terminated w rest :
  Forall (fun b => b <> Byte.x00) w ->
  Z.of_nat (length (w ++ Byte.x00 :: rest)) <= PTRDIFF_MAX ->
  exists n,
    str_length (w ++ Byte.x00 :: rest) = Some n /\
    str_nlength (w ++ Byte.x00 :: rest) (Z.of_nat (length w)) = Some n /\
    0 <= n <= Z.of_nat (length w).
Proof.
  intros Hw Hlen. pose proof Hlen as Hlen'.
  rewrite length_app in Hlen'. cbn [length] in Hlen'. unfold PTRDIFF_MAX in Hlen'.
  assert (Hz : load (w ++ Byte.x00 :: rest) (Z.of_nat (length w)) = Some 0)
    by (rewrite load_app_r, Z.sub_diag by lia; reflexivity).
  assert (Hf : Z.of_nat (length w) - 0 <
               Z.of_nat (S (length (w ++ Byte.x00 :: rest))))
    by (rewrite length_app; cbn [length]; lia).
  destruct (length_loop_terminated (w ++ Byte.x00 :: rest) (Z.of_nat (length w))
              (S (length (w ++ Byte.x00 :: rest))) 0 0 Hlen Hz
              ltac:(lia) ltac:(lia) ltac:(unfold SIZE_MOD; lia) Hf)
    as (n & E1 & E2 & Hn).
  exists n. unfold str_length, str_nlength. repeat split; (assumption || lia).
Qed.

Lemma str_length_terminated_witness :
  exists n,
    str_length ([Byte.xc3; Byte.x41] ++ Byte.x00 :: [Byte.x42]) = Some n /\
    str_nlength ([Byte.xc3; Byte.x41] ++ Byte.x00 :: [Byte.x42])
      (Z.of_nat (length [Byte.xc3; Byte.x41])) = Some n /\
    0 <= n <= Z.of_nat (length [Byte.xc3; Byte.x41]).
Proof.
  apply (str_length_terminated [Byte.xc3; Byte.x41] [Byte.x42]).
  - repeat constructor; discriminate.
  - vm_compute. discriminate.
Defined.

(** ** Well-formed strings, character by character *)

(** Inside a buffer, at the first byte of the encoding of a scalar,
    [str_decode] without limit returns the scalar and moves to the byte
    after the encoding. *)
Lemma str_decode_in_string pre c post :
  is_scalar c ->
  Z.of_nat (length (pre ++ utf8_bytes c ++ post)) <= PTRDIFF_MAX ->
  str_decode (z2b <$> pre ++ utf8_bytes c ++ post) (Z.of_nat (length pre))
      STR_NO_LIMIT =
    Some (c, Z.of_nat (length pre) + Z.of_nat (length (utf8_bytes c))).
Proof.
  intros Hsc Hlen. pose proof Hlen as Hlen'. unfold PTRDIFF_MAX in Hlen'.
  rewrite !length_app in Hlen'. unfold str_decode.
  rewrite (str_decode_utf8_at _ (Z.of_nat (length pre)) STR_NO_LIMIT c);
    try assumption; try lia.
  - cbn [mbind option_bind mb_clean state]. unfold CHAR_INVALID.
    destruct Hsc as [Hc Hsur].
    destruct (Z.eqb_spec c 4294967295); [lia|]. reflexivity.
  - unfold STR_NO_LIMIT, SIZE_MAX, SIZE_MOD. lia.
  - rewrite length_fmap. exact Hlen.
  - intros i Hi. apply lookup_lt_is_Some_2 in Hi as [v Hv]. rewrite Hv.
    apply load_z2b_mid; [exact Hv|].
    destruct Hsc as [Hc _]. by eapply utf8_bytes_range.
Qed.

Lemma is_scalar_0 : is_scalar 0.
Proof. unfold is_scalar. lia. Qed.

Lemma length_loop_string l : forall pre fuel len,
  Forall (fun c => is_scalar c /\ c <> 0) l ->
  Z.of_nat (length (pre ++ (l ≫= utf8_bytes) ++ [0])) <= PTRDIFF_MAX ->
  0 <= len -> len + Z.of_nat (length l) < SIZE_MOD -> (length l < fuel)%nat ->
  length_loop fuel (z2b <$> pre ++ (l ≫= utf8_bytes) ++ [0])
    (Z.of_nat (length pre)) STR_NO_LIMIT len = Some (len + Z.of_nat (length l)).
Proof.
  induction l as [|c l IH]; intros pre fuel len Hl Hlen Hlen0 Hov Hf;
    (destruct fuel as [|fuel]; [cbn in Hf; lia|]); cbn [length_loop].
  - cbn [mbind list_bind app] in *.
    pose proof (str_decode_in_string pre 0 [] is_scalar_0) as E.
    change (utf8_bytes 0 ++ []) with [0] in E. rewrite (E Hlen).
    cbn [mbind option_bind Z.eqb negb length]. f_equal. lia.
  - apply Forall_cons in Hl as [[Hsc Hnz] Hl]. cbn [mbind list_bind] in *.
    rewrite <- app_assoc in *.
    rewrite str_decode_in_string by assumption.
    cbn [mbind option_bind]. destruct (Z.eqb_spec c 0); [lia|]. cbn [negb].
    cbn [length] in Hov.
    rewrite size_add_small by lia.
    rewrite <- Nat2Z.inj_add, <- length_app, app_assoc.
    rewrite IH; [|assumption|rewrite <- app_assoc; exact Hlen|lia|lia
                 |cbn [length] in Hf; lia].
    cbn [length]. f_equal. lia.
Qed.

(** On the string that holds the scalars [l], none of them null,
    [str_length] returns the number of scalars, not of bytes. *)
Theorem str_length_utf8_string l :
  Forall (fun c => is_scalar c /\ c <> 0) l ->
  Z.of_nat (length (utf8_string l)) <= PTRDIFF_MAX ->
  str_length (utf8_string l) = Some (Z.of_nat (length l)).
Proof.
  intros Hl Hlen. unfold str_length, utf8_string in *.
  rewrite length_fmap in Hlen.
  pose proof (utf8_text_length l) as Ht.
  pose proof (length_loop_string l [] (S (length (z2b <$> (l ≫= utf8_bytes) ++ [0])))
                0 Hl Hlen) as E.
  cbn [app length] in E. change (Z.of_nat 0) with 0 in E.
  rewrite E; [reflexivity|lia| |].
  - rewrite length_app in Hlen. unfold PTRDIFF_MAX in Hlen. unfold SIZE_MOD. lia.
  - rewrite length_fmap, length_app. lia.
Qed.

Lemma str_length_utf8_string_witness :
  str_length (utf8_string [0x48; 0xE9; 0x20AC; 0x1F600]) =
    Some (Z.of_nat (length [0x48; 0xE9; 0x20AC; 0x1F600])).
Proof.
  apply (str_length_utf8_string [0x48; 0xE9; 0x20AC; 0x1F600]).
  - unfold is_scalar. repeat constructor; lia.
  - vm_compute. discriminate.
Defined.

Lemma lsize_loop_string l : forall pre fuel max_len len,
  Forall (fun c => is_scalar c /\ c <> 0) l ->
  Z.of_nat (length (pre ++ (l ≫= utf8_bytes) ++ [0])) <= PTRDIFF_MAX ->
  0 <= len -> len + Z.of_nat (length l) < SIZE_MOD -> (length l < fuel)%nat ->
  lsize_loop fuel (z2b <$> pre ++ (l ≫= utf8_bytes) ++ [0]) max_len len
    (Z.of_nat (length pre)) =
    Some (Z.of_nat (length pre) +
          if max_len - len <=? Z.of_nat (length l)
          then Z.of_nat (length (take (Z.to_nat (max_len - len)) l ≫= utf8_bytes))
          else Z.of_nat (length (l ≫= utf8_bytes)) + 1).
Proof.
  induction l as [|c l IH]; intros pre fuel max_len len Hl Hlen Hlen0 Hov Hf;
    (destruct fuel as [|fuel]; [cbn in Hf; lia|]); cbn [lsize_loop].
  - cbn [mbind list_bind app length] in *.
    destruct (Z.ltb_spec len max_len), (Z.leb_spec (max_len - len) (Z.of_nat 0));
      try lia.
    + pose proof (str_decode_in_string pre 0 [] is_scalar_0) as E.
      change (utf8_bytes 0 ++ []) with [0] in E. rewrite (E Hlen).
      cbn [mbind option_bind Z.eqb length]. f_equal.
    + rewrite take_nil. cbn [mbind list_bind length]. f_equal. lia.
  - apply Forall_cons in Hl as [[Hsc Hnz] Hl]. cbn [mbind list_bind] in *.
    rewrite <- app_assoc in *. cbn [length] in Hov.
    destruct (Z.ltb_spec len max_len).
    2: { destruct (Z.leb_spec (max_len - len) (Z.of_nat (length (c :: l))));
           [|cbn [length] in *; lia].
         replace (Z.to_nat (max_len - len)) with 0%nat by lia.
         cbn [take mbind list_bind length]. f_equal. lia. }
    rewrite str_decode_in_string by assumption.
    cbn [mbind option_bind]. destruct (Z.eqb_spec c 0); [lia|].
    rewrite size_add_small by lia.
    rewrite <- Nat2Z.inj_add, <- length_app, app_assoc.
    rewrite IH; [|assumption|rewrite <- app_assoc; exact Hlen|lia|lia
                 |cbn [length] in Hf; lia].
    f_equal. rewrite length_app, Nat2Z.inj_add. cbn [length].
    destruct (Z.leb_spec (max_len - (len + 1)) (Z.of_nat (length l))),
      (Z.leb_spec (max_len - len) (Z.of_nat (S (length l)))); try lia.
    + replace (Z.to_nat (max_len - len))
        with (S (Z.to_nat (max_len - (len + 1)))) by lia.
      cbn [take mbind list_bind]. rewrite length_app. lia.
    + rewrite length_app. lia.
Qed.

(** [str_lsize] on a well-formed string: the bytes of the first [max_len]
    characters if the string has that many; if it has fewer, the call that
    meets the terminator has stepped over it, and the result is the size of
    the string plus one. *)
Theorem str_lsize_utf8_string l max_len :
  Forall (fun c => is_scalar c /\ c <> 0) l ->
  Z.of_nat (length (utf8_string l)) <= PTRDIFF_MAX ->
  0 <= max_len ->
  str_lsize (utf8_string l) max_len =
    Some (if max_len <=? Z.of_nat (length l)
          then Z.of_nat (length (take (Z.to_nat max_len) l ≫= utf8_bytes))
          else Z.of_nat (length (l ≫= utf8_bytes)) + 1).
Proof.
  intros Hl Hlen Hmax. unfold str_lsize, utf8_string in *.
  rewrite length_fmap in Hlen.
  pose proof (utf8_text_length l) as Ht.
  pose proof (lsize_loop_string l [] (S (length (z2b <$> (l ≫= utf8_bytes) ++ [0])))
                max_len 0 Hl Hlen) as E.
  cbn [app length] in E. change (Z.of_nat 0) with 0 in E.
  rewrite Z.sub_0_r, Z.add_0_l in E. apply E; [lia| |].
  - rewrite length_app in Hlen. unfold PTRDIFF_MAX in Hlen. unfold SIZE_MOD. lia.
  - rewrite length_fmap, length_app. lia.
Qed.

Lemma str_lsize_utf8_string_witness :
  str_lsize (utf8_string [0x48; 0xE9; 0x20AC]) 5 =
    Some (if 5 <=? Z.of_nat (length [0x48; 0xE9; 0x20AC])
          then Z.of_nat (length (take (Z.to_nat 5) [0x48; 0xE9; 0x20AC] ≫= utf8_bytes))
          else Z.of_nat (length ([0x48; 0xE9; 0x20AC] ≫= utf8_bytes)) + 1).
Proof.
  apply (str_lsize_utf8_string [0x48; 0xE9; 0x20AC] 5).
  - unfold is_scalar. repeat constructor; lia.
  - vm_compute. discriminate.
  - lia.
Defined.

Lemma str_decode_reverse_utf8_at s p size ch :
  is_scalar ch -> 0 <= p -> Z.of_nat (length s) <= PTRDIFF_MAX ->
  p + Z.of_nat (length (utf8_bytes ch)) <= size ->
  utf8_at s p ch ->
  str_decode_reverse s (p + Z.of_nat (length (utf8_bytes ch))) size =
    Some (ch, p).
Proof.
  intros Hsc Hp Hlen Hfit Hat.
  assert (Hdec : str_decode s p size = Some (ch, p + Z.of_nat (length (utf8_bytes ch)))).
  { unfold str_decode. rewrite (str_decode_utf8_at s p size ch) by assumption.
    cbn [mbind option_bind mb_clean state]. unfold CHAR_INVALID.
    destruct Hsc as [Hc _]. destruct (Z.eqb_spec ch 4294967295); [lia|].
    reflexivity. }
  pose proof (utf8_at_loads s p ch Hat) as Hld.
  pose proof (utf8_at_fits s p ch Hat Hp) as Hin.
  destruct Hsc as [Hch Hsur]. unfold PTRDIFF_MAX in Hlen.
  rewrite utf8_bytes_length in *. unfold utf8_bytes in Hld.
  unfold str_decode_reverse.
  destruct (Z.ltb_spec ch 0x80).
  { pose proof (Hld 0%nat _ eq_refl) as L0.
    change (Z.of_nat 0) with 0 in L0. rewrite Z.add_0_r in L0.
    destruct (Z.eqb_spec (p + 1) 0); [lia|]. cbn [decode_reverse_loop].
    destruct (Z.ltb_spec 0 (p + 1)); [|lia]. cbn [Z.ltb Z.compare andb].
    rewrite size_sub_small by (unfold SIZE_MOD; lia).
    replace (p + 1 - 1) with p by lia. rewrite L0. cbn [mbind option_bind].
    rewrite is_continuation_range by lia. unfold _continuation_bytes, _is_ascii.
    decide_cmp. cbn [andb negb]. rewrite Hdec. reflexivity. }
  destruct (Z.ltb_spec ch 0x800).
  { pose proof (Hld 0%nat _ eq_refl) as L0. pose proof (Hld 1%nat _ eq_refl) as L1.
    change (Z.of_nat 0) with 0 in L0. rewrite Z.add_0_r in L0.
    change (Z.of_nat 1) with 1 in L1.
    destruct (Z.eqb_spec (p + 2) 0); [lia|]. cbn [decode_reverse_loop].
    destruct (Z.ltb_spec 0 (p + 2)); [|lia]. cbn [Z.ltb Z.compare andb].
    rewrite size_sub_small by (unfold SIZE_MOD; lia).
    replace (p + 2 - 1) with (p + 1) by lia. rewrite L1. cbn [mbind option_bind].
    rewrite is_continuation_range by zlia. decide_cmp. cbn [andb].
    destruct (Z.ltb_spec 0 (p + 1)); [|lia]. cbn [Z.add Z.ltb Z.compare andb Pos.compare Pos.compare_cont].
    rewrite size_sub_small by (unfold SIZE_MOD; lia).
    replace (p + 1 - 1) with p by lia. rewrite L0. cbn [mbind option_bind].
    rewrite is_continuation_range by zlia. unfold _continuation_bytes, _is_ascii.
    rewrite is_2_byte_range by zlia.
    decide_cmp. cbn [andb negb]. rewrite Hdec. reflexivity. }
  destruct (Z.ltb_spec ch 0x10000).
  { pose proof (Hld 0%nat _ eq_refl) as L0. pose proof (Hld 1%nat _ eq_refl) as L1.
    pose proof (Hld 2%nat _ eq_refl) as L2.
    change (Z.of_nat 0) with 0 in L0. rewrite Z.add_0_r in L0.
    change (Z.of_nat 1) with 1 in L1. change (Z.of_nat 2) with 2 in L2.
    destruct (Z.eqb_spec (p + 3) 0); [lia|]. cbn [decode_reverse_loop].
    destruct (Z.ltb_spec 0 (p + 3)); [|lia]. cbn [Z.ltb Z.compare andb].
    rewrite size_sub_small by (unfold SIZE_MOD; lia).
    replace (p + 3 - 1) with (p + 2) by lia. rewrite L2. cbn [mbind option_bind].
    rewrite is_continuation_range by zlia. decide_cmp. cbn [andb].
    destruct (Z.ltb_spec 0 (p + 2)); [|lia].
    cbn [Z.add Z.ltb Z.compare andb Pos.compare Pos.compare_cont Pos.add Pos.succ].
    rewrite size_sub_small by (unfold SIZE_MOD; lia).
    replace (p + 2 - 1) with (p + 1) by lia. rewrite L1. cbn [mbind option_bind].
    rewrite is_continuation_range by zlia. decide_cmp. cbn [andb].
    destruct (Z.ltb_spec 0 (p + 1)); [|lia].
    cbn [Z.add Z.ltb Z.compare andb Pos.compare Pos.compare_cont Pos.add Pos.succ].
    rewrite size_sub_small by (unfold SIZE_MOD; lia).
    replace (p + 1 - 1) with p by lia. rewrite L0. cbn [mbind option_bind].
    rewrite is_continuation_range by zlia. unfold _continuation_bytes, _is_ascii.
    rewrite is_2_byte_range, is_3_byte_range by zlia.
    decide_cmp. cbn [andb negb]. rewrite Hdec. reflexivity. }
  pose proof (Hld 0%nat _ eq_refl) as L0. pose proof (Hld 1%nat _ eq_refl) as L1.
  pose proof (Hld 2%nat _ eq_refl) as L2. pose proof (Hld 3%nat _ eq_refl) as L3.
  change (Z.of_nat 0) with 0 in L0. rewrite Z.add_0_r in L0.
  change (Z.of_nat 1) with 1 in L1. change (Z.of_nat 2) with 2 in L2.
  change (Z.of_nat 3) with 3 in L3.
  destruct (Z.eqb_spec (p + 4) 0); [lia|]. cbn [decode_reverse_loop].
  destruct (Z.ltb_spec 0 (p + 4)); [|lia]. cbn [Z.ltb Z.compare andb].
  rewrite size_sub_small by (unfold SIZE_MOD; lia).
  replace (p + 4 - 1) with (p + 3) by lia. rewrite L3. cbn [mbind option_bind].
  rewrite is_continuation_range by zlia. decide_cmp. cbn [andb].
  destruct (Z.ltb_spec 0 (p + 3)); [|lia].
  cbn [Z.add Z.ltb Z.compare andb Pos.compare Pos.compare_cont Pos.add Pos.succ].
  rewrite size_sub_small by (unfold SIZE_MOD; lia).
  replace (p + 3 - 1) with (p + 2) by lia. rewrite L2. cbn [mbind option_bind].
  rewrite is_continuation_range by zlia. decide_cmp. cbn [andb].
  destruct (Z.ltb_spec 0 (p + 2)); [|lia].
  cbn [Z.add Z.ltb Z.compare andb Pos.compare Pos.compare_cont Pos.add Pos.succ].
  rewrite size_sub_small by (unfold SIZE_MOD; lia).
  replace (p + 2 - 1) with (p + 1) by lia. rewrite L1. cbn [mbind option_bind].
  rewrite is_continuation_range by zlia. decide_cmp. cbn [andb].
  destruct (Z.ltb_spec 0 (p + 1)); [|lia].
  cbn [Z.add Z.ltb Z.compare andb Pos.compare Pos.compare_cont Pos.add Pos.succ].
  rewrite size_sub_small by (unfold SIZE_MOD; lia).
  replace (p + 1 - 1) with p by lia. rewrite L0. cbn [mbind option_bind].
  rewrite is_continuation_range by zlia. unfold _continuation_bytes, _is_ascii.
  rewrite is_2_byte_range, is_3_byte_range, is_4_byte_range by zlia.
  decide_cmp. cbn [andb negb]. rewrite Hdec. reflexivity.
Qed.

(** Stepping back after stepping forward: when [str_decode] returns a
    character other than the replacement character, [str_decode_reverse]
    from the new offset returns the same character and the old offset.  At
    offset 0 the reverse decoder returns 0 and stays. *)
Theorem str_decode_reverse_after_decode s offset size ch offset' :
  Z.of_nat (length s) <= PTRDIFF_MAX -> size <= SIZE_MAX ->
  0 <= offset < size ->
  str_decode s offset size = Some (ch, offset') -> ch <> U_SPECIAL ->
  str_decode_reverse s offset' size = Some (ch, offset) /\
  str_decode_reverse s 0 size = Some (0, 0).
Proof.
  intros Hlen Hsize Ho Hdec Hch. split; [|reflexivity].
  unfold str_decode in Hdec.
  destruct (_str_decode s offset size mb_clean) as [[[c o'] mb']|] eqn:E;
    [|discriminate].
  cbn [mbind option_bind] in Hdec.
  destruct (str_decode_clean_inv s offset size c o' mb' Hlen Hsize ltac:(lia) E)
    as [->|[Hst|(-> & Hsc & Hat & -> & Hfit)]].
  - cbn in Hdec. congruence.
  - destruct (Z.eqb_spec (state mb') 0); [lia|].
    rewrite orb_true_r in Hdec. congruence.
  - cbn [state mb_clean Z.eqb negb] in Hdec. rewrite orb_false_r in Hdec.
    destruct (c =? CHAR_INVALID); [congruence|].
    injection Hdec as <- <-.
    apply str_decode_reverse_utf8_at; try assumption; lia.
Qed.

Lemma str_decode_reverse_after_decode_witness :
  str_decode_reverse [Byte.x41; Byte.xe2; Byte.x82; Byte.xac] 4 4 = Some (0x20AC, 1) /\
  str_decode_reverse [Byte.x41; Byte.xe2; Byte.x82; Byte.xac] 0 4 = Some (0, 0).
Proof.
  apply (str_decode_reverse_after_decode
           [Byte.x41; Byte.xe2; Byte.x82; Byte.xac] 1 4 0x20AC 4).
  - vm_compute. discriminate.
  - vm_compute. discriminate.
  - lia.
  - vm_compute. reflexivity.
  - vm_compute. discriminate.
Defined.

Lemma lcmp_loop_strings l1 : forall l2 pre1 pre2 fuel max_len len,
  Forall (fun c => is_scalar c /\ c <> 0) l1 ->
  Forall (fun c => is_scalar c /\ c <> 0) l2 ->
  Z.of_nat (length (pre1 ++ (l1 ≫= utf8_bytes) ++ [0])) <= PTRDIFF_MAX ->
  Z.of_nat (length (pre2 ++ (l2 ≫= utf8_bytes) ++ [0])) <= PTRDIFF_MAX ->
  0 <= len -> len + Z.of_nat (length l1) < SIZE_MOD -> (length l1 < fuel)%nat ->
  lcmp_loop fuel (z2b <$> pre1 ++ (l1 ≫= utf8_bytes) ++ [0])
            (z2b <$> pre2 ++ (l2 ≫= utf8_bytes) ++ [0]) max_len
            (Z.of_nat (length pre1)) (Z.of_nat (length pre2)) len =
    Some (scalar_cmp (take (Z.to_nat (max_len - len)) l1)
                     (take (Z.to_nat (max_len - len)) l2)).
Proof.
  induction l1 as [|c1 l1 IH];
    intros l2 pre1 pre2 fuel max_len len H1 H2 Hlen1 Hlen2 Hlen0 Hov Hf;
    (destruct fuel as [|fuel]; [cbn in Hf; lia|]); cbn [lcmp_loop].
  all: destruct (Z.leb_spec max_len len);
    [replace (Z.to_nat (max_len - len)) with 0%nat by lia; reflexivity|].
  all: replace (Z.to_nat (max_len - len))
      with (S (Z.to_nat (max_len - (len + 1)))) by lia.
  - cbn [mbind list_bind app] in Hlen1 |- *.
    pose proof (str_decode_in_string pre1 0 [] is_scalar_0) as E.
    change (utf8_bytes 0 ++ []) with [0] in E. rewrite (E Hlen1).
    cbn [mbind option_bind].
    destruct l2 as [|c2 l2].
    + cbn [mbind list_bind app] in Hlen2 |- *.
      pose proof (str_decode_in_string pre2 0 [] is_scalar_0) as E2.
      change (utf8_bytes 0 ++ []) with [0] in E2. rewrite (E2 Hlen2).
      reflexivity.
    + apply Forall_cons in H2 as [[Hsc Hnz] H2]. cbn [mbind list_bind] in *.
      rewrite <- app_assoc in *. rewrite str_decode_in_string by assumption.
      cbn [mbind option_bind take scalar_cmp]. destruct Hsc as [Hc _].
      destruct (Z.ltb_spec 0 c2); [reflexivity|lia].
  - apply Forall_cons in H1 as [[Hsc1 Hnz1] H1]. cbn [mbind list_bind] in *.
    rewrite <- app_assoc in *. rewrite str_decode_in_string by assumption.
    cbn [mbind option_bind]. destruct l2 as [|c2 l2].
    + cbn [mbind list_bind app] in Hlen2 |- *.
      pose proof (str_decode_in_string pre2 0 [] is_scalar_0) as E2.
      change (utf8_bytes 0 ++ []) with [0] in E2. rewrite (E2 Hlen2).
      cbn [mbind option_bind take scalar_cmp]. destruct Hsc1 as [Hc _].
      destruct (Z.ltb_spec c1 0), (Z.ltb_spec 0 c1); try lia. reflexivity.
    + apply Forall_cons in H2 as [[Hsc2 Hnz2] H2]. cbn [mbind list_bind] in *.
      rewrite <- app_assoc in *. rewrite str_decode_in_string by assumption.
      cbn [mbind option_bind take scalar_cmp].
      destruct (c1 <? c2); [reflexivity|]. destruct (c2 <? c1); [reflexivity|].
      destruct (Z.eqb_spec c1 0); [lia|]. destruct (Z.eqb_spec c2 0); [lia|].
      cbn [orb length] in *. rewrite size_add_small by lia.
      replace (Z.of_nat (length pre1) + Z.of_nat (length (utf8_bytes c1)))
        with (Z.of_nat (length (pre1 ++ utf8_bytes c1)))
        by (rewrite length_app; lia).
      replace (Z.of_nat (length pre2) + Z.of_nat (length (utf8_bytes c2)))
        with (Z.of_nat (length (pre2 ++ utf8_bytes c2)))
        by (rewrite length_app; lia).
      rewrite (app_assoc pre1), (app_assoc pre2).
      rewrite IH; [|assumption|assumption|rewrite <- app_assoc; exact Hlen1
                   |rewrite <- app_assoc; exact Hlen2|lia|lia|lia].
      reflexivity.
Qed.

(** [str_lcmp] on two well-formed strings compares their first [max_len]
    characters as the documentation of [str_cmp] says: the first character
    that differs decides, the shorter sequence as if padded by null
    characters. *)
Theorem str_lcmp_scalar_order l1 l2 max_len :
  Forall (fun c => is_scalar c /\ c <> 0) l1 ->
  Forall (fun c => is_scalar c /\ c <> 0) l2 ->
  Z.of_nat (length (utf8_string l1)) <= PTRDIFF_MAX ->
  Z.of_nat (length (utf8_string l2)) <= PTRDIFF_MAX ->
  str_lcmp (utf8_string l1) (utf8_string l2) max_len =
    Some (scalar_cmp (take (Z.to_nat max_len) l1) (take (Z.to_nat max_len) l2)).
Proof.
  intros H1 H2 Hlen1 Hlen2. unfold str_lcmp, utf8_string in *.
  rewrite length_fmap in Hlen1, Hlen2.
  pose proof (utf8_text_length l1) as Ht.
  pose proof (lcmp_loop_strings l1 l2 [] []
                (S (length (z2b <$> (l1 ≫= utf8_bytes) ++ [0]))) max_len 0
                H1 H2 Hlen1 Hlen2) as E.
  cbn [app length] in E. change (Z.of_nat 0) with 0 in E.
  rewrite Z.sub_0_r in E. apply E; [lia| |].
  - rewrite length_app in Hlen1. unfold PTRDIFF_MAX in Hlen1. unfold SIZE_MOD. lia.
  - rewrite length_fmap, length_app. lia.
Qed.

Lemma str_lcmp_scalar_order_witness :
  str_lcmp (utf8_string [0x61; 0xE9; 0x7A]) (utf8_string [0x61; 0xE9; 0x20AC]) 2 =
    Some (scalar_cmp (take (Z.to_nat 2) [0x61; 0xE9; 0x7A])
                     (take (Z.to_nat 2) [0x61; 0xE9; 0x20AC])).
Proof.
  apply (str_lcmp_scalar_order [0x61; 0xE9; 0x7A] [0x61; 0xE9; 0x20AC] 2).
  - unfold is_scalar. repeat constructor; lia.
  - unfold is_scalar. repeat constructor; lia.
  - vm_compute. discriminate.
  - vm_compute. discriminate.
Defined.

(** ** Prefixes and search *)

Lemma b2z_inj x y : b2z x = b2z y -> x = y.
Proof. intros H. rewrite <- (z2b_b2z x), <- (z2b_b2z y), H. reflexivity. Qed.

Lemma load_mid S0 x rest : load (S0 ++ x :: rest) (Z.of_nat (length S0)) = Some (b2z x).
Proof. rewrite load_app_r, Z.sub_diag by lia. reflexivity. Qed.

Lemma test_prefix_loop_spec b' : forall a' S0 P0 r1 r2 fuel,
  Forall (fun b => b <> Byte.x00) a' -> Forall (fun b => b <> Byte.x00) b' ->
  (length b' < fuel)%nat ->
  exists t,
    test_prefix_loop fuel (S0 ++ a' ++ Byte.x00 :: r1) (P0 ++ b' ++ Byte.x00 :: r2)
      (Z.of_nat (length S0) - Z.of_nat (length P0)) (Z.of_nat (length P0)) =
      Some t /\
    (t = true <-> b' `prefix_of` a').
Proof.
  induction b' as [|y b' IH]; intros a' S0 P0 r1 r2 fuel Ha Hb Hf;
    (destruct fuel as [|fuel]; [cbn in Hf; lia|]); cbn [test_prefix_loop].
  all: replace (Z.of_nat (length S0) - Z.of_nat (length P0) + Z.of_nat (length P0))
         with (Z.of_nat (length S0)) by lia.
  - cbn [app]. rewrite (load_mid P0). exists true.
    split; [|split; [intros _; apply prefix_nil|reflexivity]].
    destruct a' as [|x a']; cbn [app]; rewrite (load_mid S0);
      cbn [mbind option_bind]; [reflexivity|].
    change (b2z Byte.x00) with 0.
    destruct ((b2z x =? 0) && negb (b2z x =? 0)) eqn:E; [|reflexivity].
    destruct (b2z x =? 0); discriminate.
  - apply Forall_cons in Hb as [Hy Hb]. cbn [app]. rewrite (load_mid P0).
    assert (b2z y <> 0) by (rewrite b2z_zero; exact Hy).
    destruct a' as [|x a']; cbn [app]; rewrite (load_mid S0);
      cbn [mbind option_bind].
    + change (b2z Byte.x00) with 0.
      destruct (Z.eqb_spec 0 (b2z y)); [lia|]. cbn [andb].
      destruct (Z.eqb_spec (b2z y) 0); [lia|]. exists false.
      split; [reflexivity|]. split; [discriminate|].
      intros Hp. apply prefix_nil_inv in Hp. discriminate.
    + apply Forall_cons in Ha as [Hx Ha].
      assert (b2z x <> 0) by (rewrite b2z_zero; exact Hx).
      destruct (Z.eqb_spec (b2z x) (b2z y)) as [E|Hne].
      * apply b2z_inj in E as ->. destruct (Z.eqb_spec (b2z y) 0); [lia|].
        cbn [andb negb].
        pose proof (IH a' (S0 ++ [y]) (P0 ++ [y]) r1 r2 fuel Ha Hb) as E.
        rewrite <- !app_assoc, !length_app in E. cbn [app length] in E.
        replace (Z.of_nat (length S0 + 1) - Z.of_nat (length P0 + 1))
          with (Z.of_nat (length S0) - Z.of_nat (length P0)) in E by lia.
        replace (Z.of_nat (length P0 + 1)) with (Z.of_nat (length P0) + 1) in E by lia.
        destruct E as (t & E & Ht); [cbn [length] in Hf; lia|].
        exists t. split; [exact E|]. rewrite Ht. split.
        -- intros Hp. by apply prefix_cons.
        -- intros Hp. by apply prefix_cons_inv_2 in Hp.
      * cbn [andb]. destruct (Z.eqb_spec (b2z y) 0); [lia|]. exists false.
        split; [reflexivity|]. split; [discriminate|].
        intros Hp. apply prefix_cons_inv_1 in Hp. congruence.
Qed.

(** [_test_prefix(s + i, p)] inside a string. *)
Lemma test_prefix_at a b r1 r2 (i : nat) :
  Forall (fun c => c <> Byte.x00) a -> Forall (fun c => c <> Byte.x00) b ->
  (i <= length a)%nat ->
  exists t,
    _test_prefix (a ++ Byte.x00 :: r1) (Z.of_nat i) (b ++ Byte.x00 :: r2) = Some t /\
    (t = true <-> b `prefix_of` drop i a).
Proof.
  intros Ha Hb Hi. unfold _test_prefix.
  pose proof (test_prefix_loop_spec b (drop i a) (take i a) [] r1 r2
                (S (length (b ++ Byte.x00 :: r2)))) as E.
  rewrite (app_assoc (take i a)), take_drop, length_take in E. cbn [app length] in E.
  replace (Z.of_nat (i `min` length a) - Z.of_nat 0) with (Z.of_nat i) in E by lia.
  apply E; [by apply Forall_drop|assumption|rewrite length_app; lia].
Qed.

(** [str_test_prefix(s, p)] holds exactly when the bytes of [p] are the
    first bytes of [s]. *)
Theorem str_test_prefix_spec a b r1 r2 :
  Forall (fun c => c <> Byte.x00) a -> Forall (fun c => c <> Byte.x00) b ->
  exists t,
    str_test_prefix (a ++ Byte.x00 :: r1) (b ++ Byte.x00 :: r2) = Some t /\
    (t = true <-> b `prefix_of` a).
Proof.
  intros Ha Hb. unfold str_test_prefix.
  apply (test_prefix_at a b r1 r2 0 Ha Hb). lia.
Qed.

Lemma str_test_prefix_spec_witness :
  exists t,
    str_test_prefix ([Byte.x61; Byte.x62; Byte.x63] ++ Byte.x00 :: [])
                    ([Byte.x61; Byte.x62] ++ Byte.x00 :: []) = Some t /\
    (t = true <-> [Byte.x61; Byte.x62] `prefix_of` [Byte.x61; Byte.x62; Byte.x63]).
Proof.
  apply (str_test_prefix_spec [Byte.x61; Byte.x62; Byte.x63] [Byte.x61; Byte.x62]);
    repeat constructor; discriminate.
Defined.

Lemma str_str_loop_spec a b r1 r2 fuel : forall i : nat,
  Forall (fun c => c <> Byte.x00) a -> Forall (fun c => c <> Byte.x00) b ->
  (i <= length a)%nat -> Z.of_nat (length a) < SIZE_MOD ->
  (length a - i < fuel)%nat ->
  (forall j : nat, (j < i)%nat -> ~ b `prefix_of` drop j a) ->
  exists r,
    str_str_loop fuel (a ++ Byte.x00 :: r1) (b ++ Byte.x00 :: r2) (Z.of_nat i)
      (Z.of_nat (length a) - Z.of_nat i) (Z.of_nat (length b)) = Some r /\
    match r with
    | Some k =>
      exists j : nat, k = Z.of_nat j /\ b `prefix_of` drop j a /\
        forall j' : nat, (j' < j)%nat -> ~ b `prefix_of` drop j' a
    | None => forall j : nat, ~ b `prefix_of` drop j a
    end.
Proof.
  induction fuel as [|fuel IH]; intros i Ha Hb Hi Hlen Hf Hbefore; [lia|].
  cbn [str_str_loop].
  destruct (Z.leb_spec (Z.of_nat (length b)) (Z.of_nat (length a) - Z.of_nat i)).
  - destruct (test_prefix_at a b r1 r2 i Ha Hb Hi) as (t & -> & Ht).
    cbn [mbind option_bind]. destruct t.
    + eexists. split; [reflexivity|]. exists i.
      split; [reflexivity|]. split; [by apply Ht|exact Hbefore].
    + assert (Hnot : ~ b `prefix_of` drop i a)
        by (intros Hp; apply Ht in Hp; discriminate).
      assert (length b <> 0%nat).
      { intros E. apply Hnot. destruct b; [apply prefix_nil|discriminate]. }
      rewrite size_sub_small by lia.
      replace (Z.of_nat i + 1) with (Z.of_nat (S i)) by lia.
      replace (Z.of_nat (length a) - Z.of_nat i - 1)
        with (Z.of_nat (length a) - Z.of_nat (S i)) by lia.
      apply IH; try assumption; try lia.
      intros j Hj. destruct (decide (j = i)) as [->|]; [exact Hnot|].
      apply Hbefore. lia.
  - eexists. split; [reflexivity|]. intros j Hp.
    destruct (decide (j < i)%nat) as [Hj|Hj]; [by apply (Hbefore j)|].
    apply prefix_length in Hp. rewrite length_drop in Hp. lia.
Qed.

(** [str_str] returns the first position of the haystack at which the
    bytes of the needle occur, and no position when they occur nowhere; an
    empty needle is found at position 0. *)
Theorem str_str_first_occurrence a b r1 r2 :
  Forall (fun c => c <> Byte.x00) a -> Forall (fun c => c <> Byte.x00) b ->
  Z.of_nat (length a) < SIZE_MOD -> Z.of_nat (length b) < SIZE_MOD ->
  exists r,
    str_str (a ++ Byte.x00 :: r1) (b ++ Byte.x00 :: r2) = Some r /\
    match r with
    | Some k =>
      exists j : nat, k = Z.of_nat j /\ b `prefix_of` drop j a /\
        forall j' : nat, (j' < j)%nat -> ~ b `prefix_of` drop j' a
    | None => forall j : nat, ~ b `prefix_of` drop j a
    end.
Proof.
  intros Ha Hb Hla Hlb. unfold str_str.
  pose proof (str_size_terminated a r1 Ha Hla) as Ea.
  pose proof (str_size_terminated b r2 Hb Hlb) as Eb.
  unfold str_size in Ea, Eb. rewrite Ea, Eb. cbn [mbind option_bind].
  pose proof (str_str_loop_spec a b r1 r2 (S (length (a ++ Byte.x00 :: r1))) 0
                Ha Hb) as E.
  change (Z.of_nat 0) with 0 in E. rewrite Z.sub_0_r in E.
  apply E; [lia|assumption|rewrite length_app; lia|lia].
Qed.

Lemma str_str_first_occurrence_witness :
  exists r,
    str_str ([Byte.x61; Byte.x62; Byte.x61; Byte.x62; Byte.x63] ++ Byte.x00 :: [])
            ([Byte.x61; Byte.x62; Byte.x63] ++ Byte.x00 :: []) = Some r /\
    match r with
    | Some k =>
      exists j : nat, k = Z.of_nat j /\
        [Byte.x61; Byte.x62; Byte.x63] `prefix_of`
          drop j [Byte.x61; Byte.x62; Byte.x61; Byte.x62; Byte.x63] /\
        forall j' : nat, (j' < j)%nat ->
          ~ [Byte.x61; Byte.x62; Byte.x63] `prefix_of`
              drop j' [Byte.x61; Byte.x62; Byte.x61; Byte.x62; Byte.x63]
    | None => forall j : nat,
        ~ [Byte.x61; Byte.x62; Byte.x63] `prefix_of`
            drop j [Byte.x61; Byte.x62; Byte.x61; Byte.x62; Byte.x63]
    end.
Proof.
  apply (str_str_first_occurrence
           [Byte.x61; Byte.x62; Byte.x61; Byte.x62; Byte.x63]
           [Byte.x61; Byte.x62; Byte.x63] [] []).
  - repeat constructor; discriminate.
  - repeat constructor; discriminate.
  - reflexivity.
  - reflexivity.
Defined.

Lemma strchr_loop_spec a r1 c fuel : forall i : nat,
  Forall (fun b => b <> Byte.x00) a -> 0 <= c < 256 ->
  (i <= length a)%nat -> (length a - i < fuel)%nat ->
  exists r,
    strchr_loop fuel (a ++ Byte.x00 :: r1) c (Z.of_nat i) = Some r /\
    match r with
    | Some k =>
      exists j : nat, k = Z.of_nat j /\ (i <= j <= length a)%nat /\
        load (a ++ [Byte.x00]) k = Some c /\
        forall j' : nat, (i <= j' < j)%nat ->
          load (a ++ [Byte.x00]) (Z.of_nat j') <> Some c
    | None =>
      c <> 0 /\
      forall j' : nat, (i <= j')%nat -> load a (Z.of_nat j') <> Some c
    end.
Proof.
  induction fuel as [|fuel IH]; intros i Ha Hc Hi Hf; [lia|].
  cbn [strchr_loop].
  destruct (decide (i = length a)) as [->|Hne].
  - rewrite load_mid. change (b2z Byte.x00) with 0. cbn [mbind option_bind].
    change (0 =? 0) with true. cbn [negb andb].
    destruct (Z.eqb_spec 0 c) as [<-|Hc0].
    + eexists. split; [reflexivity|]. exists (length a).
      split; [reflexivity|]. split; [lia|]. split; [apply load_mid|]. lia.
    + eexists. split; [reflexivity|]. split; [lia|].
      intros j' Hj'. rewrite load_None by lia. discriminate.
  - rewrite load_app_l by lia.
    destruct (load_nonzero a (Z.of_nat i) Ha ltac:(lia)) as (b & Lb & Hb).
    rewrite Lb. cbn [mbind option_bind].
    destruct (Z.eqb_spec b 0); [lia|]. cbn [negb andb].
    destruct (Z.eqb_spec b c) as [->|Hbc]; cbn [negb].
    + eexists. split; [reflexivity|]. exists i.
      split; [reflexivity|]. split; [lia|].
      split; [rewrite load_app_l by lia; exact Lb|]. lia.
    + replace (Z.of_nat i + 1) with (Z.of_nat (S i)) by lia.
      destruct (IH (S i) Ha Hc ltac:(lia) ltac:(lia)) as (r & -> & Hr).
      exists r. split; [reflexivity|]. destruct r as [k|].
      * destruct Hr as (j & -> & Hj & Lj & Hmin). exists j.
        split; [reflexivity|]. split; [lia|]. split; [exact Lj|].
        intros j' Hj'. destruct (decide (j' = i)) as [->|].
        -- rewrite load_app_l by lia. rewrite Lb. congruence.
        -- apply Hmin. lia.
      * destruct Hr as [Hc0 Hr]. split; [exact Hc0|].
        intros j' Hj'. destruct (decide (j' = i)) as [->|].
        -- rewrite Lb. congruence.
        -- apply Hr. lia.
Qed.

(** [str_chr] with an ASCII character: the first byte of the string that
    holds it, none if no byte does; the null character is found at the
    terminator. *)
Theorem str_chr_ascii utf8 a r1 ch :
  Forall (fun b => b <> Byte.x00) a -> 0 <= ch <= 127 ->
  exists r,
    str_chr utf8 (a ++ Byte.x00 :: r1) ch = Some r /\
    match r with
    | Some k =>
      exists j : nat, k = Z.of_nat j /\ (j <= length a)%nat /\
        load (a ++ [Byte.x00]) k = Some ch /\
        forall j' : nat, (j' < j)%nat -> load (a ++ [Byte.x00]) (Z.of_nat j') <> Some ch
    | None => ch <> 0 /\ forall j' : nat, load a (Z.of_nat j') <> Some ch
    end.
Proof.
  intros Ha Hch. unfold str_chr, ascii_check, _strchr.
  destruct (Z.leb_spec ch 127); [|lia].
  replace (u8 ch) with ch by (unfold u8; zlia).
  destruct (strchr_loop_spec a r1 ch (S (length (a ++ Byte.x00 :: r1))) 0 Ha)
    as (r & E & Hr); [lia|lia|rewrite length_app; lia|].
  exists r. split; [exact E|]. destruct r as [k|].
  - destruct Hr as (j & -> & Hj & Lj & Hmin). exists j.
    repeat split; try (assumption || lia). intros j' Hj'. apply Hmin. lia.
  - destruct Hr as [Hc0 Hr]. split; [exact Hc0|]. intros j'. apply Hr. lia.
Qed.

Lemma str_chr_ascii_witness :
  exists r,
    str_chr [] ([Byte.x61; Byte.x62; Byte.x62] ++ Byte.x00 :: []) 0x62 = Some r /\
    match r with
    | Some k =>
      exists j : nat, k = Z.of_nat j /\ (j <= length [Byte.x61; Byte.x62; Byte.x62])%nat /\
        load ([Byte.x61; Byte.x62; Byte.x62] ++ [Byte.x00]) k = Some 0x62 /\
        forall j' : nat, (j' < j)%nat ->
          load ([Byte.x61; Byte.x62; Byte.x62] ++ [Byte.x00]) (Z.of_nat j') <> Some 0x62
    | None => 0x62 <> 0 /\
        forall j' : nat, load [Byte.x61; Byte.x62; Byte.x62] (Z.of_nat j') <> Some 0x62
    end.
Proof.
  apply (str_chr_ascii [] [Byte.x61; Byte.x62; Byte.x62] [] 0x62).
  - repeat constructor; discriminate.
  - lia.
Defined.

Lemma load_lookup s j v :
  load s (Z.of_nat j) = Some v -> s !! j = Some (z2b v).
Proof.
  unfold load. destruct (Z.ltb_spec (Z.of_nat j) 0); [lia|].
  rewrite Nat2Z.id. destruct (s !! j) as [b|]; [|discriminate].
  cbn. intros [= <-]. by rewrite z2b_b2z.
Qed.

Lemma loads_prefix s (e : list Z) :
  (forall j v, e !! j = Some v -> load s (Z.of_nat j) = Some v) ->
  load s (Z.of_nat (length e)) = Some 0 ->
  s = (z2b <$> e) ++ Byte.x00 :: drop (S (length e)) s.
Proof.
  intros He H0. apply load_lookup in H0. change (z2b 0) with Byte.x00 in H0.
  apply list_eq. intros j.
  destruct (decide (j < length e)%nat) as [Hj|Hj].
  - rewrite lookup_app_l by (rewrite length_fmap; lia).
    destruct (lookup_lt_is_Some_2 e j Hj) as [v Hv].
    rewrite list_lookup_fmap, Hv. cbn. apply load_lookup. by apply He.
  - rewrite lookup_app_r by (rewrite length_fmap; lia). rewrite length_fmap.
    destruct (decide (j = length e)) as [->|].
    + rewrite Nat.sub_diag. exact H0.
    + replace (j - length e)%nat with (S (j - S (length e))) by lia.
      rewrite lookup_cons. cbv iota. rewrite lookup_drop. f_equal. lia.
Qed.

Lemma prefix_head (e a : list byte) h t (j : nat) :
  e = h :: t -> e `prefix_of` drop j a -> load a (Z.of_nat j) = Some (b2z h).
Proof.
  intros -> [k Hk]. unfold load. destruct (Z.ltb_spec (Z.of_nat j) 0); [lia|].
  rewrite Nat2Z.id, <- (Nat.add_0_r j), <- lookup_drop, Hk. reflexivity.
Qed.

Lemma str_chr_loop_spec a r1 h t r2 fuel : forall i : nat,
  Forall (fun b => b <> Byte.x00) a -> Forall (fun b => b <> Byte.x00) (h :: t) ->
  (i <= length a)%nat -> (length a - i < fuel)%nat ->
  (forall j : nat, (j < i)%nat -> ~ (h :: t) `prefix_of` drop j a) ->
  exists r,
    str_chr_loop fuel (a ++ Byte.x00 :: r1) ((h :: t) ++ Byte.x00 :: r2)
      (Z.of_nat i) = Some r /\
    match r with
    | Some k =>
      exists j : nat, k = Z.of_nat j /\ (h :: t) `prefix_of` drop j a /\
        forall j' : nat, (j' < j)%nat -> ~ (h :: t) `prefix_of` drop j' a
    | None => forall j : nat, ~ (h :: t) `prefix_of` drop j a
    end.
Proof.
  induction fuel as [|fuel IH]; intros i Ha He Hi Hf Hbefore; [lia|].
  cbn [str_chr_loop].
  assert (Hh : b2z h <> 0).
  { apply Forall_cons in He as [Hh _]. by rewrite b2z_zero. }
  pose proof (b2z_range h) as Hhr.
  destruct (decide (i = length a)) as [->|Hne].
  { rewrite load_mid. change (b2z Byte.x00) with 0. cbn [mbind option_bind].
    change (0 =? 0) with true. cbv iota.
    eexists. split; [reflexivity|]. intros j Hp.
    destruct (decide (j < length a)%nat) as [Hj|Hj]; [by apply (Hbefore j)|].
    apply prefix_length in Hp. rewrite length_drop in Hp. cbn [length] in Hp. lia. }
  rewrite (load_app_l a) by lia.
  destruct (load_nonzero a (Z.of_nat i) Ha ltac:(lia)) as (b & Lb & Hb).
  rewrite Lb. cbn [mbind option_bind]. destruct (Z.eqb_spec b 0); [lia|].
  change (load ((h :: t) ++ Byte.x00 :: r2) 0) with (Some (b2z h)).
  cbn [mbind option_bind]. unfold _strchr.
  replace (u8 (b2z h)) with (b2z h) by (unfold u8; zlia).
  destruct (strchr_loop_spec a r1 (b2z h) (S (length (a ++ Byte.x00 :: r1))) i Ha)
    as (r & -> & Hr); [lia|lia|rewrite length_app; lia|].
  cbn [mbind option_bind]. destruct r as [k|].
  - destruct Hr as (j & -> & Hj & Lj & Hmin).
    assert (j <> length a).
    { intros ->. rewrite load_mid in Lj. injection Lj as Lj.
      change (b2z Byte.x00) with 0 in Lj. lia. }
    assert (Hskip : forall j' : nat, (j' < j)%nat -> ~ (h :: t) `prefix_of` drop j' a).
    { intros j' Hj' Hp.
      destruct (decide (j' < i)%nat); [by apply (Hbefore j')|].
      apply (Hmin j'); [lia|]. rewrite load_app_l by lia.
      by eapply prefix_head. }
    destruct (test_prefix_at a (h :: t) r1 r2 j Ha He ltac:(lia)) as (tp & -> & Ht).
    cbn [mbind option_bind]. destruct tp.
    + eexists. split; [reflexivity|]. exists j.
      split; [reflexivity|]. split; [by apply Ht|exact Hskip].
    + replace (Z.of_nat j + 1) with (Z.of_nat (S j)) by lia.
      apply IH; try assumption; try lia.
      intros j' Hj'. destruct (decide (j' = j)) as [->|].
      * intros Hp. apply Ht in Hp. discriminate.
      * apply Hskip. lia.
  - destruct Hr as [_ Hr]. eexists. split; [reflexivity|]. intros j Hp.
    destruct (decide (j < i)%nat); [by apply (Hbefore j)|].
    apply (Hr j); [lia|]. by eapply prefix_head.
Qed.

Lemma utf8_bytes_no_null ch :
  0 < ch <= 0x10FFFF -> Forall (fun b => b <> Byte.x00) (z2b <$> utf8_bytes ch).
Proof.
  intros Hch. apply Forall_fmap, Forall_lookup. intros i v Hv. cbn.
  pose proof (utf8_bytes_range ch i v ltac:(lia) Hv) as Hr.
  pose proof (utf8_bytes_nonzero ch i Hch) as Hnz.
  intros E. apply (f_equal b2z) in E. rewrite b2z_z2b in E.
  change (b2z Byte.x00) with 0 in E. apply Hnz. rewrite Hv. f_equal. zlia.
Qed.

(** [str_chr] with a character outside ASCII, on the bytes: the first
    position at which the encoding of the character occurs. *)
Lemma str_chr_bytes utf8 a r1 ch :
  Forall (fun b => b <> Byte.x00) a -> 0x80 <= ch <= 0x10FFFF ->
  5 <= Z.of_nat (length utf8) <= PTRDIFF_MAX ->
  exists r,
    str_chr utf8 (a ++ Byte.x00 :: r1) ch = Some r /\
    match r with
    | Some k =>
      exists j : nat, k = Z.of_nat j /\
        (z2b <$> utf8_bytes ch) `prefix_of` drop j a /\
        forall j' : nat, (j' < j)%nat -> ~ (z2b <$> utf8_bytes ch) `prefix_of` drop j' a
    | None => forall j : nat, ~ (z2b <$> utf8_bytes ch) `prefix_of` drop j a
    end.
Proof.
  intros Ha Hch Hlen. unfold str_chr, ascii_check.
  destruct (Z.leb_spec ch 127); [lia|].
  pose proof (utf8_bytes_count ch) as Hn.
  destruct (chr_encode_ok ch utf8 0 (Z.of_nat (length utf8)))
    as (u1 & -> & Hl1 & Hld1); try lia.
  cbn [mbind option_bind]. rewrite Z.add_0_l.
  destruct (Z.eqb_spec (Z.of_nat (length (utf8_bytes ch))) 0); [lia|].
  destruct (store_is_Some u1 (Z.of_nat (length (utf8_bytes ch))) 0)
    as [u2 Hst]; [lia|].
  rewrite Hst. cbn [mbind option_bind].
  apply store_Some in Hst as (_ & Hl2 & Hld2).
  assert (Hu2 : u2 = (z2b <$> utf8_bytes ch) ++ Byte.x00 ::
                     drop (S (length (utf8_bytes ch))) u2).
  { apply loads_prefix.
    - intros j v Hv. pose proof (lookup_lt_Some _ _ _ Hv) as Hj.
      rewrite Hld2. destruct (Z.eqb_spec (Z.of_nat j) (Z.of_nat (length (utf8_bytes ch))));
        [lia|].
      rewrite Hld1. destruct (Z.leb_spec 0 (Z.of_nat j)); [|lia].
      destruct (Z.ltb_spec (Z.of_nat j) (0 + Z.of_nat (length (utf8_bytes ch))));
        [|lia].
      cbn [andb]. rewrite Z.sub_0_r, Nat2Z.id. exact Hv.
    - rewrite Hld2, Z.eqb_refl. reflexivity. }
  rewrite Hu2.
  pose proof (utf8_bytes_no_null ch ltac:(lia)) as He.
  destruct (z2b <$> utf8_bytes ch) as [|h t] eqn:Ee.
  { apply (f_equal length) in Ee. rewrite length_fmap in Ee. cbn in Ee. lia. }
  pose proof (str_chr_loop_spec a r1 h t (drop (S (length (utf8_bytes ch))) u2)
                (S (length (a ++ Byte.x00 :: r1))) 0 Ha He) as E.
  change (Z.of_nat 0) with 0 in E.
  apply E; [lia|rewrite length_app; lia|lia].
Qed.

(** ** Self-synchronisation *)

(** The first byte of an encoding is no continuation byte, the others
    are. *)
Lemma utf8_bytes_shape ch :
  0 <= ch <= 0x10FFFF ->
  exists h t, utf8_bytes ch = h :: t /\ (0 <= h < 0x80 \/ 0xC0 <= h < 0x100) /\
              Forall (fun b => 0x80 <= b < 0xC0) t.
Proof.
  intros Hch. unfold utf8_bytes. case_cmp; eexists _, _;
    (split; [reflexivity|]); (split; [zlia|]); repeat constructor; zlia.
Qed.

(** An encoding that starts where another one starts is that encoding. *)
Lemma utf8_bytes_prefix_eq ch c X :
  0 <= ch <= 0x10FFFF -> 0 <= c <= 0x10FFFF ->
  utf8_bytes ch `prefix_of` utf8_bytes c ++ X -> ch = c.
Proof.
  intros Hch Hc. unfold utf8_bytes.
  destruct (Z.ltb_spec ch 0x80), (Z.ltb_spec ch 0x800), (Z.ltb_spec ch 0x10000);
    try lia;
  destruct (Z.ltb_spec c 0x80), (Z.ltb_spec c 0x800), (Z.ltb_spec c 0x10000);
    try lia; cbn [app]; intros Hp.
  all: repeat match type of Hp with
       | (_ :: _) `prefix_of` (_ :: _) =>
         let E := fresh "E" in
         pose proof (prefix_cons_inv_1 _ _ _ _ Hp) as E;
         apply prefix_cons_inv_2 in Hp
       end.
  all: try zlia.
  all: try (apply prefix_cons_not in Hp; contradiction).
Qed.

Lemma drop_app_lt {A} (l1 l2 : list A) (j : nat) :
  (j <= length l1)%nat -> drop j (l1 ++ l2) = drop j l1 ++ l2.
Proof. intros H. rewrite drop_app. replace (j - length l1)%nat with 0%nat by lia. reflexivity. Qed.

(** In well-formed text the encoding of a character occurs only where that
    character stands. *)
Lemma utf8_sync l : forall ch (j : nat),
  Forall (fun c => 0 <= c <= 0x10FFFF) l -> 0 <= ch <= 0x10FFFF ->
  utf8_bytes ch `prefix_of` drop j (l ≫= utf8_bytes) ->
  exists k : nat, j = length (take k l ≫= utf8_bytes) /\ l !! k = Some ch.
Proof.
  induction l as [|c l IH]; intros ch j Hl Hch Hp.
  { cbn [mbind list_bind] in Hp. rewrite drop_nil in Hp. apply prefix_nil_inv in Hp.
    pose proof (utf8_bytes_count ch). rewrite Hp in *. cbn in *. lia. }
  apply Forall_cons in Hl as [Hc Hl]. cbn [mbind list_bind] in Hp.
  pose proof (utf8_bytes_count c) as Hn.
  destruct (decide (j = 0)%nat) as [->|Hj0].
  { exists 0%nat. split; [reflexivity|]. cbn. f_equal. symmetry.
    by eapply utf8_bytes_prefix_eq. }
  destruct (decide (j < length (utf8_bytes c))%nat) as [Hj|Hj].
  - exfalso. destruct (utf8_bytes_shape c Hc) as (h & t & Ec & _ & Ht).
    destruct (utf8_bytes_shape ch Hch) as (h' & t' & Ech & Hh' & _).
    rewrite Ec, Ech in *. cbn [length] in Hj.
    destruct j as [|j]; [lia|]. cbn [app drop] in Hp.
    rewrite drop_app_lt in Hp by lia.
    destruct (drop j t) as [|b t''] eqn:Ed.
    { apply (f_equal length) in Ed. rewrite length_drop in Ed. cbn in Ed. lia. }
    cbn [app] in Hp. apply prefix_cons_inv_1 in Hp. subst h'.
    assert (Hb : t !! (j + 0)%nat = Some b) by (rewrite <- lookup_drop, Ed; reflexivity).
    pose proof (Forall_lookup_1 _ _ _ _ Ht Hb) as Hr. cbn in Hr. lia.
  - rewrite drop_app_ge in Hp by lia.
    destruct (IH ch _ Hl Hch Hp) as (k & Ek & Hk).
    exists (S k). split; [|exact Hk].
    cbn [take mbind list_bind]. rewrite length_app. lia.
Qed.

Lemma utf8_occurs l ch (k : nat) :
  l !! k = Some ch ->
  utf8_bytes ch `prefix_of` drop (length (take k l ≫= utf8_bytes)) (l ≫= utf8_bytes).
Proof.
  intros Hk. rewrite <- (take_drop_middle l k ch Hk) at 2.
  rewrite bind_app, drop_app_length. cbn [mbind list_bind].
  by apply prefix_app_r.
Qed.

Lemma take_text_mono l (i i' : nat) :
  (i' < i <= length l)%nat ->
  (length (take i' l ≫= utf8_bytes) < length (take i l ≫= utf8_bytes))%nat.
Proof.
  revert i i'. induction l as [|c l IH]; intros i i' H; [cbn in H; lia|].
  destruct i as [|i]; [lia|]. cbn [take mbind list_bind]. rewrite length_app.
  pose proof (utf8_bytes_count c). destruct i' as [|i']; [cbn; lia|].
  cbn [take mbind list_bind]. rewrite length_app.
  cbn [length] in H. specialize (IH i i' ltac:(lia)). lia.
Qed.

Lemma fmap_z2b_prefix (e x : list Z) :
  Forall (fun b => 0 <= b < 256) e -> Forall (fun b => 0 <= b < 256) x ->
  (z2b <$> e) `prefix_of` (z2b <$> x) -> e `prefix_of` x.
Proof.
  revert x. induction e as [|a e IH]; intros x He Hx Hp; [apply prefix_nil|].
  destruct x as [|b x]; [apply prefix_nil_inv in Hp; discriminate|].
  apply Forall_cons in He as [Ha He]. apply Forall_cons in Hx as [Hb Hx].
  cbn [fmap list_fmap] in Hp.
  pose proof (prefix_cons_inv_1 _ _ _ _ Hp) as E.
  apply prefix_cons_inv_2 in Hp.
  apply (f_equal b2z) in E. rewrite !b2z_z2b, !Z.mod_small in E by lia. subst b.
  apply prefix_cons. by apply IH.
Qed.

Lemma str_chr_bytes_any utf8 a r1 ch :
  Forall (fun b => b <> Byte.x00) a -> 0 < ch <= 0x10FFFF ->
  5 <= Z.of_nat (length utf8) <= PTRDIFF_MAX ->
  exists r,
    str_chr utf8 (a ++ Byte.x00 :: r1) ch = Some r /\
    match r with
    | Some k =>
      exists j : nat, k = Z.of_nat j /\
        (z2b <$> utf8_bytes ch) `prefix_of` drop j a /\
        forall j' : nat, (j' < j)%nat -> ~ (z2b <$> utf8_bytes ch) `prefix_of` drop j' a
    | None => forall j : nat, ~ (z2b <$> utf8_bytes ch) `prefix_of` drop j a
    end.
Proof.
  intros Ha Hch Hlen.
  destruct (Z_lt_le_dec ch 0x80) as [Hascii|]; [|apply str_chr_bytes; (assumption || lia)].
  rewrite utf8_bytes_1 by lia. cbn [fmap list_fmap].
  assert (Hocc : forall j : nat, [z2b ch] `prefix_of` drop j a ->
                                 load a (Z.of_nat j) = Some ch).
  { intros j Hp. rewrite (prefix_head [z2b ch] a (z2b ch) [] j eq_refl Hp).
    rewrite b2z_z2b. f_equal. zlia. }
  unfold str_chr, ascii_check, _strchr.
  destruct (Z.leb_spec ch 127); [|lia].
  replace (u8 ch) with ch by (unfold u8; zlia).
  destruct (strchr_loop_spec a r1 ch (S (length (a ++ Byte.x00 :: r1))) 0 Ha)
    as (r & E & Hr); [lia|lia|rewrite length_app; lia|].
  exists r. split; [exact E|]. destruct r as [k|].
  - destruct Hr as (j & -> & Hj & Lj & Hmin).
    assert (j <> length a).
    { intros ->. rewrite load_mid in Lj. injection Lj as Lj.
      change (b2z Byte.x00) with 0 in Lj. lia. }
    exists j. split; [reflexivity|]. split.
    + rewrite load_app_l in Lj by lia. apply load_lookup in Lj.
      rewrite <- (take_drop_middle a j (z2b ch) Lj).
      rewrite drop_app_length' by (rewrite length_take; lia).
      by apply (prefix_app_r [z2b ch] [z2b ch]).
    + intros j' Hj' Hp. apply (Hmin j'); [lia|].
      rewrite load_app_l by lia. by apply Hocc.
  - destruct Hr as [_ Hr]. intros j Hp. apply (Hr j); [lia|]. by apply Hocc.
Qed.

(** [str_chr] on a well-formed string finds the first occurrence of the
    character, ASCII or not: it returns the byte offset of the first
    position of [l] that holds [ch], and nothing if [ch] is not in [l]. *)
Theorem str_chr_utf8_string utf8 l ch :
  Forall (fun c => 0 < c <= 0x10FFFF) l -> 0 < ch <= 0x10FFFF ->
  5 <= Z.of_nat (length utf8) <= PTRDIFF_MAX ->
  exists r,
    str_chr utf8 (utf8_string l) ch = Some r /\
    match r with
    | Some k =>
      exists i : nat, l !! i = Some ch /\ (ch ∉ take i l) /\
        k = Z.of_nat (length (take i l ≫= utf8_bytes))
    | None => ch ∉ l
    end.
Proof.
  intros Hl Hch Hlen. unfold utf8_string. rewrite fmap_app.
  change (z2b <$> [0]) with (Byte.x00 :: []).
  assert (Hl' : Forall (fun c => 0 <= c <= 0x10FFFF) l)
    by (eapply Forall_impl; [exact Hl|]; cbn; lia).
  assert (Hr : Forall (fun b => 0 <= b < 256) (l ≫= utf8_bytes)).
  { pose proof (utf8_string_bytes l Hl') as H.
    by apply Forall_app in H as [H _]. }
  assert (Hnz : Forall (fun b => b <> Byte.x00) (z2b <$> (l ≫= utf8_bytes))).
  { clear Hr. induction Hl as [|c l Hc Hl IH]; [constructor|].
    cbn [mbind list_bind]. rewrite fmap_app. apply Forall_app. split.
    - by apply utf8_bytes_no_null.
    - apply IH. by apply Forall_cons in Hl' as [_ ?]. }
  assert (Hpre : forall j : nat,
    (z2b <$> utf8_bytes ch) `prefix_of` drop j (z2b <$> (l ≫= utf8_bytes)) ->
    utf8_bytes ch `prefix_of` drop j (l ≫= utf8_bytes)).
  { intros j Hp. rewrite <- fmap_drop in Hp.
    apply fmap_z2b_prefix in Hp; [exact Hp| |by apply Forall_drop].
    apply Forall_lookup. intros i v Hv. eapply utf8_bytes_range; [|exact Hv]. lia. }
  assert (Hocc : forall i : nat, l !! i = Some ch ->
    (z2b <$> utf8_bytes ch) `prefix_of`
      drop (length (take i l ≫= utf8_bytes)) (z2b <$> (l ≫= utf8_bytes))).
  { intros i Hi. rewrite <- fmap_drop.
    destruct (utf8_occurs l ch i Hi) as [x Hx]. rewrite Hx, fmap_app.
    by apply prefix_app_r. }
  destruct (str_chr_bytes_any utf8 (z2b <$> (l ≫= utf8_bytes)) [] ch Hnz Hch Hlen)
    as (r & E & Hres).
  exists r. split; [exact E|]. destruct r as [k|].
  - destruct Hres as (j & -> & Hp & Hmin).
    destruct (utf8_sync l ch j Hl' ltac:(lia) (Hpre j Hp)) as (i & -> & Hi).
    exists i. split; [exact Hi|]. split; [|reflexivity].
    intros Hin. apply list_elem_of_lookup in Hin as [i' Hi'].
    pose proof (lookup_lt_Some _ _ _ Hi') as Hlt. rewrite length_take in Hlt.
    rewrite lookup_take_lt in Hi' by lia.
    apply (Hmin (length (take i' l ≫= utf8_bytes))); [|by apply Hocc].
    apply take_text_mono. apply lookup_lt_Some in Hi. lia.
  - intros Hin. apply list_elem_of_lookup in Hin as [i Hi].
    apply (Hres _ (Hocc i Hi)).
Qed.

Lemma str_chr_utf8_string_witness :
  exists r,
    str_chr [Byte.x00; Byte.x00; Byte.x00; Byte.x00; Byte.x00]
      (utf8_string [0x61; 0x20AC; 0xE9; 0x20AC]) 0x20AC = Some r /\
    match r with
    | Some k =>
      exists i : nat, [0x61; 0x20AC; 0xE9; 0x20AC] !! i = Some 0x20AC /\
        (0x20AC ∉ take i [0x61; 0x20AC; 0xE9; 0x20AC]) /\
        k = Z.of_nat (length (take i [0x61; 0x20AC; 0xE9; 0x20AC] ≫= utf8_bytes))
    | None => 0x20AC ∉ [0x61; 0x20AC; 0xE9; 0x20AC]
    end.
Proof.
  apply (str_chr_utf8_string [Byte.x00; Byte.x00; Byte.x00; Byte.x00; Byte.x00]
           [0x61; 0x20AC; 0xE9; 0x20AC] 0x20AC).
  - repeat constructor; lia.
  - lia.
  - vm_compute. split; discriminate.
Defined.

(** The copy loop on a source that need not be terminated: it stops at
    position [k], the first null byte of the source or the last byte of the
    destination. *)
Lemma cpyn_loop_stop src top k fuel : forall dest i,
  0 <= i <= k -> k <= top ->
  (forall j, i <= j < k -> exists c, load src j = Some c /\ c <> 0) ->
  (exists c, load src k = Some c /\ (c = 0 \/ k = top)) ->
  k < Z.of_nat (length dest) -> k - i < Z.of_nat fuel ->
  exists dest',
    cpyn_loop fuel dest src i top = Some dest' /\
    length dest' = length dest /\
    load dest' k = Some 0 /\
    (forall j, i <= j < k -> load dest' j = load src j) /\
    (forall j, j < i \/ k < j -> load dest' j = load dest j).
Proof.
  induction fuel as [|fuel IH]; intros dest i Hi Htop Hnz Hstop Hcap Hfuel; [lia|].
  cbn [cpyn_loop]. destruct (Z.eq_dec i k) as [->|Hne].
  - destruct Hstop as (c & Lc & Hc). rewrite Lc. cbn [mbind option_bind].
    assert (negb (c =? 0) && (k <? top) = false) as ->.
    { destruct Hc as [->| ->]; [reflexivity|].
      rewrite Z.ltb_irrefl. apply andb_false_r. }
    destruct (store_is_Some dest k 0) as [d1 Hst]; [lia|].
    rewrite Hst. apply store_Some in Hst as (_ & Hl1 & Hld1).
    exists d1. split; [reflexivity|]. split; [exact Hl1|].
    split; [by rewrite Hld1, Z.eqb_refl|]. split; [intros; lia|].
    intros j Hj. rewrite Hld1. destruct (Z.eqb_spec j k); [lia|reflexivity].
  - destruct (Hnz i ltac:(lia)) as (c & Lc & Hc). rewrite Lc.
    cbn [mbind option_bind].
    destruct (Z.eqb_spec c 0); [lia|]. destruct (Z.ltb_spec i top); [|lia].
    cbn [negb andb].
    destruct (store_is_Some dest i c) as [d1 Hst]; [lia|].
    rewrite Hst. cbn [mbind option_bind].
    apply store_Some in Hst as (_ & Hl1 & Hld1).
    pose proof (load_Some _ _ _ Lc) as [_ Hcr].
    destruct (IH d1 (i + 1)) as (d2 & E & Hl2 & Hz & Hcopy & Hframe);
      try lia; try assumption.
    { intros j Hj. apply Hnz. lia. }
    exists d2. split; [exact E|]. split; [congruence|]. split; [exact Hz|].
    split.
    + intros j Hj. destruct (Z.eq_dec j i) as [->|].
      * rewrite Hframe by lia. rewrite Hld1, Z.eqb_refl, Lc. f_equal. zlia.
      * apply Hcopy. lia.
    + intros j Hj. rewrite Hframe by lia. rewrite Hld1.
      destruct (Z.eqb_spec j i); [lia|reflexivity].
Qed.

(** The copy loop runs off a source that ends before a null byte and
    before the limit. *)
Lemma cpyn_loop_off_end src top fuel : forall dest i,
  0 <= i <= Z.of_nat (length src) -> Z.of_nat (length src) <= top ->
  (forall j, i <= j < Z.of_nat (length src) -> exists c, load src j = Some c /\ c <> 0) ->
  Z.of_nat (length src) <= Z.of_nat (length dest) ->
  cpyn_loop fuel dest src i top = None.
Proof.
  induction fuel as [|fuel IH]; intros dest i Hi Htop Hnz Hcap; [reflexivity|].
  cbn [cpyn_loop]. destruct (Z.eq_dec i (Z.of_nat (length src))) as [->|Hne].
  - rewrite load_None by lia. reflexivity.
  - destruct (Hnz i ltac:(lia)) as (c & Lc & Hc). rewrite Lc.
    cbn [mbind option_bind].
    destruct (Z.eqb_spec c 0); [lia|]. destruct (Z.ltb_spec i top); [|lia].
    cbn [negb andb].
    destruct (store_is_Some dest i c) as [d1 Hst]; [lia|].
    rewrite Hst. cbn [mbind option_bind].
    apply store_Some in Hst as (_ & Hl1 & _).
    apply IH; try lia. intros j Hj. apply Hnz. lia.
Qed.

(** The sanitizer after a copy: the string ends where the copy put the
    terminator, and its bytes are well-formed. *)
Lemma sanitize_terminated dest1 k size :
  0 <= k < size -> size <= SIZE_MAX ->
  k < Z.of_nat (length dest1) -> Z.of_nat (length dest1) <= PTRDIFF_MAX ->
  load dest1 k = Some 0 -> (forall j, 0 <= j < k -> load dest1 j <> Some 0) ->
  exists dest2 count,
    _str_sanitize dest1 size U_SPECIAL = Some (dest2, count) /\
    length dest2 = length dest1 /\
    load dest2 k = Some 0 /\
    (forall i, 0 <= i < k -> load dest2 i <> Some 0) /\
    (forall i, k <= i -> load dest2 i = load dest1 i) /\
    well_formed (take (Z.to_nat k) dest2) = true.
Proof.
  intros Hk Hsize Hkd Hl1 Hz1 Hnz1.
  destruct (sanitize_loop_sanitizes U_SPECIAL k ltac:(unfold U_SPECIAL; lia)
              (length dest1) dest1 0 size 0)
    as (dest2 & count & Esan & Hl2 & Hframe & Hnz2 & Hwf); try lia;
    try assumption.
  exists dest2, count. unfold _str_sanitize. split; [exact Esan|].
  split; [exact Hl2|]. split; [rewrite Hframe by lia; exact Hz1|].
  split; [exact Hnz2|]. split; [intros i Hi; apply Hframe; lia|].
  unfold well_formed.
  assert (Elen : length (take (Z.to_nat k) dest2) = Z.to_nat k)
    by (rewrite length_take; lia).
  rewrite Elen, Z2Nat.id by lia. rewrite Z.sub_0_r in Hwf.
  eapply (all_scalars_transfer _ _ _ dest2); [| | | | |exact Hwf];
    try (unfold PTRDIFF_MAX in *; lia).
  intros i Hi. unfold load. destruct (Z.ltb_spec i 0); [lia|].
  rewrite lookup_take_lt by lia. reflexivity.
Qed.

Lemma loads_nonzero_app w rest :
  Forall (fun b => b <> Byte.x00) w ->
  forall j, 0 <= j < Z.of_nat (length w) ->
    exists c, load (w ++ rest) j = Some c /\ c <> 0.
Proof.
  intros Hw j Hj. rewrite load_app_l by lia. by apply load_nonzero.
Qed.

Lemma str_ncpy_spec dest size w c rest n :
  Forall (fun b => b <> Byte.x00) w ->
  1 <= size <= Z.of_nat (length dest) -> Z.of_nat (length dest) <= PTRDIFF_MAX ->
  0 <= n < SIZE_MAX ->
  Z.of_nat (length w) <= Z.min (size - 1) n ->
  c = Byte.x00 \/ Z.of_nat (length w) = Z.min (size - 1) n ->
  exists dest',
    str_ncpy dest size (w ++ c :: rest) n = Some dest' /\
    length dest' = length dest /\
    load dest' (Z.of_nat (length w)) = Some 0 /\
    (forall i, 0 <= i < Z.of_nat (length w) -> load dest' i <> Some 0) /\
    (forall i, Z.of_nat (length w) < i -> load dest' i = load dest i) /\
    well_formed (take (length w) dest') = true.
Proof.
  intros Hw Hsize Hld Hn Hfit Hstop.
  pose proof Hld as Hld'. unfold PTRDIFF_MAX in Hld'.
  unfold SIZE_MAX, SIZE_MOD in Hn.
  unfold str_ncpy, _str_cpyn.
  rewrite size_add_small by (unfold SIZE_MOD; lia).
  destruct (Z.eqb_spec (Z.min size (n + 1)) 0); [lia|].
  destruct (Z.eqb_spec (Z.min size (n + 1)) STR_NO_LIMIT) as [E|_];
    [unfold STR_NO_LIMIT, SIZE_MAX, SIZE_MOD in E; lia|].
  replace (Z.min size (n + 1) - 1) with (Z.min (size - 1) n) by lia.
  destruct (cpyn_loop_stop (w ++ c :: rest) (Z.min (size - 1) n)
              (Z.of_nat (length w)) (S (length (w ++ c :: rest))) dest 0)
    as (d1 & -> & Hl1 & Hz1 & Hcp & Hfr); try lia.
  { intros j Hj. apply loads_nonzero_app; [assumption|lia]. }
  { exists (b2z c). split; [apply load_mid|].
    destruct Hstop as [->|E]; [left; reflexivity|right; exact E]. }
  { rewrite length_app. lia. }
  cbn [mbind option_bind].
  destruct (sanitize_terminated d1 (Z.of_nat (length w)) size)
    as (d2 & count & -> & Hl2 & Hz2 & Hnz2 & Hfr2 & Hwf);
    try lia; try assumption; try (unfold SIZE_MAX, SIZE_MOD; lia);
    try (rewrite Hl1; assumption).
  { intros j Hj. rewrite Hcp by lia.
    destruct (loads_nonzero_app w (c :: rest) Hw j Hj) as (v & -> & Hv).
    congruence. }
  cbn [mbind option_bind]. exists d2. split; [reflexivity|].
  split; [congruence|]. split; [exact Hz2|]. split; [exact Hnz2|].
  split; [intros i Hi; rewrite Hfr2, Hfr by lia; reflexivity|].
  rewrite Nat2Z.id in Hwf. exact Hwf.
Qed.

(** [str_ncpy] with [n < SIZE_MAX] leaves a terminated, well-formed string
    of at most [min(size - 1, n)] bytes: the source up to its first null
    byte or up to that bound.  The source must hold one byte more than is
    copied.  At [n = SIZE_MAX] the sum [n + 1] wraps to 0, the size
    [_str_cpyn] asserts to be other than 0: nothing is copied, [dest] is
    only sanitized, whatever the source. *)
Theorem str_ncpy_terminated_well_formed dest size w c rest n :
  Forall (fun b => b <> Byte.x00) w ->
  1 <= size <= Z.of_nat (length dest) -> Z.of_nat (length dest) <= PTRDIFF_MAX ->
  0 <= n <= SIZE_MAX ->
  Z.of_nat (length w) <= Z.min (size - 1) n ->
  c = Byte.x00 \/ Z.of_nat (length w) = Z.min (size - 1) n ->
  (n < SIZE_MAX ->
   exists dest',
     str_ncpy dest size (w ++ c :: rest) n = Some dest' /\
     length dest' = length dest /\
     load dest' (Z.of_nat (length w)) = Some 0 /\
     (forall i, 0 <= i < Z.of_nat (length w) -> load dest' i <> Some 0) /\
     (forall i, Z.of_nat (length w) < i -> load dest' i = load dest i) /\
     well_formed (take (length w) dest') = true) /\
  (n = SIZE_MAX ->
   str_ncpy dest size (w ++ c :: rest) n =
     '(dest', _) ← _str_sanitize dest size U_SPECIAL; Some dest').
Proof.
  intros Hw Hsize Hld Hn Hfit Hstop. split.
  - intros Hlt. apply str_ncpy_spec; (assumption || lia).
  - intros ->. unfold str_ncpy, _str_cpyn.
    change (size_add SIZE_MAX 1) with 0.
    replace (Z.min size 0) with 0 by lia. reflexivity.
Qed.

Lemma str_ncpy_terminated_well_formed_witness :
  (2 < SIZE_MAX ->
   exists dest',
     str_ncpy [Byte.xff; Byte.xff; Byte.xff; Byte.xff] 4
       ([Byte.x61; Byte.xc3] ++ Byte.xa9 :: [Byte.x62]) 2 = Some dest' /\
     length dest' = length [Byte.xff; Byte.xff; Byte.xff; Byte.xff] /\
     load dest' (Z.of_nat (length [Byte.x61; Byte.xc3])) = Some 0 /\
     (forall i, 0 <= i < Z.of_nat (length [Byte.x61; Byte.xc3]) -> load dest' i <> Some 0) /\
     (forall i, Z.of_nat (length [Byte.x61; Byte.xc3]) < i ->
        load dest' i = load [Byte.xff; Byte.xff; Byte.xff; Byte.xff] i) /\
     well_formed (take (length [Byte.x61; Byte.xc3]) dest') = true) /\
  (2 = SIZE_MAX ->
   str_ncpy [Byte.xff; Byte.xff; Byte.xff; Byte.xff] 4
     ([Byte.x61; Byte.xc3] ++ Byte.xa9 :: [Byte.x62]) 2 =
     '(dest', _) ← _str_sanitize [Byte.xff; Byte.xff; Byte.xff; Byte.xff] 4 U_SPECIAL;
     Some dest').
Proof.
  apply (str_ncpy_terminated_well_formed [Byte.xff; Byte.xff; Byte.xff; Byte.xff] 4
           [Byte.x61; Byte.xc3] Byte.xa9 [Byte.x62] 2).
  - repeat constructor; discriminate.
  - cbn [length]. lia.
  - vm_compute. discriminate.
  - unfold SIZE_MAX, SIZE_MOD. lia.
  - cbn [length]. lia.
  - right. cbn [length]. lia.
Defined.

(** [str_ncpy] reads the byte at index [n] of the source when the source
    has no null byte before it and the destination has room: a source of
    exactly [n] bytes is read past its end, one more byte makes the call
    succeed. *)
Theorem str_ncpy_reads_byte_n dest size src n :
  Forall (fun b => b <> Byte.x00) src -> n = Z.of_nat (length src) ->
  n < size <= Z.of_nat (length dest) -> Z.of_nat (length dest) <= PTRDIFF_MAX ->
  str_ncpy dest size src n = None /\
  forall c, exists dest', str_ncpy dest size (src ++ [c]) n = Some dest'.
Proof.
  intros Hsrc -> Hsize Hld. pose proof Hld as Hld'. unfold PTRDIFF_MAX in Hld'.
  split.
  - unfold str_ncpy, _str_cpyn.
    rewrite size_add_small by (unfold SIZE_MOD; lia).
    destruct (Z.eqb_spec (Z.min size (Z.of_nat (length src) + 1)) 0); [lia|].
    destruct (Z.eqb_spec (Z.min size (Z.of_nat (length src) + 1)) STR_NO_LIMIT)
      as [E|_]; [unfold STR_NO_LIMIT, SIZE_MAX, SIZE_MOD in E; lia|].
    rewrite cpyn_loop_off_end; [reflexivity|lia|lia| |lia].
    intros j Hj. by apply load_nonzero.
  - intros c.
    destruct (str_ncpy_spec dest size src c [] (Z.of_nat (length src)))
      as (d & E & _); try assumption; try lia;
      try (unfold SIZE_MAX, SIZE_MOD; lia).
    exists d. exact E.
Qed.

Lemma str_ncpy_reads_byte_n_witness :
  str_ncpy [Byte.xff; Byte.xff; Byte.xff; Byte.xff] 4 [Byte.x61; Byte.x62] 2 = None /\
  forall c, exists dest',
    str_ncpy [Byte.xff; Byte.xff; Byte.xff; Byte.xff] 4 ([Byte.x61; Byte.x62] ++ [c]) 2
      = Some dest'.
Proof.
  apply (str_ncpy_reads_byte_n [Byte.xff; Byte.xff; Byte.xff; Byte.xff] 4
           [Byte.x61; Byte.x62] 2).
  - repeat constructor; discriminate.
  - reflexivity.
  - cbn [length]. lia.
  - vm_compute. discriminate.
Defined.

Lemma load_drop s (n : nat) i :
  0 <= i -> load (drop n s) i = load s (Z.of_nat n + i).
Proof.
  intros Hi. unfold load.
  destruct (Z.ltb_spec i 0), (Z.ltb_spec (Z.of_nat n + i) 0); try lia.
  rewrite lookup_drop. do 2 f_equal. lia.
Qed.

(** [str_append] keeps the string that is in [dest], puts after it the
    bytes of [src] that fit, sanitized, and terminates the result inside
    [size] bytes.  When the string in [dest] leaves no room, [dest] is
    unchanged. *)
Theorem str_append_spec d r size w rs :
  Forall (fun b => b <> Byte.x00) d -> Forall (fun b => b <> Byte.x00) w ->
  1 <= size <= Z.of_nat (length (d ++ Byte.x00 :: r)) ->
  Z.of_nat (length (d ++ Byte.x00 :: r)) <= PTRDIFF_MAX ->
  Z.of_nat (length (w ++ Byte.x00 :: rs)) <= PTRDIFF_MAX ->
  (size <= Z.of_nat (length d) ->
   str_append (d ++ Byte.x00 :: r) size (w ++ Byte.x00 :: rs) =
     Some (d ++ Byte.x00 :: r)) /\
  (Z.of_nat (length d) < size ->
   exists tail,
     str_append (d ++ Byte.x00 :: r) size (w ++ Byte.x00 :: rs) = Some (d ++ tail) /\
     length tail = S (length r) /\
     let k := Z.min (Z.of_nat (length w)) (size - 1 - Z.of_nat (length d)) in
     load tail k = Some 0 /\
     (forall i, 0 <= i < k -> load tail i <> Some 0) /\
     (forall i, k < i -> load tail i = load (Byte.x00 :: r) i) /\
     well_formed (take (Z.to_nat k) tail) = true).
Proof.
  intros Hd Hw Hsize Hld Hls.
  pose proof Hld as Hld'. unfold PTRDIFF_MAX in Hld'.
  rewrite length_app in Hld', Hsize. cbn [length] in Hld', Hsize.
  pose proof Hls as Hls'. unfold PTRDIFF_MAX in Hls'.
  rewrite length_app in Hls'. cbn [length] in Hls'.
  assert (Hdl : Z.of_nat (length d) < SIZE_MOD) by (unfold SIZE_MOD; lia).
  pose proof (str_nsize_behaviour d size Hd Hdl ltac:(lia)) as (Hns & _).
  unfold str_nsize in Hns. unfold str_append. rewrite Hns.
  cbn [mbind option_bind]. split; intros Hcase.
  - rewrite Z.min_r by lia. rewrite Z.ltb_irrefl. reflexivity.
  - rewrite Z.min_l by lia. destruct (Z.ltb_spec (Z.of_nat (length d)) size); [|lia].
    rewrite Nat2Z.id, drop_app_length, take_app_length.
    rewrite size_sub_small by (unfold SIZE_MOD; lia).
    set (rest := size - Z.of_nat (length d)).
    set (k := Z.min (Z.of_nat (length w)) (size - 1 - Z.of_nat (length d))).
    unfold _str_cpyn.
    destruct (Z.eqb_spec rest 0); [lia|].
    destruct (Z.eqb_spec rest STR_NO_LIMIT) as [E|_];
      [unfold STR_NO_LIMIT, SIZE_MAX, SIZE_MOD in E; lia|].
    destruct (cpyn_loop_stop (w ++ Byte.x00 :: rs) (rest - 1) k
                (S (length (w ++ Byte.x00 :: rs))) (Byte.x00 :: r) 0)
      as (d1 & -> & Hl1 & Hz1 & Hcp & Hfr); try (subst k rest; lia).
    { intros j Hj. apply loads_nonzero_app; [assumption|subst k; lia]. }
    { destruct (Z.eq_dec k (Z.of_nat (length w))) as [E|Hne].
      - exists 0. rewrite E. split; [apply load_mid|by left].
      - destruct (loads_nonzero_app w (Byte.x00 :: rs) Hw k) as (c & Lc & _);
          [subst k; lia|].
        exists c. split; [exact Lc|right; subst k rest; lia]. }
    { cbn [length]. subst k rest. lia. }
    { rewrite length_app. cbn [length]. subst k. lia. }
    cbn [mbind option_bind]. cbn [length] in Hl1.
    destruct (sanitize_terminated d1 k rest)
      as (d2 & count & -> & Hl2 & Hz2 & Hnz2 & Hfr2 & Hwf);
      try (subst k rest; lia); try assumption;
      try (unfold SIZE_MAX, SIZE_MOD; subst rest; lia);
      try (rewrite Hl1; unfold PTRDIFF_MAX; subst k rest; lia).
    { intros j Hj. rewrite Hcp by lia.
      destruct (loads_nonzero_app w (Byte.x00 :: rs) Hw j) as (v & -> & Hv);
        [subst k; lia|congruence]. }
    cbn [mbind option_bind]. exists d2. split; [reflexivity|].
    split; [congruence|]. cbv zeta. split; [exact Hz2|]. split; [exact Hnz2|].
    split; [|exact Hwf].
    intros i Hi. rewrite Hfr2, Hfr by lia. reflexivity.
Qed.

Lemma str_append_spec_witness :
  (4 <= Z.of_nat (length [Byte.x61]) ->
   str_append ([Byte.x61] ++ Byte.x00 :: [Byte.xff; Byte.xff]) 4
     ([Byte.x62; Byte.x63; Byte.x64] ++ Byte.x00 :: []) =
     Some ([Byte.x61] ++ Byte.x00 :: [Byte.xff; Byte.xff])) /\
  (Z.of_nat (length [Byte.x61]) < 4 ->
   exists tail,
     str_append ([Byte.x61] ++ Byte.x00 :: [Byte.xff; Byte.xff]) 4
       ([Byte.x62; Byte.x63; Byte.x64] ++ Byte.x00 :: []) = Some ([Byte.x61] ++ tail) /\
     length tail = S (length [Byte.xff; Byte.xff]) /\
     let k := Z.min (Z.of_nat (length [Byte.x62; Byte.x63; Byte.x64]))
                    (4 - 1 - Z.of_nat (length [Byte.x61])) in
     load tail k = Some 0 /\
     (forall i, 0 <= i < k -> load tail i <> Some 0) /\
     (forall i, k < i -> load tail i = load (Byte.x00 :: [Byte.xff; Byte.xff]) i) /\
     well_formed (take (Z.to_nat k) tail) = true).
Proof.
  apply (str_append_spec [Byte.x61] [Byte.xff; Byte.xff] 4
           [Byte.x62; Byte.x63; Byte.x64] []).
  - repeat constructor; discriminate.
  - repeat constructor; discriminate.
  - cbn [length app]. lia.
  - vm_compute. discriminate.
  - vm_compute. discriminate.
Defined.

Lemma loadw_app_l w rest i :
  0 <= i < Z.of_nat (length w) -> loadw (w ++ rest) i = loadw w i.
Proof.
  intros Hi. unfold loadw. destruct (Z.ltb_spec i 0); [lia|].
  rewrite lookup_app_l by lia. reflexivity.
Qed.

Lemma loadw_lookup (s : list Z) (j : nat) v :
  s !! j = Some v -> loadw s (Z.of_nat j) = Some (u32 v).
Proof.
  intros H. unfold loadw. destruct (Z.ltb_spec (Z.of_nat j) 0); [lia|].
  rewrite Nat2Z.id, H. reflexivity.
Qed.

Lemma loadw_wide w i :
  wide w -> 0 <= i < Z.of_nat (length w) ->
  exists c, w !! Z.to_nat i = Some c /\ loadw w i = Some c /\ 0 < c < 4294967296.
Proof.
  intros Hw Hi.
  destruct (lookup_lt_is_Some_2 w (Z.to_nat i) ltac:(lia)) as [c Hc].
  pose proof (Forall_lookup_1 _ _ _ _ Hw Hc) as Hr. cbn in Hr.
  exists c. split; [exact Hc|]. split; [|exact Hr].
  unfold loadw. destruct (Z.ltb_spec i 0); [lia|]. rewrite Hc. cbn.
  f_equal. unfold u32. zlia.
Qed.

Lemma loadw_mid (S0 : list Z) x rest :
  loadw (S0 ++ x :: rest) (Z.of_nat (length S0)) = Some (u32 x).
Proof.
  apply loadw_lookup. by rewrite list_lookup_middle.
Qed.

Lemma storew_Some s i v :
  0 <= i < Z.of_nat (length s) ->
  storew s i v = Some (<[Z.to_nat i := u32 v]> s).
Proof.
  intros Hi. unfold storew.
  destruct (Z.leb_spec 0 i), (Z.ltb_spec i (Z.of_nat (length s))); try lia.
  reflexivity.
Qed.

Lemma wlength_loop_spec w rest fuel : forall i,
  wide w -> 0 <= i <= Z.of_nat (length w) -> Z.of_nat (length w) < SIZE_MOD ->
  Z.of_nat (length w) - i < Z.of_nat fuel ->
  wlength_loop fuel (w ++ 0 :: rest) i i = Some (Z.of_nat (length w)).
Proof.
  induction fuel as [|fuel IH]; intros i Hw Hi Hlen Hf; [lia|].
  cbn [wlength_loop]. destruct (Z.eq_dec i (Z.of_nat (length w))) as [->|Hne].
  - rewrite loadw_mid. reflexivity.
  - rewrite loadw_app_l by lia.
    destruct (loadw_wide w i Hw ltac:(lia)) as (c & _ & -> & Hc).
    cbn [mbind option_bind]. destruct (Z.eqb_spec c 0); [lia|]. cbn [negb].
    rewrite size_add_small by lia. apply IH; (assumption || lia).
Qed.

Lemma wstr_length_spec w rest :
  wide w -> Z.of_nat (length w) < SIZE_MOD ->
  wstr_length (w ++ 0 :: rest) = Some (Z.of_nat (length w)).
Proof.
  intros Hw Hlen. unfold wstr_length.
  apply wlength_loop_spec; try (assumption || lia). rewrite length_app. lia.
Qed.

Lemma size_add_sub_1 a : 0 <= a < SIZE_MOD -> size_add (size_sub a 1) 1 = a.
Proof. unfold size_add, size_sub, SIZE_MOD. intros. zlia. Qed.

(** The shifting loop of [wstr_linsert], started at position
    [pos + k - 1]: the [k] units from [pos] on move one place up. *)
Lemma linsert_loop_spec pos (k : nat) : forall fuel (str : list Z),
  0 <= pos -> pos + Z.of_nat k < Z.of_nat (length str) ->
  Z.of_nat (length str) < SIZE_MOD ->
  Forall (fun c => 0 <= c < 4294967296) (take k (drop (Z.to_nat pos) str)) ->
  (k < fuel)%nat ->
  exists str',
    linsert_loop fuel str (size_sub (pos + Z.of_nat k) 1) pos = Some str' /\
    length str' = length str /\
    forall j : nat,
      str' !! j =
        if (pos <? Z.of_nat j) && (Z.of_nat j <=? pos + Z.of_nat k)
        then str !! (j - 1)%nat else str !! j.
Proof.
  induction k as [|k IH]; intros fuel str Hpos Hcap Hlen Hr Hf;
    (destruct fuel as [|fuel]; [lia|]); cbn [linsert_loop].
  - replace (pos + Z.of_nat 0) with pos by lia.
    rewrite size_add_sub_1, Z.ltb_irrefl by lia.
    exists str. split; [reflexivity|]. split; [reflexivity|].
    intros j. destruct (Z.ltb_spec pos (Z.of_nat j)),
      (Z.leb_spec (Z.of_nat j) pos); try lia; reflexivity.
  - rewrite size_add_sub_1 by lia.
    destruct (Z.ltb_spec pos (pos + Z.of_nat (S k))); [|lia].
    rewrite (size_sub_small (pos + Z.of_nat (S k)) 1) by lia.
    replace (pos + Z.of_nat (S k) - 1) with (pos + Z.of_nat k) by lia.
    destruct (lookup_lt_is_Some_2 str (Z.to_nat (pos + Z.of_nat k)) ltac:(lia))
      as [v Hv].
    assert (Hvr : 0 <= v < 4294967296).
    { eapply (Forall_lookup_1 _ _ k v Hr).
      rewrite lookup_take_lt, lookup_drop by lia. rewrite <- Hv. f_equal. lia. }
    unfold loadw. destruct (Z.ltb_spec (pos + Z.of_nat k) 0); [lia|].
    rewrite Hv. cbn [fmap option_fmap option_map mbind option_bind].
    replace (pos + Z.of_nat (S k)) with (pos + Z.of_nat k + 1) by lia.
    rewrite storew_Some by lia. cbn [mbind option_bind].
    replace (u32 (u32 v)) with v by (unfold u32; zlia).
    set (str1 := <[Z.to_nat (pos + Z.of_nat k + 1) := v]> str).
    destruct (IH fuel str1) as (str' & E & Hl & Hlk); try lia.
    { subst str1. rewrite length_insert. lia. }
    { subst str1. rewrite length_insert. lia. }
    { subst str1. rewrite drop_insert_ge by lia.
      rewrite take_insert_ge by lia.
      rewrite take_S_r with (x := v) in Hr
        by (rewrite lookup_drop, <- Hv; f_equal; lia).
      by apply Forall_app in Hr as [Hr _]. }
    exists str'. split; [exact E|].
    split; [subst str1; rewrite length_insert in Hl; exact Hl|].
    intros j. rewrite Hlk. subst str1.
    destruct (decide (j = Z.to_nat (pos + Z.of_nat k + 1))) as [->|Hj].
    + destruct (Z.ltb_spec pos (Z.of_nat (Z.to_nat (pos + Z.of_nat k + 1)))),
        (Z.leb_spec (Z.of_nat (Z.to_nat (pos + Z.of_nat k + 1))) (pos + Z.of_nat k)),
        (Z.leb_spec (Z.of_nat (Z.to_nat (pos + Z.of_nat k + 1))) (pos + Z.of_nat k + 1));
        try lia; cbn [andb].
      rewrite list_lookup_insert_eq by lia. rewrite <- Hv. f_equal. lia.
    + destruct (Z.ltb_spec pos (Z.of_nat j)),
        (Z.leb_spec (Z.of_nat j) (pos + Z.of_nat k)),
        (Z.leb_spec (Z.of_nat j) (pos + Z.of_nat k + 1)); try lia; cbn [andb];
        rewrite list_lookup_insert_ne by lia; reflexivity.
Qed.

Lemma wstr_linsert_behaviour w x r ch pos max_pos :
  wide w -> 0 <= ch < 4294967296 -> 0 <= pos < SIZE_MAX ->
  Z.of_nat (length (w ++ 0 :: x :: r)) < SIZE_MOD ->
  (pos <= Z.of_nat (length w) -> pos < max_pos ->
   wstr_linsert (w ++ 0 :: x :: r) ch pos max_pos =
     Some (true, take (Z.to_nat pos) w ++ ch :: drop (Z.to_nat pos) w ++ 0 :: r) /\
   wstr_linsert (w ++ [0]) ch pos max_pos = None) /\
  (Z.of_nat (length w) < pos \/ max_pos <= pos ->
   wstr_linsert (w ++ 0 :: x :: r) ch pos max_pos = Some (false, w ++ 0 :: x :: r)).
Proof.
  intros Hw Hch Hpos Hlen. pose proof Hlen as Hlen'.
  rewrite length_app in Hlen'. cbn [length] in Hlen'.
  unfold SIZE_MAX in Hpos.
  assert (Hwl : Z.of_nat (length w) < SIZE_MOD) by lia.
  unfold wstr_linsert. split.
  - intros Hle Hmax. split.
    + rewrite wstr_length_spec by assumption. cbn [mbind option_bind].
      rewrite size_add_small by lia.
      destruct (Z.ltb_spec (Z.of_nat (length w)) pos); [lia|].
      destruct (Z.ltb_spec max_pos (pos + 1)); [lia|]. cbn [orb].
      set (k := (length w - Z.to_nat pos + 1)%nat).
      destruct (linsert_loop_spec pos k (S (length (w ++ 0 :: x :: r)))
                  (w ++ 0 :: x :: r)) as (s1 & E & Hl & Hlk);
        try (rewrite ?length_app; cbn [length]; subst k; lia).
      { rewrite drop_app_lt by lia. subst k.
        replace (length w - Z.to_nat pos + 1)%nat
          with (length (drop (Z.to_nat pos) w) + 1)%nat
          by (rewrite length_drop; lia).
        rewrite take_app_add. cbn [take].
        apply Forall_app. split; [|repeat constructor; lia].
        apply Forall_drop. eapply Forall_impl; [exact Hw|]. cbn. lia. }
      replace (size_sub (pos + Z.of_nat k) 1) with (Z.of_nat (length w)) in E
        by (rewrite size_sub_small by (subst k; lia); subst k; lia).
      rewrite E. cbn [mbind option_bind].
      rewrite storew_Some by (rewrite Hl, length_app; cbn [length]; lia).
      cbn [mbind option_bind]. do 2 f_equal.
      replace (u32 ch) with ch by (unfold u32; zlia).
      apply list_eq. intros j.
      assert (Hl1 : length (take (Z.to_nat pos) w) = Z.to_nat pos)
        by (rewrite length_take; lia).
      destruct (decide (j = Z.to_nat pos)) as [->|Hj].
      { rewrite list_lookup_insert_eq
          by (rewrite Hl, length_app; cbn [length]; lia).
        rewrite lookup_app_r by lia. rewrite Hl1, Nat.sub_diag. reflexivity. }
      rewrite list_lookup_insert_ne by lia. rewrite Hlk.
      destruct (decide (j < Z.to_nat pos)%nat) as [Hlt|Hge].
      { destruct (Z.ltb_spec pos (Z.of_nat j)); [lia|]. cbn [andb].
        rewrite !lookup_app_l by lia. rewrite lookup_take_lt by lia.
        reflexivity. }
      destruct (Z.ltb_spec pos (Z.of_nat j)); [|lia]. cbn [andb].
      rewrite (lookup_app_r (take _ _)) by lia. rewrite Hl1.
      replace (j - Z.to_nat pos)%nat with (S (j - Z.to_nat pos - 1)) by lia.
      rewrite lookup_cons. cbv iota.
      destruct (Z.leb_spec (Z.of_nat j) (pos + Z.of_nat k)).
      * destruct (decide (j - 1 < length w)%nat).
        -- rewrite !lookup_app_l by (rewrite ?length_drop; lia).
           rewrite lookup_drop. f_equal. lia.
        -- rewrite !lookup_app_r by (rewrite ?length_drop; lia).
           rewrite length_drop.
           replace (j - 1 - length w)%nat with 0%nat by (subst k; lia).
           replace (j - Z.to_nat pos - 1 - (length w - Z.to_nat pos))%nat
             with 0%nat by (subst k; lia).
           reflexivity.
      * rewrite !lookup_app_r by (rewrite ?length_drop; subst k; lia).
        rewrite length_drop.
        replace (j - length w)%nat with (S (S (j - length w - 2)))
          by (subst k; lia).
        replace (j - Z.to_nat pos - 1 - (length w - Z.to_nat pos))%nat
          with (S (j - length w - 2)) by (subst k; lia).
        reflexivity.
    + rewrite wstr_length_spec by assumption. cbn [mbind option_bind].
      rewrite size_add_small by lia.
      destruct (Z.ltb_spec (Z.of_nat (length w)) pos); [lia|].
      destruct (Z.ltb_spec max_pos (pos + 1)); [lia|]. cbn [orb linsert_loop].
      rewrite size_add_small by lia.
      destruct (Z.ltb_spec pos (Z.of_nat (length w) + 1)); [|lia].
      rewrite loadw_mid. cbn [mbind option_bind]. unfold storew.
      destruct (Z.ltb_spec (Z.of_nat (length w) + 1) (Z.of_nat (length (w ++ [0]))));
        [rewrite length_app in *; cbn [length] in *; lia|].
      rewrite andb_false_r. reflexivity.
  - intros Hcase. rewrite wstr_length_spec by assumption.
    cbn [mbind option_bind]. rewrite size_add_small by lia.
    destruct (Z.ltb_spec (Z.of_nat (length w)) pos); [reflexivity|].
    destruct (Z.ltb_spec max_pos (pos + 1)); [reflexivity|lia].
Qed.

(** [wstr_linsert] on a buffer with room for one more unit: the character
    goes in at [pos], what was there moves up.  A position after the end
    of the string or not below [max_pos] is refused.  The test is on
    [pos], not on the length of the string: in a buffer that the string
    and its terminator fill, the shifted terminator is written past the
    end. *)
Theorem wstr_linsert_spec w x r ch pos max_pos :
  wide w -> 0 <= ch < 4294967296 -> 0 <= pos < SIZE_MAX ->
  Z.of_nat (length (w ++ 0 :: x :: r)) < SIZE_MOD ->
  (pos <= Z.of_nat (length w) -> pos < max_pos ->
   wstr_linsert (w ++ 0 :: x :: r) ch pos max_pos =
     Some (true, take (Z.to_nat pos) w ++ ch :: drop (Z.to_nat pos) w ++ 0 :: r) /\
   wstr_linsert (w ++ [0]) ch pos max_pos = None) /\
  (Z.of_nat (length w) < pos \/ max_pos <= pos ->
   wstr_linsert (w ++ 0 :: x :: r) ch pos max_pos = Some (false, w ++ 0 :: x :: r)).
Proof. apply wstr_linsert_behaviour. Qed.

Lemma wstr_linsert_spec_witness :
  (1 <= Z.of_nat (length [0x61; 0x62]) -> 1 < 4 ->
   wstr_linsert ([0x61; 0x62] ++ 0 :: 0x7A :: []) 0x20AC 1 4 =
     Some (true, take (Z.to_nat 1) [0x61; 0x62] ++ 0x20AC ::
                 drop (Z.to_nat 1) [0x61; 0x62] ++ 0 :: []) /\
   wstr_linsert ([0x61; 0x62] ++ [0]) 0x20AC 1 4 = None) /\
  (Z.of_nat (length [0x61; 0x62]) < 1 \/ 4 <= 1 ->
   wstr_linsert ([0x61; 0x62] ++ 0 :: 0x7A :: []) 0x20AC 1 4 =
     Some (false, [0x61; 0x62] ++ 0 :: 0x7A :: [])).
Proof.
  apply (wstr_linsert_spec [0x61; 0x62] 0x7A [] 0x20AC 1 4).
  - repeat constructor; lia.
  - lia.
  - unfold SIZE_MAX, SIZE_MOD. lia.
  - reflexivity.
Defined.

(** The shifting loop of [wstr_remove], started at position [i]: the units
    from [i] to [len] move one place down. *)
Lemma remove_loop_spec len (k : nat) : forall fuel (str : list Z) i,
  1 <= i -> i + Z.of_nat k = len + 1 -> len < Z.of_nat (length str) ->
  Z.of_nat (length str) < SIZE_MOD ->
  Forall (fun c => 0 <= c < 4294967296) (take k (drop (Z.to_nat i) str)) ->
  (k < fuel)%nat ->
  exists str',
    remove_loop fuel str i len = Some str' /\
    length str' = length str /\
    forall j : nat,
      str' !! j =
        if (i - 1 <=? Z.of_nat j) && (Z.of_nat j <? len)
        then str !! (j + 1)%nat else str !! j.
Proof.
  induction k as [|k IH]; intros fuel str i Hi Hk Hcap Hlen Hr Hf;
    (destruct fuel as [|fuel]; [lia|]); cbn [remove_loop].
  - destruct (Z.leb_spec i len); [lia|].
    exists str. split; [reflexivity|]. split; [reflexivity|].
    intros j. destruct (Z.leb_spec (i - 1) (Z.of_nat j)),
      (Z.ltb_spec (Z.of_nat j) len); try lia; reflexivity.
  - destruct (Z.leb_spec i len); [|lia].
    destruct (lookup_lt_is_Some_2 str (Z.to_nat i) ltac:(lia)) as [v Hv].
    assert (Hvr : 0 <= v < 4294967296).
    { eapply (Forall_lookup_1 _ _ 0%nat v Hr).
      rewrite lookup_take_lt, lookup_drop by lia. rewrite <- Hv. f_equal. lia. }
    unfold loadw. destruct (Z.ltb_spec i 0); [lia|].
    rewrite Hv. cbn [fmap option_fmap option_map mbind option_bind].
    rewrite size_sub_small, size_add_small by lia.
    rewrite storew_Some by lia. cbn [mbind option_bind].
    replace (u32 (u32 v)) with v by (unfold u32; zlia).
    set (str1 := <[Z.to_nat (i - 1) := v]> str).
    destruct (IH fuel str1 (i + 1)) as (str' & E & Hl & Hlk); try lia.
    { subst str1. rewrite length_insert. lia. }
    { subst str1. rewrite length_insert. lia. }
    { subst str1. rewrite drop_insert_lt by lia.
      replace (Z.to_nat (i + 1)) with (S (Z.to_nat i)) by lia.
      replace (drop (Z.to_nat i) str) with (v :: drop (S (Z.to_nat i)) str) in Hr
        by (symmetry; by apply drop_S).
      cbn [take] in Hr. by apply Forall_cons in Hr as [_ Hr]. }
    exists str'. split; [exact E|].
    split; [subst str1; rewrite length_insert in Hl; exact Hl|].
    intros j. rewrite Hlk. subst str1.
    destruct (decide (j = Z.to_nat (i - 1))) as [->|Hj].
    + destruct (Z.leb_spec (i + 1 - 1) (Z.of_nat (Z.to_nat (i - 1)))),
        (Z.leb_spec (i - 1) (Z.of_nat (Z.to_nat (i - 1)))),
        (Z.ltb_spec (Z.of_nat (Z.to_nat (i - 1))) len); try lia; cbn [andb].
      rewrite list_lookup_insert_eq by lia. rewrite <- Hv. f_equal. lia.
    + destruct (Z.leb_spec (i + 1 - 1) (Z.of_nat j)),
        (Z.leb_spec (i - 1) (Z.of_nat j)),
        (Z.ltb_spec (Z.of_nat j) len); try lia; cbn [andb];
        rewrite list_lookup_insert_ne by lia; reflexivity.
Qed.

Lemma wstr_remove_behaviour w r pos :
  wide w -> 0 <= pos < SIZE_MAX ->
  Z.of_nat (length (w ++ 0 :: r)) < SIZE_MOD ->
  (pos < Z.of_nat (length w) ->
   wstr_remove (w ++ 0 :: r) pos =
     Some (true, take (Z.to_nat pos) w ++ drop (S (Z.to_nat pos)) w ++ 0 :: 0 :: r)) /\
  (Z.of_nat (length w) <= pos ->
   wstr_remove (w ++ 0 :: r) pos = Some (false, w ++ 0 :: r)).
Proof.
  intros Hw Hpos Hlen. pose proof Hlen as Hlen'.
  rewrite length_app in Hlen'. cbn [length] in Hlen'.
  unfold SIZE_MAX in Hpos.
  assert (Hwl : Z.of_nat (length w) < SIZE_MOD) by lia.
  unfold wstr_remove. rewrite wstr_length_spec by assumption.
  cbn [mbind option_bind]. split; intros Hcase.
  2: { destruct (Z.leb_spec (Z.of_nat (length w)) pos); [reflexivity|lia]. }
  destruct (Z.leb_spec (Z.of_nat (length w)) pos); [lia|].
  rewrite size_add_small by lia.
  set (k := (length w - Z.to_nat pos)%nat).
  destruct (remove_loop_spec (Z.of_nat (length w)) k (S (length (w ++ 0 :: r)))
              (w ++ 0 :: r) (pos + 1)) as (s1 & E & Hl & Hlk);
    try (rewrite ?length_app; cbn [length]; subst k; lia).
  { rewrite drop_app_lt by lia. subst k.
    replace (length w - Z.to_nat pos)%nat
      with (length (drop (Z.to_nat (pos + 1)) w) + 1)%nat
      by (rewrite length_drop; lia).
    rewrite take_app_add. cbn [take].
    apply Forall_app. split; [|repeat constructor; lia].
    apply Forall_drop. eapply Forall_impl; [exact Hw|]. cbn. lia. }
  rewrite E. cbn [mbind option_bind]. do 2 f_equal.
  apply list_eq. intros j. rewrite Hlk.
  assert (Hl1 : length (take (Z.to_nat pos) w) = Z.to_nat pos)
    by (rewrite length_take; lia).
  destruct (decide (j < Z.to_nat pos)%nat) as [Hlt|Hge].
  { destruct (Z.leb_spec (pos + 1 - 1) (Z.of_nat j)); [lia|]. cbn [andb].
    rewrite !lookup_app_l by lia. rewrite lookup_take_lt by lia. reflexivity. }
  destruct (Z.leb_spec (pos + 1 - 1) (Z.of_nat j)); [|lia]. cbn [andb].
  rewrite (lookup_app_r (take _ _)) by lia. rewrite Hl1.
  destruct (Z.ltb_spec (Z.of_nat j) (Z.of_nat (length w))).
  - destruct (decide (j + 1 < length w)%nat).
    + rewrite !lookup_app_l by (rewrite ?length_drop; lia).
      rewrite lookup_drop. f_equal. lia.
    + rewrite !lookup_app_r by (rewrite ?length_drop; lia).
      rewrite length_drop.
      replace (j + 1 - length w)%nat with 0%nat by lia.
      replace (j - Z.to_nat pos - (length w - S (Z.to_nat pos)))%nat
        with 0%nat by lia.
      reflexivity.
  - rewrite !lookup_app_r by (rewrite ?length_drop; lia).
    rewrite length_drop.
    replace (j - Z.to_nat pos - (length w - S (Z.to_nat pos)))%nat
      with (S (j - length w)) by lia.
    reflexivity.
Qed.

(** [wstr_remove] takes the unit at [pos] out and moves what follows,
    the terminator included, one place down; a position at or after the
    end of the string is refused. *)
Theorem wstr_remove_spec w r pos :
  wide w -> 0 <= pos < SIZE_MAX ->
  Z.of_nat (length (w ++ 0 :: r)) < SIZE_MOD ->
  (pos < Z.of_nat (length w) ->
   wstr_remove (w ++ 0 :: r) pos =
     Some (true, take (Z.to_nat pos) w ++ drop (S (Z.to_nat pos)) w ++ 0 :: 0 :: r)) /\
  (Z.of_nat (length w) <= pos ->
   wstr_remove (w ++ 0 :: r) pos = Some (false, w ++ 0 :: r)).
Proof. apply wstr_remove_behaviour. Qed.

Lemma wstr_remove_spec_witness :
  (1 < Z.of_nat (length [0x61; 0x62; 0x63]) ->
   wstr_remove ([0x61; 0x62; 0x63] ++ 0 :: [0x7A]) 1 =
     Some (true, take (Z.to_nat 1) [0x61; 0x62; 0x63] ++
                 drop (S (Z.to_nat 1)) [0x61; 0x62; 0x63] ++ 0 :: 0 :: [0x7A])) /\
  (Z.of_nat (length [0x61; 0x62; 0x63]) <= 1 ->
   wstr_remove ([0x61; 0x62; 0x63] ++ 0 :: [0x7A]) 1 =
     Some (false, [0x61; 0x62; 0x63] ++ 0 :: [0x7A])).
Proof.
  apply (wstr_remove_spec [0x61; 0x62; 0x63] [0x7A] 1).
  - repeat constructor; lia.
  - unfold SIZE_MAX, SIZE_MOD. lia.
  - reflexivity.
Defined.

(** Removing at the position where a character was just inserted gives
    the string back. *)
Theorem wstr_linsert_remove w x r ch pos max_pos :
  wide w -> 0 < ch < 4294967296 -> 0 <= pos <= Z.of_nat (length w) ->
  pos < max_pos -> Z.of_nat (length (w ++ 0 :: x :: r)) < SIZE_MAX ->
  exists s1,
    wstr_linsert (w ++ 0 :: x :: r) ch pos max_pos = Some (true, s1) /\
    wstr_remove s1 pos = Some (true, w ++ 0 :: 0 :: r).
Proof.
  intros Hw Hch Hpos Hmax Hlen. pose proof Hlen as Hlen'.
  rewrite length_app in Hlen'. cbn [length] in Hlen'. unfold SIZE_MAX in *.
  destruct (wstr_linsert_behaviour w x r ch pos max_pos Hw ltac:(lia)
              ltac:(unfold SIZE_MAX; lia) ltac:(lia)) as [Hins _].
  destruct (Hins ltac:(lia) Hmax) as [E _]. eexists. split; [exact E|].
  set (w' := take (Z.to_nat pos) w ++ ch :: drop (Z.to_nat pos) w).
  replace (take (Z.to_nat pos) w ++ ch :: drop (Z.to_nat pos) w ++ 0 :: r)
    with (w' ++ 0 :: r) by (subst w'; rewrite <- app_assoc; reflexivity).
  assert (Hw' : wide w').
  { subst w'. apply Forall_app. split; [by apply Forall_take|].
    apply Forall_cons. split; [lia|by apply Forall_drop]. }
  assert (Hl' : length w' = S (length w)).
  { subst w'. rewrite length_app. cbn [length].
    rewrite length_take, length_drop. lia. }
  destruct (wstr_remove_behaviour w' r pos Hw' ltac:(unfold SIZE_MAX; lia))
    as [Hrem _]; [rewrite length_app, Hl'; cbn [length]; lia|].
  rewrite Hrem by lia. do 2 f_equal. subst w'.
  assert (Hl1 : length (take (Z.to_nat pos) w) = Z.to_nat pos)
    by (rewrite length_take; lia).
  rewrite take_app_length' by (symmetry; exact Hl1).
  assert (Hl2 : length (take (Z.to_nat pos) w ++ [ch]) = S (Z.to_nat pos))
    by (rewrite length_app; cbn [length]; lia).
  replace (take (Z.to_nat pos) w ++ ch :: drop (Z.to_nat pos) w)
    with ((take (Z.to_nat pos) w ++ [ch]) ++ drop (Z.to_nat pos) w)
    by (rewrite <- app_assoc; reflexivity).
  rewrite (drop_app_length' _ _ _ (eq_sym Hl2)).
  rewrite app_assoc, take_drop. reflexivity.
Qed.

Lemma wstr_linsert_remove_witness :
  exists s1,
    wstr_linsert ([0x61; 0x62] ++ 0 :: 0x7A :: []) 0x20AC 1 4 = Some (true, s1) /\
    wstr_remove s1 1 = Some (true, [0x61; 0x62] ++ 0 :: 0 :: []).
Proof.
  apply (wstr_linsert_remove [0x61; 0x62] 0x7A [] 0x20AC 1 4).
  - repeat constructor; lia.
  - lia.
  - cbn [length]. lia.
  - lia.
  - vm_compute. reflexivity.
Defined.

Lemma load_ext s1 s2 :
  length s1 = length s2 ->
  (forall j, 0 <= j < Z.of_nat (length s1) -> load s1 j = load s2 j) -> s1 = s2.
Proof.
  intros Hl H. apply list_eq. intros j.
  destruct (decide (j < length s1)%nat) as [Hj|Hj].
  - specialize (H (Z.of_nat j) ltac:(lia)). unfold load in H.
    destruct (Z.ltb_spec (Z.of_nat j) 0); [lia|]. rewrite Nat2Z.id in H.
    destruct (s1 !! j) as [a|], (s2 !! j) as [b|]; try discriminate;
      [|reflexivity].
    cbn in H. injection H as H. f_equal. by apply b2z_inj.
  - rewrite !lookup_ge_None_2 by lia. reflexivity.
Qed.

(** [chr_encode] as an operation on lists. *)
Lemma chr_encode_list ch str offset size :
  0 <= ch <= 0x10FFFF -> 0 <= offset ->
  offset + Z.of_nat (length (utf8_bytes ch)) <= size ->
  size <= Z.of_nat (length str) -> Z.of_nat (length str) <= PTRDIFF_MAX ->
  chr_encode ch str offset size =
    Some (EOK,
          take (Z.to_nat offset) str ++ (z2b <$> utf8_bytes ch) ++
          drop (Z.to_nat offset + length (utf8_bytes ch)) str,
          offset + Z.of_nat (length (utf8_bytes ch))).
Proof.
  intros Hch Ho Hfit Hsize Hlen.
  destruct (chr_encode_ok ch str offset size Hch Ho Hfit Hsize Hlen)
    as (str' & -> & Hl & Hld).
  do 3 f_equal. apply load_ext.
  - rewrite !length_app, length_fmap, length_take, length_drop. lia.
  - intros j Hj. rewrite Hld.
    destruct (Z.leb_spec offset j); cbn [andb].
    + rewrite load_app_r by (rewrite length_take; lia).
      rewrite length_take.
      replace (Z.of_nat (Z.to_nat offset `min` length str)) with offset by lia.
      destruct (Z.ltb_spec j (offset + Z.of_nat (length (utf8_bytes ch)))).
      * rewrite load_app_l by (rewrite length_fmap; lia).
        destruct (lookup_lt_is_Some_2 (utf8_bytes ch) (Z.to_nat (j - offset))
                    ltac:(lia)) as [v Hv].
        rewrite Hv.
        pose proof (load_z2b_mid [] (utf8_bytes ch) [] _ _ Hv
                      (utf8_bytes_range ch _ _ Hch Hv)) as E.
        cbn [app length] in E. rewrite app_nil_r in E.
        replace (Z.of_nat 0 + Z.of_nat (Z.to_nat (j - offset))) with (j - offset)
          in E by lia.
        symmetry. exact E.
      * rewrite load_app_r by (rewrite length_fmap; lia).
        rewrite length_fmap, load_drop by lia. f_equal. lia.
    + rewrite load_app_l by (rewrite length_take; lia).
      unfold load. destruct (Z.ltb_spec j 0); [lia|].
      rewrite lookup_take_lt by lia. reflexivity.
Qed.

Lemma splice_splice {A} (dest e1 e2 : list A) (a : nat) :
  (a <= length dest)%nat ->
  take (a + length e1) (take a dest ++ e1 ++ drop (a + length e1) dest) ++ e2 ++
    drop (a + length e1 + length e2)
         (take a dest ++ e1 ++ drop (a + length e1) dest) =
  take a dest ++ (e1 ++ e2) ++ drop (a + (length e1 + length e2)) dest.
Proof.
  intros Ha.
  assert (Hl : a = length (take a dest)) by (rewrite length_take; lia).
  rewrite (take_app_add' _ _ a _ Hl), (take_app_length' e1) by reflexivity.
  rewrite <- (Nat.add_assoc a), (drop_app_add' _ _ a _ Hl).
  rewrite (drop_app_add' e1) by reflexivity.
  rewrite drop_drop, <- !app_assoc. by rewrite Nat.add_assoc.
Qed.

Lemma wstr_to_str_loop_spec l : forall done rest fuel dest size off,
  wide l -> 1 <= size <= Z.of_nat (length dest) ->
  Z.of_nat (length dest) <= PTRDIFF_MAX -> 0 <= off <= size - 1 ->
  Z.of_nat (length (done ++ l ++ 0 :: rest)) < SIZE_MOD ->
  (length l < fuel)%nat ->
  let F := fitting l (size - 1 - off) in
  wstr_to_str_loop fuel dest size (done ++ l ++ 0 :: rest)
      (Z.of_nat (length done)) off =
    Some (take (Z.to_nat off) dest ++ (z2b <$> (F ≫= utf8_bytes)) ++
          drop (Z.to_nat off + length (F ≫= utf8_bytes)) dest,
          off + Z.of_nat (length (F ≫= utf8_bytes))).
Proof.
  induction l as [|c l IH]; intros done rest fuel dest size off Hw Hsize Hld Hoff
    Hls Hf; (destruct fuel as [|fuel]; [cbn in Hf; lia|]); cbn [wstr_to_str_loop].
  - cbn [app]. rewrite loadw_mid. cbn [mbind option_bind fitting list_bind fmap list_fmap length app].
    rewrite Nat.add_0_r, take_drop, Z.add_0_r. reflexivity.
  - apply Forall_cons in Hw as [Hc Hw].
    replace (done ++ (c :: l) ++ 0 :: rest) with (done ++ c :: (l ++ 0 :: rest))
      by reflexivity.
    rewrite loadw_mid. replace (u32 c) with c by (unfold u32; zlia).
    cbn [mbind option_bind]. destruct (Z.eqb_spec c 0); [lia|].
    rewrite size_sub_small by (unfold PTRDIFF_MAX in Hld; unfold SIZE_MOD; lia).
    cbn [fitting]. pose proof (utf8_bytes_count c) as Hn.
    destruct (Z.leb_spec c 0x10FFFF) as [Hv|Hinv]; cbn [andb].
    + destruct (Z.leb_spec (Z.of_nat (length (utf8_bytes c))) (size - 1 - off))
        as [Hfit|Hno].
      * rewrite chr_encode_list by lia. cbn [mbind option_bind].
        rewrite size_add_small
          by (rewrite !length_app in Hls; cbn [length] in Hls; lia).
        set (dest1 := take (Z.to_nat off) dest ++ (z2b <$> utf8_bytes c) ++
                      drop (Z.to_nat off + length (utf8_bytes c)) dest).
        assert (Hl1 : length dest1 = length dest).
        { subst dest1. rewrite !length_app, length_fmap, length_take, length_drop.
          lia. }
        pose proof (IH (done ++ [c]) rest fuel dest1 size
                      (off + Z.of_nat (length (utf8_bytes c))) Hw) as E.
        rewrite <- app_assoc in E. cbn [app] in E.
        replace (Z.of_nat (length (done ++ [c]))) with (Z.of_nat (length done) + 1)
          in E by (rewrite length_app; cbn [length]; lia).
        rewrite E; [|lia|rewrite Hl1; lia|lia|exact Hls|cbn [length] in Hf; lia].
        replace (size - 1 - (off + Z.of_nat (length (utf8_bytes c))))
          with (size - 1 - off - Z.of_nat (length (utf8_bytes c))) by lia.
        set (F := fitting l (size - 1 - off - Z.of_nat (length (utf8_bytes c)))).
        change (list_bind Z Z utf8_bytes (c :: F))
          with (utf8_bytes c ++ (F ≫= utf8_bytes)).
        rewrite fmap_app, length_app.
        f_equal. f_equal; [|lia]. subst dest1.
        rewrite Z2Nat.inj_add, Nat2Z.id by lia.
        rewrite <- (length_fmap z2b (utf8_bytes c)).
        rewrite <- (length_fmap z2b (F ≫= utf8_bytes)).
        apply splice_splice. lia.
      * rewrite chr_encode_overflow; [|lia|lia|unfold PTRDIFF_MAX in *; lia|right; lia].
        cbn [mbind option_bind list_bind fmap list_fmap length app].
        rewrite Nat.add_0_r, take_drop, Z.add_0_r. reflexivity.
    + destruct (Z_lt_le_dec off (size - 1)).
      * rewrite chr_encode_invalid by lia.
        cbn [mbind option_bind list_bind fmap list_fmap length app].
        rewrite Nat.add_0_r, take_drop, Z.add_0_r. reflexivity.
      * rewrite chr_encode_overflow; [|lia|lia|unfold PTRDIFF_MAX in *; lia|left; lia].
        cbn [mbind option_bind list_bind fmap list_fmap length app].
        rewrite Nat.add_0_r, take_drop, Z.add_0_r. reflexivity.
Qed.

Lemma fitting_length l : forall room,
  0 <= room -> Z.of_nat (length (fitting l room ≫= utf8_bytes)) <= room.
Proof.
  induction l as [|c l IH]; intros room Hr; cbn [fitting]; [cbn; lia|].
  destruct (Z.leb_spec c 0x10FFFF); cbn [andb]; [|cbn; lia].
  destruct (Z.leb_spec (Z.of_nat (length (utf8_bytes c))) room); [|cbn; lia].
  change ((c :: ?F) ≫= utf8_bytes) with (utf8_bytes c ++ (F ≫= utf8_bytes)).
  rewrite length_app. specialize (IH (room - Z.of_nat (length (utf8_bytes c)))). lia.
Qed.

Lemma fitting_all l : forall room,
  Forall (fun c => c <= 0x10FFFF) l ->
  Z.of_nat (length (l ≫= utf8_bytes)) <= room -> fitting l room = l.
Proof.
  induction l as [|c l IH]; intros room Hl Hr; [reflexivity|].
  apply Forall_cons in Hl as [Hc Hl]. cbn [fitting].
  change ((c :: l) ≫= utf8_bytes) with (utf8_bytes c ++ (l ≫= utf8_bytes)) in Hr.
  rewrite length_app in Hr.
  destruct (Z.leb_spec c 0x10FFFF); [|lia].
  destruct (Z.leb_spec (Z.of_nat (length (utf8_bytes c))) room); [|lia].
  cbn [andb]. f_equal. apply IH; [assumption|lia].
Qed.

Lemma fitting_prefix l : forall room, fitting l room `prefix_of` l.
Proof.
  induction l as [|c l IH]; intros room; cbn [fitting]; [done|].
  destruct (_ && _); [|apply prefix_nil]. by apply prefix_cons.
Qed.

Lemma wstr_to_str_behaviour dest size l rest :
  wide l -> 1 <= size <= Z.of_nat (length dest) ->
  Z.of_nat (length dest) <= PTRDIFF_MAX ->
  Z.of_nat (length (l ++ 0 :: rest)) < SIZE_MOD ->
  let F := fitting l (size - 1) in
  wstr_to_str dest size (l ++ 0 :: rest) =
    Some (utf8_string F ++ drop (S (length (F ≫= utf8_bytes))) dest) /\
  F `prefix_of` l /\ Z.of_nat (length (F ≫= utf8_bytes)) < size /\
  (Forall (fun c => c <= 0x10FFFF) l ->
   Z.of_nat (length (l ≫= utf8_bytes)) < size -> F = l).
Proof.
  intros Hw Hsize Hld Hls. cbv zeta.
  pose proof (fitting_length l (size - 1) ltac:(lia)) as HF.
  pose proof (wstr_to_str_loop_spec l [] rest (S (length (l ++ 0 :: rest)))
                dest size 0 Hw Hsize Hld ltac:(lia) Hls) as E.
  cbn [app length] in E. change (Z.of_nat 0) with 0 in E.
  cbv zeta in E. rewrite Z.sub_0_r in E.
  pose proof (fitting_prefix l (size - 1)) as HP.
  pose proof (fitting_all l (size - 1)) as HA.
  remember (fitting l (size - 1)) as F eqn:EF. clear EF.
  split; [|split; [exact HP|split; [lia|]]].
  2: { intros Hl Hfit. apply HA; [assumption|lia]. }
  unfold wstr_to_str.
  rewrite E by (rewrite length_app; lia). cbn [mbind option_bind].
  change (Z.to_nat 0) with 0%nat. rewrite take_0. cbn [app Nat.add].
  rewrite Z.add_0_l. unfold store.
  assert (Hl : length ((z2b <$> F ≫= utf8_bytes) ++
                       drop (length (F ≫= utf8_bytes)) dest) = length dest).
  { rewrite length_app, length_fmap, length_drop. lia. }
  rewrite Hl.
  destruct (Z.leb_spec 0 (Z.of_nat (length (F ≫= utf8_bytes)))); [|lia].
  destruct (Z.ltb_spec (Z.of_nat (length (F ≫= utf8_bytes))) (Z.of_nat (length dest)));
    [|lia].
  cbn [andb]. f_equal. rewrite Nat2Z.id.
  rewrite insert_app_r_alt by (rewrite length_fmap; lia).
  rewrite length_fmap, Nat.sub_diag. unfold utf8_string.
  rewrite fmap_app, <- app_assoc. f_equal.
  destruct (drop (length (F ≫= utf8_bytes)) dest) as [|b t] eqn:Ed.
  { apply (f_equal length) in Ed. rewrite length_drop in Ed. cbn in Ed. lia. }
  cbn. f_equal.
  replace (S (length (F ≫= utf8_bytes))) with (length (F ≫= utf8_bytes) + 1)%nat
    by lia.
  rewrite <- drop_drop, Ed. reflexivity.
Qed.

(** [wstr_to_str] writes the characters at the front of the wide string
    that can be encoded and fit into [size - 1] bytes, whole, and the
    terminator after them: all of the string if all of it fits. *)
Theorem wstr_to_str_spec dest size l rest :
  wide l -> 1 <= size <= Z.of_nat (length dest) ->
  Z.of_nat (length dest) <= PTRDIFF_MAX ->
  Z.of_nat (length (l ++ 0 :: rest)) < SIZE_MOD ->
  let F := fitting l (size - 1) in
  wstr_to_str dest size (l ++ 0 :: rest) =
    Some (utf8_string F ++ drop (S (length (F ≫= utf8_bytes))) dest) /\
  F `prefix_of` l /\ Z.of_nat (length (F ≫= utf8_bytes)) < size /\
  (Forall (fun c => c <= 0x10FFFF) l ->
   Z.of_nat (length (l ≫= utf8_bytes)) < size -> F = l).
Proof. apply wstr_to_str_behaviour. Qed.

Lemma wstr_to_str_spec_witness :
  let F := fitting [0x61; 0x20AC; 0xE9] (5 - 1) in
  wstr_to_str [Byte.xff; Byte.xff; Byte.xff; Byte.xff; Byte.xff; Byte.xff] 5
      ([0x61; 0x20AC; 0xE9] ++ 0 :: []) =
    Some (utf8_string F ++ drop (S (length (F ≫= utf8_bytes)))
            [Byte.xff; Byte.xff; Byte.xff; Byte.xff; Byte.xff; Byte.xff]) /\
  F `prefix_of` [0x61; 0x20AC; 0xE9] /\ Z.of_nat (length (F ≫= utf8_bytes)) < 5 /\
  (Forall (fun c => c <= 0x10FFFF) [0x61; 0x20AC; 0xE9] ->
   Z.of_nat (length ([0x61; 0x20AC; 0xE9] ≫= utf8_bytes)) < 5 ->
   F = [0x61; 0x20AC; 0xE9]).
Proof.
  apply (wstr_to_str_spec [Byte.xff; Byte.xff; Byte.xff; Byte.xff; Byte.xff; Byte.xff]
           5 [0x61; 0x20AC; 0xE9] []).
  - repeat constructor; lia.
  - cbn [length]. lia.
  - vm_compute. discriminate.
  - reflexivity.
Defined.

Lemma fmap_z2b_b2z (post : list byte) : z2b <$> (b2z <$> post) = post.
Proof.
  rewrite <- list_fmap_compose. rewrite <- (list_fmap_id post) at 2.
  apply list_fmap_ext. intros i b _. cbn. apply z2b_b2z.
Qed.

(** [str_decode_in_string] with any bytes after the encoding. *)
Lemma str_decode_in_buffer pre c (post : list byte) :
  is_scalar c ->
  Z.of_nat (length ((z2b <$> pre ++ utf8_bytes c) ++ post)) <= PTRDIFF_MAX ->
  str_decode ((z2b <$> pre ++ utf8_bytes c) ++ post) (Z.of_nat (length pre))
      STR_NO_LIMIT =
    Some (c, Z.of_nat (length pre) + Z.of_nat (length (utf8_bytes c))).
Proof.
  intros Hsc Hlen. rewrite <- (fmap_z2b_b2z post) in *.
  rewrite <- fmap_app, <- app_assoc in *.
  apply str_decode_in_string; [assumption|].
  by rewrite length_fmap in Hlen.
Qed.

Lemma storew_splice (dest : list Z) (di : nat) c :
  (di < length dest)%nat -> 0 <= c < 4294967296 ->
  storew dest (Z.of_nat di) c = Some (take di dest ++ [c] ++ drop (di + 1) dest).
Proof.
  intros Hd Hc. rewrite storew_Some by lia. rewrite Nat2Z.id.
  replace (u32 c) with c by (unfold u32; zlia).
  rewrite insert_take_drop by lia. cbn [app]. by rewrite Nat.add_1_r.
Qed.

Lemma to_wstr_loop_spec l : forall pre junk fuel (dest : list Z) dlen (di : nat),
  Forall (fun c => is_scalar c /\ c <> 0) l ->
  Z.of_nat (length ((z2b <$> pre ++ (l ≫= utf8_bytes) ++ [0]) ++ junk)) <= PTRDIFF_MAX ->
  1 <= dlen <= Z.of_nat (length dest) -> Z.of_nat (length dest) < SIZE_MOD ->
  Z.of_nat di <= dlen - 1 -> (length l < fuel)%nat ->
  let k := Z.to_nat (Z.min (Z.of_nat (length l) + 1) (dlen - 1 - Z.of_nat di)) in
  to_wstr_loop fuel dest dlen ((z2b <$> pre ++ (l ≫= utf8_bytes) ++ [0]) ++ junk)
      (Z.of_nat (length pre)) (Z.of_nat di) =
    Some (take di dest ++ take k (l ++ [0]) ++ drop (di + k) dest).
Proof.
  induction l as [|c l IH]; intros pre junk fuel dest dlen di Hl Hlen Hdlen Hld
    Hdi Hf; (destruct fuel as [|fuel]; [cbn in Hf; lia|]); cbn [to_wstr_loop];
    rewrite size_sub_small by lia; cbv zeta.
  all: destruct (Z.leb_spec (dlen - 1) (Z.of_nat di));
    [replace (Z.to_nat _) with 0%nat by lia;
     rewrite take_0, Nat.add_0_r; cbn [app]; by rewrite take_drop|].
  - cbn [mbind list_bind app length] in *.
    pose proof (str_decode_in_buffer pre 0 junk is_scalar_0) as E.
    change (utf8_bytes 0) with [0] in E. rewrite (E Hlen).
    cbn [mbind option_bind]. rewrite storew_splice by lia.
    cbn [mbind option_bind Z.eqb negb].
    replace (Z.to_nat _) with 1%nat by lia. reflexivity.
  - apply Forall_cons in Hl as [[Hsc Hnz] Hl].
    change ((c :: l) ≫= utf8_bytes) with (utf8_bytes c ++ (l ≫= utf8_bytes)) in *.
    rewrite <- (app_assoc (utf8_bytes c)) in *.
    assert (Esrc : (z2b <$> pre ++ utf8_bytes c ++ (l ≫= utf8_bytes) ++ [0]) ++ junk =
                   (z2b <$> pre ++ utf8_bytes c) ++
                   ((z2b <$> (l ≫= utf8_bytes) ++ [0]) ++ junk)).
    { rewrite !fmap_app, <- !app_assoc. reflexivity. }
    rewrite Esrc at 1. rewrite str_decode_in_buffer;
      [|assumption|rewrite <- Esrc; exact Hlen].
    cbn [mbind option_bind]. destruct Hsc as [Hc Hsur].
    rewrite storew_splice by lia. cbn [mbind option_bind].
    destruct (Z.eqb_spec c 0); [lia|]. cbn [negb].
    rewrite size_add_small by lia.
    replace (Z.of_nat (length pre) + Z.of_nat (length (utf8_bytes c)))
      with (Z.of_nat (length (pre ++ utf8_bytes c)))
      by (rewrite length_app; lia).
    replace (Z.of_nat di + 1) with (Z.of_nat (di + 1)) by lia.
    rewrite (app_assoc pre).
    set (dest1 := take di dest ++ [c] ++ drop (di + 1) dest).
    assert (Hl1 : length dest1 = length dest).
    { subst dest1. rewrite !length_app, length_take, length_drop. cbn [length]. lia. }
    rewrite IH; [|assumption|rewrite <- app_assoc; exact Hlen|rewrite Hl1; lia
                 |rewrite Hl1; lia|lia|cbn [length] in Hf; lia].
    cbv zeta. f_equal. cbn [length].
    set (k' := Z.to_nat (Z.min (Z.of_nat (length l) + 1) (dlen - 1 - Z.of_nat (di + 1)))).
    replace (Z.to_nat (Z.min (Z.of_nat (S (length l)) + 1) (dlen - 1 - Z.of_nat di)))
      with (S k') by (subst k'; lia).
    cbn [app take]. subst dest1.
    assert (Hk' : length (take k' (l ++ [0])) = k').
    { rewrite length_take, length_app. cbn [length]. subst k'. lia. }
    pose proof (splice_splice dest [c] (take k' (l ++ [0])) di ltac:(lia)) as S.
    cbn [length] in S. rewrite Hk' in S. rewrite S. cbn [app].
    do 3 f_equal.
Qed.

Lemma str_to_wstr_behaviour dest dlen l junk :
  Forall (fun c => is_scalar c /\ c <> 0) l ->
  Z.of_nat (length (utf8_string l ++ junk)) <= PTRDIFF_MAX ->
  1 <= dlen <= Z.of_nat (length dest) -> Z.of_nat (length dest) < SIZE_MOD ->
  let k := Z.to_nat (Z.min (Z.of_nat (length l) + 1) (dlen - 1)) in
  str_to_wstr dest dlen (utf8_string l ++ junk) =
    Some (<[Z.to_nat (dlen - 1) := 0]> (take k (l ++ [0]) ++ drop k dest)).
Proof.
  intros Hl Hlen Hdlen Hld. cbv zeta. unfold str_to_wstr, utf8_string in *.
  pose proof (to_wstr_loop_spec l [] junk
                (S (length ((z2b <$> (l ≫= utf8_bytes) ++ [0]) ++ junk)))
                dest dlen 0 Hl Hlen Hdlen Hld ltac:(lia)) as E.
  cbn [app length] in E. cbv zeta in E. change (Z.of_nat 0) with 0 in E.
  rewrite Z.sub_0_r, take_0 in E. cbn [app Nat.add] in E.
  rewrite E.
  2: { rewrite length_app, length_fmap, length_app.
       pose proof (utf8_text_length l). lia. }
  cbn [mbind option_bind]. rewrite size_sub_small by lia.
  rewrite storew_Some; [reflexivity|].
  rewrite length_app, length_take, length_drop, length_app. cbn [length]. lia.
Qed.

(** [str_to_wstr] on a well-formed string: the first [dlen - 1] characters
    of the string, or all of them if there are fewer, then a null unit; the
    last unit of the buffer is null in every case. *)
Theorem str_to_wstr_spec dest dlen l junk :
  Forall (fun c => is_scalar c /\ c <> 0) l ->
  Z.of_nat (length (utf8_string l ++ junk)) <= PTRDIFF_MAX ->
  1 <= dlen <= Z.of_nat (length dest) -> Z.of_nat (length dest) < SIZE_MOD ->
  exists res,
    str_to_wstr dest dlen (utf8_string l ++ junk) = Some res /\
    length res = length dest /\
    let m := Z.to_nat (Z.min (Z.of_nat (length l)) (dlen - 1)) in
    take m res = take m l /\ res !! m = Some 0 /\
    res !! Z.to_nat (dlen - 1) = Some 0.
Proof.
  intros Hl Hlen Hdlen Hld.
  rewrite (str_to_wstr_behaviour dest dlen l junk Hl Hlen Hdlen Hld).
  eexists. split; [reflexivity|]. cbv zeta.
  set (k := Z.to_nat (Z.min (Z.of_nat (length l) + 1) (dlen - 1))).
  set (m := Z.to_nat (Z.min (Z.of_nat (length l)) (dlen - 1))).
  assert (Hk : length (take k (l ++ [0])) = k).
  { rewrite length_take, length_app. cbn [length]. subst k. lia. }
  assert (Hlr : length (take k (l ++ [0]) ++ drop k dest) = length dest).
  { rewrite length_app, Hk, length_drop. subst k. lia. }
  split; [by rewrite length_insert|].
  split; [|split].
  - rewrite take_insert_ge by (subst m; lia).
    rewrite take_app_le by (rewrite Hk; subst k m; lia).
    rewrite take_take. replace (m `min` k)%nat with m by (subst k m; lia).
    rewrite take_app_le by (subst m; lia). reflexivity.
  - destruct (decide (m = Z.to_nat (dlen - 1))) as [E|Hne].
    + rewrite E. apply list_lookup_insert_eq. rewrite Hlr. lia.
    + rewrite list_lookup_insert_ne by lia.
      rewrite lookup_app_l by (rewrite Hk; subst k m; lia).
      rewrite lookup_take_lt by (subst k m; lia).
      replace m with (length l) by (subst m; lia).
      by rewrite list_lookup_middle.
  - apply list_lookup_insert_eq. rewrite Hlr. lia.
Qed.

Lemma str_to_wstr_spec_witness :
  exists res,
    str_to_wstr [7; 7; 7; 7] 3 (utf8_string [0x61; 0x20AC; 0xE9] ++ []) = Some res /\
    length res = length [7; 7; 7; 7] /\
    let m := Z.to_nat (Z.min (Z.of_nat (length [0x61; 0x20AC; 0xE9])) (3 - 1)) in
    take m res = take m [0x61; 0x20AC; 0xE9] /\ res !! m = Some 0 /\
    res !! Z.to_nat (3 - 1) = Some 0.
Proof.
  apply (str_to_wstr_spec [7; 7; 7; 7] 3 [0x61; 0x20AC; 0xE9] []).
  - unfold is_scalar. repeat constructor; lia.
  - vm_compute. discriminate.
  - cbn [length]. lia.
  - reflexivity.
Defined.

(** A wide string of scalars converted to a string and back is the same
    wide string, when both buffers have room. *)
Theorem wstr_str_wstr_roundtrip dest size wdest dlen l rest :
  Forall (fun c => is_scalar c /\ c <> 0) l ->
  Z.of_nat (length (l ≫= utf8_bytes)) < size ->
  1 <= size <= Z.of_nat (length dest) -> Z.of_nat (length dest) <= PTRDIFF_MAX ->
  Z.of_nat (length (l ++ 0 :: rest)) < SIZE_MOD ->
  Z.of_nat (length l) < dlen -> dlen <= Z.of_nat (length wdest) ->
  Z.of_nat (length wdest) < SIZE_MOD ->
  exists s1 w2,
    wstr_to_str dest size (l ++ 0 :: rest) = Some s1 /\
    str_to_wstr wdest dlen s1 = Some w2 /\
    take (S (length l)) w2 = l ++ [0].
Proof.
  intros Hl Hfit Hsize Hld Hls Hdl Hdlen Hwd.
  assert (Hw : wide l).
  { eapply Forall_impl; [exact Hl|]. cbn. intros c [[Hc _] Hnz]. lia. }
  assert (Hcp : Forall (fun c => c <= 0x10FFFF) l).
  { eapply Forall_impl; [exact Hl|]. cbn. intros c [[Hc _] _]. lia. }
  destruct (wstr_to_str_behaviour dest size l rest Hw Hsize Hld Hls)
    as (E1 & _ & _ & HF).
  rewrite (HF Hcp Hfit) in E1. eexists _, _. split; [exact E1|].
  assert (Hlen1 : Z.of_nat (length (utf8_string l ++
                    drop (S (length (l ≫= utf8_bytes))) dest)) <= PTRDIFF_MAX).
  { unfold utf8_string. rewrite length_app, length_fmap, length_app, length_drop.
    cbn [length]. lia. }
  assert (Hd1 : 1 <= dlen <= Z.of_nat (length wdest)) by lia.
  rewrite (str_to_wstr_behaviour wdest dlen l _ Hl Hlen1 Hd1 Hwd).
  split; [reflexivity|].
  set (k := Z.to_nat (Z.min (Z.of_nat (length l) + 1) (dlen - 1))).
  destruct (decide (Z.of_nat (length l) + 1 <= dlen - 1)) as [Hroom|Hfull].
  - rewrite take_insert_ge by lia.
    replace k with (S (length l)) by (subst k; lia).
    rewrite (take_ge (l ++ [0])) by (rewrite length_app; cbn [length]; lia).
    rewrite take_app_length' by (rewrite length_app; cbn [length]; lia).
    reflexivity.
  - assert (Ek : k = length l) by (subst k; lia). rewrite Ek.
    replace (Z.to_nat (dlen - 1)) with (length l) by lia.
    rewrite (take_app_le l) by lia. rewrite (take_ge l) by lia.
    rewrite insert_app_r_alt by lia. rewrite Nat.sub_diag.
    destruct (drop (length l) wdest) as [|x t] eqn:Ed.
    { apply (f_equal length) in Ed. rewrite length_drop in Ed. cbn in Ed. lia. }
    cbn [insert list_insert].
    replace (S (length l)) with (length l + 1)%nat by lia.
    rewrite take_app_add' by reflexivity. reflexivity.
Qed.

Lemma wstr_str_wstr_roundtrip_witness :
  exists s1 w2,
    wstr_to_str [Byte.xff; Byte.xff; Byte.xff; Byte.xff; Byte.xff; Byte.xff; Byte.xff] 7
      ([0x61; 0x20AC; 0xE9] ++ 0 :: []) = Some s1 /\
    str_to_wstr [7; 7; 7; 7] 4 s1 = Some w2 /\
    take (S (length [0x61; 0x20AC; 0xE9])) w2 = [0x61; 0x20AC; 0xE9] ++ [0].
Proof.
  apply (wstr_str_wstr_roundtrip
           [Byte.xff; Byte.xff; Byte.xff; Byte.xff; Byte.xff; Byte.xff; Byte.xff] 7
           [7; 7; 7; 7] 4 [0x61; 0x20AC; 0xE9] []).
  - unfold is_scalar. repeat constructor; lia.
  - vm_compute. reflexivity.
  - cbn [length]. lia.
  - vm_compute. discriminate.
  - reflexivity.
  - cbn [length]. lia.
  - cbn [length]. lia.
  - reflexivity.
Defined.

(** ** The last occurrence of a character *)

Lemma rchr_loop_spec a r1 c fuel : forall (i : nat) last,
  Forall (fun b => b <> Byte.x00) a ->
  (i <= length a)%nat -> (length a - i < fuel)%nat ->
  exists r,
    rchr_loop fuel (a ++ Byte.x00 :: r1) c (Z.of_nat i) last = Some r /\
    ((r = last /\ forall j : nat, (i <= j)%nat -> load a (Z.of_nat j) <> Some c) \/
     (exists j : nat, r = Some (Z.of_nat j) /\ (i <= j)%nat /\
        load a (Z.of_nat j) = Some c /\
        forall j' : nat, (j < j')%nat -> load a (Z.of_nat j') <> Some c)).
Proof.
  induction fuel as [|fuel IH]; intros i last Ha Hi Hf; [lia|].
  cbn [rchr_loop].
  destruct (decide (i = length a)) as [->|Hne].
  - rewrite load_mid. cbn [mbind option_bind]. change (b2z Byte.x00) with 0.
    change (0 =? 0) with true. cbn [negb].
    eexists. split; [reflexivity|]. left. split; [reflexivity|].
    intros j Hj. rewrite load_None by lia. discriminate.
  - rewrite load_app_l by lia.
    destruct (load_nonzero a (Z.of_nat i) Ha ltac:(lia)) as (b & Lb & Hb).
    rewrite Lb. cbn [mbind option_bind].
    destruct (Z.eqb_spec b 0); [lia|]. cbn [negb].
    replace (Z.of_nat i + 1) with (Z.of_nat (S i)) by lia.
    destruct (IH (S i) (if b =? c then Some (Z.of_nat i) else last) Ha
                ltac:(lia) ltac:(lia)) as (r & E & Hr).
    exists r. split; [exact E|].
    destruct Hr as [[-> Hno]|(j & -> & Hj & Lj & Hmax)].
    + destruct (Z.eqb_spec b c) as [->|Hbc].
      * right. exists i. split; [reflexivity|]. split; [lia|].
        split; [exact Lb|]. intros j' Hj'. apply Hno. lia.
      * left. split; [reflexivity|]. intros j Hj.
        destruct (decide (j = i)) as [->|]; [rewrite Lb; congruence|].
        apply Hno. lia.
    + right. exists j. split; [reflexivity|]. split; [lia|].
      split; [exact Lj|exact Hmax].
Qed.

Lemma rchr_chars_loop_spec ch l : forall pre post fuel res,
  Forall (fun c => is_scalar c /\ c <> 0) l ->
  Z.of_nat (length (pre ++ (l ≫= utf8_bytes) ++ 0 :: post)) <= PTRDIFF_MAX ->
  (length l < fuel)%nat ->
  exists r,
    rchr_chars_loop fuel (z2b <$> pre ++ (l ≫= utf8_bytes) ++ 0 :: post) ch
      (Z.of_nat (length pre)) (Z.of_nat (length pre)) res = Some r /\
    ((r = res /\ ch ∉ l) \/
     (exists i : nat, l !! i = Some ch /\ (ch ∉ drop (S i) l) /\
        r = Some (Z.of_nat (length pre) +
                  Z.of_nat (length (take i l ≫= utf8_bytes))))).
Proof.
  induction l as [|c l IH]; intros pre post fuel res Hl Hlen Hf;
    (destruct fuel as [|fuel]; [cbn in Hf; lia|]); cbn [rchr_chars_loop].
  - cbn [mbind list_bind app] in *.
    pose proof (str_decode_in_string pre 0 post is_scalar_0) as E.
    change (utf8_bytes 0 ++ post) with (0 :: post) in E. rewrite (E Hlen).
    cbn [mbind option_bind Z.eqb negb].
    eexists. split; [reflexivity|]. left. split; [reflexivity|].
    apply not_elem_of_nil.
  - apply Forall_cons in Hl as [[Hc Hc0] Hl]. cbn [mbind list_bind] in *.
    rewrite <- app_assoc in *.
    rewrite str_decode_in_string by assumption.
    cbn [mbind option_bind].
    destruct (Z.eqb_spec c 0); [lia|]. cbn [negb].
    rewrite <- Nat2Z.inj_add, <- length_app, app_assoc.
    destruct (IH (pre ++ utf8_bytes c) post fuel
                (if c =? ch then Some (Z.of_nat (length pre)) else res) Hl)
      as (r & E & Hr);
      [rewrite <- app_assoc; exact Hlen|cbn [length] in Hf; lia|].
    exists r. split; [exact E|].
    destruct Hr as [[-> Hno]|(i & Hi & Hlast & ->)].
    + destruct (Z.eqb_spec c ch) as [->|Hne].
      * right. exists 0%nat. split; [reflexivity|]. split; [exact Hno|].
        cbn. f_equal. lia.
      * left. split; [reflexivity|]. rewrite not_elem_of_cons.
        split; [congruence|exact Hno].
    + right. exists (S i). split; [exact Hi|]. split; [exact Hlast|].
      cbn [take mbind list_bind]. rewrite !length_app. f_equal. lia.
Qed.

(** [str_rchr] on a well-formed string finds the last occurrence of the
    character, ASCII or not: it returns the byte offset of the last
    position of [l] that holds [ch], and nothing if [ch] is not in [l].
    The null character is never found. *)
Theorem str_rchr_utf8_string l ch junk :
  Forall (fun c => is_scalar c /\ c <> 0) l -> 0 <= ch ->
  Z.of_nat (length (utf8_string l ++ junk)) <= PTRDIFF_MAX ->
  exists r,
    str_rchr (utf8_string l ++ junk) ch = Some r /\
    match r with
    | Some k =>
      exists i : nat, l !! i = Some ch /\ (ch ∉ drop (S i) l) /\
        k = Z.of_nat (length (take i l ≫= utf8_bytes))
    | None => ch ∉ l
    end.
Proof.
  intros Hl Hch Hlen. unfold str_rchr, ascii_check.
  assert (Hcount : (length l <= length (l ≫= utf8_bytes))%nat).
  { clear. induction l as [|c l IH]; [cbn; lia|].
    cbn [mbind list_bind]. rewrite length_app.
    pose proof (utf8_bytes_count c). cbn [length]. lia. }
  destruct (Z.leb_spec ch 127) as [Hascii|Hwide].
  - unfold _str_rchr. replace (u8 ch) with ch by (unfold u8; zlia).
    unfold utf8_string in *. rewrite fmap_app, <- app_assoc.
    change ((z2b <$> [0]) ++ junk) with (Byte.x00 :: junk).
    assert (Hl' : Forall (fun c => 0 <= c <= 0x10FFFF) l).
    { eapply Forall_impl; [exact Hl|]. cbn. unfold is_scalar. intros; lia. }
    assert (Hnz : Forall (fun b => b <> Byte.x00) (z2b <$> (l ≫= utf8_bytes))).
    { clear -Hl. induction Hl as [|c l [Hc Hc0] Hl IH]; [constructor|].
      cbn [mbind list_bind]. rewrite fmap_app. apply Forall_app. split; [|exact IH].
      apply utf8_bytes_no_null. unfold is_scalar in Hc. lia. }
    assert (Hr : Forall (fun b => 0 <= b < 256) (l ≫= utf8_bytes)).
    { pose proof (utf8_string_bytes l Hl') as H.
      by apply Forall_app in H as [H _]. }
    assert (Hbyte : forall j : nat,
      load (z2b <$> (l ≫= utf8_bytes)) (Z.of_nat j) = Some ch <->
      (l ≫= utf8_bytes) !! j = Some ch).
    { intros j. unfold load.
      destruct (Z.ltb_spec (Z.of_nat j) 0); [lia|].
      rewrite Nat2Z.id, list_lookup_fmap.
      destruct ((l ≫= utf8_bytes) !! j) as [v|] eqn:Ev;
        cbn [fmap option_fmap option_map]; [|split; discriminate].
      pose proof (Forall_lookup_1 _ _ _ _ Hr Ev) as Hv. cbn in Hv.
      rewrite b2z_z2b, Z.mod_small by lia. reflexivity. }
    destruct (rchr_loop_spec (z2b <$> (l ≫= utf8_bytes)) junk ch
                (S (length ((z2b <$> (l ≫= utf8_bytes)) ++ Byte.x00 :: junk))) 0 None Hnz)
      as (r & E & Hres); [lia|rewrite length_app; lia|].
    exists r. split; [exact E|].
    destruct Hres as [[-> Hno]|(j & -> & _ & Lj & Hmax)].
    + intros Hin. apply list_elem_of_lookup in Hin as [i Hi].
      assert (0 < ch) by (pose proof (Forall_lookup_1 _ _ _ _ Hl Hi) as [[? ?] ?]; cbn in *; lia).
      destruct (utf8_occurs l ch i Hi) as [x Hx].
      rewrite utf8_bytes_1 in Hx by lia.
      apply (Hno (length (take i l ≫= utf8_bytes))); [lia|].
      apply Hbyte. rewrite <- (Nat.add_0_r (length _)), <- lookup_drop, Hx. reflexivity.
    + apply Hbyte in Lj.
      assert (0 < ch).
      { destruct (decide (ch = 0)) as [->|]; [|lia].
        apply (f_equal (fmap z2b)) in Lj. rewrite <- list_lookup_fmap in Lj.
        cbn in Lj. pose proof (Forall_lookup_1 _ _ _ _ Hnz Lj) as Hx. cbn in Hx.
        exfalso. apply Hx. reflexivity. }
      assert (Hp : utf8_bytes ch `prefix_of` drop j (l ≫= utf8_bytes)).
      { rewrite utf8_bytes_1 by lia.
        rewrite <- (take_drop_middle _ j ch Lj).
        rewrite drop_app_length' by (rewrite length_take; apply lookup_lt_Some in Lj; lia).
        by apply (prefix_app_r [ch] [ch]). }
      destruct (utf8_sync l ch j Hl' ltac:(lia) Hp) as (i & -> & Hi).
      exists i. split; [exact Hi|]. split; [|reflexivity].
      intros Hin. apply list_elem_of_lookup in Hin as [i' Hi'].
      rewrite lookup_drop in Hi'.
      destruct (utf8_occurs l ch (S i + i') Hi') as [x Hx].
      rewrite utf8_bytes_1 in Hx by lia.
      apply (Hmax (length (take (S i + i') l ≫= utf8_bytes))).
      * apply take_text_mono. apply lookup_lt_Some in Hi'. lia.
      * apply Hbyte. rewrite <- (Nat.add_0_r (length _)), <- lookup_drop, Hx. reflexivity.
  - assert (Esrc : utf8_string l ++ junk =
              z2b <$> [] ++ (l ≫= utf8_bytes) ++ 0 :: (b2z <$> junk)).
    { unfold utf8_string. rewrite !fmap_app. cbn [fmap list_fmap app].
      rewrite fmap_z2b_b2z, <- app_assoc. reflexivity. }
    rewrite Esrc in *.
    destruct (rchr_chars_loop_spec ch l [] (b2z <$> junk)
                (S (length (z2b <$> [] ++ (l ≫= utf8_bytes) ++ 0 :: (b2z <$> junk))))
                None Hl)
      as (r & E & Hres).
    { rewrite length_fmap in Hlen. exact Hlen. }
    { rewrite length_fmap. cbn [app]. rewrite length_app. cbn [length]. lia. }
    exists r. split; [exact E|].
    destruct Hres as [[-> Hno]|(i & Hi & Hlast & ->)]; [exact Hno|].
    exists i. split; [exact Hi|]. split; [exact Hlast|]. cbn [length]. lia.
Qed.

Lemma str_rchr_utf8_string_witness :
  exists r,
    str_rchr (utf8_string [0x20AC; 0x61; 0x20AC; 0xE9] ++ [Byte.x37]) 0x20AC =
      Some r /\
    match r with
    | Some k =>
      exists i : nat, [0x20AC; 0x61; 0x20AC; 0xE9] !! i = Some 0x20AC /\
        (0x20AC ∉ drop (S i) [0x20AC; 0x61; 0x20AC; 0xE9]) /\
        k = Z.of_nat (length (take i [0x20AC; 0x61; 0x20AC; 0xE9] ≫= utf8_bytes))
    | None => 0x20AC ∉ [0x20AC; 0x61; 0x20AC; 0xE9]
    end.
Proof.
  apply (str_rchr_utf8_string [0x20AC; 0x61; 0x20AC; 0xE9] 0x20AC [Byte.x37]).
  - unfold is_scalar. repeat constructor; lia.
  - lia.
  - vm_compute. discriminate.
Defined.

(** ** Trimming on the right *)

Lemma store_mid (a : list byte) x rest v :
  store (a ++ x :: rest) (Z.of_nat (length a)) v = Some (a ++ z2b v :: rest).
Proof.
  unfold store. rewrite length_app. cbn [length].
  destruct (Z.leb_spec 0 (Z.of_nat (length a))); [|lia].
  destruct (Z.ltb_spec (Z.of_nat (length a)) (Z.of_nat (length a + S (length rest))));
    [|lia].
  cbn [andb]. rewrite Nat2Z.id, insert_app_r_alt by lia.
  rewrite Nat.sub_diag. reflexivity.
Qed.

(** The byte loop: [last] ends at the last byte that differs from [c], or
    where it was if there is none. *)
Lemma rtrim_loop_spec a r1 c fuel : forall (i : nat) last,
  Forall (fun b => b <> Byte.x00) a ->
  (i <= length a)%nat -> (length a - i < fuel)%nat ->
  exists last',
    rtrim_loop fuel (a ++ Byte.x00 :: r1) c (Z.of_nat i) last =
      store (a ++ Byte.x00 :: r1) (last' + 1) 0 /\
    ((last' = last /\
      forall j : nat, (i <= j < length a)%nat -> load a (Z.of_nat j) = Some c) \/
     (exists j : nat, last' = Z.of_nat j /\ (i <= j < length a)%nat /\
        load a (Z.of_nat j) <> Some c /\
        forall j' : nat, (j < j' < length a)%nat -> load a (Z.of_nat j') = Some c)).
Proof.
  induction fuel as [|fuel IH]; intros i last Ha Hi Hf; [lia|].
  cbn [rtrim_loop].
  destruct (decide (i = length a)) as [->|Hne].
  - rewrite load_mid. cbn [mbind option_bind]. change (b2z Byte.x00) with 0.
    change (0 =? 0) with true. cbn [negb].
    exists last. split; [reflexivity|]. left. split; [reflexivity|]. lia.
  - rewrite load_app_l by lia.
    destruct (load_nonzero a (Z.of_nat i) Ha ltac:(lia)) as (b & Lb & Hb).
    rewrite Lb. cbn [mbind option_bind].
    destruct (Z.eqb_spec b 0); [lia|]. cbn [negb].
    replace (Z.of_nat i + 1) with (Z.of_nat (S i)) by lia.
    destruct (IH (S i) (if negb (b =? c) then Z.of_nat i else last) Ha
                ltac:(lia) ltac:(lia)) as (last' & E & Hr).
    exists last'. split; [exact E|].
    destruct Hr as [[-> Hall]|(j & -> & Hj & Lj & Hafter)].
    + destruct (Z.eqb_spec b c) as [->|Hbc]; cbn [negb].
      * left. split; [reflexivity|]. intros j Hj.
        destruct (decide (j = i)) as [->|]; [exact Lb|]. apply Hall. lia.
      * right. exists i. split; [reflexivity|]. split; [lia|].
        split; [rewrite Lb; congruence|]. intros j' Hj'. apply Hall. lia.
    + right. exists j. split; [reflexivity|]. split; [lia|].
      split; [exact Lj|exact Hafter].
Qed.

(** The fast path on any terminated buffer: the bytes [t] up to the last
    one that is not [ch] stay; if there is no such byte, the first byte of
    the string stays. *)
Lemma str_rtrim_ascii_bytes t n r ch :
  Forall (fun b => b <> Byte.x00) t -> 0 < ch <= 127 ->
  last t <> Some (z2b ch) ->
  let str := t ++ replicate n (z2b ch) ++ Byte.x00 :: r in
  (t <> [] -> str_rtrim str ch = Some (t ++ Byte.x00 :: drop (S (length t)) str)) /\
  (t = [] -> (0 < n)%nat ->
   str_rtrim str ch = Some (z2b ch :: Byte.x00 :: drop 2 str)).
Proof.
  intros Ht Hch Hlast str.
  assert (Hcb : b2z (z2b ch) = ch) by (rewrite b2z_z2b; zlia).
  assert (Hcz : z2b ch <> Byte.x00).
  { intros E. apply (f_equal b2z) in E. rewrite Hcb in E.
    change (b2z Byte.x00) with 0 in E. lia. }
  set (a := t ++ replicate n (z2b ch)).
  assert (Ha : Forall (fun b => b <> Byte.x00) a).
  { apply Forall_app. split; [exact Ht|]. by apply Forall_replicate. }
  assert (Hla : length a = (length t + n)%nat)
    by (subst a; rewrite length_app, length_replicate; reflexivity).
  assert (Hrun : forall j : nat, (length t <= j < length a)%nat ->
                                 load a (Z.of_nat j) = Some ch).
  { intros j Hj. unfold load. destruct (Z.ltb_spec (Z.of_nat j) 0); [lia|].
    rewrite Nat2Z.id. subst a. rewrite lookup_app_r by lia.
    rewrite lookup_replicate_2 by lia. cbn. by rewrite Hcb. }
  assert (Hend : t <> [] -> load a (Z.of_nat (length t - 1)) <> Some ch).
  { intros Hne. unfold load.
    destruct (Z.ltb_spec (Z.of_nat (length t - 1)) 0); [lia|].
    rewrite Nat2Z.id. subst a. destruct t as [|x t] using rev_ind; [done|].
    rewrite length_app in *. cbn [length] in *.
    rewrite lookup_app_l by (rewrite length_app; cbn; lia).
    rewrite lookup_app_r by lia.
    replace (length t + 1 - 1 - length t)%nat with 0%nat by lia. cbn.
    rewrite last_snoc in Hlast. intros E. apply Hlast. f_equal.
    injection E as E. rewrite <- E. by rewrite z2b_b2z. }
  assert (Estr : str = a ++ Byte.x00 :: r) by (subst str a; by rewrite <- app_assoc).
  unfold str_rtrim, ascii_check, _str_rtrim.
  destruct (Z.leb_spec ch 127); [|lia].
  replace (u8 ch) with ch by (unfold u8; zlia).
  rewrite Estr.
  destruct (rtrim_loop_spec a r ch (S (length (a ++ Byte.x00 :: r))) 0 0 Ha)
    as (last' & E & Hr); [lia|rewrite length_app; lia|].
  change (Z.of_nat 0) with 0 in E. rewrite E. clear E. split.
  - intros Hne. assert (0 < length t)%nat by (destruct t; [done|cbn; lia]).
    assert (last' = Z.of_nat (length t - 1)) as ->.
    { destruct Hr as [[_ Hall]|(j & -> & Hj & Lj & Hafter)].
      - exfalso. apply (Hend Hne). apply Hall. lia.
      - f_equal. destruct (Nat.lt_trichotomy j (length t - 1)) as [Hlt|[->|Hgt]];
          [|reflexivity|].
        + exfalso. apply (Hend Hne). apply Hafter. lia.
        + exfalso. apply Lj. apply Hrun. lia. }
    replace (Z.of_nat (length t - 1) + 1) with (Z.of_nat (length t)) by lia.
    rewrite <- Estr. subst str.
    destruct (replicate n (z2b ch) ++ Byte.x00 :: r) as [|y rest] eqn:Ey.
    { by destruct n. }
    rewrite store_mid. change (z2b 0) with Byte.x00.
    replace (S (length t)) with (length t + 1)%nat by lia.
    rewrite <- drop_drop, drop_app_length. reflexivity.
  - intros -> Hn. cbn [length] in *.
    assert (last' = 0) as ->.
    { destruct Hr as [[-> _]|(j & -> & Hj & Lj & Hafter)]; [reflexivity|].
      exfalso. apply Lj. apply Hrun. lia. }
    rewrite <- Estr. subst str.
    destruct n as [|n]; [lia|]. cbn [replicate app].
    change (0 + 1) with (Z.of_nat (length [z2b ch])).
    change (z2b ch :: replicate n (z2b ch) ++ Byte.x00 :: r)
      with ([z2b ch] ++ (replicate n (z2b ch) ++ Byte.x00 :: r)).
    destruct (replicate n (z2b ch) ++ Byte.x00 :: r) as [|y rest] eqn:Ey.
    { by destruct n. }
    rewrite store_mid. reflexivity.
Qed.

(** A run of [ch]: the first one is remembered if none was before. *)
Lemma rtrim_chars_loop_run ch n : forall pre post fuel upd lc,
  is_scalar ch -> ch <> 0 ->
  Z.of_nat (length (pre ++ (replicate n ch ≫= utf8_bytes) ++ 0 :: post))
    <= PTRDIFF_MAX ->
  (n < fuel)%nat ->
  rtrim_chars_loop fuel
      (z2b <$> pre ++ (replicate n ch ≫= utf8_bytes) ++ 0 :: post) ch
      (Z.of_nat (length pre)) (Z.of_nat (length pre)) upd lc =
    match match n with
          | O => lc
          | S _ => if upd then Some (Z.of_nat (length pre)) else lc
          end with
    | Some p =>
      store (z2b <$> pre ++ (replicate n ch ≫= utf8_bytes) ++ 0 :: post) p 0
    | None => Some (z2b <$> pre ++ (replicate n ch ≫= utf8_bytes) ++ 0 :: post)
    end.
Proof.
  induction n as [|n IH]; intros pre post fuel upd lc Hch Hch0 Hlen Hf;
    (destruct fuel as [|fuel]; [lia|]); cbn [rtrim_chars_loop].
  - cbn [replicate mbind list_bind app] in *.
    pose proof (str_decode_in_string pre 0 post is_scalar_0) as E.
    change (utf8_bytes 0 ++ post) with (0 :: post) in E. rewrite (E Hlen).
    cbn [mbind option_bind Z.eqb negb]. reflexivity.
  - cbn [replicate mbind list_bind] in *. rewrite <- app_assoc in *.
    rewrite str_decode_in_string by assumption.
    cbn [mbind option_bind]. destruct (Z.eqb_spec ch 0); [lia|]. cbn [negb].
    rewrite Z.eqb_refl. cbn [negb].
    rewrite <- Nat2Z.inj_add, <- length_app, (app_assoc pre).
    destruct upd.
    + rewrite IH; [|assumption|assumption|rewrite <- app_assoc; exact Hlen|lia].
      destruct n; reflexivity.
    + rewrite IH; [|assumption|assumption|rewrite <- app_assoc; exact Hlen|lia].
      destruct n; reflexivity.
Qed.

(** Text that does not end in [ch], followed by a run of [ch]: the start of
    the run is remembered, whatever was before. *)
Lemma rtrim_chars_loop_spec ch n t : forall pre post fuel upd lc,
  Forall (fun c => is_scalar c /\ c <> 0) t -> is_scalar ch -> ch <> 0 ->
  t <> [] -> last t <> Some ch ->
  Z.of_nat (length (pre ++ (t ≫= utf8_bytes) ++
                    (replicate n ch ≫= utf8_bytes) ++ 0 :: post)) <= PTRDIFF_MAX ->
  (length t + n < fuel)%nat ->
  rtrim_chars_loop fuel
      (z2b <$> pre ++ (t ≫= utf8_bytes) ++
                 (replicate n ch ≫= utf8_bytes) ++ 0 :: post) ch
      (Z.of_nat (length pre)) (Z.of_nat (length pre)) upd lc =
    match n with
    | O => Some (z2b <$> pre ++ (t ≫= utf8_bytes) ++
                          (replicate n ch ≫= utf8_bytes) ++ 0 :: post)
    | S _ => store (z2b <$> pre ++ (t ≫= utf8_bytes) ++
                              (replicate n ch ≫= utf8_bytes) ++ 0 :: post)
               (Z.of_nat (length pre) + Z.of_nat (length (t ≫= utf8_bytes))) 0
    end.
Proof.
  induction t as [|c t IH]; intros pre post fuel upd lc Ht Hch Hch0 Hne Hlast
    Hlen Hf; [done|].
  destruct fuel as [|fuel]; [cbn in Hf; lia|]. cbn [rtrim_chars_loop].
  apply Forall_cons in Ht as [[Hc Hc0] Ht]. cbn [mbind list_bind] in *.
  rewrite <- (app_assoc (utf8_bytes c)) in *.
  rewrite str_decode_in_string by assumption.
  cbn [mbind option_bind]. destruct (Z.eqb_spec c 0); [lia|]. cbn [negb].
  rewrite <- Nat2Z.inj_add, <- length_app, (app_assoc pre).
  assert (Hoff : Z.of_nat (length pre) +
                 Z.of_nat (length (utf8_bytes c ++ (t ≫= utf8_bytes))) =
                 Z.of_nat (length (pre ++ utf8_bytes c)) +
                 Z.of_nat (length (t ≫= utf8_bytes)))
    by (rewrite !length_app; lia).
  rewrite Hoff. clear Hoff.
  destruct t as [|c2 t].
  - cbn [last] in Hlast. cbn [mbind list_bind app] in *.
    destruct (Z.eqb_spec c ch); [congruence|]. cbn [negb].
    pose proof (rtrim_chars_loop_run ch n (pre ++ utf8_bytes c) post fuel true None
                  Hch Hch0) as R.
    cbn [mbind] in R. rewrite R; [|rewrite <- app_assoc; exact Hlen|cbn in Hf; lia].
    destruct n; [reflexivity|]. f_equal. cbn [length]. lia.
  - assert (Hgen : forall upd' lc',
      rtrim_chars_loop fuel
        (z2b <$> (pre ++ utf8_bytes c) ++ ((c2 :: t) ≫= utf8_bytes) ++
                   (replicate n ch ≫= utf8_bytes) ++ 0 :: post) ch
        (Z.of_nat (length (pre ++ utf8_bytes c)))
        (Z.of_nat (length (pre ++ utf8_bytes c))) upd' lc' =
      match n with
      | O => Some (z2b <$> (pre ++ utf8_bytes c) ++ ((c2 :: t) ≫= utf8_bytes) ++
                     (replicate n ch ≫= utf8_bytes) ++ 0 :: post)
      | S _ => store (z2b <$> (pre ++ utf8_bytes c) ++ ((c2 :: t) ≫= utf8_bytes) ++
                     (replicate n ch ≫= utf8_bytes) ++ 0 :: post)
                 (Z.of_nat (length (pre ++ utf8_bytes c)) +
                  Z.of_nat (length ((c2 :: t) ≫= utf8_bytes))) 0
      end).
    { intros upd' lc'. apply IH; try assumption; [done| |cbn [length] in *; lia].
      rewrite <- app_assoc. exact Hlen. }
    destruct (negb (c =? ch)); [apply Hgen|]. destruct upd; apply Hgen.
Qed.

Lemma bind_replicate_ascii n ch :
  0 <= ch < 0x80 -> replicate n ch ≫= utf8_bytes = replicate n ch.
Proof.
  intros H. induction n as [|n IH]; [reflexivity|].
  cbn [replicate mbind list_bind]. rewrite utf8_bytes_1 by lia.
  cbn [app]. f_equal. exact IH.
Qed.

(** The last byte of text that does not end in the ASCII character [ch] is
    not [ch]. *)
Lemma last_byte_not_ascii t ch :
  Forall (fun c => is_scalar c /\ c <> 0) t -> 0 < ch < 0x80 ->
  last t <> Some ch -> last (z2b <$> (t ≫= utf8_bytes)) <> Some (z2b ch).
Proof.
  intros Ht Hch. destruct t as [|c t _] using rev_ind; [done|].
  rewrite last_snoc. intros Hc. apply Forall_app in Ht as [_ Hx].
  apply Forall_cons in Hx as [[[Hr _] _] _].
  rewrite bind_app. cbn [mbind list_bind]. rewrite app_nil_r, fmap_app.
  destruct (utf8_bytes_shape c Hr) as (h & tl & E & Hh & Htl).
  assert (Hrange : Forall (fun b => 0 <= b < 256) (utf8_bytes c)).
  { apply Forall_lookup. intros i v Hv. eapply utf8_bytes_range; [|exact Hv]. lia. }
  destruct (utf8_bytes c) as [|x xs] eqn:Ex using rev_ind; [discriminate|].
  clear IHxs. rewrite fmap_app, app_assoc. cbn [fmap list_fmap].
  rewrite last_snoc. intros Heq. injection Heq as Heq.
  apply (f_equal b2z) in Heq. rewrite !b2z_z2b in Heq.
  apply Forall_app in Hrange as [_ Hx']. apply Forall_cons in Hx' as [Hx' _].
  rewrite !Z.mod_small in Heq by lia. subst x.
  destruct xs as [|x0 xs].
  - cbn [app] in E. injection E as -> _.
    unfold utf8_bytes in Ex. revert Ex. case_cmp; intros Ex; try discriminate.
    injection Ex as ->. congruence.
  - cbn [app] in E. injection E as -> <-.
    apply Forall_app in Htl as [_ Hl]. apply Forall_cons in Hl as [Hl _]. lia.
Qed.

(** [str_rtrim] on a well-formed string [t], which does not end in [ch],
    followed by [n] times [ch]: the string left is [t] and the bytes behind
    its terminator are as they were, with two exceptions, both on the fast
    path for an ASCII [ch] and an empty [t].  Of a string of nothing but
    [ch] one [ch] remains.  On the empty string the fast path stores a
    null byte at [str[1]]: over the byte behind the terminator, or past
    the buffer if the buffer ends with the terminator. *)
Theorem str_rtrim_utf8_string t n ch junk :
  Forall (fun c => is_scalar c /\ c <> 0) t -> is_scalar ch -> ch <> 0 ->
  last t <> Some ch ->
  Z.of_nat (length (utf8_string (t ++ replicate n ch) ++ junk)) <= PTRDIFF_MAX ->
  let str := utf8_string (t ++ replicate n ch) ++ junk in
  (127 < ch \/ t <> [] ->
   str_rtrim str ch =
     Some (utf8_string t ++ drop (S (length (t ≫= utf8_bytes))) str)) /\
  (ch <= 127 -> t = [] -> (0 < n)%nat ->
   str_rtrim str ch = Some (utf8_string [ch] ++ drop 2 str)) /\
  (ch <= 127 -> t = [] -> n = 0%nat ->
   str_rtrim str ch =
     match junk with
     | [] => None
     | _ :: junk' => Some (Byte.x00 :: Byte.x00 :: junk')
     end).
Proof.
  intros Ht Hch Hch0 Hlast Hlen str.
  assert (Hpos : 0 < ch) by (unfold is_scalar in Hch; lia).
  assert (Estr : str = z2b <$> ([] ++ (t ≫= utf8_bytes) ++
                   (replicate n ch ≫= utf8_bytes) ++ 0 :: (b2z <$> junk))).
  { subst str. unfold utf8_string. rewrite bind_app.
    rewrite !fmap_app. cbn [fmap list_fmap app]. rewrite fmap_z2b_b2z.
    rewrite <- !app_assoc. reflexivity. }
  assert (Hlen' : Z.of_nat (length ([] ++ (t ≫= utf8_bytes) ++
                   (replicate n ch ≫= utf8_bytes) ++ 0 :: (b2z <$> junk)))
                  <= PTRDIFF_MAX).
  { fold str in Hlen. rewrite Estr, length_fmap in Hlen. exact Hlen. }
  assert (Hstore : forall (a : list Z) rest,
    rest <> [] ->
    store (z2b <$> a ++ rest) (Z.of_nat (length a)) 0 =
      Some ((z2b <$> a ++ [0]) ++ drop (S (length a)) (z2b <$> a ++ rest))).
  { intros a rest Hr. destruct rest as [|y rest]; [done|].
    rewrite !fmap_app. cbn [fmap list_fmap].
    replace (Z.of_nat (length a)) with (Z.of_nat (length (z2b <$> a)))
      by (by rewrite length_fmap).
    rewrite store_mid. rewrite <- app_assoc. cbn [app]. do 2 f_equal.
    replace (S (length a)) with (length (z2b <$> a) + 1)%nat
      by (rewrite length_fmap; lia).
    rewrite <- drop_drop, drop_app_length. reflexivity. }
  split; [|split].
  - intros Hcase.
    destruct (Z.leb_spec ch 127) as [Hascii|Hwide].
    + destruct Hcase as [?|Hne]; [lia|].
      pose proof (str_rtrim_ascii_bytes (z2b <$> (t ≫= utf8_bytes)) n junk ch) as B.
      cbv zeta in B. destruct B as [B _].
      * clear -Ht. induction Ht as [|c l [Hc Hc0] Hl IH]; [constructor|].
        cbn [mbind list_bind]. rewrite fmap_app. apply Forall_app. split; [|exact IH].
        apply utf8_bytes_no_null. unfold is_scalar in Hc. lia.
      * lia.
      * apply last_byte_not_ascii; (assumption || lia).
      * assert (Es2 : str = (z2b <$> (t ≫= utf8_bytes)) ++
                              replicate n (z2b ch) ++ Byte.x00 :: junk).
        { subst str. unfold utf8_string. rewrite bind_app.
          rewrite bind_replicate_ascii by lia.
          rewrite !fmap_app, fmap_replicate. cbn [fmap list_fmap].
          rewrite <- !app_assoc. reflexivity. }
        rewrite Es2. rewrite B.
        -- unfold utf8_string. rewrite fmap_app, length_fmap.
           cbn [fmap list_fmap]. rewrite <- app_assoc. reflexivity.
        -- intros E. apply Hne. destruct t as [|c t]; [reflexivity|].
           apply Forall_cons in Ht as [[[Hr _] _] _].
           destruct (utf8_bytes_shape c Hr) as (h & tl & Ec & _).
           cbn [mbind list_bind] in E. rewrite Ec in E. discriminate.
    + unfold str_rtrim, ascii_check. destruct (Z.leb_spec ch 127); [lia|].
      assert (Hc1 : forall l, (length l <= length (l ≫= utf8_bytes))%nat).
      { clear. induction l as [|c l IH]; [cbn; lia|].
        cbn [mbind list_bind]. rewrite length_app.
        pose proof (utf8_bytes_count c). cbn [length]. lia. }
      pose proof (Hc1 t) as Hc1t. pose proof (Hc1 (replicate n ch)) as Hc1r.
      rewrite length_replicate in Hc1r.
      rewrite Estr.
      destruct (decide (t = [])) as [->|Hne].
      * etrans.
        { refine (rtrim_chars_loop_run ch n [] (b2z <$> junk) _ true None
                    Hch Hch0 Hlen' _).
          rewrite length_fmap, !length_app. cbn [length]. lia. }
        destruct n; [reflexivity|].
        etrans; [refine (Hstore []
                   ((replicate (S n) ch ≫= utf8_bytes) ++ 0 :: (b2z <$> junk)) _)
                |reflexivity].
        cbn [replicate mbind list_bind app].
        pose proof (utf8_bytes_count ch). destruct (utf8_bytes ch); [cbn in *; lia|done].
      * etrans.
        { refine (rtrim_chars_loop_spec ch n t [] (b2z <$> junk) _ true None
                    Ht Hch Hch0 Hne Hlast Hlen' _).
          rewrite length_fmap, !length_app. cbn [length]. lia. }
        destruct n.
        -- cbn [replicate mbind list_bind app]. f_equal.
           unfold utf8_string. rewrite !fmap_app. cbn [fmap list_fmap].
           rewrite <- app_assoc. cbn [app]. do 2 f_equal.
           replace (S (length (t ≫= utf8_bytes)))
             with (length (z2b <$> (t ≫= utf8_bytes)) + 1)%nat
             by (rewrite length_fmap; lia).
           rewrite <- drop_drop, drop_app_length. reflexivity.
        -- etrans; [refine (Hstore (t ≫= utf8_bytes)
                      ((replicate (S n) ch ≫= utf8_bytes) ++ 0 :: (b2z <$> junk)) _)
                   |reflexivity].
           cbn [replicate mbind list_bind app].
           pose proof (utf8_bytes_count ch).
           destruct (utf8_bytes ch); [cbn in *; lia|done].
  - intros Hascii -> Hn.
    pose proof (str_rtrim_ascii_bytes [] n junk ch) as B.
    cbv zeta in B. destruct B as [_ B]; [constructor|lia|done|].
    assert (Es2 : str = [] ++ replicate n (z2b ch) ++ Byte.x00 :: junk).
    { subst str. unfold utf8_string. cbn [app].
      rewrite bind_replicate_ascii by lia.
      rewrite !fmap_app, fmap_replicate. cbn [fmap list_fmap].
      rewrite <- !app_assoc. reflexivity. }
    rewrite Es2, B by (reflexivity || lia).
    unfold utf8_string. cbn [mbind list_bind]. rewrite utf8_bytes_1 by lia.
    reflexivity.
  - intros Hascii -> ->. subst str. unfold str_rtrim, ascii_check, _str_rtrim.
    destruct (Z.leb_spec ch 127); [|lia].
    destruct junk as [|y junk']; [reflexivity|].
    change (utf8_string ([] ++ replicate 0 ch) ++ y :: junk')
      with ([Byte.x00] ++ y :: junk').
    cbn [rtrim_loop].
    change (load ([Byte.x00] ++ y :: junk') 0) with (Some 0).
    cbn [mbind option_bind]. change (0 =? 0) with true. cbn [negb].
    exact (store_mid [Byte.x00] y junk' 0).
Qed.

Lemma str_rtrim_utf8_string_witness :
  let str := utf8_string ([0x61; 0xE9] ++ replicate 2 0x20) ++ [Byte.x37] in
  (127 < 0x20 \/ [0x61; 0xE9] <> [] ->
   str_rtrim str 0x20 =
     Some (utf8_string [0x61; 0xE9] ++
           drop (S (length ([0x61; 0xE9] ≫= utf8_bytes))) str)) /\
  (0x20 <= 127 -> [0x61; 0xE9] = [] -> (0 < 2)%nat ->
   str_rtrim str 0x20 = Some (utf8_string [0x20] ++ drop 2 str)) /\
  (0x20 <= 127 -> [0x61; 0xE9] = [] -> 2%nat = 0%nat ->
   str_rtrim str 0x20 =
     match [Byte.x37] with
     | [] => None
     | _ :: junk' => Some (Byte.x00 :: Byte.x00 :: junk')
     end).
Proof.
  apply (str_rtrim_utf8_string [0x61; 0xE9] 2 0x20 [Byte.x37]).
  - unfold is_scalar. repeat constructor; lia.
  - unfold is_scalar. lia.
  - lia.
  - cbn. discriminate.
  - vm_compute. discriminate.
Defined.

(** ** Trimming on the left *)

Lemma ltrim_loop_spec c n y rest fuel : forall (i : nat),
  b2z y <> c -> (i <= n)%nat -> (n - i < fuel)%nat -> 0 <= c < 256 ->
  ltrim_loop fuel (replicate n (z2b c) ++ y :: rest) c (Z.of_nat i) =
    Some (Z.of_nat n).
Proof.
  induction fuel as [|fuel IH]; intros i Hy Hi Hf Hc; [lia|].
  cbn [ltrim_loop].
  destruct (decide (i = n)) as [->|Hne].
  - replace (Z.of_nat n) with (Z.of_nat (length (replicate n (z2b c))))
      by (by rewrite length_replicate).
    rewrite load_mid. cbn [mbind option_bind].
    destruct (Z.eqb_spec (b2z y) c); [lia|]. reflexivity.
  - rewrite load_app_l by (rewrite length_replicate; lia).
    unfold load. destruct (Z.ltb_spec (Z.of_nat i) 0); [lia|].
    rewrite Nat2Z.id, lookup_replicate_2 by lia. cbn [fmap option_fmap option_map].
    cbn [mbind option_bind]. rewrite b2z_z2b, Z.mod_small by lia.
    rewrite Z.eqb_refl.
    replace (Z.of_nat i + 1) with (Z.of_nat (S i)) by lia.
    apply IH; lia || assumption.
Qed.

(** The copy towards the start of the buffer: after [k] bytes the buffer
    holds the first [k] bytes of [w] and, behind them, what it held
    before. *)
Lemma cpy_within_loop_spec (run w r : list byte) fuel : forall (k : nat),
  Forall (fun b => b <> Byte.x00) w ->
  (0 < length run)%nat -> (k <= length w)%nat -> (length w - k < fuel)%nat ->
  cpy_within_loop fuel (take k w ++ drop k (run ++ w ++ Byte.x00 :: r))
      (Z.of_nat k) (Z.of_nat (length run) + Z.of_nat k) =
    Some (w ++ Byte.x00 :: drop (S (length w)) (run ++ w ++ Byte.x00 :: r)).
Proof.
  induction fuel as [|fuel IH]; intros k Hw Hrun Hk Hf; [lia|].
  cbn [cpy_within_loop].
  set (orig := run ++ w ++ Byte.x00 :: r).
  assert (Hlo : (length run + length w < length orig)%nat).
  { subst orig. rewrite !length_app. cbn [length]. lia. }
  assert (Hlk : length (take k w) = k) by (rewrite length_take; lia).
  assert (Hload : load (take k w ++ drop k orig)
                    (Z.of_nat (length run) + Z.of_nat k) =
                  load orig (Z.of_nat (length run) + Z.of_nat k)).
  { rewrite load_app_r by lia. rewrite Hlk.
    rewrite load_drop by lia. f_equal. lia. }
  rewrite Hload.
  assert (Hsplit : take k w ++ drop k orig =
                   take k w ++ match drop k orig with
                               | [] => []
                               | x :: rest => x :: rest
                               end) by (destruct (drop k orig); reflexivity).
  destruct (drop k orig) as [|x rest] eqn:Ed.
  { apply (f_equal length) in Ed. rewrite length_drop in Ed. cbn in Ed. lia. }
  assert (Erest : rest = drop (S k) orig).
  { replace (S k) with (k + 1)%nat by lia. by rewrite <- drop_drop, Ed. }
  destruct (decide (k = length w)) as [->|Hne].
  - subst orig. rewrite load_app_r by lia.
    replace (Z.of_nat (length run) + Z.of_nat (length w) - Z.of_nat (length run))
      with (Z.of_nat (length w)) by lia.
    rewrite load_mid. cbn [mbind option_bind]. change (b2z Byte.x00) with 0.
    change (0 =? 0) with true. cbn [negb].
    rewrite take_ge by lia.
    rewrite store_mid. change (z2b 0) with Byte.x00. by rewrite Erest.
  - assert (Hwk : exists b, w !! k = Some b /\ b <> Byte.x00).
    { destruct (w !! k) as [b|] eqn:Eb.
      - exists b. split; [reflexivity|]. by eapply (Forall_lookup_1 _ _ _ _ Hw).
      - apply lookup_ge_None in Eb. lia. }
    destruct Hwk as (b & Eb & Hb).
    assert (Lb : load orig (Z.of_nat (length run) + Z.of_nat k) = Some (b2z b)).
    { subst orig. rewrite load_app_r by lia.
      replace (Z.of_nat (length run) + Z.of_nat k - Z.of_nat (length run))
        with (Z.of_nat k) by lia.
      rewrite load_app_l by lia. unfold load.
      destruct (Z.ltb_spec (Z.of_nat k) 0); [lia|]. by rewrite Nat2Z.id, Eb. }
    rewrite Lb. cbn [mbind option_bind].
    destruct (Z.eqb_spec (b2z b) 0) as [E|_]; [by apply b2z_zero in E|].
    cbn [negb]. pose proof (store_mid (take k w) x rest (b2z b)) as St.
    rewrite Hlk in St. rewrite St. cbn [mbind option_bind].
    rewrite z2b_b2z.
    replace (take k w ++ b :: rest) with (take (S k) w ++ drop (S k) orig).
    2:{ rewrite (take_S_r w k b Eb), <- app_assoc, Erest. reflexivity. }
    replace (Z.of_nat k + 1) with (Z.of_nat (S k)) by lia.
    replace (Z.of_nat (length run) + Z.of_nat k + 1)
      with (Z.of_nat (length run) + Z.of_nat (S k)) by lia.
    apply IH; (assumption || lia).
Qed.

(** The fast path on any terminated buffer. *)
Lemma str_ltrim_ascii_bytes w n r ch :
  Forall (fun b => b <> Byte.x00) w -> 0 < ch <= 127 ->
  head w <> Some (z2b ch) ->
  let str := replicate n (z2b ch) ++ w ++ Byte.x00 :: r in
  str_ltrim str ch = Some (w ++ Byte.x00 :: drop (S (length w)) str).
Proof.
  intros Hw Hch Hhead str.
  unfold str_ltrim, ascii_check, _str_ltrim.
  destruct (Z.leb_spec ch 127); [|lia].
  replace (u8 ch) with ch by (unfold u8; zlia).
  assert (Hy : exists y rest, w ++ Byte.x00 :: r = y :: rest /\ b2z y <> ch).
  { destruct w as [|y w]; cbn [app].
    - eexists _, _. split; [reflexivity|]. change (b2z Byte.x00) with 0. lia.
    - eexists _, _. split; [reflexivity|]. intros E. apply Hhead. cbn. f_equal.
      rewrite <- E. by rewrite z2b_b2z. }
  destruct Hy as (y & rest & Ey & Hy).
  subst str. rewrite Ey.
  rewrite (ltrim_loop_spec ch n y rest _ 0) by (rewrite ?length_app, ?length_replicate; lia).
  cbn [mbind option_bind]. rewrite <- Ey.
  destruct n as [|n].
  - cbn [replicate app]. change (Z.of_nat 0 =? 0) with true. cbn [negb].
    f_equal. f_equal. f_equal.
    replace (S (length w)) with (length w + 1)%nat by lia.
    rewrite <- drop_drop, drop_app_length. reflexivity.
  - destruct (Z.eqb_spec (Z.of_nat (S n)) 0); [lia|]. cbn [negb].
    pose proof (cpy_within_loop_spec (replicate (S n) (z2b ch)) w r
                  (S (length (replicate (S n) (z2b ch) ++ w ++ Byte.x00 :: r))) 0 Hw) as C.
    rewrite length_replicate in C. cbn [take drop app] in C.
    change (Z.of_nat 0) with 0 in C. rewrite Z.add_0_r in C.
    apply C; [lia|lia|]. rewrite !length_app. lia.
Qed.

(** The run of [ch] at the start of the text: [pos] ends behind it. *)
Lemma ltrim_chars_loop_spec ch t post n : forall pre fuel pos,
  Forall (fun c => is_scalar c /\ c <> 0) t -> is_scalar ch -> ch <> 0 ->
  head t <> Some ch ->
  Z.of_nat (length (pre ++ (replicate n ch ≫= utf8_bytes) ++
                    (t ≫= utf8_bytes) ++ 0 :: post)) <= PTRDIFF_MAX ->
  (n < fuel)%nat ->
  ltrim_chars_loop fuel
      (z2b <$> pre ++ (replicate n ch ≫= utf8_bytes) ++
                 (t ≫= utf8_bytes) ++ 0 :: post) ch
      (Z.of_nat (length pre)) pos =
    Some (match n with
          | O => pos
          | S _ => Z.of_nat (length pre) +
                   Z.of_nat (length (replicate n ch ≫= utf8_bytes))
          end).
Proof.
  induction n as [|n IH]; intros pre fuel pos Ht Hch Hch0 Hhead Hlen Hf;
    (destruct fuel as [|fuel]; [lia|]); cbn [ltrim_chars_loop].
  - cbn [replicate mbind list_bind app] in *.
    destruct t as [|c t].
    + cbn [mbind list_bind app] in *.
      pose proof (str_decode_in_string pre 0 post is_scalar_0) as E.
      change (utf8_bytes 0 ++ post) with (0 :: post) in E. rewrite (E Hlen).
      cbn [mbind option_bind Z.eqb negb]. reflexivity.
    + apply Forall_cons in Ht as [[Hc Hc0] Ht]. cbn [mbind list_bind] in *.
      rewrite <- app_assoc in *.
      rewrite str_decode_in_string by assumption.
      cbn [mbind option_bind]. destruct (Z.eqb_spec c 0); [lia|]. cbn [negb].
      destruct (Z.eqb_spec c ch) as [->|_]; [by cbn in Hhead|]. reflexivity.
  - cbn [replicate mbind list_bind] in *. rewrite <- app_assoc in *.
    rewrite str_decode_in_string by assumption.
    cbn [mbind option_bind]. destruct (Z.eqb_spec ch 0); [lia|]. cbn [negb].
    rewrite Z.eqb_refl. cbn [negb].
    rewrite <- Nat2Z.inj_add, <- length_app, (app_assoc pre).
    rewrite IH; [|assumption|assumption|assumption|assumption
                 |rewrite <- app_assoc; exact Hlen|lia].
    f_equal. destruct n.
    + cbn [replicate list_bind]. rewrite app_nil_r, length_app. lia.
    + rewrite !length_app. lia.
Qed.

(** The first byte of text that does not start with the ASCII character
    [ch] is not [ch]. *)
Lemma head_byte_not_ascii t ch :
  Forall (fun c => is_scalar c /\ c <> 0) t -> 0 < ch < 0x80 ->
  head t <> Some ch -> head (z2b <$> (t ≫= utf8_bytes)) <> Some (z2b ch).
Proof.
  intros Ht Hch Hhead. destruct t as [|c t]; [done|].
  apply Forall_cons in Ht as [[[Hr _] _] _]. cbn [mbind list_bind].
  destruct (utf8_bytes_shape c Hr) as (h & tl & E & Hh & _).
  pose proof E as E'. rewrite E. cbn [app fmap list_fmap head].
  intros Heq. injection Heq as Heq. apply (f_equal b2z) in Heq.
  rewrite !b2z_z2b in Heq.
  assert (0 <= h < 256) by lia. rewrite !Z.mod_small in Heq by lia. subst h.
  unfold utf8_bytes in E'. revert E'. case_cmp; intros E'; try (injection E' as E' _; zlia).
  injection E' as ->. by cbn in Hhead.
Qed.

Lemma drop_string_tail t junk :
  drop (S (length (t ≫= utf8_bytes))) (utf8_string t ++ junk) = junk.
Proof.
  unfold utf8_string. rewrite drop_app_length'; [done|].
  rewrite length_fmap, length_app. cbn [length]. lia.
Qed.

(** [str_ltrim] on a well-formed string that starts with [n] times [ch]
    and goes on with [t], which does not start with [ch]: the string left
    is [t], at the start of the buffer; the bytes behind its terminator
    are untouched. *)
Theorem str_ltrim_utf8_string t n ch junk :
  Forall (fun c => is_scalar c /\ c <> 0) t -> is_scalar ch -> ch <> 0 ->
  head t <> Some ch ->
  Z.of_nat (length (utf8_string (replicate n ch ++ t) ++ junk)) <= PTRDIFF_MAX ->
  let str := utf8_string (replicate n ch ++ t) ++ junk in
  str_ltrim str ch =
    Some (utf8_string t ++ drop (S (length (t ≫= utf8_bytes))) str).
Proof.
  intros Ht Hch Hch0 Hhead Hlen str.
  assert (Hpos : 0 < ch) by (unfold is_scalar in Hch; lia).
  assert (Hnz : forall l, Forall (fun c => is_scalar c /\ c <> 0) l ->
                  Forall (fun b => b <> Byte.x00) (z2b <$> (l ≫= utf8_bytes))).
  { clear. intros l Hl. induction Hl as [|c l [Hc Hc0] Hl IH]; [constructor|].
    cbn [mbind list_bind]. rewrite fmap_app. apply Forall_app. split; [|exact IH].
    apply utf8_bytes_no_null. unfold is_scalar in Hc. lia. }
  destruct (Z.leb_spec ch 127) as [Hascii|Hwide].
  - pose proof (str_ltrim_ascii_bytes (z2b <$> (t ≫= utf8_bytes)) n junk ch
                  (Hnz t Ht) ltac:(lia)
                  (head_byte_not_ascii t ch Ht ltac:(lia) Hhead)) as B.
    cbv zeta in B.
    assert (Es : str = replicate n (z2b ch) ++ (z2b <$> (t ≫= utf8_bytes)) ++
                       Byte.x00 :: junk).
    { subst str. unfold utf8_string. rewrite bind_app.
      rewrite bind_replicate_ascii by lia.
      rewrite !fmap_app, fmap_replicate. cbn [fmap list_fmap].
      rewrite <- !app_assoc. reflexivity. }
    rewrite Es, B. unfold utf8_string. rewrite fmap_app, length_fmap.
    cbn [fmap list_fmap]. rewrite <- app_assoc. reflexivity.
  - unfold str_ltrim, ascii_check. destruct (Z.leb_spec ch 127); [lia|].
    set (rb := replicate n ch ≫= utf8_bytes).
    set (tb := t ≫= utf8_bytes).
    assert (Estr : str = z2b <$> ([] ++ rb ++ tb ++ 0 :: (b2z <$> junk))).
    { subst str rb tb. unfold utf8_string. rewrite bind_app.
      rewrite !fmap_app. cbn [fmap list_fmap app]. rewrite fmap_z2b_b2z.
      rewrite <- !app_assoc. reflexivity. }
    assert (Hlen' : Z.of_nat (length ([] ++ rb ++ tb ++ 0 :: (b2z <$> junk)))
                    <= PTRDIFF_MAX).
    { fold str in Hlen. rewrite Estr, length_fmap in Hlen. exact Hlen. }
    assert (Hls : length str = (length rb + length tb + S (length junk))%nat).
    { rewrite Estr, length_fmap. cbn [app]. rewrite !length_app. cbn [length].
      rewrite length_fmap. lia. }
    assert (Hrn : (n <= length rb)%nat).
    { subst rb. clear. induction n as [|n IH]; [cbn; lia|].
      cbn [replicate mbind list_bind]. rewrite length_app.
      pose proof (utf8_bytes_count ch). cbn [length]. lia. }
    assert (Es2 : str = (z2b <$> rb ++ tb) ++ Byte.x00 :: junk).
    { rewrite Estr. cbn [app]. rewrite !fmap_app. cbn [fmap list_fmap].
      rewrite fmap_z2b_b2z, <- app_assoc. reflexivity. }
    assert (Hsz : str_size str = Some (Z.of_nat (length rb + length tb))).
    { rewrite Es2. rewrite str_size_terminated.
      - rewrite length_fmap, length_app. reflexivity.
      - subst rb tb. rewrite <- bind_app. apply Hnz. apply Forall_app.
        split; [|exact Ht]. by apply Forall_replicate.
      - rewrite length_fmap, length_app. unfold SIZE_MOD.
        unfold PTRDIFF_MAX in Hlen. fold str in Hlen. lia. }
    rewrite Hsz. cbn [mbind option_bind].
    assert (Hloop : ltrim_chars_loop (S (length str)) str ch 0 0 =
                    Some (match n with
                          | O => 0
                          | S _ => Z.of_nat (length rb)
                          end)).
    { rewrite Estr at 2.
      etrans; [refine (ltrim_chars_loop_spec ch t (b2z <$> junk) n [] _ 0
                         Ht Hch Hch0 Hhead Hlen' _); lia|].
      destruct n; reflexivity. }
    rewrite Hloop. cbn [mbind option_bind].
    destruct n as [|n].
    + change (0 <? 0) with false. cbv iota. f_equal. subst str tb.
      cbn [replicate app]. by rewrite drop_string_tail.
    + destruct (Z.ltb_spec 0 (Z.of_nat (length rb))); [|lia].
      unfold PTRDIFF_MAX in Hlen. fold str in Hlen.
      rewrite size_sub_small by (unfold SIZE_MOD; lia).
      replace (Z.of_nat (length rb + length tb) - Z.of_nat (length rb))
        with (Z.of_nat (length tb)) by lia.
      unfold memmove_within.
      destruct (Z.leb_spec 0 0); [|lia].
      destruct (Z.leb_spec 0 (Z.of_nat (length rb))); [|lia].
      destruct (Z.leb_spec 0 (Z.of_nat (length tb))); [|lia].
      destruct (Z.leb_spec (0 + Z.of_nat (length tb)) (Z.of_nat (length str))); [|lia].
      destruct (Z.leb_spec (Z.of_nat (length rb) + Z.of_nat (length tb))
                  (Z.of_nat (length str))); [|lia].
      cbn [andb mbind option_bind]. change (Z.to_nat 0) with 0%nat.
      rewrite take_0. cbn [app]. rewrite Z.add_0_l, !Nat2Z.id.
      assert (Emv : take (length tb) (drop (length rb) str) = z2b <$> tb).
      { rewrite Es2, fmap_app, <- app_assoc.
        rewrite drop_app_length' by (by rewrite length_fmap).
        rewrite take_app_length' by (by rewrite length_fmap). reflexivity. }
      rewrite Emv.
      destruct (drop (length tb) str) as [|y rest] eqn:Ed.
      { apply (f_equal length) in Ed. rewrite length_drop in Ed. cbn [length] in Ed. lia. }
      replace (Z.of_nat (length tb)) with (Z.of_nat (length (z2b <$> tb)))
        by (by rewrite length_fmap).
      rewrite store_mid. f_equal. unfold utf8_string. fold tb.
      rewrite fmap_app. cbn [fmap list_fmap]. rewrite <- app_assoc. cbn [app].
      do 2 f_equal. replace (S (length tb)) with (length tb + 1)%nat by lia.
      rewrite <- drop_drop, Ed. reflexivity.
Qed.

Lemma str_ltrim_utf8_string_witness :
  let str := utf8_string (replicate 2 0xE9 ++ [0x61; 0xE9]) ++ [Byte.x37] in
  str_ltrim str 0xE9 =
    Some (utf8_string [0x61; 0xE9] ++
          drop (S (length ([0x61; 0xE9] ≫= utf8_bytes))) str).
Proof.
  apply (str_ltrim_utf8_string [0x61; 0xE9] 2 0xE9 [Byte.x37]).
  - unfold is_scalar. repeat constructor; lia.
  - unfold is_scalar. lia.
  - lia.
  - cbn. discriminate.
  - vm_compute. discriminate.
Defined.

(** ** UTF-16: strings *)

Lemma land_FC00 c : Z.land c 0xFC00 = c mod 65536 / 1024 * 1024.
Proof. exact (land_midmask c 16 10 ltac:(lia)). Qed.

Lemma shiftl_10 x : Z.shiftl x 10 = x * 1024.
Proof. exact (Z.shiftl_mul_pow2 x 10 ltac:(lia)). Qed.

Lemma utf16_to_str_loop_S fuel dest size src idx dest_off rc :
  utf16_to_str_loop (S fuel) dest size src idx dest_off rc =
    u ← load16 src idx;
    if u =? 0 then Some (rc, dest, dest_off)
    else
      let encode (ch idx : Z) :=
        '(rc', dest', dest_off') ← chr_encode ch dest dest_off (size_sub size 1);
        match rc' with
        | EOK => utf16_to_str_loop fuel dest' size src idx dest_off' rc'
        | _ => Some (rc', dest', dest_off')
        end in
      if Z.land u 0xFC00 =? 0xD800 then
        u2 ← load16 src (size_add idx 1);
        if negb (u2 =? 0) && (Z.land u2 0xFC00 =? 0xDC00) then
          encode (u32 (u32 (0x10000 + Z.shiftl (Z.land u 0x03FF) 10) +
                       Z.land u2 0x03FF))
                 (size_add idx 2)
        else Some (rc, dest, dest_off)
      else encode u (size_add idx 1).
Proof. reflexivity. Qed.

Lemma load16_mid (done : list Z) x rest :
  load16 (done ++ x :: rest) (Z.of_nat (length done)) = Some (u16 x).
Proof.
  unfold load16. destruct (Z.ltb_spec (Z.of_nat (length done)) 0); [lia|].
  rewrite Nat2Z.id, lookup_app_r by lia. rewrite Nat.sub_diag. reflexivity.
Qed.

Lemma store16_splice (dest : list Z) (di : nat) v :
  (di < length dest)%nat ->
  store16 dest (Z.of_nat di) v =
    Some (take di dest ++ [u16 v] ++ drop (di + 1) dest).
Proof.
  intros Hdi. rewrite store16_Some by lia. rewrite Nat2Z.id. f_equal.
  rewrite insert_take_drop by lia. cbn [app].
  replace (di + 1)%nat with (S di) by lia. reflexivity.
Qed.

Lemma utf16_units_count c : (1 <= length (utf16_units c) <= 2)%nat.
Proof. unfold utf16_units. destruct (c <? 0x10000); simpl; lia. Qed.

Lemma splice_length {A} (dest e : list A) (a : nat) :
  (a + length e <= length dest)%nat ->
  length (take a dest ++ e ++ drop (a + length e) dest) = length dest.
Proof. intros H. rewrite !length_app, length_take, length_drop. lia. Qed.

(** The decoding loop on the UTF-16 encoding of scalars, with room for
    their UTF-8 encodings. *)
Lemma utf16_to_str_loop_string l : forall done rest fuel dest size (off : nat),
  Forall (fun c => is_scalar c /\ c <> 0) l ->
  Z.of_nat off + Z.of_nat (length (l ≫= utf8_bytes)) <= size - 1 ->
  size <= Z.of_nat (length dest) -> Z.of_nat (length dest) <= PTRDIFF_MAX ->
  Z.of_nat (length (done ++ (l ≫= utf16_units) ++ 0 :: rest)) < SIZE_MOD ->
  (length (l ≫= utf16_units) < fuel)%nat ->
  utf16_to_str_loop fuel dest size (done ++ (l ≫= utf16_units) ++ 0 :: rest)
      (Z.of_nat (length done)) (Z.of_nat off) EOK =
    Some (EOK,
          take off dest ++ (z2b <$> (l ≫= utf8_bytes)) ++
            drop (off + length (l ≫= utf8_bytes)) dest,
          Z.of_nat off + Z.of_nat (length (l ≫= utf8_bytes))).
Proof.
  induction l as [|c l IH]; intros done rest fuel dest size off Hl Hroom Hsize
    Hdest Hsrc Hf; (destruct fuel as [|fuel]; [cbn in Hf; lia|]);
    rewrite utf16_to_str_loop_S.
  - cbn [mbind list_bind app length] in *. rewrite load16_mid.
    cbn [mbind option_bind]. change (u16 0 =? 0) with true. cbv iota.
    cbn [fmap list_fmap app]. rewrite Nat.add_0_r, take_drop, Z.add_0_r. reflexivity.
  - apply Forall_cons in Hl as [[Hsc Hc0] Hl]. pose proof Hsc as [Hc Hsur].
    cbn [mbind list_bind] in *. rewrite <- !app_assoc in *.
    rewrite length_app in Hroom.
    pose proof (utf8_bytes_count c) as Hn.
    pose proof (utf16_units_count c) as Hu.
    unfold PTRDIFF_MAX in Hdest.
    assert (Hsub : size_sub size 1 = size - 1)
      by (apply size_sub_small; unfold SIZE_MOD; lia).
    assert (Henc : chr_encode c dest (Z.of_nat off) (size - 1) =
              Some (EOK,
                    take off dest ++ (z2b <$> utf8_bytes c) ++
                      drop (off + length (utf8_bytes c)) dest,
                    Z.of_nat off + Z.of_nat (length (utf8_bytes c)))).
    { rewrite chr_encode_list by (unfold PTRDIFF_MAX; lia).
      rewrite Nat2Z.id. reflexivity. }
    set (dest1 := take off dest ++ (z2b <$> utf8_bytes c) ++
                    drop (off + length (utf8_bytes c)) dest) in *.
    assert (Hl1 : length dest1 = length dest).
    { subst dest1. rewrite <- (length_fmap z2b (utf8_bytes c)).
      apply splice_length. rewrite length_fmap. lia. }
    assert (Hfin : forall fuel' idx',
      idx' = Z.of_nat (length (done ++ utf16_units c)) ->
      (length (l ≫= utf16_units) < fuel')%nat ->
      utf16_to_str_loop fuel' dest1 size
          (done ++ utf16_units c ++ (l ≫= utf16_units) ++ 0 :: rest) idx'
          (Z.of_nat off + Z.of_nat (length (utf8_bytes c))) EOK =
        Some (EOK,
              take off dest ++ (z2b <$> utf8_bytes c ++ (l ≫= utf8_bytes)) ++
                drop (off + length (utf8_bytes c ++ (l ≫= utf8_bytes))) dest,
              Z.of_nat off +
              Z.of_nat (length (utf8_bytes c ++ (l ≫= utf8_bytes))))).
    { intros fuel' idx' -> Hf'.
      rewrite <- Nat2Z.inj_add, (app_assoc done).
      rewrite IH; [|assumption|lia|lia|unfold PTRDIFF_MAX; lia
                   |rewrite <- app_assoc; exact Hsrc|exact Hf'].
      f_equal. f_equal; [|rewrite length_app; lia].
      subst dest1.
      pose proof (splice_splice dest (z2b <$> utf8_bytes c)
                    (z2b <$> (l ≫= utf8_bytes)) off ltac:(lia)) as S.
      rewrite !length_fmap in S. rewrite S.
      rewrite fmap_app, length_app. reflexivity. }
    assert (Hsm : Z.of_nat (length done) + 2 < SIZE_MOD).
    { rewrite !length_app in Hsrc. cbn [length] in Hsrc. lia. }
    destruct (Z.ltb_spec c 0x10000) as [Hbmp|Hsup].
    + assert (E16 : utf16_units c = [c]).
      { unfold utf16_units. destruct (Z.ltb_spec c 0x10000); [reflexivity|lia]. }
      rewrite E16 in *. cbn [app]. rewrite load16_mid. cbn [mbind option_bind].
      assert (Eu : u16 c = c) by (unfold u16; zlia). rewrite Eu.
      destruct (Z.eqb_spec c 0); [lia|].
      rewrite land_FC00.
      destruct (Z.eqb_spec (c mod 65536 / 1024 * 1024) 0xD800) as [E|_]; [zlia|].
      cbv zeta. rewrite Hsub, Henc. cbn [mbind option_bind].
      apply Hfin; [|cbn [length app] in Hf; lia].
      rewrite size_add_small, length_app by lia. cbn [length]. lia.
    + set (hi := 0xD800 + (c - 0x10000) / 1024).
      set (lo := 0xDC00 + (c - 0x10000) mod 1024).
      assert (E16 : utf16_units c = [hi; lo]).
      { unfold utf16_units. destruct (Z.ltb_spec c 0x10000); [lia|reflexivity]. }
      rewrite E16 in *. cbn [app]. rewrite load16_mid. cbn [mbind option_bind].
      assert (Ehi : u16 hi = hi) by (subst hi; unfold u16; zlia).
      assert (Elo : u16 lo = lo) by (subst lo; unfold u16; zlia).
      rewrite Ehi.
      destruct (Z.eqb_spec hi 0); [subst hi; zlia|].
      rewrite land_FC00.
      destruct (Z.eqb_spec (hi mod 65536 / 1024 * 1024) 0xD800) as [_|E];
        [|subst hi; zlia].
      rewrite (size_add_small _ 1), (size_add_small _ 2) by lia.
      assert (L2 : load16 (done ++ hi :: lo :: (l ≫= utf16_units) ++ 0 :: rest)
                     (Z.of_nat (length done) + 1) = Some lo).
      { change (done ++ hi :: lo :: (l ≫= utf16_units) ++ 0 :: rest)
          with (done ++ [hi] ++ lo :: (l ≫= utf16_units) ++ 0 :: rest).
        rewrite app_assoc.
        replace (Z.of_nat (length done) + 1)
          with (Z.of_nat (length (done ++ [hi])))
          by (rewrite length_app; cbn [length]; lia).
        rewrite load16_mid. by rewrite Elo. }
      rewrite L2. cbn [mbind option_bind].
      destruct (Z.eqb_spec lo 0); [subst lo; zlia|].
      rewrite land_FC00.
      destruct (Z.eqb_spec (lo mod 65536 / 1024 * 1024) 0xDC00) as [_|E];
        [|subst lo; zlia].
      cbn [negb andb]. cbv zeta.
      assert (Ech : u32 (u32 (0x10000 + Z.shiftl (Z.land hi 0x03FF) 10) +
                         Z.land lo 0x03FF) = c).
      { rewrite !land_3FF, shiftl_10. subst hi lo. unfold u32. zlia. }
      rewrite Ech, Hsub, Henc. cbn [mbind option_bind].
      apply Hfin; [|cbn [length app] in Hf; lia].
      rewrite length_app. cbn [length]. lia.
Qed.

(** The encoding loop on a well-formed string whose UTF-16 encoding fits
    with two units to spare. *)
Lemma to_utf16_loop_string l : forall pre post fuel (dest : list Z) dlen (di : nat),
  Forall (fun c => is_scalar c /\ c <> 0 /\ c <> 0x10000) l ->
  Z.of_nat (length (pre ++ (l ≫= utf8_bytes) ++ 0 :: post)) <= PTRDIFF_MAX ->
  Z.of_nat di + Z.of_nat (length (l ≫= utf16_units)) + 2 <= dlen ->
  dlen <= Z.of_nat (length dest) -> Z.of_nat (length dest) < SIZE_MOD ->
  (length l < fuel)%nat ->
  to_utf16_loop fuel dest dlen (z2b <$> pre ++ (l ≫= utf8_bytes) ++ 0 :: post)
      (Z.of_nat (length pre)) (Z.of_nat di) =
    Some (EOK,
          take di dest ++ ((l ≫= utf16_units) ++ [0]) ++
            drop (di + length ((l ≫= utf16_units) ++ [0])) dest).
Proof.
  induction l as [|c l IH]; intros pre post fuel dest dlen di Hl Hlen Hroom
    Hdlen Hdest Hf; (destruct fuel as [|fuel]; [cbn in Hf; lia|]);
    rewrite to_utf16_loop_S.
  - cbn [mbind list_bind app length] in *.
    pose proof (str_decode_in_string pre 0 post is_scalar_0) as E.
    change (utf8_bytes 0 ++ post) with (0 :: post) in E. rewrite (E Hlen).
    cbn [mbind option_bind Z.eqb]. rewrite store16_splice by lia.
    cbn [mbind option_bind]. reflexivity.
  - apply Forall_cons in Hl as [(Hsc & Hc0 & Hc1) Hl]. pose proof Hsc as [Hc Hsur].
    cbn [mbind list_bind] in *. rewrite <- (app_assoc (utf8_bytes c)) in *.
    rewrite str_decode_in_string by assumption.
    cbn [mbind option_bind]. cbv zeta.
    destruct (Z.eqb_spec c 0); [lia|].
    rewrite length_app in Hroom.
    pose proof (utf16_units_count c) as Hu.
    unfold SIZE_MOD in Hdest.
    assert (Hsub : size_sub dlen 1 = dlen - 1)
      by (apply size_sub_small; unfold SIZE_MOD; lia).
    assert (A1 : size_add (Z.of_nat di) 1 = Z.of_nat (di + 1))
      by (rewrite size_add_small by (unfold SIZE_MOD; lia); lia).
    assert (A2 : size_add (Z.of_nat di) 2 = Z.of_nat (di + 2))
      by (rewrite size_add_small by (unfold SIZE_MOD; lia); lia).
    assert (A3 : size_add (Z.of_nat (di + 1)) 1 = Z.of_nat (di + 2))
      by (rewrite size_add_small by (unfold SIZE_MOD; lia); lia).
    rewrite !Hsub, ?A2, ?A1, ?A3.
    assert (Hfin : forall dest1,
      dest1 = take di dest ++ utf16_units c ++
                drop (di + length (utf16_units c)) dest ->
      to_utf16_loop fuel dest1 dlen
          (z2b <$> pre ++ utf8_bytes c ++ (l ≫= utf8_bytes) ++ 0 :: post)
          (Z.of_nat (length pre) + Z.of_nat (length (utf8_bytes c)))
          (Z.of_nat (di + length (utf16_units c))) =
        Some (EOK,
              take di dest ++ ((utf16_units c ++ (l ≫= utf16_units)) ++ [0]) ++
                drop (di + length ((utf16_units c ++ (l ≫= utf16_units)) ++ [0]))
                  dest)).
    { intros dest1 ->.
      assert (Hl1 : length (take di dest ++ utf16_units c ++
                      drop (di + length (utf16_units c)) dest) = length dest)
        by (apply splice_length; lia).
      rewrite <- Nat2Z.inj_add, <- length_app, (app_assoc pre).
      rewrite IH; [|assumption|rewrite <- app_assoc; exact Hlen|lia
                   |rewrite Hl1; lia|rewrite Hl1; unfold SIZE_MOD; lia
                   |cbn [length] in Hf; lia].
      f_equal. f_equal.
      pose proof (splice_splice dest (utf16_units c) ((l ≫= utf16_units) ++ [0])
                    di ltac:(lia)) as S.
      rewrite S. rewrite (app_assoc (utf16_units c)).
      do 3 f_equal. rewrite !length_app. cbn [length]. lia. }
    destruct (Z.ltb_spec 0x10000 c) as [Hsup|Hbmp].
    + set (hi := 0xD800 + (c - 0x10000) / 1024).
      set (lo := 0xDC00 + (c - 0x10000) mod 1024).
      assert (E16 : utf16_units c = [hi; lo]).
      { unfold utf16_units. destruct (Z.ltb_spec c 0x10000); [lia|reflexivity]. }
      rewrite E16 in *. cbn [length] in *.
      destruct (Z.leb_spec (dlen - 1) (Z.of_nat (di + 2))); [lia|].
      assert (Eu : u32 (c - 65536) = c - 65536) by (unfold u32; zlia).
      rewrite Eu. autorewrite with bits.
      rewrite (lor_add_disjoint 0xD800 _ 11) by zlia.
      rewrite (lor_add_disjoint 0xDC00 _ 10) by zlia.
      fold hi lo.
      assert (Ehi : u16 hi = hi) by (subst hi; unfold u16; zlia).
      assert (Elo : u16 lo = lo) by (subst lo; unfold u16; zlia).
      rewrite store16_splice by lia. cbn [mbind option_bind]. rewrite Ehi.
      rewrite store16_splice
        by (rewrite !length_app, length_take, length_drop; cbn [length]; lia).
      cbn [mbind option_bind]. rewrite Elo.
      apply Hfin.
      pose proof (splice_splice dest [hi] [lo] di ltac:(lia)) as S.
      cbn [length app] in S. replace (di + (1 + 1))%nat with (di + 2)%nat in S by lia.
      exact S.
    + assert (E16 : utf16_units c = [c]).
      { unfold utf16_units. destruct (Z.ltb_spec c 0x10000); [reflexivity|lia]. }
      rewrite E16 in *. cbn [length] in *.
      assert (Eu : u16 c = c) by (unfold u16; zlia).
      rewrite store16_splice by lia. cbn [mbind option_bind]. rewrite Eu.
      destruct (Z.leb_spec (dlen - 1) (Z.of_nat (di + 1))); [lia|].
      apply Hfin. reflexivity.
Qed.

(** From a well-formed string to UTF-16 and back.  [str_to_utf16] returns
    [EOK] when the units and the terminator fit with one unit to spare;
    [utf16_to_str] then gives the string back.  The scalar 0x10000 is left
    out: [str_to_utf16] does not make a surrogate pair of it. *)
Theorem str_utf16_roundtrip l junk wdest dlen dest size :
  Forall (fun c => is_scalar c /\ c <> 0 /\ c <> 0x10000) l ->
  Z.of_nat (length (utf8_string l ++ junk)) <= PTRDIFF_MAX ->
  Z.of_nat (length (l ≫= utf16_units)) + 2 <= dlen ->
  dlen <= Z.of_nat (length wdest) -> Z.of_nat (length wdest) < SIZE_MOD ->
  Z.of_nat (length (l ≫= utf8_bytes)) < size ->
  size <= Z.of_nat (length dest) -> Z.of_nat (length dest) <= PTRDIFF_MAX ->
  exists u,
    str_to_utf16 wdest dlen (utf8_string l ++ junk) = Some (EOK, u) /\
    length u = length wdest /\
    take (S (length (l ≫= utf16_units))) u = (l ≫= utf16_units) ++ [0] /\
    utf16_to_str dest size u =
      Some (EOK, utf8_string l ++ drop (S (length (l ≫= utf8_bytes))) dest).
Proof.
  intros Hl Hlen Hroom Hdlen Hwdest Hsize Hcap Hdest.
  set (U := l ≫= utf16_units) in *.
  set (B := l ≫= utf8_bytes) in *.
  assert (Esrc : utf8_string l ++ junk = z2b <$> [] ++ B ++ 0 :: (b2z <$> junk)).
  { unfold utf8_string. fold B. rewrite !fmap_app. cbn [fmap list_fmap app].
    rewrite fmap_z2b_b2z, <- app_assoc. reflexivity. }
  assert (Hlen' : Z.of_nat (length ([] ++ B ++ 0 :: (b2z <$> junk))) <= PTRDIFF_MAX).
  { rewrite Esrc, length_fmap in Hlen. exact Hlen. }
  assert (Hcount : (length l <= length B)%nat).
  { subst B. clear. induction l as [|c l IH]; [cbn; lia|].
    cbn [mbind list_bind]. rewrite length_app.
    pose proof (utf8_bytes_count c). cbn [length]. lia. }
  set (u := (U ++ [0]) ++ drop (length (U ++ [0])) wdest).
  assert (Hlu : length (U ++ [0]) = S (length U))
    by (rewrite length_app; cbn [length]; lia).
  assert (Hu : length u = length wdest).
  { subst u. rewrite length_app, length_drop. lia. }
  exists u. split; [|split; [exact Hu|split]].
  - unfold str_to_utf16. rewrite Esrc.
    etrans; [refine (to_utf16_loop_string l [] (b2z <$> junk) _ wdest dlen 0
                       Hl Hlen' _ Hdlen Hwdest _)|reflexivity].
    + change (Z.of_nat 0) with 0. fold U. lia.
    + rewrite length_fmap. cbn [app]. rewrite length_app. cbn [length]. lia.
  - subst u. rewrite <- Hlu. by rewrite take_app_length.
  - unfold utf16_to_str.
    assert (Eu : u = [] ++ U ++ 0 :: drop (length (U ++ [0])) wdest).
    { subst u. rewrite <- app_assoc. reflexivity. }
    assert (Hloop : utf16_to_str_loop (S (length u)) dest size u 0 0 EOK =
              Some (EOK, take 0 dest ++ (z2b <$> B) ++ drop (0 + length B) dest,
                    Z.of_nat 0 + Z.of_nat (length B))).
    { rewrite Eu at 2.
      refine (utf16_to_str_loop_string l [] _ _ dest size 0 _ _ Hcap Hdest _ _).
      - eapply Forall_impl; [exact Hl|]. cbn. tauto.
      - change (Z.of_nat 0) with 0. fold B. lia.
      - cbn [app]. rewrite length_app. cbn [length]. rewrite length_drop.
        fold U. rewrite Hlu. lia.
      - fold U. lia. }
    rewrite Hloop. cbn [mbind option_bind]. rewrite take_0. cbn [app].
    change (Z.of_nat 0 + ?x) with x. rewrite Nat.add_0_l.
    destruct (drop (length B) dest) as [|y rest] eqn:Ed.
    { apply (f_equal length) in Ed. rewrite length_drop in Ed. cbn [length] in Ed. lia. }
    replace (Z.of_nat (length B)) with (Z.of_nat (length (z2b <$> B)))
      by (by rewrite length_fmap).
    rewrite store_mid. cbn [mbind option_bind]. do 2 f_equal.
    unfold utf8_string. fold B. rewrite fmap_app. cbn [fmap list_fmap].
    rewrite <- app_assoc. cbn [app]. do 2 f_equal.
    replace (S (length B)) with (length B + 1)%nat by lia.
    rewrite <- drop_drop, Ed. reflexivity.
Qed.

Lemma str_utf16_roundtrip_witness :
  exists u,
    str_to_utf16 (replicate 6 0xFFFF) 6 (utf8_string [0x61; 0x1F600; 0x20AC] ++ []) =
      Some (EOK, u) /\
    length u = length (replicate 6 0xFFFF) /\
    take (S (length ([0x61; 0x1F600; 0x20AC] ≫= utf16_units))) u =
      ([0x61; 0x1F600; 0x20AC] ≫= utf16_units) ++ [0] /\
    utf16_to_str (replicate 10 Byte.xff) 9 u =
      Some (EOK, utf8_string [0x61; 0x1F600; 0x20AC] ++
                 drop (S (length ([0x61; 0x1F600; 0x20AC] ≫= utf8_bytes)))
                   (replicate 10 Byte.xff)).
Proof.
  apply (str_utf16_roundtrip [0x61; 0x1F600; 0x20AC] [] (replicate 6 0xFFFF) 6
           (replicate 10 Byte.xff) 9).
  - unfold is_scalar. repeat constructor; lia.
  - vm_compute. discriminate.
  - vm_compute. discriminate.
  - vm_compute. discriminate.
  - vm_compute. reflexivity.
  - vm_compute. reflexivity.
  - vm_compute. discriminate.
  - vm_compute. discriminate.
Defined.

(** ** The suffix behind a prefix *)

Lemma str_decode_off_end s off :
  Z.of_nat (length s) <= off -> off < STR_NO_LIMIT ->
  str_decode s off STR_NO_LIMIT = None.
Proof.
  intros H1 H2. unfold str_decode, _str_decode.
  destruct (Z.eqb_spec off STR_NO_LIMIT) as [e|_];
    [exfalso; unfold STR_NO_LIMIT, SIZE_MAX, SIZE_MOD in *; lia|].
  cbn [state mb_clean]. rewrite Z.eqb_refl, (load_None s off) by lia. reflexivity.
Qed.

(** The loop runs [max 1 (prefix_length - i)] times: over that many
    characters, over the terminator if the text ends, and beyond it. *)
Lemma suffix_loop_string l : forall pre post fuel n i,
  Forall (fun c => is_scalar c /\ c <> 0) l ->
  Z.of_nat (length (pre ++ (l ≫= utf8_bytes) ++ 0 :: post)) <= PTRDIFF_MAX ->
  0 <= i -> i + Z.of_nat (length l) + 2 < SIZE_MOD ->
  (length l + 1 < fuel)%nat ->
  let k := Z.max 1 (n - i) in
  (k <= Z.of_nat (length l) ->
   suffix_loop fuel (z2b <$> pre ++ (l ≫= utf8_bytes) ++ 0 :: post) n
       (Z.of_nat (length pre)) i =
     Some (Z.of_nat (length pre) +
           Z.of_nat (length (take (Z.to_nat k) l ≫= utf8_bytes)))) /\
  (k = Z.of_nat (length l) + 1 ->
   suffix_loop fuel (z2b <$> pre ++ (l ≫= utf8_bytes) ++ 0 :: post) n
       (Z.of_nat (length pre)) i =
     Some (Z.of_nat (length pre) + Z.of_nat (length (l ≫= utf8_bytes)) + 1)) /\
  (Z.of_nat (length l) + 1 < k -> post = [] ->
   suffix_loop fuel (z2b <$> pre ++ (l ≫= utf8_bytes) ++ 0 :: post) n
       (Z.of_nat (length pre)) i = None).
Proof.
  induction l as [|c l IH]; intros pre post fuel n i Hl Hlen Hi Hov Hf k;
    (destruct fuel as [|fuel]; [cbn in Hf; lia|]); cbn [suffix_loop].
  - cbn [mbind list_bind app length] in *.
    pose proof (str_decode_in_string pre 0 post is_scalar_0) as E.
    change (utf8_bytes 0 ++ post) with (0 :: post) in E. rewrite (E Hlen).
    cbn [mbind option_bind]. cbv zeta.
    rewrite size_add_small by lia.
    change (Z.of_nat (length (utf8_bytes 0))) with 1.
    split; [lia|]. split.
    + intros Hk. destruct (Z.leb_spec n (i + 1)); [|lia]. f_equal. lia.
    + intros Hk ->. destruct (Z.leb_spec n (i + 1)); [lia|].
      destruct fuel as [|fuel]; [lia|]. cbn [suffix_loop].
      rewrite str_decode_off_end; [reflexivity| |].
      * rewrite length_fmap, length_app. cbn [length]. lia.
      * rewrite length_app in Hlen. cbn [length] in Hlen.
        unfold PTRDIFF_MAX in Hlen. unfold STR_NO_LIMIT, SIZE_MAX, SIZE_MOD. lia.
  - apply Forall_cons in Hl as [[Hc Hc0] Hl]. cbn [mbind list_bind] in *.
    rewrite <- (app_assoc (utf8_bytes c)) in *.
    rewrite str_decode_in_string by assumption.
    cbn [mbind option_bind]. cbv zeta. cbn [length] in *.
    rewrite size_add_small by lia.
    rewrite <- Nat2Z.inj_add, <- length_app, (app_assoc pre).
    destruct (IH (pre ++ utf8_bytes c) post fuel n (i + 1) Hl) as (I1 & I2 & I3);
      [rewrite <- app_assoc; exact Hlen|lia|lia|lia|].
    destruct (Z.leb_spec n (i + 1)) as [Hdone|Hmore].
    + split; [|split]; [|lia|lia]. intros _.
      replace (Z.to_nat k) with 1%nat by lia.
      cbn [take mbind list_bind]. rewrite app_nil_r, length_app. f_equal. lia.
    + replace (Z.max 1 (n - (i + 1))) with (k - 1) in * by lia.
      split; [|split].
      * intros Hk. rewrite I1 by lia. f_equal.
        replace (Z.to_nat k) with (S (Z.to_nat (k - 1))) by lia.
        cbn [take mbind list_bind]. rewrite !length_app. lia.
      * intros Hk. rewrite I2 by lia. f_equal. rewrite !length_app. lia.
      * intros Hk Hp. apply I3; [lia|exact Hp].
Qed.

(** [str_suffix] on a well-formed string: the offset behind the first
    [prefix_length] characters.  The loop body runs before the test, so a
    prefix length of 0 skips one character as a prefix length of 1 does;
    and the loop does not stop at the terminator: a prefix length of one
    more than the length steps over the terminator, a greater one reads
    on behind it. *)
Theorem str_suffix_utf8_string l prefix_length junk :
  Forall (fun c => is_scalar c /\ c <> 0) l ->
  Z.of_nat (length (utf8_string l ++ junk)) <= PTRDIFF_MAX ->
  0 <= prefix_length ->
  let k := Z.max 1 prefix_length in
  (k <= Z.of_nat (length l) ->
   str_suffix (utf8_string l ++ junk) prefix_length =
     Some (Z.of_nat (length (take (Z.to_nat k) l ≫= utf8_bytes)))) /\
  (k = Z.of_nat (length l) + 1 ->
   str_suffix (utf8_string l ++ junk) prefix_length =
     Some (Z.of_nat (length (l ≫= utf8_bytes)) + 1)) /\
  (Z.of_nat (length l) + 1 < k ->
   str_suffix (utf8_string l) prefix_length = None).
Proof.
  intros Hl Hlen Hn k.
  assert (Hcount : (length l <= length (l ≫= utf8_bytes))%nat).
  { clear. induction l as [|c l IH]; [cbn; lia|].
    cbn [mbind list_bind]. rewrite length_app.
    pose proof (utf8_bytes_count c). cbn [length]. lia. }
  assert (Esrc : forall junk, utf8_string l ++ junk =
            z2b <$> [] ++ (l ≫= utf8_bytes) ++ 0 :: (b2z <$> junk)).
  { intros j. unfold utf8_string. rewrite !fmap_app. cbn [fmap list_fmap app].
    rewrite fmap_z2b_b2z, <- app_assoc. reflexivity. }
  assert (Hll : forall junk, length (utf8_string l ++ junk) =
            (length (l ≫= utf8_bytes) + 1 + length junk)%nat).
  { intros j. unfold utf8_string. rewrite !length_app, length_fmap, length_app.
    cbn [length]. lia. }
  pose proof (Hll junk) as Hlj. unfold PTRDIFF_MAX in Hlen.
  assert (Hgen : forall junk,
    (length (utf8_string l ++ junk) <= length (utf8_string l ++ junk))%nat ->
    Z.of_nat (length (utf8_string l ++ junk)) <= PTRDIFF_MAX ->
    (k <= Z.of_nat (length l) ->
     str_suffix (utf8_string l ++ junk) prefix_length =
       Some (Z.of_nat (length (take (Z.to_nat k) l ≫= utf8_bytes)))) /\
    (k = Z.of_nat (length l) + 1 ->
     str_suffix (utf8_string l ++ junk) prefix_length =
       Some (Z.of_nat (length (l ≫= utf8_bytes)) + 1)) /\
    (Z.of_nat (length l) + 1 < k -> junk = [] ->
     str_suffix (utf8_string l ++ junk) prefix_length = None)).
  { intros j _ Hj. unfold str_suffix.
    pose proof (suffix_loop_string l [] (b2z <$> j)
                  (S (length (utf8_string l ++ j))) prefix_length 0 Hl) as L.
    cbv zeta in L. rewrite Z.sub_0_r in L. fold k in L.
    rewrite <- Esrc in L. change (Z.of_nat (@length Z [])) with 0 in L.
    destruct L as (L1 & L2 & L3).
    - rewrite Esrc, length_fmap in Hj. exact Hj.
    - lia.
    - pose proof (Hll j). unfold PTRDIFF_MAX in Hj. unfold SIZE_MOD. lia.
    - pose proof (Hll j). lia.
    - split; [|split].
      + intros Hk. rewrite L1 by exact Hk. f_equal.
      + intros Hk. rewrite L2 by exact Hk. f_equal.
      + intros Hk ->. apply L3; [exact Hk|reflexivity]. }
  destruct (Hgen junk (le_n _)) as (G1 & G2 & _); [unfold PTRDIFF_MAX; lia|].
  split; [exact G1|]. split; [exact G2|].
  intros Hk. destruct (Hgen [] (le_n _)) as (_ & _ & G3).
  - pose proof (Hll []) as H0. cbn [length] in H0. unfold PTRDIFF_MAX. lia.
  - rewrite app_nil_r in G3. by apply G3.
Qed.

Lemma str_suffix_utf8_string_witness :
  let k := Z.max 1 0 in
  (k <= Z.of_nat (length [0xE9; 0x61]) ->
   str_suffix (utf8_string [0xE9; 0x61] ++ [Byte.x37]) 0 =
     Some (Z.of_nat (length (take (Z.to_nat k) [0xE9; 0x61] ≫= utf8_bytes)))) /\
  (k = Z.of_nat (length [0xE9; 0x61]) + 1 ->
   str_suffix (utf8_string [0xE9; 0x61] ++ [Byte.x37]) 0 =
     Some (Z.of_nat (length ([0xE9; 0x61] ≫= utf8_bytes)) + 1)) /\
  (Z.of_nat (length [0xE9; 0x61]) + 1 < k ->
   str_suffix (utf8_string [0xE9; 0x61]) 0 = None).
Proof.
  apply (str_suffix_utf8_string [0xE9; 0x61] 0 [Byte.x37]).
  - unfold is_scalar. repeat constructor; lia.
  - vm_compute. discriminate.
  - lia.
Defined.
